(** * image-specs: header decoders over a bounds-checked byte cursor

    A shallow embedding of the TypeScript sources

      - [src/utils/buffer-reader.ts]   (class [BufferReader])
      - [src/utils/image-utils.ts]     ([getPNGChannels])
      - [src/utils/color-space.ts]     ([getColorSpaceFromString], [getColorSpaceFromTag])
      - [src/utils/detector.ts]        ([detectFormat], [mightBeImage], ...)
      - [src/parsers/{jpeg,png,gif,webp,bmp,ico,avif,svg}.ts]
      - [src/parsers/index.ts]         ([parseImage])

    Conventions.
      - A Node [Buffer] is a [list byte]; a byte's numeric value is [byteVal].
      - A JavaScript string is the list of its UTF-16 code units ([JSString]).
      - Integer-valued JavaScript numbers that the decoders read and add up
        (all below 2^53) are [Z]; numbers that go through floating-point
        arithmetic, and the numeric fields of a [ParseResult], are binary64
        [float]s.
      - A call either returns, throws an [Error], or does not terminate:
        [Outcome].  Loops whose trip count the source does not bound run on a
        budget of iterations; an exhausted budget is [Hang]. *)

From Stdlib Require Import String Ascii.
From Stdlib Require Import ZArith List Bool Lia Floats.
From Stdlib Require Import Strings.Byte.
Import ListNotations.
Local Open Scope Z_scope.
Set Warnings "-inexact-float".

(* ================================================================== *)
(** * JavaScript values *)
(* ================================================================== *)

Definition Buffer := list byte.

Definition byteVal (b : byte) : Z := Z.of_N (Byte.to_N b).

(** UTF-16 code units. *)
Definition JSString := list Z.

(** A string literal of the source (all of them are ASCII). *)
Definition js (s : string) : JSString := map byteVal (list_byte_of_string s).

Fixpoint jstr_eqb (a b : JSString) : bool :=
  match a, b with
  | [], [] => true
  | x :: a', y :: b' => (x =? y) && jstr_eqb a' b'
  | _, _ => false
  end.

(** [s.startsWith(p)] *)
Fixpoint startsWith (s p : JSString) : bool :=
  match p, s with
  | [], _ => true
  | y :: p', x :: s' => (x =? y) && startsWith s' p'
  | _ :: _, [] => false
  end.

(** [s.includes(p)] *)
Fixpoint includes (s p : JSString) : bool :=
  startsWith s p ||
  match s with
  | [] => false
  | _ :: s' => includes s' p
  end.

(** Truthiness of [string | undefined] and of [number]. *)
Definition truthyS (o : option JSString) : bool :=
  match o with
  | Some (_ :: _) => true
  | _ => false
  end.

Definition truthyZ (z : Z) : bool := negb (z =? 0).

(** ** Numbers *)

(** The binary64 value of an integer (exact below 2^53). *)
Definition Z2F (z : Z) : float := SF2Prim (binary_normalize prec emax z 0 false).

(** [Math.round]: nearest integer, ties towards +infinity; NaN, the
    infinities and the zeros are fixed; a negative argument that rounds
    to zero gives -0. *)
Definition Math_round (x : float) : float :=
  match Prim2SF x with
  | S754_finite s m e =>
      if 0 <=? e then x
      else
        let d := 2 ^ (- e) in
        let num := if s then Z.neg m else Z.pos m in
        let n := (2 * num + d) / (2 * d) in
        if (n =? 0) && s then neg_zero else Z2F n
  | _ => x
  end.

(** [x > 0] on numbers. *)
Definition F_gt0 (x : float) : bool := PrimFloat.ltb 0%float x.

(** ** 32-bit integer operators *)

Definition ToInt32 (z : Z) : Z := (z + 2 ^ 31) mod 2 ^ 32 - 2 ^ 31.
Definition ToUint32 (z : Z) : Z := z mod 2 ^ 32.

(** [a & b], [a | b], [~a], [a >> n], [a >>> n] *)
Definition js_and (a b : Z) : Z := Z.land (ToInt32 a) (ToInt32 b).
Definition js_or (a b : Z) : Z := Z.lor (ToInt32 a) (ToInt32 b).
Definition js_not (a : Z) : Z := - ToInt32 a - 1.
Definition js_shl (a n : Z) : Z := ToInt32 (Z.shiftl (ToInt32 a) (n mod 32)).
Definition js_shr (a n : Z) : Z := Z.shiftr (ToInt32 a) (n mod 32).
Definition js_ushr (a n : Z) : Z := Z.shiftr (ToUint32 a) (n mod 32).

(* ================================================================== *)
(** * Outcomes of a call *)
(* ================================================================== *)

Inductive Outcome (A : Type) : Type :=
| Ret (a : A)            (* normal completion *)
| Throw (msg : string)   (* an exception leaves the call *)
| Hang.                  (* the iteration budget ran out *)

Arguments Ret {A} a.
Arguments Throw {A} msg.
Arguments Hang {A}.

(* ================================================================== *)
(** * Node's Buffer methods used by the sources *)
(* ================================================================== *)

Definition blength (buf : Buffer) : Z := Z.of_nat (length buf).

(** [buf[i]]: [undefined] outside the buffer. *)
Definition Buffer_get (buf : Buffer) (i : Z) : option Z :=
  if i <? 0 then None else option_map byteVal (nth_error buf (Z.to_nat i)).

(** [buf[i] ?? 0] *)
Definition byteAt (buf : Buffer) (i : Z) : Z :=
  match Buffer_get buf i with
  | Some v => v
  | None => 0
  end.

(** Bytes [s, e) of a buffer, for [0 <= s]. *)
Definition slice (buf : Buffer) (s e : Z) : Buffer :=
  firstn (Z.to_nat (e - s)) (skipn (Z.to_nat s) buf).

(** [buf.subarray(start, end)]: negative indices count from the end. *)
Definition relIndex (len i : Z) : Z :=
  if i <? 0 then Z.max (len + i) 0 else Z.min i len.

Definition subarray (buf : Buffer) (s e : Z) : Buffer :=
  slice buf (relIndex (blength buf) s) (relIndex (blength buf) e).

Fixpoint Buffer_equals (a b : Buffer) : bool :=
  match a, b with
  | [], [] => true
  | x :: a', y :: b' => Byte.eqb x y && Buffer_equals a' b'
  | _, _ => false
  end.

(** The fixed-width accessors raise a [RangeError] on an offset outside
    [0, length - width]. *)
Definition uintValue (le : bool) (width : Z) (buf : Buffer) (off : Z) : Z :=
  let bs := map byteVal (slice buf off (off + width)) in
  fold_left (fun acc b => acc * 256 + b) (if le then rev bs else bs) 0.

Definition Buffer_readUInt (le : bool) (width : Z) (buf : Buffer) (off : Z)
  : Outcome Z :=
  if (off <? 0) || (blength buf <? off + width) then Throw "ERR_OUT_OF_RANGE"
  else Ret (uintValue le width buf off).

Definition Buffer_readUInt16LE := Buffer_readUInt true 2.
Definition Buffer_readUInt16BE := Buffer_readUInt false 2.
Definition Buffer_readUInt32LE := Buffer_readUInt true 4.
Definition Buffer_readUInt32BE := Buffer_readUInt false 4.

Definition toSigned32 (v : Z) : Z := if v <? 2 ^ 31 then v else v - 2 ^ 32.

Definition Buffer_readInt32 (le : bool) (buf : Buffer) (off : Z) : Outcome Z :=
  match Buffer_readUInt le 4 buf off with
  | Ret v => Ret (toSigned32 v)
  | Throw e => Throw e
  | Hang => Hang
  end.

(** ** Text decoding *)

Inductive BufferEncoding := utf8 | latin1 | ascii.

(** UTF-16 code units of a code point. *)
Definition utf16 (cp : Z) : list Z :=
  if cp <? 65536 then [cp]
  else [55296 + (cp - 65536) / 1024; 56320 + (cp - 65536) mod 1024].

(** State of the UTF-8 decoder inside a multi-byte sequence: the bits
    collected so far, the number of continuation bytes still expected and
    the range allowed for the next one. *)
Record Utf8State := {
  u_cp : Z;
  u_need : nat;
  u_lo : Z;
  u_hi : Z
}.

(** A byte met outside a sequence: what it emits and the state it opens. *)
Definition utf8_lead (b : Z) : list Z * option Utf8State :=
  if b <=? 127 then ([b], None)
  else if (194 <=? b) && (b <=? 223) then
    ([], Some {| u_cp := b - 192; u_need := 0; u_lo := 128; u_hi := 191 |})
  else if (224 <=? b) && (b <=? 239) then
    ([], Some {| u_cp := b - 224; u_need := 1;
                 u_lo := if b =? 224 then 160 else 128;
                 u_hi := if b =? 237 then 159 else 191 |})
  else if (240 <=? b) && (b <=? 244) then
    ([], Some {| u_cp := b - 240; u_need := 2;
                 u_lo := if b =? 240 then 144 else 128;
                 u_hi := if b =? 244 then 143 else 191 |})
  else ([65533], None).

(** Decoding with replacement: every maximal ill-formed part becomes
    U+FFFD, and the byte that ended it is decoded again on its own.
    [u_need] counts the continuation bytes expected after the next one. *)
Fixpoint utf8_decode_from (st : option Utf8State) (bs : list Z) : list Z :=
  match bs with
  | [] =>
      match st with
      | Some _ => [65533]
      | None => []
      end
  | b :: bs' =>
      match st with
      | None =>
          let (out, st') := utf8_lead b in out ++ utf8_decode_from st' bs'
      | Some s =>
          if (u_lo s <=? b) && (b <=? u_hi s) then
            let cp := u_cp s * 64 + (b - 128) in
            match u_need s with
            | O => utf16 cp ++ utf8_decode_from None bs'
            | S n =>
                utf8_decode_from
                  (Some {| u_cp := cp; u_need := n; u_lo := 128; u_hi := 191 |})
                  bs'
            end
          else
            let (out, st') := utf8_lead b in
            65533 :: out ++ utf8_decode_from st' bs'
      end
  end.

Definition decode (enc : BufferEncoding) (bs : Buffer) : JSString :=
  match enc with
  | utf8 => utf8_decode_from None (map byteVal bs)
  | latin1 => map byteVal bs
  | ascii => map (fun b => Z.land (byteVal b) 127) bs
  end.

(** [buf.toString(encoding, start, end)] *)
Definition Buffer_toString (enc : BufferEncoding) (buf : Buffer) (s e : Z)
  : JSString :=
  decode enc (slice buf (Z.max s 0) (Z.min e (blength buf))).

(* ================================================================== *)
(** * BufferReader  (src/utils/buffer-reader.ts) *)
(* ================================================================== *)

Record BufferReader := {
  buffer : Buffer;
  position : Z;
  littleEndian : bool
}.

(** [new BufferReader(buffer, littleEndian = false)] *)
Definition new_BufferReader (buf : Buffer) (le : bool) : BufferReader :=
  {| buffer := buf; position := 0; littleEndian := le |}.

Definition set_position (r : BufferReader) (p : Z) : BufferReader :=
  {| buffer := buffer r; position := p; littleEndian := littleEndian r |}.

(** Methods run on a reader, may move it and may throw. *)
Definition M (A : Type) : Type := BufferReader -> Outcome (A * BufferReader).

Definition ret {A} (a : A) : M A := fun r => Ret (a, r).

Definition bind {A B} (m : M A) (k : A -> M B) : M B :=
  fun r =>
    match m r with
    | Ret (a, r') => k a r'
    | Throw e => Throw e
    | Hang => Hang
    end.

Definition throw {A} (msg : string) : M A := fun _ => Throw msg.
Definition hang {A} : M A := fun _ => Hang.

(** A value computed by a Buffer method on behalf of a reader method. *)
Definition lift {A} (o : Outcome A) : M A :=
  fun r =>
    match o with
    | Ret a => Ret (a, r)
    | Throw e => Throw e
    | Hang => Hang
    end.

Declare Scope reader_scope.
Delimit Scope reader_scope with reader.
Notation "x <- m ;; k" := (bind m (fun x => k))
  (at level 61, m at next level, right associativity) : reader_scope.
Notation "m ;; k" := (bind m (fun _ => k))
  (at level 61, right associativity) : reader_scope.
Local Open Scope reader_scope.

(** The value of a computation, the reader dropped. *)
Definition run {A} (m : M A) (r : BufferReader) : Outcome A :=
  match m r with
  | Ret (a, _) => Ret a
  | Throw e => Throw e
  | Hang => Hang
  end.

Definition readUInt8 : M Z := fun r =>
  if position r >=? blength (buffer r) then Throw "Attempt to read past buffer"
  else Ret (byteAt (buffer r) (position r), set_position r (position r + 1)).

Definition readUInt16 : M Z := fun r =>
  if position r + 2 >? blength (buffer r) then Throw "Attempt to read past buffer"
  else
    (v <- lift (Buffer_readUInt (littleEndian r) 2 (buffer r) (position r)) ;;
     fun r' => Ret (v, set_position r' (position r' + 2))) r.

Definition readUInt32 : M Z := fun r =>
  if position r + 4 >? blength (buffer r) then Throw "Attempt to read past buffer"
  else
    (v <- lift (Buffer_readUInt (littleEndian r) 4 (buffer r) (position r)) ;;
     fun r' => Ret (v, set_position r' (position r' + 4))) r.

Definition readInt32 : M Z := fun r =>
  if position r + 4 >? blength (buffer r) then Throw "Attempt to read past buffer"
  else
    (v <- lift (Buffer_readInt32 (littleEndian r) (buffer r) (position r)) ;;
     fun r' => Ret (v, set_position r' (position r' + 4))) r.

Definition readString (len : Z) (enc : BufferEncoding) : M JSString := fun r =>
  if position r + len >? blength (buffer r) then Throw "Attempt to read past buffer"
  else
    Ret (Buffer_toString enc (buffer r) (position r) (position r + len),
         set_position r (position r + len)).

(** The scan of [readNullTerminatedString]:
    [while (end < max && buffer[end] !== 0) end++]. *)
Fixpoint scanNull (n : nat) (buf : Buffer) (end_ max : Z) : Z :=
  match n with
  | O => end_
  | S n' =>
      if (end_ <? max) && negb (match Buffer_get buf end_ with
                                | Some 0 => true
                                | _ => false
                                end)
      then scanNull n' buf (end_ + 1) max
      else end_
  end.

Definition readNullTerminatedString (maxLength : option Z) (enc : BufferEncoding)
  : M JSString := fun r =>
  let start := position r in
  let max :=
    match maxLength with
    | Some n => if truthyZ n then Z.min (position r + n) (blength (buffer r))
                else blength (buffer r)
    | None => blength (buffer r)
    end in
  let end_ := scanNull (Z.to_nat (max - start)) (buffer r) start max in
  Ret (Buffer_toString enc (buffer r) start end_,
       set_position r (if end_ <? max then end_ + 1 else end_)).

Definition readBytes (len : Z) : M Buffer := fun r =>
  if position r + len >? blength (buffer r) then Throw "Attempt to read past buffer"
  else
    Ret (subarray (buffer r) (position r) (position r + len),
         set_position r (position r + len)).

Definition skip (bytes : Z) : M unit := fun r =>
  Ret (tt, set_position r (Z.min (position r + bytes) (blength (buffer r)))).

Definition seek (p : Z) : M unit := fun r =>
  if (p <? 0) || (p >? blength (buffer r)) then Throw "Invalid seek position"
  else Ret (tt, set_position r p).

Definition getPosition : M Z := fun r => Ret (position r, r).

Definition remaining : M Z := fun r => Ret (blength (buffer r) - position r, r).

Definition canRead (bytes : Z) : M bool := fun r =>
  Ret (position r + bytes <=? blength (buffer r), r).

Definition getBuffer : M Buffer := fun r => Ret (buffer r, r).

Definition peekUInt8 : M Z := fun r =>
  if position r >=? blength (buffer r) then Throw "Attempt to peek past buffer"
  else Ret (byteAt (buffer r) (position r), r).

(* ================================================================== *)
(** * The normalized result  (src/types.ts, as the decoders build it) *)
(* ================================================================== *)

Record ParseResult := {
  width : float;
  height : float;
  type : JSString;
  mime : JSString;
  wUnits : JSString;
  hUnits : JSString;
  wResolution : option float;
  hResolution : option float;
  bitDepth : option float;
  channels : option float;
  colorSpace : option JSString;
  iccProfile : option JSString;
  gamma : option float
}.

Definition Parser := Buffer -> Outcome (option ParseResult).

(** Iteration budget of the decoders' scanning loops.  Every completed
    iteration of such a loop moves the reader forward, so a run that ends
    does so within [length + 1] iterations. *)
Definition budget (buf : Buffer) : nat := S (length buf).

(* ================================================================== *)
(** * getPNGChannels  (src/utils/image-utils.ts) *)
(* ================================================================== *)

Definition getPNGChannels (colorType : Z) : Z :=
  match colorType with
  | 0 => 1
  | 2 => 3
  | 3 => 1
  | 4 => 2
  | 6 => 4
  | _ => 3
  end.

(* ================================================================== *)
(** * parsePNG  (src/parsers/png.ts) *)
(* ================================================================== *)

Definition PNG_SIGNATURE : Buffer := [x89; x50; x4e; x47; x0d; x0a; x1a; x0a].

(** The [let] variables of [parsePNG]. *)
Record PngVars := {
  png_width : option Z;
  png_height : option Z;
  png_wResolution : option float;
  png_hResolution : option float;
  png_bitDepth : option Z;
  png_colorType : option Z;
  png_channels : option Z;
  png_colorSpace : option JSString;
  png_iccProfile : option JSString;
  png_gamma : option float
}.

Definition png_init : PngVars :=
  {| png_width := None; png_height := None;
     png_wResolution := None; png_hResolution := None;
     png_bitDepth := None; png_colorType := None; png_channels := None;
     png_colorSpace := None; png_iccProfile := None; png_gamma := None |}.

(** The name scan of the iCCP case; [n] bounds [nameEnd] below
    [chunkDataStart + maxNameLength]. *)
Fixpoint png_iccp_scan (n : nat) (nameEnd : Z) : M Z :=
  match n with
  | O => ret nameEnd
  | S n' =>
      b <- peekUInt8 ;;
      if b =? 0 then ret nameEnd
      else skip 1 ;; png_iccp_scan n' (nameEnd + 1)
  end.

(** The [switch (chunkType)] of the chunk loop. *)
Definition png_chunk (chunkType : JSString) (chunkLength chunkDataStart : Z)
  (v : PngVars) : M PngVars :=
  if jstr_eqb chunkType (js "IHDR") then
    if chunkLength =? 13 then
      w <- readUInt32 ;;
      h <- readUInt32 ;;
      bd <- readUInt8 ;;
      ct <- readUInt8 ;;
      skip 3 ;;
      ret {| png_width := Some w; png_height := Some h;
             png_wResolution := png_wResolution v;
             png_hResolution := png_hResolution v;
             png_bitDepth := Some bd; png_colorType := Some ct;
             png_channels := Some (getPNGChannels ct);
             png_colorSpace := png_colorSpace v;
             png_iccProfile := png_iccProfile v; png_gamma := png_gamma v |}
    else ret v
  else if jstr_eqb chunkType (js "pHYs") then
    if chunkLength =? 9 then
      xPixelsPerUnit <- readUInt32 ;;
      yPixelsPerUnit <- readUInt32 ;;
      unit_ <- readUInt8 ;;
      let set wr hr :=
        {| png_width := png_width v; png_height := png_height v;
           png_wResolution := Some wr; png_hResolution := Some hr;
           png_bitDepth := png_bitDepth v; png_colorType := png_colorType v;
           png_channels := png_channels v; png_colorSpace := png_colorSpace v;
           png_iccProfile := png_iccProfile v; png_gamma := png_gamma v |} in
      if unit_ =? 1 then
        ret (set (Math_round (Z2F xPixelsPerUnit * 0.0254)%float)
                 (Math_round (Z2F yPixelsPerUnit * 0.0254)%float))
      else if unit_ =? 0 then
        ret (set (Z2F xPixelsPerUnit) (Z2F yPixelsPerUnit))
      else ret v
    else ret v
  else if jstr_eqb chunkType (js "eXIf") then ret v
  else if jstr_eqb chunkType (js "sRGB") then
    if chunkLength >=? 1 then
      ret {| png_width := png_width v; png_height := png_height v;
             png_wResolution := png_wResolution v;
             png_hResolution := png_hResolution v;
             png_bitDepth := png_bitDepth v; png_colorType := png_colorType v;
             png_channels := png_channels v; png_colorSpace := Some (js "sRGB");
             png_iccProfile := png_iccProfile v; png_gamma := png_gamma v |}
    else ret v
  else if jstr_eqb chunkType (js "iCCP") then
    if chunkLength >? 0 then
      let maxNameLength := Z.min chunkLength 79 in
      nameEnd <- png_iccp_scan (Z.to_nat maxNameLength) chunkDataStart ;;
      if nameEnd >? chunkDataStart then
        seek chunkDataStart ;;
        name <- readString (nameEnd - chunkDataStart) latin1 ;;
        ret {| png_width := png_width v; png_height := png_height v;
               png_wResolution := png_wResolution v;
               png_hResolution := png_hResolution v;
               png_bitDepth := png_bitDepth v; png_colorType := png_colorType v;
               png_channels := png_channels v;
               png_colorSpace := png_colorSpace v;
               png_iccProfile := Some name; png_gamma := png_gamma v |}
      else ret v
    else ret v
  else if jstr_eqb chunkType (js "gAMA") then
    if chunkLength =? 4 then
      gammaValue <- readUInt32 ;;
      ret {| png_width := png_width v; png_height := png_height v;
             png_wResolution := png_wResolution v;
             png_hResolution := png_hResolution v;
             png_bitDepth := png_bitDepth v; png_colorType := png_colorType v;
             png_channels := png_channels v; png_colorSpace := png_colorSpace v;
             png_iccProfile := png_iccProfile v;
             png_gamma := Some (Z2F gammaValue / 100000)%float |}
    else ret v
  else ret v.

(** [while (reader.remaining() >= 12) { ... }] *)
Fixpoint png_chunks (fuel : nat) (v : PngVars) : M PngVars :=
  match fuel with
  | O => hang
  | S fuel' =>
      rem <- remaining ;;
      if rem >=? 12 then
        chunkLength <- readUInt32 ;;
        chunkType <- readString 4 utf8 ;;
        enough <- canRead (chunkLength + 4) ;;
        if negb enough then ret v
        else
          chunkDataStart <- getPosition ;;
          v' <- png_chunk chunkType chunkLength chunkDataStart v ;;
          seek (chunkDataStart + chunkLength + 4) ;;
          if jstr_eqb chunkType (js "IEND") then ret v'
          else png_chunks fuel' v'
      else ret v
  end.

Definition png_result (v : PngVars) : option ParseResult :=
  match png_width v, png_height v with
  | Some w, Some h =>
      if (w >? 0) && (h >? 0) then
        Some {| width := Z2F w; height := Z2F h;
                type := js "png"; mime := js "image/png";
                wUnits := js "px"; hUnits := js "px";
                wResolution := png_wResolution v;
                hResolution := png_hResolution v;
                bitDepth := option_map Z2F (png_bitDepth v);
                channels := option_map Z2F (png_channels v);
                colorSpace := png_colorSpace v;
                iccProfile := png_iccProfile v;
                gamma := png_gamma v |}
      else None
  | _, _ => None
  end.

Definition parsePNG : Parser := fun buf =>
  if blength buf <? 24 then Ret None
  else if negb (Buffer_equals (subarray buf 0 8) PNG_SIGNATURE) then Ret None
  else
    run (seek 8 ;;
         v <- png_chunks (budget buf) png_init ;;
         ret (png_result v))
        (new_BufferReader buf false).


(* ================================================================== *)
(** * String helpers of the color-space code *)
(* ================================================================== *)

(** WhiteSpace and LineTerminator code units: what [trim] strips and what
    [\s] matches. *)
Definition isWhiteSpace (c : Z) : bool :=
  ((9 <=? c) && (c <=? 13)) || (c =? 32) || (c =? 160) || (c =? 5760) ||
  ((8192 <=? c) && (c <=? 8202)) || (c =? 8232) || (c =? 8233) ||
  (c =? 8239) || (c =? 8287) || (c =? 12288) || (c =? 65279).

Fixpoint trimStart (s : JSString) : JSString :=
  match s with
  | c :: s' => if isWhiteSpace c then trimStart s' else s
  | [] => []
  end.

Definition trim (s : JSString) : JSString := rev (trimStart (rev (trimStart s))).

(** [toLowerCase] on the code units below 256, which is all the callers
    pass (latin1- or ascii-decoded bytes and literals of the source);
    other code units are left as they are. *)
Definition lowerUnit (c : Z) : Z :=
  if ((65 <=? c) && (c <=? 90)) ||
     ((192 <=? c) && (c <=? 222) && negb (c =? 215))
  then c + 32 else c.

Definition toLowerCase (s : JSString) : JSString := map lowerUnit s.

(** src/utils/color-space.ts *)
Definition getColorSpaceFromString (str : JSString) : option JSString :=
  let lowerStr := toLowerCase str in
  if includes lowerStr (js "srgb") || includes lowerStr (js "s_rgb") then
    Some (js "sRGB")
  else if includes lowerStr (js "adobe") && includes lowerStr (js "rgb") then
    Some (js "Adobe RGB")
  else if includes lowerStr (js "display") && includes lowerStr (js "p3") then
    Some (js "Display P3")
  else if includes lowerStr (js "prophoto") then Some (js "ProPhoto RGB")
  else if includes lowerStr (js "rec2020") || includes lowerStr (js "rec.2020")
          || includes lowerStr (js "rec_2020") then
    Some (js "Rec. 2020")
  else None.

Definition getColorSpaceFromTag (tag : JSString) : option JSString :=
  let trimmedTag := trim tag in
  if jstr_eqb trimmedTag (js "RGB") then Some (js "RGB")
  else if jstr_eqb trimmedTag (js "GRAY") then Some (js "Grayscale")
  else if jstr_eqb trimmedTag (js "CMYK") then Some (js "CMYK")
  else if jstr_eqb trimmedTag (js "Lab") then Some (js "Lab")
  else None.

(* ================================================================== *)
(** * parseGIF  (src/parsers/gif.ts) *)
(* ================================================================== *)

Definition plain_result (w h : float) (ty mi : string) : ParseResult :=
  {| width := w; height := h; type := js ty; mime := js mi;
     wUnits := js "px"; hUnits := js "px";
     wResolution := None; hResolution := None;
     bitDepth := None; channels := None;
     colorSpace := None; iccProfile := None; gamma := None |}.

Definition parseGIF : Parser := fun buf =>
  if blength buf <? 10 then Ret None
  else
    run (signature <- readString 6 utf8 ;;
         if negb (jstr_eqb signature (js "GIF87a")) &&
            negb (jstr_eqb signature (js "GIF89a")) then ret None
         else
           w <- readUInt16 ;;
           h <- readUInt16 ;;
           if (w =? 0) || (h =? 0) then ret None
           else ret (Some (plain_result (Z2F w) (Z2F h) "gif" "image/gif")))
        (new_BufferReader buf true).

(* ================================================================== *)
(** * parseICO  (src/parsers/ico.ts) *)
(* ================================================================== *)

Record IcoDirectoryEntry := {
  ico_width : Z;
  ico_height : Z;
  ico_colorCount : Z;
  ico_reserved : Z;
  ico_planes : Z;
  ico_bitCount : Z;
  ico_bytesInRes : Z;
  ico_imageOffset : Z
}.

(** [x || 256] on numbers *)
Definition or256 (x : Z) : Z := if truthyZ x then x else 256.

Definition parseDirectoryEntry : M (option IcoDirectoryEntry) :=
  enough <- canRead 16 ;;
  if negb enough then ret None
  else
    w <- readUInt8 ;;
    h <- readUInt8 ;;
    colorCount <- readUInt8 ;;
    reserved <- readUInt8 ;;
    planes <- readUInt16 ;;
    bitCount <- readUInt16 ;;
    bytesInRes <- readUInt32 ;;
    imageOffset <- readUInt32 ;;
    ret (Some {| ico_width := or256 w; ico_height := or256 h;
                 ico_colorCount := colorCount; ico_reserved := reserved;
                 ico_planes := planes; ico_bitCount := bitCount;
                 ico_bytesInRes := bytesInRes; ico_imageOffset := imageOffset |}).

(** The test of the directory loop that makes [entry] the best one. *)
Definition ico_better (entry : IcoDirectoryEntry) (maxWidth maxHeight : Z)
  (bestEntry : option IcoDirectoryEntry) : bool :=
  (ico_width entry >? maxWidth) ||
  ((ico_width entry =? maxWidth) && (ico_height entry >? maxHeight)) ||
  ((ico_width entry =? maxWidth) && (ico_height entry =? maxHeight) &&
   (ico_bitCount entry >?
    match bestEntry with
    | Some b => ico_bitCount b
    | None => 0
    end)).

(** [for (let i = 0; i < count; i++)], [n] iterations left. *)
Fixpoint ico_entries (n : nat) (maxWidth maxHeight : Z)
  (bestEntry : option IcoDirectoryEntry) : M (option IcoDirectoryEntry) :=
  match n with
  | O => ret bestEntry
  | S n' =>
      entry <- parseDirectoryEntry ;;
      match entry with
      | Some e =>
          if (ico_width e >? 0) && (ico_height e >? 0) &&
             ico_better e maxWidth maxHeight bestEntry
          then ico_entries n' (ico_width e) (ico_height e) (Some e)
          else ico_entries n' maxWidth maxHeight bestEntry
      | None => ico_entries n' maxWidth maxHeight bestEntry
      end
  end.

Definition parseICO : Parser := fun buf =>
  if blength buf <? 6 then Ret None
  else
    run (reserved <- readUInt16 ;;
         type_ <- readUInt16 ;;
         count <- readUInt16 ;;
         if negb (reserved =? 0) || negb (type_ =? 1) || (count =? 0) then
           ret None
         else
           enough <- canRead (count * 16) ;;
           if negb enough then ret None
           else
             bestEntry <- ico_entries (Z.to_nat count) 0 0 None ;;
             match bestEntry with
             | Some b =>
                 ret (Some (plain_result (Z2F (ico_width b)) (Z2F (ico_height b))
                                         "ico" "image/x-icon"))
             | None => ret None
             end)
        (new_BufferReader buf true).

(* ================================================================== *)
(** * parseBMP  (src/parsers/bmp.ts) *)
(* ================================================================== *)

Definition BITMAPCOREHEADER : Z := 12.
Definition BITMAPINFOHEADER : Z := 40.

Definition bmp_channels (bitDepth : Z) : option Z :=
  if (bitDepth =? 1) || (bitDepth =? 4) || (bitDepth =? 8) then Some 1
  else if (bitDepth =? 16) || (bitDepth =? 24) then Some 3
  else if bitDepth =? 32 then Some 4
  else None.

Definition bmp_result (w h : Z) (res : option (float * float)) (bitDepth : Z)
  : option ParseResult :=
  if (w >? 0) && (h >? 0) then
    Some {| width := Z2F w; height := Z2F h;
            type := js "bmp"; mime := js "image/bmp";
            wUnits := js "px"; hUnits := js "px";
            wResolution := option_map fst res;
            hResolution := option_map snd res;
            bitDepth := Some (Z2F bitDepth);
            channels := option_map Z2F (bmp_channels bitDepth);
            colorSpace := None; iccProfile := None; gamma := None |}
  else None.

Definition parseBMP : Parser := fun buf =>
  if blength buf <? 26 then Ret None
  else
    run (signature <- readString 2 utf8 ;;
         if negb (jstr_eqb signature (js "BM")) then ret None
         else
           skip 8 ;;
           skip 4 ;;
           dibHeaderSize <- readUInt32 ;;
           enough <- canRead (dibHeaderSize - 4) ;;
           if negb enough then ret None
           else if dibHeaderSize >=? BITMAPCOREHEADER then
             if dibHeaderSize =? BITMAPCOREHEADER then
               w <- readUInt16 ;;
               h <- readUInt16 ;;
               skip 2 ;;
               bitDepth <- readUInt16 ;;
               ret (bmp_result w h None bitDepth)
             else
               w <- readInt32 ;;
               h0 <- readInt32 ;;
               let h := Z.abs h0 in
               skip 2 ;;
               bitDepth <- readUInt16 ;;
               skip 8 ;;
               if dibHeaderSize >=? BITMAPINFOHEADER then
                 xPixelsPerMeter <- readInt32 ;;
                 yPixelsPerMeter <- readInt32 ;;
                 if (xPixelsPerMeter >? 0) && (yPixelsPerMeter >? 0) then
                   ret (bmp_result w h
                          (Some (Math_round (Z2F xPixelsPerMeter * 0.0254)%float,
                                 Math_round (Z2F yPixelsPerMeter * 0.0254)%float))
                          bitDepth)
                 else ret (bmp_result w h None bitDepth)
               else ret (bmp_result w h None bitDepth)
           else ret None)
        (new_BufferReader buf true).

(* ================================================================== *)
(** * parseJPEG  (src/parsers/jpeg.ts) *)
(* ================================================================== *)

Module MARKERS.
Definition SOI : Z := 0xffd8.
Definition EOI : Z := 0xffd9.
Definition SOF0 : Z := 0xffc0.
Definition SOF1 : Z := 0xffc1.
Definition SOF2 : Z := 0xffc2.
Definition SOF3 : Z := 0xffc3.
Definition SOF5 : Z := 0xffc5.
Definition SOF6 : Z := 0xffc6.
Definition SOF7 : Z := 0xffc7.
Definition SOF9 : Z := 0xffc9.
Definition SOF10 : Z := 0xffca.
Definition SOF11 : Z := 0xffcb.
Definition SOF13 : Z := 0xffcd.
Definition SOF14 : Z := 0xffce.
Definition SOF15 : Z := 0xffcf.
Definition APP0 : Z := 0xffe0.
Definition APP1 : Z := 0xffe1.
Definition APP2 : Z := 0xffe2.
Definition APP14 : Z := 0xffee.
End MARKERS.

Definition isSOFMarker (marker : Z) : bool :=
  (marker =? MARKERS.SOF0) || (marker =? MARKERS.SOF1) ||
  (marker =? MARKERS.SOF2) || (marker =? MARKERS.SOF3) ||
  (marker =? MARKERS.SOF5) || (marker =? MARKERS.SOF6) ||
  (marker =? MARKERS.SOF7) || (marker =? MARKERS.SOF9) ||
  (marker =? MARKERS.SOF10) || (marker =? MARKERS.SOF11) ||
  (marker =? MARKERS.SOF13) || (marker =? MARKERS.SOF14) ||
  (marker =? MARKERS.SOF15).

(** [{ wResolution?: number; hResolution?: number }]: the two fields are
    always set together. *)
Definition Resolution := option (float * float).

Definition parseJFIF : M Resolution :=
  enough <- canRead 14 ;;
  if negb enough then ret None
  else
    ident <- readString 5 utf8 ;;
    if negb (jstr_eqb ident (js "JFIF" ++ [0])) then ret None
    else
      skip 2 ;;
      densityUnits <- readUInt8 ;;
      xDensity <- readUInt16 ;;
      yDensity <- readUInt16 ;;
      if densityUnits =? 1 then ret (Some (Z2F xDensity, Z2F yDensity))
      else if densityUnits =? 2 then
        ret (Some (Math_round (Z2F xDensity * 2.54)%float,
                   Math_round (Z2F yDensity * 2.54)%float))
      else ret None.

(** Truthiness of a number that is not an integer of the decoder. *)
Definition truthyF (x : float) : bool := negb (is_zero x || is_nan x).

(** The rational behind an XResolution or YResolution entry, read through
    [tiffReader] with its position restored afterwards. *)
Definition exif_rational (tiffStart valueOffset : Z) (old : option float)
  : M (option float) :=
  let offset := valueOffset + tiffStart in
  buf <- getBuffer ;;
  if offset + 8 <=? blength buf then
    savedPos <- getPosition ;;
    seek offset ;;
    numerator <- readUInt32 ;;
    denominator <- readUInt32 ;;
    seek savedPos ;;
    if denominator >? 0 then ret (Some (Z2F numerator / Z2F denominator)%float)
    else ret old
  else ret old.

(** The directory loop of [parseEXIF], [n] entries left; the state is
    [(xResolution, yResolution, resolutionUnit)]. *)
Fixpoint exif_entries (n : nat) (isLittleEndian : bool) (tiffStart : Z)
  (st : option float * option float * Z) : M (option float * option float * Z) :=
  match n with
  | O => ret st
  | S n' =>
      enough <- canRead 12 ;;
      if negb enough then ret st
      else
        let '(xResolution, yResolution, resolutionUnit) := st in
        tag <- readUInt16 ;;
        type_ <- readUInt16 ;;
        count <- readUInt32 ;;
        valueOffset <- readUInt32 ;;
        xResolution' <-
          (if (tag =? 0x011a) && (type_ =? 5) && (count =? 1)
           then exif_rational tiffStart valueOffset xResolution
           else ret xResolution) ;;
        yResolution' <-
          (if (tag =? 0x011b) && (type_ =? 5) && (count =? 1)
           then exif_rational tiffStart valueOffset yResolution
           else ret yResolution) ;;
        let resolutionUnit' :=
          if (tag =? 0x0128) && (type_ =? 3) && (count =? 1)
          then if isLittleEndian then js_and valueOffset 0xffff
               else js_ushr valueOffset 16
          else resolutionUnit in
        exif_entries n' isLittleEndian tiffStart
                     (xResolution', yResolution', resolutionUnit')
  end.

(** What [parseEXIF] does with its second reader, [tiffReader]. *)
Definition exif_tiff (isLittleEndian : bool) (tiffStart : Z) : M Resolution :=
  seek tiffStart ;;
  skip 2 ;;
  skip 2 ;;
  off <- readUInt32 ;;
  let ifdOffset := off + tiffStart in
  buf <- getBuffer ;;
  if ifdOffset + 2 >? blength buf then ret None
  else
    seek ifdOffset ;;
    numEntries <- readUInt16 ;;
    st <- exif_entries (Z.to_nat numEntries) isLittleEndian tiffStart
                       (None, None, 2) ;;
    let '(xResolution, yResolution, resolutionUnit) := st in
    match xResolution, yResolution with
    | Some x, Some y =>
        if truthyF x && truthyF y then
          if resolutionUnit =? 3 then
            ret (Some (Math_round (x * 2.54)%float, Math_round (y * 2.54)%float))
          else if resolutionUnit =? 2 then
            ret (Some (Math_round x, Math_round y))
          else ret None
        else ret None
    | _, _ => ret None
    end.

Definition parseEXIF (_segmentLength : Z) : M Resolution :=
  enough <- canRead 6 ;;
  if negb enough then ret None
  else
    ident <- readString 6 utf8 ;;
    if negb (jstr_eqb ident (js "Exif" ++ [0; 0])) then ret None
    else
      tiffStart <- getPosition ;;
      enough8 <- canRead 8 ;;
      if negb enough8 then ret None
      else
        byteOrder <- readString 2 utf8 ;;
        let isLittleEndian := jstr_eqb byteOrder (js "II") in
        buf <- getBuffer ;;
        lift (run (exif_tiff isLittleEndian tiffStart)
                  (new_BufferReader buf isLittleEndian)).

(** The [let] variables of [parseJPEG]. *)
Record JpegVars := {
  jpg_wResolution : option float;
  jpg_hResolution : option float;
  jpg_colorSpace : option JSString;
  jpg_iccProfile : option JSString
}.

Definition jpg_init : JpegVars :=
  {| jpg_wResolution := None; jpg_hResolution := None;
     jpg_colorSpace := None; jpg_iccProfile := None |}.

Definition jpg_set_color (v : JpegVars) (cs icc : option JSString) : JpegVars :=
  {| jpg_wResolution := jpg_wResolution v; jpg_hResolution := jpg_hResolution v;
     jpg_colorSpace := cs; jpg_iccProfile := icc |}.

Definition jpg_set_resolution (v : JpegVars) (res : Resolution) : JpegVars :=
  {| jpg_wResolution := option_map fst res; jpg_hResolution := option_map snd res;
     jpg_colorSpace := jpg_colorSpace v; jpg_iccProfile := jpg_iccProfile v |}.

(** [if (marker === MARKERS.APP0) { ... }] *)
Definition jpeg_app0 (v : JpegVars) : M JpegVars :=
  resolution <- parseJFIF ;;
  match jpg_wResolution v with
  | None => ret (jpg_set_resolution v resolution)
  | Some _ => ret v
  end.

(** [if (marker === MARKERS.APP1) { ... }] *)
Definition jpeg_app1 (segmentLength : Z) (v : JpegVars) : M JpegVars :=
  resolution <- parseEXIF (segmentLength - 2) ;;
  match resolution with
  | Some _ => ret (jpg_set_resolution v resolution)
  | None => ret v
  end.

(** [if (marker === MARKERS.APP2 && segmentLength > 14) { ... }] *)
Definition jpeg_app2 (segmentLength segmentStart : Z) (v : JpegVars)
  : M JpegVars :=
  iccMarker <- readString 12 latin1 ;;
  if startsWith iccMarker (js "ICC_PROFILE" ++ [0]) then
    let iccProfile :=
      match jpg_iccProfile v with
      | None => Some (js "Embedded")
      | Some p => Some p
      end in
    skip 2 ;;
    let profileDataLength := segmentLength - 18 in
    enough <- canRead profileDataLength ;;
    if (profileDataLength >? 0) && enough then
      profileData <- readBytes profileDataLength ;;
      let dataStr := Buffer_toString latin1 profileData 0 (blength profileData) in
      let detectedColorSpace := getColorSpaceFromString dataStr in
      let '(colorSpace, iccProfile) :=
        if truthyS detectedColorSpace
        then (detectedColorSpace, detectedColorSpace)
        else (jpg_colorSpace v, iccProfile) in
      if negb (truthyS colorSpace) && (blength profileData >=? 20) then
        let colorSpaceTag :=
          Buffer_toString ascii (subarray profileData 16 20) 0 4 in
        let tagColorSpace := getColorSpaceFromTag colorSpaceTag in
        if truthyS tagColorSpace
        then ret (jpg_set_color v tagColorSpace iccProfile)
        else ret (jpg_set_color v colorSpace iccProfile)
      else ret (jpg_set_color v colorSpace iccProfile)
    else ret (jpg_set_color v (jpg_colorSpace v) iccProfile)
  else
    seek segmentStart ;;
    ret v.

(** [if (marker === MARKERS.APP14 && segmentLength >= 12) { ... }] *)
Definition jpeg_app14 (segmentStart : Z) (v : JpegVars) : M JpegVars :=
  adobeMarker <- readString 5 latin1 ;;
  if jstr_eqb adobeMarker (js "Adobe") then
    skip 6 ;;
    transform <- readUInt8 ;;
    if negb (truthyS (jpg_colorSpace v)) ||
       match jpg_colorSpace v with
       | Some cs => jstr_eqb cs (js "RGB")
       | None => false
       end
    then
      if transform =? 0 then
        if negb (truthyS (jpg_iccProfile v))
        then ret (jpg_set_color v (Some (js "Adobe RGB")) (jpg_iccProfile v))
        else ret v
      else if transform =? 1 then
        if negb (truthyS (jpg_iccProfile v))
        then ret (jpg_set_color v (Some (js "YCbCr")) (jpg_iccProfile v))
        else ret v
      else if transform =? 2 then
        ret (jpg_set_color v (Some (js "YCCK")) (jpg_iccProfile v))
      else ret v
    else ret v
  else
    seek segmentStart ;;
    ret v.

(** How the Start-of-Frame block leaves the loop body. *)
Inductive SofExit :=
| SofBreak                       (* [break] *)
| SofReturn (r : ParseResult)    (* [return result] *)
| SofNext.                       (* falls through to the next segment *)

Definition jpeg_result (v : JpegVars) (precision h w components : Z)
  : ParseResult :=
  let colorSpace :=
    if truthyZ components && negb (truthyS (jpg_colorSpace v)) then
      if components =? 1 then Some (js "Grayscale")
      else if components =? 3 then Some (js "RGB")
      else if components =? 4 then Some (js "CMYK")
      else jpg_colorSpace v
    else jpg_colorSpace v in
  {| width := Z2F w; height := Z2F h;
     type := js "jpg"; mime := js "image/jpeg";
     wUnits := js "px"; hUnits := js "px";
     wResolution := jpg_wResolution v;
     hResolution := jpg_hResolution v;
     bitDepth := if truthyZ precision then Some (Z2F precision) else None;
     channels := if truthyZ components then Some (Z2F components) else None;
     colorSpace := colorSpace;
     iccProfile := jpg_iccProfile v;
     gamma := None |}.

(** [if (isSOFMarker(marker)) { ... }] *)
Definition jpeg_sof (v : JpegVars) : M SofExit :=
  enough <- canRead 6 ;;
  if negb enough then ret SofBreak
  else
    precision <- readUInt8 ;;
    h <- readUInt16 ;;
    w <- readUInt16 ;;
    components <- readUInt8 ;;
    if (w >? 0) && (h >? 0) then ret (SofReturn (jpeg_result v precision h w components))
    else ret SofNext.

(** The body of [while (reader.remaining() > 1) { ... }]; [next] is the
    rest of the loop, entered by [continue] and at the end of the body.
    Leaving the loop returns [null]. *)
Definition jpeg_segment (next : JpegVars -> M (option ParseResult))
  (v : JpegVars) : M (option ParseResult) :=
  rem <- remaining ;;
  if rem >? 1 then
    b <- readUInt8 ;;
    if negb (b =? 0xff) then next v
    else
      markerByte <- readUInt8 ;;
      let marker := js_or 0xff00 markerByte in
      if (marker =? MARKERS.SOI) || (marker =? MARKERS.EOI) then next v
      else
        enough <- canRead 2 ;;
        if negb enough then ret None
        else
          segmentLength <- readUInt16 ;;
          enough' <- canRead (segmentLength - 2) ;;
          if (segmentLength <? 2) || negb enough' then ret None
          else
            segmentStart <- getPosition ;;
            v1 <- (if marker =? MARKERS.APP0 then jpeg_app0 v else ret v) ;;
            v2 <- (if marker =? MARKERS.APP1 then jpeg_app1 segmentLength v1
                   else ret v1) ;;
            v3 <- (if (marker =? MARKERS.APP2) && (segmentLength >? 14)
                   then jpeg_app2 segmentLength segmentStart v2
                   else ret v2) ;;
            v4 <- (if (marker =? MARKERS.APP14) && (segmentLength >=? 12)
                   then jpeg_app14 segmentStart v3
                   else ret v3) ;;
            sof <- (if isSOFMarker marker then jpeg_sof v4 else ret SofNext) ;;
            match sof with
            | SofBreak => ret None
            | SofReturn r => ret (Some r)
            | SofNext =>
                seek (segmentStart + segmentLength - 2) ;;
                next v4
            end
  else ret None.

Fixpoint jpeg_segments (fuel : nat) (v : JpegVars) : M (option ParseResult) :=
  match fuel with
  | O => hang
  | S fuel' => jpeg_segment (jpeg_segments fuel') v
  end.

Definition parseJPEG : Parser := fun buf =>
  if blength buf <? 4 then Ret None
  else
    run (soi <- readUInt16 ;;
         if negb (soi =? MARKERS.SOI) then ret None
         else jpeg_segments (budget buf) jpg_init)
        (new_BufferReader buf false).

(* ================================================================== *)
(** * parseWebP  (src/parsers/webp.ts) *)
(* ================================================================== *)

Definition parseVP8 : M (option (Z * Z)) :=
  enough <- canRead 10 ;;
  if negb enough then ret None
  else
    skip 3 ;;
    startCode <- readBytes 3 ;;
    if negb (Buffer_equals startCode [x9d; x01; x2a]) then ret None
    else
      sizeInfo <- readUInt32 ;;
      ret (Some (js_and sizeInfo 0x3fff, js_and (js_shr sizeInfo 16) 0x3fff)).

Definition parseVP8L : M (option (Z * Z)) :=
  enough <- canRead 5 ;;
  if negb enough then ret None
  else
    sig <- readUInt8 ;;
    if negb (sig =? 0x2f) then ret None
    else
      bits <- readUInt32 ;;
      ret (Some (js_and bits 0x3fff + 1, js_and (js_shr bits 14) 0x3fff + 1)).

(** Result of [parseVP8X]: [(width, height, hasICC, hasAlpha)]. *)
Definition parseVP8X : M (option (Z * Z * bool * bool)) :=
  enough <- canRead 10 ;;
  if negb enough then ret None
  else
    flags <- readUInt8 ;;
    let hasICC := negb (js_and flags 0x20 =? 0) in
    let hasAlpha := negb (js_and flags 0x10 =? 0) in
    skip 3 ;;
    widthBytes <- readBytes 3 ;;
    heightBytes <- readBytes 3 ;;
    let le24 (b : Buffer) :=
      js_or (js_or (byteAt b 0) (js_shl (byteAt b 1) 8)) (js_shl (byteAt b 2) 16) in
    ret (Some (le24 widthBytes + 1, le24 heightBytes + 1, hasICC, hasAlpha)).

(** The [let] variables of [parseWebP]. *)
Record WebpVars := {
  wp_width : option Z;
  wp_height : option Z;
  wp_hasAlpha : bool;
  wp_colorSpace : option JSString;
  wp_iccProfileName : option JSString
}.

Definition wp_init : WebpVars :=
  {| wp_width := None; wp_height := None; wp_hasAlpha := false;
     wp_colorSpace := None; wp_iccProfileName := None |}.

Definition wp_set_dims (v : WebpVars) (w h : Z) (alpha : bool) : WebpVars :=
  {| wp_width := Some w; wp_height := Some h; wp_hasAlpha := alpha;
     wp_colorSpace := wp_colorSpace v;
     wp_iccProfileName := wp_iccProfileName v |}.

Definition wp_set_icc (v : WebpVars) (cs name : option JSString) : WebpVars :=
  {| wp_width := wp_width v; wp_height := wp_height v;
     wp_hasAlpha := wp_hasAlpha v;
     wp_colorSpace := cs; wp_iccProfileName := name |}.

(** [(chunkSize + 1) & ~1] *)
Definition padEven (chunkSize : Z) : Z := js_and (chunkSize + 1) (js_not 1).

(** First pass: [while (reader.canRead(8)) { ... }] looking for VP8X. *)
Fixpoint webp_pass1 (fuel : nat) (v : WebpVars) : M WebpVars :=
  match fuel with
  | O => hang
  | S fuel' =>
      more <- canRead 8 ;;
      if negb more then ret v
      else
        chunkId <- readString 4 utf8 ;;
        chunkSize <- readUInt32 ;;
        enough <- canRead chunkSize ;;
        if negb enough then ret v
        else
          chunkStart <- getPosition ;;
          if jstr_eqb chunkId (js "VP8X") then
            vp8xData <- parseVP8X ;;
            match vp8xData with
            | Some (w, h, _, hasAlpha) => ret (wp_set_dims v w h hasAlpha)
            | None => ret v
            end
          else
            seek (chunkStart + padEven chunkSize) ;;
            webp_pass1 fuel' v
  end.

(** [!width || !height] *)
Definition wp_no_dims (v : WebpVars) : bool :=
  match wp_width v, wp_height v with
  | Some w, Some h => negb (truthyZ w) || negb (truthyZ h)
  | _, _ => true
  end.

(** [haystack.indexOf(needle)] on buffers, counted from [i]; -1 if absent. *)
Fixpoint Buffer_indexOf_from (i : Z) (hay needle : Buffer) : Z :=
  match hay with
  | [] => match needle with
          | [] => i
          | _ :: _ => -1
          end
  | _ :: hay' =>
      if Buffer_equals (firstn (length needle) hay) needle then i
      else Buffer_indexOf_from (i + 1) hay' needle
  end.

Definition Buffer_indexOf (hay needle : Buffer) : Z :=
  Buffer_indexOf_from 0 hay needle.

(** The two [replace] calls on NUL: by a space, and by nothing. *)
Definition nulToSpace (s : JSString) : JSString :=
  map (fun c => if c =? 0 then 32 else c) s.

Definition dropNul (s : JSString) : JSString :=
  filter (fun c => negb (c =? 0)) s.

(** The profile names both ICC sniffers look for, with the color space
    the AVIF one attaches to each. *)
Definition profilePatterns : list (string * string) :=
  [ ("Adobe RGB (1998)", "Adobe RGB");
    ("sRGB IEC61966-2.1", "sRGB");
    ("Display P3", "Display P3");
    ("ProPhoto RGB", "ProPhoto RGB");
    ("Rec. 2020", "Rec. 2020");
    ("DCI-P3", "DCI-P3") ]%string.

(** First pattern found in [profileStr]. *)
Fixpoint firstPattern (pats : list (string * string)) (profileStr : JSString)
  : option (string * string) :=
  match pats with
  | [] => None
  | p :: pats' =>
      if includes profileStr (js (fst p)) then Some p
      else firstPattern pats' profileStr
  end.

Definition isPrintable (b : Z) : bool := (32 <=? b) && (b <=? 126).

(** [while (endPos < profileData.length && printable(profileData[endPos])) endPos++] *)
Fixpoint printableEnd (n : nat) (profileData : Buffer) (endPos : Z) : Z :=
  match n with
  | O => endPos
  | S n' =>
      if (endPos <? blength profileData) && isPrintable (byteAt profileData endPos)
      then printableEnd n' profileData (endPos + 1)
      else endPos
  end.

(** The last resort of the ICCP case: the first run of at least five
    printable bytes after the 'desc' tag that passes the filter;
    [n] values of [i] left below [bound]. *)
Fixpoint webp_text_scan (n : nat) (profileData : Buffer) (i : Z)
  : option JSString :=
  match n with
  | O => None
  | S n' =>
      let byte := byteAt profileData i in
      let next := webp_text_scan n' profileData (i + 1) in
      if isPrintable byte then
        let endPos := printableEnd (length profileData) profileData i in
        if endPos - i >? 4 then
          let possibleName := trim (Buffer_toString ascii profileData i endPos) in
          if truthyS (Some possibleName) &&
             negb (includes possibleName (js "text")) &&
             negb (includes possibleName (js "Copyright"))
          then Some possibleName
          else next
        else next
      else next
  end.

(** The 'desc' tag lookup of the ICCP case. *)
Definition webp_desc_name (profileData : Buffer) (descIndex : Z)
  : Outcome (option JSString) :=
  if (descIndex >? 0) && (descIndex + 12 <? blength profileData) then
    match Buffer_readUInt32BE profileData (descIndex + 4) with
    | Ret descOffset =>
    match Buffer_readUInt32BE profileData (descIndex + 8) with
    | Ret descSize =>
        if (descOffset <? blength profileData) && (descSize >? 0) then
          match Buffer_readUInt32BE profileData descOffset with
          | Ret typeSignature =>
              if (typeSignature =? 0x64657363) &&
                 (descOffset + 12 <? blength profileData) then
                match Buffer_readUInt32BE profileData (descOffset + 8) with
                | Ret asciiLength =>
                    if (asciiLength >? 0) &&
                       (descOffset + 12 + asciiLength <=? blength profileData)
                    then
                      let nameBytes :=
                        subarray profileData (descOffset + 12)
                                 (descOffset + 12 + asciiLength) in
                      Ret (Some (trim (dropNul
                             (Buffer_toString ascii nameBytes 0 (blength nameBytes)))))
                    else Ret None
                | Throw e => Throw e
                | Hang => Hang
                end
              else Ret None
          | Throw e => Throw e
          | Hang => Hang
          end
        else Ret None
    | Throw e => Throw e
    | Hang => Hang
    end
    | Throw e => Throw e
    | Hang => Hang
    end
  else Ret None.

(** The body of [if (reader.canRead(searchLimit)) { ... }] in the ICCP
    case, after [profileData] was read. *)
Definition webp_iccp_names (v : WebpVars) (profileData : Buffer)
  (searchLimit : Z) : Outcome WebpVars :=
  let descIndex := Buffer_indexOf profileData [x64; x65; x73; x63] in
  match webp_desc_name profileData descIndex with
  | Ret found =>
      let v1 :=
        match found with
        | Some name => wp_set_icc v (wp_colorSpace v) (Some name)
        | None => v
        end in
      let v2 :=
        if negb (truthyS (wp_iccProfileName v1)) then
          let profileStr :=
            nulToSpace (Buffer_toString ascii profileData 0 searchLimit) in
          match firstPattern profilePatterns profileStr with
          | Some (name, _) =>
              wp_set_icc v1 (getColorSpaceFromString (js name)) (Some (js name))
          | None => v1
          end
        else v1 in
      let v3 :=
        if negb (truthyS (wp_iccProfileName v2)) && (descIndex >? 0) then
          let startSearch := descIndex + 12 in
          if startSearch <? blength profileData - 20 then
            let bound := Z.min (startSearch + 200) (blength profileData - 1) in
            match webp_text_scan (Z.to_nat (bound - startSearch)) profileData
                                 startSearch with
            | Some possibleName =>
                wp_set_icc v2 (getColorSpaceFromString possibleName)
                           (Some possibleName)
            | None => v2
            end
          else v2
        else v2 in
      Ret v3
  | Throw e => Throw e
  | Hang => Hang
  end.

(** [case 'ICCP':] *)
Definition webp_iccp (chunkSize : Z) (v : WebpVars) : M WebpVars :=
  enough <- canRead (Z.min chunkSize 256) ;;
  if (chunkSize >? 0) && enough then
    let searchLimit := Z.min chunkSize 512 in
    enough' <- canRead searchLimit ;;
    v1 <- (if enough' then
             profileData <- readBytes searchLimit ;;
             lift (webp_iccp_names v profileData searchLimit)
           else ret v) ;;
    let name :=
      match wp_iccProfileName v1 with
      | None => Some (js "Embedded ICC Profile")
      | Some n => Some n
      end in
    if truthyS name && negb (truthyS (wp_colorSpace v1)) then
      ret (wp_set_icc v1
             (match name with
              | Some n => getColorSpaceFromString n
              | None => None
              end) name)
    else ret (wp_set_icc v1 (wp_colorSpace v1) name)
  else ret v.

(** The [switch (chunkId)] of the second pass. *)
Definition webp_chunk (chunkId : JSString) (chunkSize : Z) (v : WebpVars)
  : M WebpVars :=
  if jstr_eqb chunkId (js "VP8 ") then
    if wp_no_dims v then
      vp8Data <- parseVP8 ;;
      match vp8Data with
      | Some (w, h) => ret (wp_set_dims v w h (wp_hasAlpha v))
      | None => ret v
      end
    else ret v
  else if jstr_eqb chunkId (js "VP8L") then
    if wp_no_dims v then
      vp8lData <- parseVP8L ;;
      match vp8lData with
      | Some (w, h) => ret (wp_set_dims v w h true)
      | None => ret v
      end
    else ret v
  else if jstr_eqb chunkId (js "VP8X") then ret v
  else if jstr_eqb chunkId (js "ICCP") then webp_iccp chunkSize v
  else ret v.

(** Second pass: [while (reader.canRead(8)) { ... }]. *)
Fixpoint webp_pass2 (fuel : nat) (v : WebpVars) : M WebpVars :=
  match fuel with
  | O => hang
  | S fuel' =>
      more <- canRead 8 ;;
      if negb more then ret v
      else
        chunkId <- readString 4 utf8 ;;
        chunkSize <- readUInt32 ;;
        enough <- canRead chunkSize ;;
        if negb enough then ret v
        else
          chunkStart <- getPosition ;;
          v' <- webp_chunk chunkId chunkSize v ;;
          seek (chunkStart + padEven chunkSize) ;;
          webp_pass2 fuel' v'
  end.

Definition webp_result (v : WebpVars) : option ParseResult :=
  match wp_width v, wp_height v with
  | Some w, Some h =>
      if truthyZ w && truthyZ h && (w >? 0) && (h >? 0) then
        Some {| width := Z2F w; height := Z2F h;
                type := js "webp"; mime := js "image/webp";
                wUnits := js "px"; hUnits := js "px";
                wResolution := None; hResolution := None;
                bitDepth := None;
                channels := Some (if wp_hasAlpha v then 4 else 3)%float;
                colorSpace := if truthyS (wp_colorSpace v) then wp_colorSpace v
                              else None;
                iccProfile := if truthyS (wp_iccProfileName v)
                              then wp_iccProfileName v else None;
                gamma := None |}
      else None
  | _, _ => None
  end.

Definition parseWebP : Parser := fun buf =>
  if blength buf <? 12 then Ret None
  else
    run (riff <- readString 4 utf8 ;;
         if negb (jstr_eqb riff (js "RIFF")) then ret None
         else
           skip 4 ;;
           webp <- readString 4 utf8 ;;
           if negb (jstr_eqb webp (js "WEBP")) then ret None
           else
             firstPassPosition <- getPosition ;;
             v1 <- webp_pass1 (budget buf) wp_init ;;
             seek firstPassPosition ;;
             v2 <- webp_pass2 (budget buf) v1 ;;
             ret (webp_result v2))
        (new_BufferReader buf true).

(* ================================================================== *)
(** * parseAVIF  (src/parsers/avif.ts) *)
(* ================================================================== *)

(** Result: [(profileName, colorSpace)], both set or both unset. *)
Definition getColorSpaceFromProfileData (profileData : Buffer)
  : option (JSString * JSString) :=
  let profileStr :=
    nulToSpace (Buffer_toString ascii profileData 0
                                (Z.min (blength profileData) 512)) in
  match firstPattern profilePatterns profileStr with
  | Some (name, colorSpace) => Some (js name, js colorSpace)
  | None => None
  end.

(** [while (brandsRead < compatibleBrandsSize && reader.canRead(4))] of
    [parseFtyp]. *)
Fixpoint ftyp_brands (fuel : nat) (brandsRead compatibleBrandsSize : Z)
  : M bool :=
  match fuel with
  | O => hang
  | S fuel' =>
      more <- canRead 4 ;;
      if (brandsRead <? compatibleBrandsSize) && more then
        brand <- readString 4 utf8 ;;
        if jstr_eqb brand (js "avif") || jstr_eqb brand (js "avis") then ret true
        else ftyp_brands fuel' (brandsRead + 4) compatibleBrandsSize
      else ret false
  end.

Definition parseFtyp (fuel : nat) (size : Z) : M bool :=
  enough <- canRead 8 ;;
  if negb enough || (size <? 8) then ret false
  else
    majorBrand <- readString 4 utf8 ;;
    if jstr_eqb majorBrand (js "avif") then ret true
    else
      skip 4 ;;
      ftyp_brands fuel 0 (size - 8).

Definition parseIspe : M (option (Z * Z)) :=
  enough <- canRead 12 ;;
  if negb enough then ret None
  else
    skip 4 ;;
    w <- readUInt32 ;;
    h <- readUInt32 ;;
    ret (Some (w, h)).

(** What [parseColr] returns, as far as [parseAVIF] reads it:
    [(colorSpace, iccProfile)]. *)
Definition parseColr (size : Z) : M (option (option JSString * option JSString)) :=
  enough <- canRead 4 ;;
  if negb enough then ret None
  else
    colorType <- readString 4 utf8 ;;
    if jstr_eqb colorType (js "prof") || jstr_eqb colorType (js "rICC") then
      let iccDataSize := size - 4 in
      enough' <- canRead iccDataSize ;;
      if enough' then
        iccData <- readBytes iccDataSize ;;
        match getColorSpaceFromProfileData iccData with
        | Some (profileName, colorSpace) =>
            ret (Some (Some colorSpace, Some profileName))
        | None =>
            ret (Some (Some (js "ICC Profile"), Some (js "Embedded ICC Profile")))
        end
      else ret None
    else if jstr_eqb colorType (js "nclx") then
      enough' <- canRead 7 ;;
      if enough' then
        colorPrimaries <- readUInt16 ;;
        transferCharacteristics <- readUInt16 ;;
        skip 2 ;;
        skip 1 ;;
        let colorSpace :=
          match colorPrimaries with
          | 1 => Some (js "sRGB")
          | 9 => Some (js "Rec. 2020")
          | 11 => Some (js "DCI-P3")
          | 12 => Some (js "Display P3")
          | _ => None
          end in
        ret (Some (colorSpace, None))
      else ret None
    else ret None.

Record Box := {
  box_type : JSString;
  box_size : Z;
  box_dataOffset : Z
}.

Definition parseBox : M (option Box) :=
  boxStart <- getPosition ;;
  enough <- canRead 8 ;;
  if negb enough then ret None
  else
    size <- readUInt32 ;;
    type_ <- readString 4 utf8 ;;
    dataOffset <- getPosition ;;
    if size =? 1 then
      enough' <- canRead 8 ;;
      if negb enough' then ret None
      else
        skip 4 ;;
        size' <- readUInt32 ;;
        dataOffset' <- getPosition ;;
        ret (Some {| box_type := type_; box_size := size';
                     box_dataOffset := dataOffset' |})
    else if size =? 0 then
      buf <- getBuffer ;;
      ret (Some {| box_type := type_; box_size := blength buf - boxStart;
                   box_dataOffset := dataOffset |})
    else
      ret (Some {| box_type := type_; box_size := size;
                   box_dataOffset := dataOffset |}).

(** Result: [(position, size)] of the data of the first box of the type. *)
Fixpoint findBox (fuel : nat) (endPosition : Z) (boxType : JSString)
  : M (option (Z * Z)) :=
  match fuel with
  | O => hang
  | S fuel' =>
      pos <- getPosition ;;
      if pos <? endPosition then
        let boxStart := pos in
        box <- parseBox ;;
        match box with
        | None => ret None
        | Some b =>
            if jstr_eqb (box_type b) boxType then
              ret (Some (box_dataOffset b,
                         box_size b - (box_dataOffset b - boxStart)))
            else
              seek (boxStart + box_size b) ;;
              findBox fuel' endPosition boxType
        end
      else ret None
  end.

(** The [let] variables of [parseAVIF]. *)
Record AvifVars := {
  av_isAVIF : bool;
  av_width : option Z;
  av_height : option Z;
  av_colorSpace : option JSString;
  av_iccProfile : option JSString;
  av_bitDepth : option Z;
  av_channels : option Z
}.

Definition av_init : AvifVars :=
  {| av_isAVIF := false; av_width := None; av_height := None;
     av_colorSpace := None; av_iccProfile := None;
     av_bitDepth := None; av_channels := None |}.

(** The three lookups inside the 'ipco' box. *)
Definition avif_ipco (fuel : nat) (ipcoPosition ipcoSize : Z) (v : AvifVars)
  : M AvifVars :=
  seek ipcoPosition ;;
  let ipcoEnd := ipcoPosition + ipcoSize in
  ispeBox <- findBox fuel ipcoEnd (js "ispe") ;;
  dims <- match ispeBox with
          | Some (p, _) => seek p ;; parseIspe
          | None => ret None
          end ;;
  let '(w, h) :=
    match dims with
    | Some (w, h) => (Some w, Some h)
    | None => (av_width v, av_height v)
    end in
  seek ipcoPosition ;;
  colrBox <- findBox fuel ipcoEnd (js "colr") ;;
  colorInfo <- match colrBox with
               | Some (p, sz) => seek p ;; parseColr sz
               | None => ret None
               end ;;
  let '(cs, icc) :=
    match colorInfo with
    | Some ci => ci
    | None => (av_colorSpace v, av_iccProfile v)
    end in
  seek ipcoPosition ;;
  pixiBox <- findBox fuel ipcoEnd (js "pixi") ;;
  bc <- match pixiBox with
        | Some (p, _) =>
            seek p ;;
            enough <- canRead 5 ;;
            if enough then
              skip 4 ;;
              channelCount <- readUInt8 ;;
              enough' <- canRead channelCount ;;
              if enough' then
                bd <- readUInt8 ;;
                ret (Some bd, Some channelCount)
              else ret (av_bitDepth v, Some channelCount)
            else ret (av_bitDepth v, av_channels v)
        | None => ret (av_bitDepth v, av_channels v)
        end ;;
  ret {| av_isAVIF := av_isAVIF v; av_width := w; av_height := h;
         av_colorSpace := cs; av_iccProfile := icc;
         av_bitDepth := fst bc; av_channels := snd bc |}.

(** [case 'meta':] *)
Definition avif_meta (fuel : nat) (boxStart : Z) (b : Box) (v : AvifVars)
  : M AvifVars :=
  if av_isAVIF v then
    seek (box_dataOffset b) ;;
    skip 4 ;;
    let metaDataEnd := boxStart + box_size b in
    iprpBox <- findBox fuel metaDataEnd (js "iprp") ;;
    match iprpBox with
    | Some (iprpPosition, iprpSize) =>
        seek iprpPosition ;;
        let iprpEnd := iprpPosition + iprpSize in
        ipcoBox <- findBox fuel iprpEnd (js "ipco") ;;
        match ipcoBox with
        | Some (ipcoPosition, ipcoSize) => avif_ipco fuel ipcoPosition ipcoSize v
        | None => ret v
        end
    | None => ret v
    end
  else ret v.

(** [while (reader.remaining() > 0) { ... }] *)
Fixpoint avif_boxes (fuel inner : nat) (v : AvifVars) : M AvifVars :=
  match fuel with
  | O => hang
  | S fuel' =>
      rem <- remaining ;;
      if rem >? 0 then
        boxStart <- getPosition ;;
        box <- parseBox ;;
        match box with
        | None => ret v
        | Some b =>
            v' <- (if jstr_eqb (box_type b) (js "ftyp") then
                     seek (box_dataOffset b) ;;
                     isAVIF <- parseFtyp inner
                                 (box_size b - (box_dataOffset b - boxStart)) ;;
                     ret {| av_isAVIF := isAVIF;
                            av_width := av_width v; av_height := av_height v;
                            av_colorSpace := av_colorSpace v;
                            av_iccProfile := av_iccProfile v;
                            av_bitDepth := av_bitDepth v;
                            av_channels := av_channels v |}
                   else if jstr_eqb (box_type b) (js "meta") then
                     avif_meta inner boxStart b v
                   else ret v) ;;
            seek (boxStart + box_size b) ;;
            match av_width v', av_height v' with
            | Some _, Some _ => ret v'
            | _, _ => avif_boxes fuel' inner v'
            end
        end
      else ret v
  end.

Definition avif_result (v : AvifVars) : option ParseResult :=
  match av_width v, av_height v with
  | Some w, Some h =>
      if av_isAVIF v && (w >? 0) && (h >? 0) then
        Some {| width := Z2F w; height := Z2F h;
                type := js "avif"; mime := js "image/avif";
                wUnits := js "px"; hUnits := js "px";
                wResolution := None; hResolution := None;
                bitDepth := match av_bitDepth v with
                            | Some bd => if truthyZ bd then Some (Z2F bd) else None
                            | None => None
                            end;
                channels := match av_channels v with
                            | Some c => if truthyZ c then Some (Z2F c) else None
                            | None => None
                            end;
                colorSpace := if truthyS (av_colorSpace v) then av_colorSpace v
                              else None;
                iccProfile := if truthyS (av_iccProfile v) then av_iccProfile v
                              else None;
                gamma := None |}
      else None
  | _, _ => None
  end.

Definition parseAVIF : Parser := fun buf =>
  if blength buf <? 12 then Ret None
  else
    run (v <- avif_boxes (budget buf) (budget buf) av_init ;;
         ret (avif_result v))
        (new_BufferReader buf false).

(* ================================================================== *)
(** * parseSVG  (src/parsers/svg.ts) *)
(* ================================================================== *)

(** ** parseFloat *)

Definition isDigit (c : Z) : bool := (48 <=? c) && (c <=? 57).

Fixpoint spanDigits (s : JSString) : JSString * JSString :=
  match s with
  | c :: s' =>
      if isDigit c then let (ds, rest) := spanDigits s' in (c :: ds, rest)
      else ([], s)
  | [] => ([], [])
  end.

Definition digitsValue (ds : JSString) : Z :=
  fold_left (fun acc c => acc * 10 + (c - 48)) ds 0.

(** The binary64 number nearest to [n / d], ties to even, for positive
    [n] and [d]: a quotient of at least 63 bits and the place of the
    remainder against one half are handed to the rounding of SpecFloat. *)
Definition ratioToFloat (neg : bool) (n d : Z) : float :=
  let k := Z.max 0 (Z.log2 d - Z.log2 n + 64) in
  let q := (n * 2 ^ k) / d in
  let r := (n * 2 ^ k) mod d in
  let loc := if r =? 0 then loc_Exact else loc_Inexact (Z.compare (2 * r) d) in
  SF2Prim (binary_round_aux prec emax neg q (- k) loc).

(** The number nearest to [m * 10^e], for [0 <= m].  Beyond 10^400 and
    below 10^-400 the result is an infinity or a zero whatever the digits. *)
Definition decimalToFloat (neg : bool) (m e : Z) : float :=
  if m =? 0 then (if neg then neg_zero else zero)
  else if e >? 400 then (if neg then neg_infinity else infinity)
  else if e + Z.log2 m / 3 + 1 <? -400 then (if neg then neg_zero else zero)
  else if 0 <=? e then ratioToFloat neg (m * 10 ^ e) 1
  else ratioToFloat neg m (10 ^ (- e)).

Definition takeSign (s : JSString) : bool * JSString :=
  match s with
  | 43 :: r => (false, r)
  | 45 :: r => (true, r)
  | _ => (false, s)
  end.

(** [parseFloat]: leading white space is skipped, the longest prefix that
    is a decimal literal is converted, anything after it is ignored. *)
Definition parseFloat (input : JSString) : float :=
  let '(neg, s1) := takeSign (trimStart input) in
  if startsWith s1 (js "Infinity") then (if neg then neg_infinity else infinity)
  else
    let (ip, r1) := spanDigits s1 in
    let '(fp, r2) :=
      match r1 with
      | 46 :: r => spanDigits r
      | _ => ([], r1)
      end in
    match ip ++ fp with
    | [] => nan
    | ds =>
        let e10 :=
          match r2 with
          | c :: r3 =>
              if (c =? 101) || (c =? 69) then
                let '(eneg, r4) := takeSign r3 in
                let (ed, _) := spanDigits r4 in
                match ed with
                | [] => 0
                | _ => if eneg then - digitsValue ed else digitsValue ed
                end
              else 0
          | [] => 0
          end in
        decimalToFloat neg (digitsValue ds) (e10 - Z.of_nat (length fp))
    end.

(** ** The regular expressions *)

(** Case folding of the [i] flag.  The patterns are ASCII, and a code unit
    outside ASCII never folds onto an ASCII one, so folding the ASCII
    letters is all that matters. *)
Definition canonUnit (c : Z) : Z :=
  if (97 <=? c) && (c <=? 122) then c - 32 else c.

(** A literal matched case-insensitively at the head of [s]: what follows
    it. *)
Fixpoint matchLiteralCI (pat s : JSString) : option JSString :=
  match pat with
  | [] => Some s
  | p :: pat' =>
      match s with
      | c :: s' =>
          if canonUnit c =? canonUnit p then matchLiteralCI pat' s' else None
      | [] => None
      end
  end.

(** The leftmost match of a pattern in [s]. *)
Fixpoint execFirst {A} (matchAt : JSString -> option A) (s : JSString)
  : option A :=
  match matchAt s with
  | Some a => Some a
  | None =>
      match s with
      | [] => None
      | _ :: s' => execFirst matchAt s'
      end
  end.

(** Any units that are no [>], then a [>]. *)
Fixpoint upToGt (s : JSString) : option JSString :=
  match s with
  | [] => None
  | c :: s' => if c =? 62 then Some [c] else option_map (cons c) (upToGt s')
  end.

(** The opening-tag pattern of [parseSVG] at the head of [s], letters in
    any case: the text matched. *)
Definition svgTagAt (s : JSString) : option JSString :=
  match matchLiteralCI (js "<svg") s with
  | Some rest => option_map (fun t => firstn 4 s ++ t) (upToGt rest)
  | None => None
  end.

Definition isQuote (c : Z) : bool := (c =? 34) || (c =? 39).

Fixpoint spanNotQuote (s : JSString) : JSString * JSString :=
  match s with
  | c :: s' =>
      if isQuote c then ([], s)
      else let (v, rest) := spanNotQuote s' in (c :: v, rest)
  | [] => ([], [])
  end.

(** The attribute pattern of [parseSVG] at the head of [s]: the name
    (any case), optional white space around an equals sign, a quote of
    either kind, one or more units that are no quotes (group 1) and a
    quote of either kind again.  Group 1 is the result. *)
Definition attrAt (name : string) (s : JSString) : option JSString :=
  match matchLiteralCI (js name) s with
  | Some r1 =>
      match trimStart r1 with
      | 61 :: r2 =>
          match trimStart r2 with
          | q :: r3 =>
              if isQuote q then
                match spanNotQuote r3 with
                | ((_ :: _) as v, _ :: _) => Some v
                | _ => None
                end
              else None
          | [] => None
          end
      | _ => None
      end
  | None => None
  end.

Definition isLineTerminator (c : Z) : bool :=
  (c =? 10) || (c =? 13) || (c =? 8232) || (c =? 8233).

(** The pattern of [parseDimension] on the trimmed string: an anchored
    number (digits, an optional dot, at least one digit) as group 1 and
    any units up to the end as the optional group 2.  Backtracking leaves
    group 1 the leading digits, with a fraction when a digit follows the
    dot; group 2 takes part only when it is not empty; the dot of group 2
    stops at a line terminator, where the end anchor then fails. *)
Definition dimensionGroups (t : JSString) : option (JSString * option JSString) :=
  let (d1, r1) := spanDigits t in
  let whole :=
    match d1 with
    | [] => None
    | _ :: _ => Some (d1, r1)
    end in
  let split :=
    match r1 with
    | 46 :: r2 =>
        match spanDigits r2 with
        | ((_ :: _) as d2, r3) => Some (d1 ++ 46 :: d2, r3)
        | _ => whole
        end
    | _ => whole
    end in
  match split with
  | Some (num, rest) =>
      if existsb isLineTerminator rest then None
      else Some (num, match rest with
                      | [] => None
                      | _ :: _ => Some rest
                      end)
  | None => None
  end.

(** Result: [(value, unit)]. *)
Definition parseDimension (dimension : JSString) : option (float * JSString) :=
  match dimensionGroups (trim dimension) with
  | Some (num, g2) =>
      Some (parseFloat num,
            match g2 with
            | Some rest => trim rest
            | None => js "px"
            end)
  | None => None
  end.

(** [split] of [parseViewBox], on a run of white space or on one
    comma; [cur] is the piece being read, reversed, and
    [inWs] tells that the previous unit belonged to a run of white space
    already taken as a separator. *)
Fixpoint splitWsComma (s cur : JSString) (inWs : bool) : list JSString :=
  match s with
  | [] => [rev cur]
  | c :: s' =>
      if isWhiteSpace c then
        if inWs then splitWsComma s' cur true
        else rev cur :: splitWsComma s' [] true
      else if c =? 44 then rev cur :: splitWsComma s' [] false
      else splitWsComma s' (c :: cur) false
  end.

Definition parseViewBox (viewBox : JSString) : option (float * float) :=
  let values := map parseFloat (splitWsComma (trim viewBox) [] false) in
  match values with
  | [_; _; w; h] =>
      if forallb (fun v => negb (is_nan v)) values then Some (w, h) else None
  | _ => None
  end.

Definition convertToPixels (value : float) (unit_ : JSString) : float :=
  if jstr_eqb unit_ (js "px") || jstr_eqb unit_ [] then value
  else if jstr_eqb unit_ (js "in") then (value * 96)%float
  else if jstr_eqb unit_ (js "cm") then (value * 37.8)%float
  else if jstr_eqb unit_ (js "mm") then (value * 3.78)%float
  else if jstr_eqb unit_ (js "pt") then (value * 1.33)%float
  else if jstr_eqb unit_ (js "pc") then (value * 16)%float
  else if jstr_eqb unit_ (js "em") || jstr_eqb unit_ (js "rem") then
    (value * 16)%float
  else if jstr_eqb unit_ (js "ex") then (value * 8)%float
  else value.

(** One of the two dimension attributes: the pixel value and the unit
    reported for it. *)
Definition svg_dimension (attr : option JSString) : option float * JSString :=
  match attr with
  | Some text =>
      match parseDimension text with
      | Some (value, unit_) =>
          (Some (convertToPixels value unit_),
           if jstr_eqb unit_ [] then js "px" else unit_)
      | None => (None, js "px")
      end
  | None => (None, js "px")
  end.

Definition orElse (a : option float) (b : float) : float :=
  match a with
  | Some x => x
  | None => b
  end.

(** [parseSVG] from the opening tag on. *)
Definition svg_fromTag (svgTag : JSString) : option ParseResult :=
  let widthMatch := execFirst (attrAt "width") svgTag in
  let heightMatch := execFirst (attrAt "height") svgTag in
  let viewBoxMatch := execFirst (attrAt "viewBox") svgTag in
  let '(width0, wUnits0) := svg_dimension widthMatch in
  let '(height0, hUnits0) := svg_dimension heightMatch in
  let missing :=
    match width0, height0 with
    | Some _, Some _ => false
    | _, _ => true
    end in
  let '(width1, height1, wUnits1, hUnits1) :=
    match (if missing then viewBoxMatch else None) with
    | Some vb =>
        match parseViewBox vb with
        | Some (vw, vh) =>
            (Some (orElse width0 vw), Some (orElse height0 vh), js "px", js "px")
        | None => (width0, height0, wUnits0, hUnits0)
        end
    | None => (width0, height0, wUnits0, hUnits0)
    end in
  let w := orElse width1 300 in
  let h := orElse height1 150 in
  if F_gt0 w && F_gt0 h then
    Some {| width := Math_round w; height := Math_round h;
            type := js "svg"; mime := js "image/svg+xml";
            wUnits := wUnits1; hUnits := hUnits1;
            wResolution := None; hResolution := None;
            bitDepth := None; channels := None;
            colorSpace := None; iccProfile := None; gamma := None |}
  else None.

Definition parseSVG : Parser := fun buf =>
  if blength buf <? 4 then Ret None
  else
    let content := Buffer_toString utf8 buf 0 (blength buf) in
    if negb (includes content (js "<svg")) then Ret None
    else
      match execFirst svgTagAt content with
      | None => Ret None
      | Some svgTag => Ret (svg_fromTag svgTag)
      end.

(* ================================================================== *)
(** * The detector  (src/utils/detector.ts) *)
(* ================================================================== *)

(** The eight decoders; a value of this type stands for the reference to
    the decoder function that the detector hands out and that
    [parseImage] compares with [===]. *)
Inductive Format := JPEG | PNG | GIF | WebP | BMP | ICO | AVIF | SVG.

Definition Format_eqb (a b : Format) : bool :=
  match a, b with
  | JPEG, JPEG | PNG, PNG | GIF, GIF | WebP, WebP
  | BMP, BMP | ICO, ICO | AVIF, AVIF | SVG, SVG => true
  | _, _ => false
  end.

Definition parserOf (f : Format) : Parser :=
  match f with
  | JPEG => parseJPEG
  | PNG => parsePNG
  | GIF => parseGIF
  | WebP => parseWebP
  | BMP => parseBMP
  | ICO => parseICO
  | AVIF => parseAVIF
  | SVG => parseSVG
  end.

Fixpoint sigMatch (buf : Buffer) (sig : list Z) (i : Z) : bool :=
  match sig with
  | [] => true
  | x :: sig' =>
      match Buffer_get buf i with
      | Some v => if v =? x then sigMatch buf sig' (i + 1) else false
      | None => false
      end
  end.

Definition matchesSignature (buf : Buffer) (signature : list Z) (offset : Z)
  : bool :=
  if offset + Z.of_nat (length signature) >? blength buf then false
  else sigMatch buf signature offset.

Definition getIs (buf : Buffer) (i v : Z) : bool :=
  match Buffer_get buf i with
  | Some x => x =? v
  | None => false
  end.

Definition jpegValidate (buf : Buffer) : bool :=
  (blength buf >=? 2) && getIs buf 0 0xff && getIs buf 1 0xd8.

Definition pngValidate (buf : Buffer) : bool :=
  matchesSignature buf [0x89; 0x50; 0x4e; 0x47; 0x0d; 0x0a; 0x1a; 0x0a] 0.

Definition gifValidate (buf : Buffer) : bool :=
  if blength buf <? 6 then false
  else
    let sig := Buffer_toString ascii (subarray buf 0 6) 0 6 in
    jstr_eqb sig (js "GIF87a") || jstr_eqb sig (js "GIF89a").

Definition webpValidate (buf : Buffer) : bool :=
  (blength buf >=? 12) && matchesSignature buf (js "RIFF") 0 &&
  matchesSignature buf (js "WEBP") 8.

Definition bmpValidate (buf : Buffer) : bool :=
  (blength buf >=? 2) && getIs buf 0 0x42 && getIs buf 1 0x4d.

Definition icoValidate (buf : Buffer) : bool :=
  (blength buf >=? 4) && getIs buf 0 0 && getIs buf 1 0 && getIs buf 2 1 &&
  getIs buf 3 0.

Definition avifValidate (buf : Buffer) : bool :=
  if blength buf <? 12 then false
  else if negb (matchesSignature buf (js "ftyp") 4) then false
  else
    let brandsSection := subarray buf 8 (Z.min (blength buf) 100) in
    let brandsStr :=
      Buffer_toString ascii brandsSection 0 (blength brandsSection) in
    includes brandsStr (js "avif") || includes brandsStr (js "avis").

Definition svgValidate (buf : Buffer) : bool :=
  let head := subarray buf 0 (Z.min (blength buf) 1024) in
  let str := Buffer_toString utf8 head 0 (blength head) in
  if includes str (js "<svg") then true
  else if includes str (js "<?xml") && includes str (js "<svg") then true
  else if includes str (js "<!DOCTYPE svg") then true
  else false.

Record DetectorEntry := {
  parser : Format;
  validate : Buffer -> bool
}.

Definition detectors : list DetectorEntry :=
  [ {| parser := JPEG; validate := jpegValidate |};
    {| parser := PNG; validate := pngValidate |};
    {| parser := GIF; validate := gifValidate |};
    {| parser := WebP; validate := webpValidate |};
    {| parser := BMP; validate := bmpValidate |};
    {| parser := ICO; validate := icoValidate |};
    {| parser := AVIF; validate := avifValidate |};
    {| parser := SVG; validate := svgValidate |} ].

Fixpoint firstValid (ds : list DetectorEntry) (buf : Buffer) : option Format :=
  match ds with
  | [] => None
  | d :: ds' => if validate d buf then Some (parser d) else firstValid ds' buf
  end.

Definition detectFormat (buf : Buffer) : option Format := firstValid detectors buf.

Definition getAllParsers : list Format := map parser detectors.

Definition mightBeImage (buf : Buffer) : bool :=
  if blength buf <? 2 then false
  else
    let firstByte := Buffer_get buf 0 in
    let secondByte := Buffer_get buf 1 in
    let second v := match secondByte with
                    | Some x => x =? v
                    | None => false
                    end in
    match firstByte with
    | Some 0xff => second 0xd8
    | Some 0x89 => second 0x50
    | Some 0x47 => second 0x49
    | Some 0x52 => second 0x49
    | Some 0x42 => second 0x4d
    | Some 0x00 => true
    | Some 0x3c => true
    | _ =>
        if blength buf >=? 8 then matchesSignature buf (js "ftyp") 4 else false
    end.

Definition getImageType (buf : Buffer) : option JSString :=
  if blength buf <? 2 then None
  else if jpegValidate buf then Some (js "jpg")
  else if pngValidate buf then Some (js "png")
  else if gifValidate buf then Some (js "gif")
  else if webpValidate buf then Some (js "webp")
  else if bmpValidate buf then Some (js "bmp")
  else if icoValidate buf then Some (js "ico")
  else if avifValidate buf then Some (js "avif")
  else if svgValidate buf then Some (js "svg")
  else None.

(* ================================================================== *)
(** * parseImage  (src/parsers/index.ts) *)
(* ================================================================== *)

(** One guarded call of a decoder:
    [try { const result = parser(buffer); if (result) return result; } catch {}].
    [Ret None] stands for "go on with the next one"; a [catch] stops an
    exception, not a decoder that never returns. *)
Definition attempt (p : Parser) (buf : Buffer) : Outcome (option ParseResult) :=
  match p buf with
  | Ret (Some result) => Ret (Some result)
  | Ret None => Ret None
  | Throw _ => Ret None
  | Hang => Hang
  end.

(** The fallback loop over [getAllParsers()]. *)
Fixpoint tryParsers (ps : list Format) (detectedParser : option Format)
  (buf : Buffer) : Outcome (option ParseResult) :=
  match ps with
  | [] => Ret None
  | p :: ps' =>
      if match detectedParser with
         | Some d => Format_eqb p d
         | None => false
         end
      then tryParsers ps' detectedParser buf
      else
        match attempt (parserOf p) buf with
        | Ret None => tryParsers ps' detectedParser buf
        | other => other
        end
  end.

Definition parseImage (buf : Buffer) : Outcome (option ParseResult) :=
  let detectedParser := detectFormat buf in
  match
    match detectedParser with
    | Some d => attempt (parserOf d) buf
    | None => Ret None
    end
  with
  | Ret None => tryParsers getAllParsers detectedParser buf
  | other => other
  end.

(* ================================================================== *)
(** * Facts about bytes, buffers and the reader *)
(* ================================================================== *)

Arguments byteVal : simpl nomatch.
Arguments blength : simpl never.
Arguments Z2F : simpl never.

Lemma byteVal_range (b : byte) : 0 <= byteVal b <= 255.
Proof.
  unfold byteVal. pose proof (Byte.to_N_bounded b). lia.
Qed.

Lemma blength_nonneg (buf : Buffer) : 0 <= blength buf.
Proof. unfold blength. lia. Qed.

Lemma blength_cons (b : byte) (buf : Buffer) : blength (b :: buf) = blength buf + 1.
Proof. unfold blength. cbn [length]. lia. Qed.

Lemma blength_app (a b : Buffer) : blength (a ++ b) = blength a + blength b.
Proof. unfold blength. rewrite length_app. lia. Qed.

Lemma Buffer_get_range (buf : Buffer) (i v : Z) :
  Buffer_get buf i = Some v -> 0 <= v <= 255.
Proof.
  unfold Buffer_get. destruct (i <? 0); [discriminate|].
  destruct (nth_error buf (Z.to_nat i)); cbn; [|discriminate].
  intros [= <-]. apply byteVal_range.
Qed.

Lemma byteAt_range (buf : Buffer) (i : Z) : 0 <= byteAt buf i <= 255.
Proof.
  unfold byteAt. destruct (Buffer_get buf i) eqn:E.
  - eapply Buffer_get_range; eauto.
  - lia.
Qed.

Lemma slice_length (buf : Buffer) (s e : Z) :
  0 <= s -> s <= e -> e <= blength buf ->
  Z.of_nat (length (slice buf s e)) = e - s.
Proof.
  intros Hs Hse He. unfold slice, blength in *.
  rewrite length_firstn, length_skipn. lia.
Qed.

Lemma slice_full (buf : Buffer) : slice buf 0 (blength buf) = buf.
Proof.
  unfold slice, blength. cbn [Z.to_nat skipn].
  rewrite Z.sub_0_r, Nat2Z.id. apply firstn_all.
Qed.

(** The reader's position is inside its buffer. *)
Definition in_bounds (r : BufferReader) : Prop :=
  0 <= position r <= blength (buffer r).

(* ================================================================== *)
(** * C6: the position of a BufferReader stays inside its buffer *)
(* ================================================================== *)

(** The methods that move or test the cursor, as data, so that statements
    can range over sequences of calls. *)
Inductive ReaderOp :=
| OpReadUInt8
| OpReadUInt16
| OpReadUInt32
| OpReadInt32
| OpReadString (len : Z) (enc : BufferEncoding)
| OpReadBytes (len : Z)
| OpPeekUInt8
| OpReadNullTerminatedString (maxLength : option Z) (enc : BufferEncoding)
| OpSkip (bytes : Z)
| OpSeek (p : Z).

Definition forget {A} (o : Outcome (A * BufferReader)) : Outcome BufferReader :=
  match o with
  | Ret (_, r) => Ret r
  | Throw e => Throw e
  | Hang => Hang
  end.

(** One call, the value returned left out. *)
Definition call (o : ReaderOp) (r : BufferReader) : Outcome BufferReader :=
  match o with
  | OpReadUInt8 => forget (readUInt8 r)
  | OpReadUInt16 => forget (readUInt16 r)
  | OpReadUInt32 => forget (readUInt32 r)
  | OpReadInt32 => forget (readInt32 r)
  | OpReadString len enc => forget (readString len enc r)
  | OpReadBytes len => forget (readBytes len r)
  | OpPeekUInt8 => forget (peekUInt8 r)
  | OpReadNullTerminatedString maxLength enc =>
      forget (readNullTerminatedString maxLength enc r)
  | OpSkip bytes => forget (skip bytes r)
  | OpSeek p => forget (seek p r)
  end.

(** The reader after a call: a method that throws does so before it
    assigns [this.position]. *)
Definition after (o : ReaderOp) (r : BufferReader) : BufferReader :=
  match call o r with
  | Ret r' => r'
  | _ => r
  end.

Definition afterAll (ops : list ReaderOp) (r : BufferReader) : BufferReader :=
  fold_left (fun r o => after o r) ops r.

(** The number of bytes a fixed-width read takes. *)
Definition op_width (o : ReaderOp) : option Z :=
  match o with
  | OpReadUInt8 | OpPeekUInt8 => Some 1
  | OpReadUInt16 => Some 2
  | OpReadUInt32 | OpReadInt32 => Some 4
  | OpReadString len _ | OpReadBytes len => Some len
  | _ => None
  end.

(** How far it moves the cursor. *)
Definition op_advance (o : ReaderOp) (w : Z) : Z :=
  match o with
  | OpPeekUInt8 => 0
  | _ => w
  end.

(** Byte counts are not negative. *)
Definition op_count_ok (o : ReaderOp) : Prop :=
  match o with
  | OpReadString len _ | OpReadBytes len | OpSkip len => 0 <= len
  | _ => True
  end.

Lemma scanNull_bounds (n : nat) (buf : Buffer) (e max : Z) :
  e <= scanNull n buf e max <= Z.max e max.
Proof.
  revert e. induction n as [|n IH]; intros e; cbn [scanNull]; [lia|].
  destruct (e <? max) eqn:E; cbn [andb]; [|lia].
  apply Z.ltb_lt in E.
  destruct (negb _); [|lia].
  specialize (IH (e + 1)). lia.
Qed.

Lemma Buffer_readUInt_in_range (le : bool) (w : Z) (buf : Buffer) (off : Z) :
  0 <= off -> off + w <= blength buf ->
  Buffer_readUInt le w buf off = Ret (uintValue le w buf off).
Proof.
  intros H0 H1. unfold Buffer_readUInt.
  destruct (off <? 0) eqn:E0; [apply Z.ltb_lt in E0; lia|].
  destruct (blength buf <? off + w) eqn:E1; [apply Z.ltb_lt in E1; lia|].
  reflexivity.
Qed.

Lemma call_in_bounds (o : ReaderOp) (r : BufferReader) :
  in_bounds r -> op_count_ok o ->
  in_bounds (after o r) /\ buffer (after o r) = buffer r.
Proof.
  unfold in_bounds, after. intros Hr Ho.
  pose proof (blength_nonneg (buffer r)) as Hlen.
  destruct o; cbn [call op_count_ok] in *.
  - unfold readUInt8. destruct (position r >=? blength (buffer r)) eqn:E;
      cbn; (split; [|reflexivity]); [lia|].
    rewrite Z.geb_leb in E. apply Z.leb_gt in E. lia.
  - unfold readUInt16. destruct (position r + 2 >? blength (buffer r)) eqn:E;
      cbn; [split; [lia|reflexivity]|].
    rewrite Z.gtb_ltb in E. apply Z.ltb_ge in E.
    unfold bind, lift. rewrite Buffer_readUInt_in_range by lia.
    cbn. split; [lia|reflexivity].
  - unfold readUInt32. destruct (position r + 4 >? blength (buffer r)) eqn:E;
      cbn; [split; [lia|reflexivity]|].
    rewrite Z.gtb_ltb in E. apply Z.ltb_ge in E.
    unfold bind, lift. rewrite Buffer_readUInt_in_range by lia.
    cbn. split; [lia|reflexivity].
  - unfold readInt32. destruct (position r + 4 >? blength (buffer r)) eqn:E;
      cbn; [split; [lia|reflexivity]|].
    rewrite Z.gtb_ltb in E. apply Z.ltb_ge in E.
    unfold bind, lift, Buffer_readInt32.
    rewrite Buffer_readUInt_in_range by lia. cbn. split; [lia|reflexivity].
  - unfold readString. destruct (position r + len >? blength (buffer r)) eqn:E;
      cbn; (split; [|reflexivity]); [lia|].
    rewrite Z.gtb_ltb in E. apply Z.ltb_ge in E. lia.
  - unfold readBytes. destruct (position r + len >? blength (buffer r)) eqn:E;
      cbn; (split; [|reflexivity]); [lia|].
    rewrite Z.gtb_ltb in E. apply Z.ltb_ge in E. lia.
  - unfold peekUInt8. destruct (position r >=? blength (buffer r)); cbn;
      (split; [lia|reflexivity]).
  - unfold readNullTerminatedString. cbn [forget position buffer set_position].
    set (max := match maxLength with
                | Some n => if truthyZ n
                            then Z.min (position r + n) (blength (buffer r))
                            else blength (buffer r)
                | None => blength (buffer r)
                end).
    assert (Hmax : max <= blength (buffer r)).
    { subst max. destruct maxLength as [n|]; [destruct (truthyZ n)|]; lia. }
    pose proof (scanNull_bounds (Z.to_nat (max - position r)) (buffer r)
                                (position r) max) as Hs.
    split; [|reflexivity].
    destruct (_ <? max) eqn:E; [apply Z.ltb_lt in E|apply Z.ltb_ge in E]; lia.
  - unfold skip. cbn. split; [lia|reflexivity].
  - unfold seek. destruct (p <? 0) eqn:E0; cbn; [split; [lia|reflexivity]|].
    destruct (p >? blength (buffer r)) eqn:E1; cbn; (split; [|reflexivity]);
      [lia|].
    apply Z.ltb_ge in E0. rewrite Z.gtb_ltb in E1. apply Z.ltb_ge in E1. lia.
Qed.

Lemma afterAll_in_bounds (ops : list ReaderOp) (r : BufferReader) :
  in_bounds r -> Forall op_count_ok ops ->
  in_bounds (afterAll ops r) /\ buffer (afterAll ops r) = buffer r.
Proof.
  revert r. induction ops as [|o ops IH]; intros r Hr Hops; cbn.
  - split; [assumption|reflexivity].
  - inversion Hops as [|? ? Ho Hrest]; subst.
    destruct (call_in_bounds o r Hr Ho) as [Hb Hbuf].
    destruct (IH (after o r) Hb Hrest) as [Hb' Hbuf'].
    split; [exact Hb'|]. unfold afterAll in *. cbn. congruence.
Qed.

Lemma fixed_width_read (o : ReaderOp) (w : Z) (r : BufferReader) :
  op_width o = Some w -> in_bounds r -> op_count_ok o ->
  if position r + w >? blength (buffer r)
  then (exists msg, call o r = Throw msg) /\ after o r = r
  else exists r', call o r = Ret r' /\
                  position r' = position r + op_advance o w /\
                  buffer r' = buffer r.
Proof.
  unfold in_bounds, after. intros Hw Hr Ho.
  destruct o; cbn [op_width] in Hw; try discriminate;
    injection Hw as <-; cbn [call op_advance op_count_ok] in *.
  - unfold readUInt8. rewrite Z.geb_leb.
    destruct (position r + 1 >? blength (buffer r)) eqn:E.
    + rewrite Z.gtb_ltb in E. apply Z.ltb_lt in E.
      rewrite (proj2 (Z.leb_le _ _)) by lia. cbn. eauto.
    + rewrite Z.gtb_ltb in E. apply Z.ltb_ge in E.
      rewrite (proj2 (Z.leb_gt _ _)) by lia. cbn. eauto.
  - unfold readUInt16. destruct (position r + 2 >? blength (buffer r)) eqn:E;
      cbn; [eauto|]. rewrite Z.gtb_ltb in E. apply Z.ltb_ge in E.
    unfold bind, lift. rewrite Buffer_readUInt_in_range by lia. cbn. eauto.
  - unfold readUInt32. destruct (position r + 4 >? blength (buffer r)) eqn:E;
      cbn; [eauto|]. rewrite Z.gtb_ltb in E. apply Z.ltb_ge in E.
    unfold bind, lift. rewrite Buffer_readUInt_in_range by lia. cbn. eauto.
  - unfold readInt32. destruct (position r + 4 >? blength (buffer r)) eqn:E;
      cbn; [eauto|]. rewrite Z.gtb_ltb in E. apply Z.ltb_ge in E.
    unfold bind, lift, Buffer_readInt32.
    rewrite Buffer_readUInt_in_range by lia. cbn. eauto.
  - unfold readString. destruct (position r + len >? blength (buffer r));
      cbn; eauto.
  - unfold readBytes. destruct (position r + len >? blength (buffer r));
      cbn; eauto.
  - unfold peekUInt8. rewrite Z.geb_leb.
    destruct (position r + 1 >? blength (buffer r)) eqn:E.
    + rewrite Z.gtb_ltb in E. apply Z.ltb_lt in E.
      rewrite (proj2 (Z.leb_le _ _)) by lia. cbn. eauto.
    + rewrite Z.gtb_ltb in E. apply Z.ltb_ge in E.
      rewrite (proj2 (Z.leb_gt _ _)) by lia. cbn.
      exists r. rewrite Z.add_0_r. auto.
Qed.

(** C6, counterexample.  The methods take their byte count as it comes:
    on a new reader over three bytes, [skip(-1)] assigns
    [Math.min(0 + -1, 3)] and [readBytes(-1)] passes its check
    ([0 + -1 > 3] is false) and adds [-1]; the position is then [-1],
    outside [[0, 3]]. *)
Lemma negative_count_leaves_bounds :
  let r := new_BufferReader [x01; x02; x03] false in
  in_bounds r /\
  call (OpSkip (-1)) r = Ret (set_position r (-1)) /\
  call (OpReadBytes (-1)) r = Ret (set_position r (-1)) /\
  ~ in_bounds (after (OpSkip (-1)) r) /\
  ~ in_bounds (after (OpReadBytes (-1)) r).
Proof.
  cbv zeta. unfold in_bounds.
  split; [vm_compute; split; discriminate|].
  split; [reflexivity|]. split; [reflexivity|].
  split; vm_compute; intros [H _]; apply H; reflexivity.
Qed.

(** C6, amended.  For a reader whose position is inside its buffer and
    calls whose byte counts are not negative: after any one call, and after
    any sequence of calls, the position is still in [[0, length]] and the
    buffer is the same; [skip] never fails and clamps to the length;
    [seek] fails exactly on a negative or past-end target; a read (or
    peek) of [w] bytes fails, leaving the reader as it was, exactly when
    [position + w] exceeds the length, and otherwise moves the position
    by the bytes it took. *)
Theorem BufferReader_position_invariant
  (r : BufferReader) (o : ReaderOp) (ops : list ReaderOp) :
  in_bounds r -> op_count_ok o -> Forall op_count_ok ops ->
  (in_bounds (after o r) /\ buffer (after o r) = buffer r) /\
  (in_bounds (afterAll ops r) /\ buffer (afterAll ops r) = buffer r) /\
  (forall n, o = OpSkip n ->
     call o r =
     Ret (set_position r (Z.min (position r + n) (blength (buffer r))))) /\
  (forall p, o = OpSeek p ->
     if (p <? 0) || (p >? blength (buffer r))
     then (exists msg, call o r = Throw msg) /\ after o r = r
     else call o r = Ret (set_position r p)) /\
  (forall w, op_width o = Some w ->
     if position r + w >? blength (buffer r)
     then (exists msg, call o r = Throw msg) /\ after o r = r
     else exists r', call o r = Ret r' /\
                     position r' = position r + op_advance o w /\
                     buffer r' = buffer r).
Proof.
  intros Hr Ho Hops.
  split; [apply call_in_bounds; assumption|].
  split; [apply afterAll_in_bounds; assumption|].
  split; [intros n ->; reflexivity|].
  split.
  - intros p ->. unfold after. cbn [call]. unfold seek.
    destruct ((p <? 0) || (p >? blength (buffer r))); cbn; eauto.
  - intros w Hw. apply fixed_width_read; assumption.
Qed.

Lemma BufferReader_position_invariant_witness :
  let r := new_BufferReader [x01; x02; x03] false in
  let ops := [OpSkip 10; OpReadUInt8; OpSeek 1; OpReadUInt32; OpReadString 2 utf8] in
  (in_bounds (after OpReadUInt16 r) /\ buffer (after OpReadUInt16 r) = buffer r) /\
  (in_bounds (afterAll ops r) /\ buffer (afterAll ops r) = buffer r) /\
  (forall n, OpReadUInt16 = OpSkip n ->
     call OpReadUInt16 r =
     Ret (set_position r (Z.min (position r + n) (blength (buffer r))))) /\
  (forall p, OpReadUInt16 = OpSeek p ->
     if (p <? 0) || (p >? blength (buffer r))
     then (exists msg, call OpReadUInt16 r = Throw msg) /\ after OpReadUInt16 r = r
     else call OpReadUInt16 r = Ret (set_position r p)) /\
  (forall w, op_width OpReadUInt16 = Some w ->
     if position r + w >? blength (buffer r)
     then (exists msg, call OpReadUInt16 r = Throw msg) /\ after OpReadUInt16 r = r
     else exists r', call OpReadUInt16 r = Ret r' /\
                     position r' = position r + op_advance OpReadUInt16 w /\
                     buffer r' = buffer r).
Proof.
  intros r ops.
  apply (BufferReader_position_invariant r OpReadUInt16 ops).
  - unfold in_bounds. cbn. unfold blength. cbn. lia.
  - exact I.
  - repeat constructor; cbn; lia.
Defined.

(* ================================================================== *)
(** * Reads that succeed *)
(* ================================================================== *)

Lemma bind_Ret {A B} (m : M A) (k : A -> M B) (r r' : BufferReader) (a : A) :
  m r = Ret (a, r') -> bind m k r = k a r'.
Proof. intros H. unfold bind. rewrite H. reflexivity. Qed.

Lemma canRead_true (n : Z) (r : BufferReader) :
  position r + n <= blength (buffer r) -> canRead n r = Ret (true, r).
Proof. intros H. unfold canRead. rewrite (proj2 (Z.leb_le _ _)) by lia. reflexivity. Qed.

Lemma canRead_false (n : Z) (r : BufferReader) :
  blength (buffer r) < position r + n -> canRead n r = Ret (false, r).
Proof. intros H. unfold canRead. rewrite (proj2 (Z.leb_gt _ _)) by lia. reflexivity. Qed.

Lemma readUInt8_ok (r : BufferReader) :
  position r < blength (buffer r) ->
  readUInt8 r = Ret (byteAt (buffer r) (position r), set_position r (position r + 1)).
Proof.
  intros H. unfold readUInt8. rewrite Z.geb_leb.
  rewrite (proj2 (Z.leb_gt _ _)) by lia. reflexivity.
Qed.

Lemma readUInt16_ok (r : BufferReader) :
  0 <= position r -> position r + 2 <= blength (buffer r) ->
  readUInt16 r = Ret (uintValue (littleEndian r) 2 (buffer r) (position r),
                      set_position r (position r + 2)).
Proof.
  intros H0 H. unfold readUInt16. rewrite Z.gtb_ltb.
  rewrite (proj2 (Z.ltb_ge _ _)) by lia.
  unfold bind, lift. rewrite Buffer_readUInt_in_range by lia. reflexivity.
Qed.

Lemma readUInt32_ok (r : BufferReader) :
  0 <= position r -> position r + 4 <= blength (buffer r) ->
  readUInt32 r = Ret (uintValue (littleEndian r) 4 (buffer r) (position r),
                      set_position r (position r + 4)).
Proof.
  intros H0 H. unfold readUInt32. rewrite Z.gtb_ltb.
  rewrite (proj2 (Z.ltb_ge _ _)) by lia.
  unfold bind, lift. rewrite Buffer_readUInt_in_range by lia. reflexivity.
Qed.

Lemma readInt32_ok (r : BufferReader) :
  0 <= position r -> position r + 4 <= blength (buffer r) ->
  readInt32 r = Ret (toSigned32 (uintValue (littleEndian r) 4 (buffer r) (position r)),
                     set_position r (position r + 4)).
Proof.
  intros H0 H. unfold readInt32. rewrite Z.gtb_ltb.
  rewrite (proj2 (Z.ltb_ge _ _)) by lia.
  unfold bind, lift, Buffer_readInt32.
  rewrite Buffer_readUInt_in_range by lia. reflexivity.
Qed.

Lemma readString_ok (len : Z) (enc : BufferEncoding) (r : BufferReader) :
  position r + len <= blength (buffer r) ->
  readString len enc r =
  Ret (Buffer_toString enc (buffer r) (position r) (position r + len),
       set_position r (position r + len)).
Proof.
  intros H. unfold readString. rewrite Z.gtb_ltb.
  rewrite (proj2 (Z.ltb_ge _ _)) by lia. reflexivity.
Qed.

Lemma readBytes_ok (len : Z) (r : BufferReader) :
  position r + len <= blength (buffer r) ->
  readBytes len r =
  Ret (subarray (buffer r) (position r) (position r + len),
       set_position r (position r + len)).
Proof.
  intros H. unfold readBytes. rewrite Z.gtb_ltb.
  rewrite (proj2 (Z.ltb_ge _ _)) by lia. reflexivity.
Qed.

Lemma skip_ok (n : Z) (r : BufferReader) :
  position r + n <= blength (buffer r) ->
  skip n r = Ret (tt, set_position r (position r + n)).
Proof. intros H. unfold skip. rewrite Z.min_l by lia. reflexivity. Qed.

Lemma seek_ok (p : Z) (r : BufferReader) :
  0 <= p <= blength (buffer r) -> seek p r = Ret (tt, set_position r p).
Proof.
  intros H. unfold seek. rewrite (proj2 (Z.ltb_ge _ _)) by lia.
  rewrite Z.gtb_ltb, (proj2 (Z.ltb_ge _ _)) by lia. reflexivity.
Qed.

(** One step of a run: the first call of a [bind] chain is replaced by
    its result, the side conditions being bounds that [lia] settles. *)
Ltac reader_norm :=
  cbn [position buffer littleEndian set_position new_BufferReader
       Z.add Z.sub Z.opp Z.mul Z.pos_sub Z.succ_double Z.pred_double Z.double
       Pos.add Pos.succ Pos.add_carry Pos.mul Pos.pred_double].

Ltac reader_side :=
  cbn [position buffer littleEndian set_position new_BufferReader]; lia.

Ltac reader_step :=
  lazymatch goal with
  | |- context [bind (canRead ?n) ?k ?r] =>
      first
        [ rewrite (bind_Ret (canRead n) k r r true
                     (canRead_true n r ltac:(reader_side)))
        | rewrite (bind_Ret (canRead n) k r r false
                     (canRead_false n r ltac:(reader_side))) ]
  | |- context [bind readUInt8 ?k ?r] =>
      rewrite (bind_Ret readUInt8 k r _ _ (readUInt8_ok r ltac:(reader_side)))
  | |- context [bind readUInt16 ?k ?r] =>
      rewrite (bind_Ret readUInt16 k r _ _
                 (readUInt16_ok r ltac:(reader_side) ltac:(reader_side)))
  | |- context [bind readUInt32 ?k ?r] =>
      rewrite (bind_Ret readUInt32 k r _ _
                 (readUInt32_ok r ltac:(reader_side) ltac:(reader_side)))
  | |- context [bind readInt32 ?k ?r] =>
      rewrite (bind_Ret readInt32 k r _ _
                 (readInt32_ok r ltac:(reader_side) ltac:(reader_side)))
  | |- context [bind (readString ?n ?e) ?k ?r] =>
      rewrite (bind_Ret (readString n e) k r _ _
                 (readString_ok n e r ltac:(reader_side)))
  | |- context [bind (readBytes ?n) ?k ?r] =>
      rewrite (bind_Ret (readBytes n) k r _ _
                 (readBytes_ok n r ltac:(reader_side)))
  | |- context [bind (skip ?n) ?k ?r] =>
      rewrite (bind_Ret (skip n) k r _ _ (skip_ok n r ltac:(reader_side)))
  | |- context [bind (seek ?p) ?k ?r] =>
      rewrite (bind_Ret (seek p) k r _ _ (seek_ok p r ltac:(reader_side)))
  | |- context [bind getPosition ?k ?r] =>
      rewrite (bind_Ret getPosition k r r (position r) eq_refl)
  | |- context [bind getBuffer ?k ?r] =>
      rewrite (bind_Ret getBuffer k r r (buffer r) eq_refl)
  | |- context [bind remaining ?k ?r] =>
      rewrite (bind_Ret remaining k r r (blength (buffer r) - position r) eq_refl)
  end.

(* ================================================================== *)
(** * C10: parseICO accepts every complete directory *)
(* ================================================================== *)

(** A directory entry as [parseDirectoryEntry] builds it: a stored size
    byte of 0 stands for 256, so both sizes are in [[1, 256]]. *)
Definition ico_entry_ok (e : IcoDirectoryEntry) : Prop :=
  1 <= ico_width e <= 256 /\ 1 <= ico_height e <= 256.

Lemma or256_range (x : Z) : 0 <= x <= 255 -> 1 <= or256 x <= 256.
Proof.
  intros H. unfold or256, truthyZ.
  destruct (x =? 0) eqn:E; cbn; [lia|]. apply Z.eqb_neq in E. lia.
Qed.

Lemma parseDirectoryEntry_ok (r : BufferReader) :
  0 <= position r -> position r + 16 <= blength (buffer r) ->
  exists e, parseDirectoryEntry r = Ret (Some e, set_position r (position r + 16))
            /\ ico_entry_ok e.
Proof.
  intros H0 H. unfold parseDirectoryEntry.
  reader_step. cbn [negb].
  do 8 reader_step.
  cbn [position buffer littleEndian set_position]. unfold ret.
  eexists. split.
  - unfold set_position. cbn [position buffer littleEndian].
    do 3 f_equal. lia.
  - split; cbn [ico_width ico_height]; apply or256_range; apply byteAt_range.
Qed.

Lemma ico_entries_ok (n : nat) :
  forall (r : BufferReader) (maxWidth maxHeight : Z)
         (bestEntry : option IcoDirectoryEntry),
    0 <= position r ->
    position r + 16 * Z.of_nat n <= blength (buffer r) ->
    (forall b, bestEntry = Some b -> ico_entry_ok b) ->
    exists best' r',
      ico_entries n maxWidth maxHeight bestEntry r = Ret (best', r') /\
      (forall b, best' = Some b -> ico_entry_ok b) /\
      (bestEntry <> None \/ (maxWidth = 0 /\ (0 < n)%nat) -> best' <> None).
Proof.
  induction n as [|n IH]; intros r maxWidth maxHeight bestEntry H0 H Hb.
  - cbn [ico_entries]. unfold ret. exists bestEntry, r.
    split; [reflexivity|]. split; [assumption|].
    intros [Hne|[_ Hn]]; [assumption|lia].
  - cbn [ico_entries].
    destruct (parseDirectoryEntry_ok r H0 ltac:(lia)) as (e & He & Hok).
    rewrite (bind_Ret _ _ _ _ _ He).
    set (r1 := set_position r (position r + 16)).
    assert (H1 : 0 <= position r1)
      by (subst r1; cbn [position set_position]; lia).
    assert (H2 : position r1 + 16 * Z.of_nat n <= blength (buffer r1))
      by (subst r1; cbn [position buffer set_position]; lia).
    destruct ((ico_width e >? 0) && (ico_height e >? 0) &&
              ico_better e maxWidth maxHeight bestEntry) eqn:Ec.
    + destruct (IH r1 (ico_width e) (ico_height e) (Some e) H1 H2)
        as (best' & r' & Hrun & Hall & Hsome).
      { intros b [= <-]. exact Hok. }
      exists best', r'. split; [exact Hrun|]. split; [exact Hall|].
      intros _. apply Hsome. left. discriminate.
    + destruct (IH r1 maxWidth maxHeight bestEntry H1 H2 Hb)
        as (best' & r' & Hrun & Hall & Hsome).
      exists best', r'. split; [exact Hrun|]. split; [exact Hall|].
      intros [Hne|[Hw _]]; [apply Hsome; left; exact Hne|].
      exfalso. subst maxWidth. destruct Hok as [Hw Hh].
      unfold ico_better in Ec.
      rewrite (proj2 (Z.gtb_gt (ico_width e) 0)) in Ec by lia.
      rewrite (proj2 (Z.gtb_gt (ico_height e) 0)) in Ec by lia.
      cbn in Ec. discriminate.
Qed.



(* ================================================================== *)
(** * C1: the end-to-end PNG scenario *)
(* ================================================================== *)

(** The result the scenario expects. *)
Definition png_320x256 : ParseResult :=
  {| width := 320; height := 256;
     type := js "png"; mime := js "image/png";
     wUnits := js "px"; hUnits := js "px";
     wResolution := None; hResolution := None;
     bitDepth := Some 8%float; channels := Some 4%float;
     colorSpace := None; iccProfile := None; gamma := None |}.

(** Signature, IHDR chunk (length 13, 320 x 256, bit depth 8, color type
    6, compression, filter and interlace 0) and IEND chunk (length 0),
    with the given CRC bytes. *)
Definition png_scenario (crc1 crc2 : byte * byte * byte * byte) : Buffer :=
  let '(a1, a2, a3, a4) := crc1 in
  let '(b1, b2, b3, b4) := crc2 in
  [x89; x50; x4e; x47; x0d; x0a; x1a; x0a] ++
  [x00; x00; x00; x0d; x49; x48; x44; x52;
   x00; x00; x01; x40; x00; x00; x01; x00; x08; x06; x00; x00; x00;
   a1; a2; a3; a4] ++
  [x00; x00; x00; x00; x49; x45; x4e; x44; b1; b2; b3; b4].

(** C1.  Whatever the two CRCs are, [parsePNG] and [parseImage] both
    return width 320, height 256, type "png", mime "image/png", bit depth
    8 and 4 channels (and pixel units, with no other field set) on the
    scenario buffer. *)
Theorem png_scenario_parses (crc1 crc2 : byte * byte * byte * byte) :
  parsePNG (png_scenario crc1 crc2) = Ret (Some png_320x256) /\
  parseImage (png_scenario crc1 crc2) = Ret (Some png_320x256).
Proof.
  destruct crc1 as [[[a1 a2] a3] a4], crc2 as [[[b1 b2] b3] b4].
  split; vm_compute; reflexivity.
Qed.

(* ================================================================== *)
(** * C2: the dispatcher and the detected decoder *)
(* ================================================================== *)

(** The result of [parseSVG] for an opening tag without dimensions. *)
Definition svg_default : ParseResult := plain_result 300 150 "svg" "image/svg+xml".

(** C2, counterexample.  On the seven bytes [BM<svg>] the detector picks
    the BMP decoder, which returns none (the buffer is shorter than 26
    bytes); [parseImage] then falls back on the other decoders and
    returns what [parseSVG] finds.  The two calls differ. *)
Lemma parseImage_differs_from_detected_decoder :
  let buf := [x42; x4d; x3c; x73; x76; x67; x3e] in
  detectFormat buf = Some BMP /\
  parserOf BMP buf = Ret None /\
  parseImage buf = Ret (Some svg_default) /\
  parseImage buf <> parserOf BMP buf.
Proof.
  cbv zeta.
  assert (H1 : parserOf BMP [x42; x4d; x3c; x73; x76; x67; x3e] = Ret None)
    by (vm_compute; reflexivity).
  assert (H2 : parseImage [x42; x4d; x3c; x73; x76; x67; x3e]
               = Ret (Some svg_default)) by (vm_compute; reflexivity).
  split; [vm_compute; reflexivity|].
  split; [exact H1|].
  split; [exact H2|].
  rewrite H1, H2. discriminate.
Qed.

(* ================================================================== *)
(** * C3: decoders called directly on malformed input *)
(* ================================================================== *)

(** A JPEG that ends with an Adobe APP14 segment of declared length 12:
    SOI, FF EE, length 00 0C, "Adobe" and five more bytes. *)
Definition jpeg_short_adobe : Buffer :=
  [xff; xd8; xff; xee; x00; x0c; x41; x64; x6f; x62; x65;
   x00; x00; x00; x00; x00].

(** A WebP whose last chunk has an odd size and no padding byte:
    "RIFF", four size bytes, "WEBP", chunk "XXXX" of size 1, one byte. *)
Definition webp_odd_chunk : Buffer :=
  [x52; x49; x46; x46; x00; x00; x00; x00; x57; x45; x42; x50;
   x58; x58; x58; x58; x01; x00; x00; x00; x00].

(** A BMP of 27 bytes that declares a DIB header of 13 bytes. *)
Definition bmp_header_13 : Buffer :=
  [x42; x4d; x00; x00; x00; x00; x00; x00; x00; x00; x36; x00; x00; x00;
   x0d; x00; x00; x00; x40; x01; x00; x00; x00; x01; x00; x00; x01].

(** An AVIF cut inside its 'meta' box: a complete 'ftyp' box with major
    brand avif, then a 'meta' box of declared size 20 whose only child
    declares 65535 bytes. *)
Definition avif_cut_meta : Buffer :=
  [x00; x00; x00; x10; x66; x74; x79; x70; x61; x76; x69; x66;
   x00; x00; x00; x00;
   x00; x00; x00; x14; x6d; x65; x74; x61; x00; x00; x00; x00;
   x00; x00; xff; xff; x66; x72; x65; x65].

(** An ISO-BMFF box with an extended size whose low word is 0. *)
Definition avif_zero_box : Buffer :=
  [x00; x00; x00; x01; x66; x72; x65; x65;
   x00; x00; x00; x00; x00; x00; x00; x00].

(** ** The decoders that check before they read *)

(** A call that returns: no exception, no endless loop. *)
Definition returns {A} (o : Outcome A) : Prop := exists a, o = Ret a.

Lemma uintValue_nonneg (le : bool) (w : Z) (buf : Buffer) (off : Z) :
  0 <= uintValue le w buf off.
Proof.
  unfold uintValue.
  assert (H : forall (l : list Z) (acc : Z),
             0 <= acc -> Forall (fun b => 0 <= b) l ->
             0 <= fold_left (fun acc b => acc * 256 + b) l acc).
  { induction l as [|b l IH]; intros acc Hacc Hl; cbn [fold_left]; [lia|].
    inversion Hl; subst. apply IH; [lia|assumption]. }
  assert (Hb : forall l : Buffer, Forall (fun b => 0 <= b) (map byteVal l)).
  { induction l as [|b l IH]; cbn [map]; constructor; [|exact IH].
    pose proof (byteVal_range b). lia. }
  apply H; [lia|]. destruct le; [apply Forall_rev|]; apply Hb.
Qed.

Lemma peekUInt8_ok (r : BufferReader) :
  position r < blength (buffer r) ->
  peekUInt8 r = Ret (byteAt (buffer r) (position r), r).
Proof.
  intros H. unfold peekUInt8. rewrite Z.geb_leb.
  rewrite (proj2 (Z.leb_gt _ _)) by lia. reflexivity.
Qed.

(** The name scan of an iCCP chunk stays inside the chunk. *)
Lemma png_iccp_scan_returns (n : nat) :
  forall (nameEnd : Z) (r : BufferReader),
    position r + Z.of_nat n <= blength (buffer r) ->
    exists e r',
      png_iccp_scan n nameEnd r = Ret (e, r') /\
      buffer r' = buffer r /\
      nameEnd <= e <= nameEnd + Z.of_nat n.
Proof.
  induction n as [|n IH]; intros nameEnd r H; cbn [png_iccp_scan].
  - exists nameEnd, r. unfold ret. repeat split; lia.
  - rewrite (bind_Ret _ _ _ _ _ (peekUInt8_ok r ltac:(lia))).
    destruct (byteAt (buffer r) (position r) =? 0).
    + exists nameEnd, r. unfold ret. repeat split; lia.
    + reader_step.
      destruct (IH (nameEnd + 1) (set_position r (position r + 1)))
        as (e & r' & He & Hb & Hr);
        [cbn [position buffer set_position]; lia|].
      exists e, r'. split; [exact He|]. split; [exact Hb|]. lia.
Qed.

(** The chunk handlers read inside the chunk they were given. *)
Lemma png_chunk_returns (chunkType : JSString) (chunkLength : Z)
      (v : PngVars) (r : BufferReader) :
  0 <= position r -> 0 <= chunkLength ->
  position r + chunkLength <= blength (buffer r) ->
  exists v' r',
    png_chunk chunkType chunkLength (position r) v r = Ret (v', r') /\
    buffer r' = buffer r.
Proof.
  intros H0 Hlen H. unfold png_chunk.
  destruct (jstr_eqb chunkType (js "IHDR")).
  { destruct (Z.eqb_spec chunkLength 13); [|unfold ret; eauto].
    do 5 reader_step. unfold ret. eauto. }
  destruct (jstr_eqb chunkType (js "pHYs")).
  { destruct (Z.eqb_spec chunkLength 9); [|unfold ret; eauto].
    do 3 reader_step.
    repeat match goal with
           | |- context [if ?c then _ else _] => destruct c
           end; unfold ret; eauto. }
  destruct (jstr_eqb chunkType (js "eXIf")); [unfold ret; eauto|].
  destruct (jstr_eqb chunkType (js "sRGB")).
  { destruct (chunkLength >=? 1); unfold ret; eauto. }
  destruct (jstr_eqb chunkType (js "iCCP")).
  { destruct (Z.gtb_spec chunkLength 0); [|unfold ret; eauto].
    destruct (png_iccp_scan_returns
                (Z.to_nat (Z.min chunkLength 79)) (position r) r)
      as (e & r1 & He & Hb & Hr); [lia|].
    rewrite (bind_Ret _ _ _ _ _ He).
    destruct (e >? position r); [|unfold ret; eauto].
    assert (Hb' : blength (buffer r1) = blength (buffer r))
      by (rewrite Hb; reflexivity).
    do 2 reader_step. unfold ret. do 2 eexists. split; [reflexivity|].
    cbn [buffer set_position]. exact Hb. }
  destruct (jstr_eqb chunkType (js "gAMA")).
  { destruct (Z.eqb_spec chunkLength 4); [|unfold ret; eauto].
    reader_step. unfold ret. eauto. }
  unfold ret. eauto.
Qed.

(** Every turn of the chunk loop takes twelve bytes or more. *)
Lemma png_chunks_returns (fuel : nat) :
  forall (v : PngVars) (r : BufferReader),
    0 <= position r <= blength (buffer r) ->
    blength (buffer r) - position r < 12 * Z.of_nat fuel ->
    exists v' r', png_chunks fuel v r = Ret (v', r').
Proof.
  induction fuel as [|fuel IH]; intros v r Hr Hfuel; [lia|].
  cbn [png_chunks]. reader_step.
  destruct (Z.geb_spec (blength (buffer r) - position r) 12) as [Hrem|];
    [|unfold ret; eauto].
  do 2 reader_step.
  pose proof (uintValue_nonneg (littleEndian r) 4 (buffer r) (position r))
    as Hlen.
  set (chunkLength := uintValue (littleEndian r) 4 (buffer r) (position r)) in *.
  destruct (Z.le_gt_cases (position r + 8 + (chunkLength + 4))
                          (blength (buffer r))) as [Hfit|Hcut].
  - reader_step. cbn [negb]. reader_step.
    destruct (png_chunk_returns
                (Buffer_toString utf8 (buffer r) (position r + 4)
                                 (position r + 4 + 4))
                chunkLength v
                (set_position (set_position r (position r + 4))
                              (position r + 4 + 4)))
      as (v' & r1 & Hc & Hb);
      [cbn [position buffer set_position]; lia ..|].
    cbn [position buffer set_position] in Hc, Hb.
    cbn [position buffer set_position].
    rewrite (bind_Ret _ _ _ _ _ Hc).
    assert (Hb' : blength (buffer r1) = blength (buffer r))
      by (rewrite Hb; reflexivity).
    reader_step.
    destruct (jstr_eqb _ (js "IEND")); [unfold ret; eauto|].
    apply IH; cbn [position buffer set_position]; lia.
  - reader_step. cbn [negb]. unfold ret. eauto.
Qed.

Lemma parsePNG_returns (buf : Buffer) : returns (parsePNG buf).
Proof.
  unfold returns, parsePNG.
  destruct (Z.ltb_spec (blength buf) 24) as [|Hlen]; [eauto|].
  destruct (negb (Buffer_equals (subarray buf 0 8) PNG_SIGNATURE)); [eauto|].
  unfold run. reader_step.
  destruct (png_chunks_returns (budget buf) png_init
              (set_position (new_BufferReader buf false) 8))
    as (v & r & Hv); [reader_side| |].
  - unfold budget, blength. cbn [position buffer set_position new_BufferReader].
    lia.
  - rewrite (bind_Ret _ _ _ _ _ Hv). unfold ret. eauto.
Qed.

Lemma parseGIF_returns (buf : Buffer) : returns (parseGIF buf).
Proof.
  unfold returns, parseGIF.
  destruct (Z.ltb_spec (blength buf) 10) as [|Hlen]; [eauto|].
  unfold run. reader_step.
  destruct (_ && _); [unfold ret; eauto|].
  do 2 reader_step.
  destruct (_ || _); unfold ret; eauto.
Qed.

Lemma parseICO_returns (buf : Buffer) : returns (parseICO buf).
Proof.
  unfold returns, parseICO.
  destruct (Z.ltb_spec (blength buf) 6) as [|Hlen]; [eauto|].
  unfold run. do 3 reader_step.
  destruct (_ || _); [unfold ret; eauto|].
  reader_norm.
  pose proof (uintValue_nonneg true 2 buf 4) as Hcount.
  set (count := uintValue true 2 buf 4) in *.
  destruct (Z.le_gt_cases (6 + count * 16) (blength buf)) as [Hfit|Hcut].
  - reader_step. cbn [negb].
    destruct (ico_entries_ok (Z.to_nat count)
                {| buffer := buf; position := 6; littleEndian := true |}
                0 0 None)
      as (best & r & Hbest & _);
      [cbn [position]; lia
      |cbn [position buffer]; lia
      |discriminate|].
    rewrite (bind_Ret _ _ _ _ _ Hbest).
    destruct best; unfold ret; eauto.
  - reader_step. cbn [negb]. unfold ret. eauto.
Qed.

Lemma parseSVG_returns (buf : Buffer) : returns (parseSVG buf).
Proof.
  unfold returns, parseSVG.
  destruct (blength buf <? 4); [eauto|]. cbv zeta.
  destruct (negb _); [eauto|].
  destruct (execFirst svgTagAt _); eauto.
Qed.

(** The walk over the boxes of [avif_zero_box] comes back to where it
    started: the box size read is 0, and the seek to the end of the box
    is a seek to its start.  No number of iterations ends it. *)
Lemma avif_zero_box_loops (fuel : nat) :
  avif_boxes fuel (budget avif_zero_box) av_init
             (new_BufferReader avif_zero_box false) = Hang.
Proof.
  induction fuel as [|fuel IH]; [reflexivity|]. exact IH.
Qed.

(** C3, the code at the failing inputs.  [parsePNG], [parseGIF],
    [parseICO] and [parseSVG] return, a result or none, on every buffer.
    Called directly, [parseJPEG], [parseWebP], [parseBMP] and [parseAVIF]
    let the bounds error of the reader leave the call instead of
    returning none, and [parseAVIF] does not return at all on a box whose
    extended size reads 0. *)
Theorem decoders_throw_on_malformed_input :
  (forall buf : Buffer,
     returns (parsePNG buf) /\ returns (parseGIF buf) /\
     returns (parseICO buf) /\ returns (parseSVG buf)) /\
  parseJPEG jpeg_short_adobe = Throw "Attempt to read past buffer" /\
  parseWebP webp_odd_chunk = Throw "Invalid seek position" /\
  parseBMP bmp_header_13 = Throw "Attempt to read past buffer" /\
  parseAVIF avif_cut_meta = Throw "Invalid seek position" /\
  (forall fuel : nat,
     run (v <- avif_boxes fuel (budget avif_zero_box) av_init ;;
          ret (avif_result v))
         (new_BufferReader avif_zero_box false) = Hang).
Proof.
  split.
  { intros buf. split; [apply parsePNG_returns|].
    split; [apply parseGIF_returns|].
    split; [apply parseICO_returns|apply parseSVG_returns]. }
  split; [vm_compute; reflexivity|].
  split; [vm_compute; reflexivity|].
  split; [vm_compute; reflexivity|].
  split; [vm_compute; reflexivity|].
  intros fuel. unfold run, bind. rewrite avif_zero_box_loops. reflexivity.
Qed.

(* ================================================================== *)
(** * Facts about UTF-8 decoding *)
(* ================================================================== *)

(** Inside a sequence the next byte has to be a continuation byte. *)
Definition utf8_state_ok (st : option Utf8State) : Prop :=
  match st with
  | Some s => 128 <= u_lo s
  | None => True
  end.

Lemma utf8_lead_ok (b : Z) : utf8_state_ok (snd (utf8_lead b)).
Proof.
  unfold utf8_lead.
  repeat match goal with
         | |- context [if ?c then _ else _] => destruct c
         end; cbn; lia.
Qed.

(** An ASCII byte ends whatever came before it: the text decoded up to it
    does not depend on what follows. *)
Lemma utf8_decode_app_ascii (pre : list Z) :
  forall (st : option Utf8State) (a : Z) (rest : list Z),
    utf8_state_ok st -> 0 <= a <= 127 ->
    utf8_decode_from st (pre ++ a :: rest) =
    utf8_decode_from st pre ++ utf8_decode_from None (a :: rest).
Proof.
  induction pre as [|b pre IH]; intros st a rest Hst Ha.
  - cbn [app utf8_decode_from].
    assert (Hlead : utf8_lead a = ([a], None)).
    { unfold utf8_lead. rewrite (proj2 (Z.leb_le a 127)) by lia. reflexivity. }
    rewrite Hlead. destruct st as [s|]; [|reflexivity].
    cbn in Hst. rewrite (proj2 (Z.leb_gt (u_lo s) a)) by lia. reflexivity.
  - cbn [app utf8_decode_from].
    pose proof (utf8_lead_ok b) as Hb.
    destruct (utf8_lead b) as [out st'] eqn:El. cbn [snd] in Hb.
    destruct st as [s|].
    + destruct ((u_lo s <=? b) && (b <=? u_hi s)).
      * destruct (u_need s) as [|n].
        -- rewrite IH by (cbn; trivial). rewrite app_assoc. reflexivity.
        -- rewrite IH by (cbn; lia || trivial). reflexivity.
      * rewrite IH by assumption. cbn [app]. rewrite app_assoc. reflexivity.
    + rewrite IH by assumption. rewrite app_assoc. reflexivity.
Qed.

(** ASCII bytes decode to themselves. *)
Lemma utf8_decode_ascii_prefix (l : list Z) (rest : list Z) :
  Forall (fun a => 0 <= a <= 127) l ->
  utf8_decode_from None (l ++ rest) = l ++ utf8_decode_from None rest.
Proof.
  induction 1 as [|a l Ha _ IH]; [reflexivity|].
  cbn [app utf8_decode_from]. unfold utf8_lead.
  rewrite (proj2 (Z.leb_le a 127)) by lia. cbn [app]. rewrite IH. reflexivity.
Qed.

Lemma Buffer_toString_all (enc : BufferEncoding) (buf : Buffer) :
  Buffer_toString enc buf 0 (blength buf) = decode enc buf.
Proof.
  unfold Buffer_toString. rewrite Z.max_id, Z.min_id, slice_full. reflexivity.
Qed.

(* ================================================================== *)
(** * C8: an SVG in centimetres *)
(* ================================================================== *)

(** [pat], letters in any case, occurs somewhere in [s]. *)
Fixpoint occursCI (pat s : JSString) : bool :=
  match matchLiteralCI pat s with
  | Some _ => true
  | None =>
      match s with
      | [] => false
      | _ :: s' => occursCI pat s'
      end
  end.

Lemma includes_app_r (x y p : JSString) :
  startsWith y p = true -> includes (x ++ y) p = true.
Proof.
  intros H. induction x as [|c x IH]; cbn [app].
  - destruct y; cbn [includes]; rewrite H; reflexivity.
  - cbn [includes]. rewrite IH. apply orb_true_r.
Qed.

(** A match of the opening "<svg" cannot begin in a text where none
    occurs and run on into a text that starts with "<". *)
Lemma svg_open_no_straddle (x y : JSString) :
  x <> [] ->
  matchLiteralCI (js "<svg") x = None ->
  matchLiteralCI (js "<svg") (x ++ 60 :: y) = None.
Proof.
  intros Hx.
  change (js "<svg") with [60; 115; 118; 103].
  destruct x as [|c1 [|c2 [|c3 [|c4 x]]]]; [congruence| | | |];
    cbn [app matchLiteralCI];
    change (canonUnit 60) with 60; change (canonUnit 115) with 83;
    change (canonUnit 118) with 86; change (canonUnit 103) with 71;
    change (60 =? 83) with false; change (60 =? 86) with false;
    change (60 =? 71) with false;
    repeat match goal with
           | |- context [canonUnit ?c =? ?p] => destruct (canonUnit c =? p)
           end;
    try reflexivity; try discriminate; intros _; reflexivity.
Qed.

Lemma execFirst_svgTag_skip (pre y : JSString) :
  occursCI (js "<svg") pre = false ->
  execFirst svgTagAt (pre ++ 60 :: y) = execFirst svgTagAt (60 :: y).
Proof.
  induction pre as [|c pre IH]; intros H; [reflexivity|].
  cbn [occursCI] in H.
  destruct (matchLiteralCI (js "<svg") (c :: pre)) eqn:Em; [discriminate|].
  cbn [app execFirst].
  assert (Hn : svgTagAt (c :: pre ++ 60 :: y) = None).
  { unfold svgTagAt.
    change (c :: pre ++ 60 :: y) with ((c :: pre) ++ 60 :: y).
    rewrite (svg_open_no_straddle (c :: pre) y ltac:(discriminate) Em).
    reflexivity. }
  rewrite Hn. apply IH. exact H.
Qed.

(** The opening tag of the claim, as text and as bytes (34 is the double
    quote). *)
Definition svg_cm_tag : JSString :=
  js "<svg width=" ++ [34] ++ js "10cm" ++ [34] ++
  js " height=" ++ [34] ++ js "8cm" ++ [34] ++ js ">".

Definition svg_cm_tag_bytes : Buffer :=
  list_byte_of_string "<svg width=" ++ [x22] ++ list_byte_of_string "10cm" ++
  [x22] ++ list_byte_of_string " height=" ++ [x22] ++
  list_byte_of_string "8cm" ++ [x22] ++ list_byte_of_string ">".

Definition svg_cm_result : ParseResult :=
  {| width := 378; height := 302;
     type := js "svg"; mime := js "image/svg+xml";
     wUnits := js "cm"; hUnits := js "cm";
     wResolution := None; hResolution := None;
     bitDepth := None; channels := None;
     colorSpace := None; iccProfile := None; gamma := None |}.

(** C8.  Let the buffer hold the tag [<svg width="10cm" height="8cm">]
    after bytes whose text has no "<svg" in any letter case, so that the
    tag is the first opening tag, and before any bytes at all.  Then
    [parseSVG] returns width 378 and height 302 (10 and 8 times 37.8,
    rounded) with both units "cm". *)
Theorem parseSVG_cm_units (before rest : Buffer) :
  occursCI (js "<svg") (decode utf8 before) = false ->
  parseSVG (before ++ svg_cm_tag_bytes ++ rest) = Ret (Some svg_cm_result).
Proof.
  intros Hpre. unfold parseSVG.
  assert (Hlen : (blength (before ++ svg_cm_tag_bytes ++ rest) <? 4) = false).
  { apply Z.ltb_ge. rewrite !blength_app.
    pose proof (blength_nonneg before). pose proof (blength_nonneg rest).
    change (blength svg_cm_tag_bytes) with 31. lia. }
  rewrite Hlen, Buffer_toString_all.
  assert (Htext :
    decode utf8 (before ++ svg_cm_tag_bytes ++ rest) =
    decode utf8 before ++ svg_cm_tag ++ decode utf8 rest).
  { unfold decode. rewrite !map_app.
    change (map byteVal svg_cm_tag_bytes) with svg_cm_tag.
    change svg_cm_tag with (60 :: tl svg_cm_tag) at 1.
    rewrite <- app_comm_cons.
    rewrite utf8_decode_app_ascii by (cbn; lia || trivial).
    apply (f_equal (app (utf8_decode_from None (map byteVal before)))).
    change (60 :: tl svg_cm_tag ++ map byteVal rest)
      with (svg_cm_tag ++ map byteVal rest).
    apply utf8_decode_ascii_prefix.
    unfold svg_cm_tag. repeat constructor; cbn; lia. }
  rewrite Htext.
  assert (Hinc :
    includes (decode utf8 before ++ svg_cm_tag ++ decode utf8 rest) (js "<svg")
    = true) by (apply includes_app_r; reflexivity).
  rewrite Hinc. cbn [negb].
  change (svg_cm_tag ++ decode utf8 rest)
    with (60 :: (tl svg_cm_tag ++ decode utf8 rest)).
  rewrite (execFirst_svgTag_skip _ _ Hpre).
  change (execFirst svgTagAt (60 :: tl svg_cm_tag ++ decode utf8 rest))
    with (Some svg_cm_tag).
  f_equal. vm_compute. reflexivity.
Qed.

Lemma parseSVG_cm_units_witness :
  parseSVG (list_byte_of_string "<?xml version='1.0'?> <!-- <sv g --> " ++
            svg_cm_tag_bytes ++
            list_byte_of_string "<rect width='1' height='1'/></svg>")
  = Ret (Some svg_cm_result).
Proof.
  apply parseSVG_cm_units. vm_compute. reflexivity.
Defined.

(* ================================================================== *)
(** * Running a decoder on a buffer that is only partly known *)
(* ================================================================== *)

Lemma Buffer_toString_in (enc : BufferEncoding) (buf : Buffer) (s e : Z) :
  0 <= s -> e <= blength buf ->
  Buffer_toString enc buf s e = decode enc (slice buf s e).
Proof.
  intros Hs He. unfold Buffer_toString.
  rewrite Z.max_l, Z.min_l by lia. reflexivity.
Qed.

Lemma subarray_in (buf : Buffer) (s e : Z) :
  0 <= s -> 0 <= e -> s <= blength buf -> e <= blength buf ->
  subarray buf s e = slice buf s e.
Proof.
  intros Hs He Hs' He'. unfold subarray, relIndex.
  rewrite (proj2 (Z.ltb_ge s 0)), (proj2 (Z.ltb_ge e 0)) by lia.
  rewrite !Z.min_l by lia. reflexivity.
Qed.

Lemma readString_at (len : Z) (enc : BufferEncoding) (r : BufferReader) :
  0 <= position r -> position r + len <= blength (buffer r) ->
  readString len enc r =
  Ret (decode enc (slice (buffer r) (position r) (position r + len)),
       set_position r (position r + len)).
Proof.
  intros H0 H. rewrite readString_ok by assumption.
  rewrite Buffer_toString_in by lia. reflexivity.
Qed.

Lemma readBytes_at (len : Z) (r : BufferReader) :
  0 <= position r -> 0 <= len -> position r + len <= blength (buffer r) ->
  readBytes len r =
  Ret (slice (buffer r) (position r) (position r + len),
       set_position r (position r + len)).
Proof.
  intros H0 Hl H. rewrite readBytes_ok by assumption.
  rewrite subarray_in by lia. reflexivity.
Qed.

Lemma Zgtb_true (a b : Z) : b < a -> (a >? b) = true.
Proof. intros H. apply Z.gtb_gt. lia. Qed.

Lemma Zgtb_false (a b : Z) : a <= b -> (a >? b) = false.
Proof. intros H. rewrite Z.gtb_ltb. apply Z.ltb_ge. lia. Qed.

Lemma Zgeb_true (a b : Z) : b <= a -> (a >=? b) = true.
Proof. intros H. rewrite Z.geb_leb. apply Z.leb_le. lia. Qed.

Lemma Zgeb_false (a b : Z) : a < b -> (a >=? b) = false.
Proof. intros H. rewrite Z.geb_leb. apply Z.leb_gt. lia. Qed.

Lemma Zleb_true (a b : Z) : a <= b -> (a <=? b) = true.
Proof. apply Z.leb_le. Qed.

Lemma Zleb_false (a b : Z) : b < a -> (a <=? b) = false.
Proof. apply Z.leb_gt. Qed.

Lemma Zltb_true (a b : Z) : a < b -> (a <? b) = true.
Proof. apply Z.ltb_lt. Qed.

Lemma Zltb_false (a b : Z) : b <= a -> (a <? b) = false.
Proof. apply Z.ltb_ge. Qed.

(** Whether a test speaks of a variable. *)
Ltac sym_has_var c :=
  match c with
  | context [?x] => is_var x
  end.

(** A [bind] whose first part is not a call of the reader is opened. *)
Ltac sym_open :=
  lazymatch goal with
  | |- context [@bind ?A ?B ?m ?k ?r] =>
      change (@bind A B m k r)
        with (match m r with
              | Ret (a, r') => k a r'
              | Throw e => Throw e
              | Hang => Hang
              end)
  end.

(** A finished part: [ret x] applied to the reader. *)
Ltac sym_ret :=
  lazymatch goal with
  | |- context [@ret ?A ?x ?r] =>
      change (@ret A x r) with (@Ret (A * BufferReader) (x, r)); cbv beta iota
  end.

(** The function at the head of the run is unfolded. *)
Ltac sym_head t :=
  lazymatch t with
  | ?f _ => sym_head f
  | _ => t
  end.

Ltac sym_call :=
  lazymatch goal with
  | |- context [@bind ?A ?B ?m ?k ?r] =>
      let h := sym_head m in
      lazymatch h with
      | @bind => sym_open
      | _ => unfold h at 1
      end
  end.


(* ================================================================== *)
(** * C5 and C7: sample segments of a JPEG *)
(* ================================================================== *)






(** The second bytes of the thirteen Start-of-Frame markers. *)
Definition sof_marker_bytes : list byte :=
  [xc0; xc1; xc2; xc3; xc5; xc6; xc7; xc9; xca; xcb; xcd; xce; xcf].

(** The start of a Start-of-Frame segment of declared length 17:
    precision, height, width and component count. *)
Definition sof_header (m p h1 h2 w1 w2 c : byte) : Buffer :=
  [xff; m; x00; x11; p; h1; h2; w1; w2; c].

Lemma isSOFMarker_bytes (m : byte) :
  In m sof_marker_bytes -> isSOFMarker (js_or 0xff00 (byteVal m)) = true.
Proof.
  unfold sof_marker_bytes. cbn [In].
  intros H. repeat (destruct H as [<-|H]; [vm_compute; reflexivity|]).
  destruct H.
Qed.

(** Pieces of the trace that are particular to [parseJPEG]. *)
Ltac jpeg_simp :=
  cbn [jpg_wResolution jpg_hResolution jpg_colorSpace jpg_iccProfile jpg_init
       jpg_set_resolution jpg_set_color option_map fst snd orb andb negb].

(** A closed comparison of strings. *)
Ltac sym_bool :=
  match goal with
  | |- context [jstr_eqb ?a ?b] =>
      let v := eval vm_compute in (jstr_eqb a b) in
      lazymatch v with
      | true => change (jstr_eqb a b) with true
      | false => change (jstr_eqb a b) with false
      end
  end.

(** The run of a second reader inside a run. *)
Ltac sym_lift :=
  lazymatch goal with
  | |- context [lift (run ?m ?r2) ?r] =>
      unfold lift at 1; unfold run at 1; unfold new_BufferReader; cbv beta iota
  end.

(** The directory loop of [parseEXIF] for a known number of entries. *)
Ltac jpeg_entries :=
  lazymatch goal with
  | |- context [exif_entries (Z.to_nat ?k)] =>
      let n := eval vm_compute in (Z.to_nat k) in
      change (Z.to_nat k) with n; cbn [exif_entries]
  end.

(** The call that the run is waiting for, unfolded. *)
Ltac sym_inner_of t :=
  lazymatch t with
  | match ?x with
    | Ret _ => _
    | Throw _ => _
    | Hang => _
    end => sym_inner_of x
  | _ => let h := sym_head t in unfold h at 1
  end.

Ltac sym_inner :=
  lazymatch goal with
  | |- ?L = _ => sym_inner_of L
  end.

(** What a Start-of-Frame marker is not. *)
Lemma sof_marker_is_no_other (m : byte) (x : Z) :
  In m sof_marker_bytes ->
  In x [MARKERS.SOI; MARKERS.EOI; MARKERS.APP0; MARKERS.APP1; MARKERS.APP2;
        MARKERS.APP14] ->
  (js_or 0xff00 (byteVal m) =? x) = false.
Proof.
  unfold sof_marker_bytes. cbn [In]. intros Hm Hx.
  repeat (destruct Hm as [<-|Hm];
          [repeat (destruct Hx as [<-|Hx]; [vm_compute; reflexivity|]);
           destruct Hx|]).
  destruct Hm.
Qed.

(* ================================================================== *)
(** * C7: an Adobe segment after an sRGB profile *)
(* ================================================================== *)

(** APP2 (declared length 33): "ICC_PROFILE", NUL, chunk 1 of 1 and the
    seventeen bytes "sRGB IEC61966-2.1". *)
Definition icc_srgb : Buffer :=
  [xff; xe2; x00; x21;
   x49; x43; x43; x5f; x50; x52; x4f; x46; x49; x4c; x45; x00; x01; x01;
   x73; x52; x47; x42; x20; x49; x45; x43; x36; x31; x39; x36; x36; x2d;
   x32; x2e; x31].

(** APP14 (declared length 14): "Adobe", version, two flag words and the
    transform code [t]. *)
Definition adobe_segment (a1 a2 f1 f2 f3 f4 t : byte) : Buffer :=
  [xff; xee; x00; x0e; x41; x64; x6f; x62; x65; a1; a2; f1; f2; f3; f4; t].

(** C7, counterexample.  SOI, the sRGB profile segment, an Adobe segment
    with transform code 2 and a Start-of-Frame segment: the color space
    returned is "sRGB", not "YCCK". *)
Lemma parseJPEG_icc_then_adobe_2_is_not_YCCK :
  exists r,
    parseJPEG ([xff; xd8] ++ icc_srgb ++
               adobe_segment x00 x64 x00 x00 x00 x00 x02 ++
               sof_header xc0 x08 x00 x64 x00 x64 x04 ++
               [x01; x11; x00; x02; x11; x00; x03; x11; x00; x04; x11; x00])
    = Ret (Some r) /\
    colorSpace r = Some (js "sRGB") /\
    colorSpace r <> Some (js "YCCK").
Proof.
  eexists. split; [vm_compute; reflexivity|].
  split; [reflexivity|]. vm_compute. discriminate.
Qed.

(** A color space set by a segment is the one returned. *)
Lemma jpeg_result_colorSpace (v : JpegVars) (precision h w components : Z) :
  truthyS (jpg_colorSpace v) = true ->
  colorSpace (jpeg_result v precision h w components) = jpg_colorSpace v.
Proof.
  intros H. unfold jpeg_result. cbn [colorSpace]. rewrite H. cbn [negb].
  rewrite Bool.andb_false_r. reflexivity.
Qed.

(* ================================================================== *)
(** * C4: the quick sniff and the decoders *)
(* ================================================================== *)

(** Inside a sequence, the code point under construction cannot end below
    128: the decoder never emits an ASCII unit for a multi-byte form. *)
Definition utf8_heavy (s : Utf8State) : Prop :=
  128 <= u_lo s /\
  2 <= u_cp s * 64 + (u_lo s - 128) /\
  (u_need s = O -> 128 <= u_cp s * 64 + (u_lo s - 128)).

Lemma utf8_lead_cases (b : Z) :
  utf8_lead b = ([b], None) \/
  (128 <= b /\ utf8_lead b = ([65533], None)) \/
  (128 <= b /\ exists s, utf8_lead b = ([], Some s) /\ utf8_heavy s).
Proof.
  unfold utf8_lead, utf8_heavy.
  destruct (Z.leb_spec b 127); [left; reflexivity|right].
  destruct (Z.leb_spec 194 b), (Z.leb_spec b 223); cbn [andb];
    try (right; split; [lia|]; eexists; split; [reflexivity|]; cbn; lia).
  all: destruct (Z.leb_spec 224 b), (Z.leb_spec b 239); cbn [andb];
    try (right; split; [lia|]; eexists; split; [reflexivity|]; cbn;
         destruct (Z.eqb_spec b 224), (Z.eqb_spec b 237); lia).
  all: destruct (Z.leb_spec 240 b), (Z.leb_spec b 244); cbn [andb];
    try (right; split; [lia|]; eexists; split; [reflexivity|]; cbn;
         destruct (Z.eqb_spec b 240), (Z.eqb_spec b 244); lia).
  all: left; split; [lia|reflexivity].
Qed.

Lemma utf16_head (cp : Z) :
  128 <= cp -> exists c cs, utf16 cp = c :: cs /\ 128 <= c.
Proof.
  intros H. unfold utf16. destruct (Z.ltb_spec cp 65536).
  - eauto.
  - do 2 eexists. split; [reflexivity|].
    assert (0 <= (cp - 65536) / 1024) by (apply Z.div_pos; lia). lia.
Qed.

Lemma utf8_sequence_head (bs : list Z) :
  forall s, utf8_heavy s ->
    exists c cs, utf8_decode_from (Some s) bs = c :: cs /\ 128 <= c.
Proof.
  induction bs as [|b bs IH]; intros s (Hlo & Hcp & Hend).
  - cbn. do 2 eexists. split; [reflexivity|lia].
  - cbn [utf8_decode_from].
    destruct (Z.leb_spec (u_lo s) b); cbn [andb].
    + destruct (Z.leb_spec b (u_hi s)).
      * destruct (u_need s) as [|n] eqn:En.
        -- destruct (utf16_head (u_cp s * 64 + (b - 128))) as (c & cs & E & Hc);
             [specialize (Hend eq_refl); lia|].
           rewrite E. cbn [app]. eauto.
        -- apply IH. unfold utf8_heavy. cbn. repeat split; intros; lia.
      * destruct (utf8_lead b). do 2 eexists. split; [reflexivity|lia].
    + destruct (utf8_lead b). do 2 eexists. split; [reflexivity|lia].
Qed.

(** A text that starts with an ASCII unit was decoded from bytes that
    start with that very unit. *)
Lemma utf8_head_ascii (b : Z) (bs : list Z) (c : Z) (cs : list Z) :
  utf8_decode_from None (b :: bs) = c :: cs -> c <= 127 ->
  b = c /\ utf8_decode_from None bs = cs.
Proof.
  cbn [utf8_decode_from]. intros H Hc.
  destruct (utf8_lead_cases b) as [E|[[Hb E]|[Hb (s & E & Hs)]]];
    rewrite E in H; cbn [app] in H.
  - injection H as -> ->. split; reflexivity.
  - injection H as <- _. lia.
  - destruct (utf8_sequence_head bs s Hs) as (c' & cs' & E' & Hc').
    rewrite E' in H. injection H as <- _. lia.
Qed.

Lemma slice_0_cons (b : byte) (l : Buffer) (e : Z) :
  0 < e -> slice (b :: l) 0 e = b :: slice l 0 (e - 1).
Proof.
  intros H. unfold slice. rewrite !Z.sub_0_r. cbn [Z.to_nat skipn].
  replace (Z.to_nat e) with (S (Z.to_nat (e - 1))) by lia. reflexivity.
Qed.

Lemma jstr_eqb_eq (a b : JSString) : jstr_eqb a b = true -> a = b.
Proof.
  revert b. induction a as [|x a IH]; intros [|y b]; cbn; try discriminate.
  - reflexivity.
  - intros H. apply andb_prop in H as [Hx Hab].
    apply Z.eqb_eq in Hx. subst. f_equal. apply IH, Hab.
Qed.

(** The two bytes under a decoded text that starts with two ASCII
    units. *)
Lemma utf8_first_two (b0 b1 : byte) (l : Buffer) (e c0 c1 : Z) (cs : JSString) :
  2 <= e ->
  decode utf8 (slice (b0 :: b1 :: l) 0 e) = c0 :: c1 :: cs ->
  c0 <= 127 -> c1 <= 127 ->
  byteVal b0 = c0 /\ byteVal b1 = c1.
Proof.
  intros He H H0 H1.
  rewrite slice_0_cons in H by lia. rewrite slice_0_cons in H by lia.
  unfold decode in H. cbn [map] in H.
  apply utf8_head_ascii in H as [E0 H]; [|assumption].
  apply utf8_head_ascii in H as [E1 _]; [|assumption].
  split; assumption.
Qed.

(** The first two bytes that the sniff lets through. *)
Definition sniffed (first second : Z) : bool :=
  match first with
  | 0xff => second =? 0xd8
  | 0x89 => second =? 0x50
  | 0x47 => second =? 0x49
  | 0x52 => second =? 0x49
  | 0x42 => second =? 0x4d
  | 0x00 => true
  | 0x3c => true
  | _ => false
  end.

Lemma mightBeImage_sniffed (b0 b1 : byte) (l : Buffer) :
  sniffed (byteVal b0) (byteVal b1) = true -> mightBeImage (b0 :: b1 :: l) = true.
Proof.
  unfold mightBeImage, sniffed.
  rewrite (Zltb_false (blength (b0 :: b1 :: l)) 2)
    by (rewrite !blength_cons; pose proof (blength_nonneg l); lia).
  change (Buffer_get (b0 :: b1 :: l) 0) with (Some (byteVal b0)).
  change (Buffer_get (b0 :: b1 :: l) 1) with (Some (byteVal b1)).
  destruct (byteVal b0) as [|q|q]; try discriminate; [reflexivity|].
  do 8 (try destruct q as [q|q|]); try discriminate; trivial.
Qed.

(** What a run that returned went through. *)
Lemma bind_Ret_inv {A B} (m : M A) (k : A -> M B) (r : BufferReader)
      (x : B * BufferReader) :
  bind m k r = Ret x -> exists a r', m r = Ret (a, r') /\ k a r' = Ret x.
Proof.
  unfold bind. destruct (m r) as [[a r']| |]; try discriminate. eauto.
Qed.

Lemma run_Ret_inv {A} (m : M A) (r : BufferReader) (a : A) :
  run m r = Ret a -> exists r', m r = Ret (a, r').
Proof.
  unfold run. destruct (m r) as [[a' r']| |]; try discriminate.
  intros [= ->]. eauto.
Qed.

Lemma two_bytes (buf : Buffer) :
  2 <= blength buf -> exists b0 b1 l, buf = b0 :: b1 :: l.
Proof.
  unfold blength. destruct buf as [|b0 [|b1 l]]; cbn [length]; try lia. eauto.
Qed.

Lemma uintValue_2 (le : bool) (b0 b1 : byte) (l : Buffer) :
  uintValue le 2 (b0 :: b1 :: l) 0 =
  if le then byteVal b1 * 256 + byteVal b0 else byteVal b0 * 256 + byteVal b1.
Proof.
  unfold uintValue. change (slice (b0 :: b1 :: l) 0 (0 + 2)) with [b0; b1].
  destruct le; reflexivity.
Qed.

(** A text read at the start of the buffer that begins with two sniffed
    ASCII units. *)
Lemma text_sniffed (buf : Buffer) (n c0 c1 : Z) (cs : JSString) :
  2 <= n -> n <= blength buf ->
  Buffer_toString utf8 buf 0 (0 + n) = c0 :: c1 :: cs ->
  c0 <= 127 -> c1 <= 127 -> sniffed c0 c1 = true ->
  mightBeImage buf = true.
Proof.
  intros Hn Hlen H H0 H1 Hs.
  destruct (two_bytes buf) as (b0 & b1 & l & ->); [lia|].
  unfold Buffer_toString in H.
  rewrite Z.max_id, Z.min_l in H by lia.
  apply utf8_first_two in H as [E0 E1]; try lia.
  apply mightBeImage_sniffed. rewrite E0, E1. exact Hs.
Qed.

Local Ltac refused :=
  unfold run, ret; discriminate.

(** A signature text that was found equal to a literal. *)
Local Ltac signature_of E :=
  apply jstr_eqb_eq in E;
  match type of E with
  | context [js ?s] =>
      let v := eval vm_compute in (js s) in change (js s) with v in E
  end.

Lemma parseJPEG_sniffed (buf : Buffer) (r : ParseResult) :
  parseJPEG buf = Ret (Some r) -> mightBeImage buf = true.
Proof.
  unfold parseJPEG.
  destruct (Z.ltb_spec (blength buf) 4) as [|Hlen]; [discriminate|].
  unfold run at 1. reader_step. reader_norm.
  destruct (Z.eqb_spec (uintValue false 2 buf 0) MARKERS.SOI) as [E|];
    cbn [negb]; [intros _|refused].
  destruct (two_bytes buf) as (b0 & b1 & l & ->); [lia|].
  rewrite uintValue_2 in E. unfold MARKERS.SOI in E.
  pose proof (byteVal_range b0). pose proof (byteVal_range b1).
  apply mightBeImage_sniffed.
  replace (byteVal b0) with 255 by lia. replace (byteVal b1) with 216 by lia.
  reflexivity.
Qed.

Lemma parsePNG_sniffed (buf : Buffer) (r : ParseResult) :
  parsePNG buf = Ret (Some r) -> mightBeImage buf = true.
Proof.
  unfold parsePNG.
  destruct (Z.ltb_spec (blength buf) 24) as [|Hlen]; [discriminate|].
  destruct (Buffer_equals (subarray buf 0 8) PNG_SIGNATURE) eqn:E;
    cbn [negb]; [intros _|discriminate].
  destruct (two_bytes buf) as (b0 & b1 & l & ->); [lia|].
  unfold subarray, relIndex in E. cbn [Z.ltb Z.compare] in E.
  rewrite !Z.min_l in E by lia.
  rewrite slice_0_cons in E by lia. rewrite slice_0_cons in E by lia.
  unfold PNG_SIGNATURE in E. cbn [Buffer_equals] in E.
  apply andb_prop in E as [E0 E]. apply andb_prop in E as [E1 _].
  apply Byte.byte_dec_bl in E0, E1. subst.
  apply mightBeImage_sniffed. reflexivity.
Qed.

Lemma parseGIF_sniffed (buf : Buffer) (r : ParseResult) :
  parseGIF buf = Ret (Some r) -> mightBeImage buf = true.
Proof.
  unfold parseGIF.
  destruct (Z.ltb_spec (blength buf) 10) as [|Hlen]; [discriminate|].
  unfold run at 1. reader_step. reader_norm.
  destruct (jstr_eqb (Buffer_toString utf8 buf 0 6) (js "GIF87a")) eqn:E1;
    [|destruct (jstr_eqb (Buffer_toString utf8 buf 0 6) (js "GIF89a"))
        eqn:E2];
    cbn [negb andb]; [intros _|intros _|refused].
  - signature_of E1.
    apply (text_sniffed buf 6 _ _ _ ltac:(lia) ltac:(lia) E1); [lia|lia|reflexivity].
  - signature_of E2.
    apply (text_sniffed buf 6 _ _ _ ltac:(lia) ltac:(lia) E2); [lia|lia|reflexivity].
Qed.

Lemma parseWebP_sniffed (buf : Buffer) (r : ParseResult) :
  parseWebP buf = Ret (Some r) -> mightBeImage buf = true.
Proof.
  unfold parseWebP.
  destruct (Z.ltb_spec (blength buf) 12) as [|Hlen]; [discriminate|].
  unfold run at 1. reader_step. reader_norm.
  destruct (jstr_eqb (Buffer_toString utf8 buf 0 4) (js "RIFF")) eqn:E;
    cbn [negb]; [intros _|refused].
  signature_of E.
  apply (text_sniffed buf 4 _ _ _ ltac:(lia) ltac:(lia) E); [lia|lia|reflexivity].
Qed.

Lemma parseBMP_sniffed (buf : Buffer) (r : ParseResult) :
  parseBMP buf = Ret (Some r) -> mightBeImage buf = true.
Proof.
  unfold parseBMP.
  destruct (Z.ltb_spec (blength buf) 26) as [|Hlen]; [discriminate|].
  unfold run at 1. reader_step. reader_norm.
  destruct (jstr_eqb (Buffer_toString utf8 buf 0 2) (js "BM")) eqn:E;
    cbn [negb]; [intros _|refused].
  signature_of E.
  apply (text_sniffed buf 2 _ _ _ ltac:(lia) ltac:(lia) E); [lia|lia|reflexivity].
Qed.

Lemma parseICO_sniffed (buf : Buffer) (r : ParseResult) :
  parseICO buf = Ret (Some r) -> mightBeImage buf = true.
Proof.
  unfold parseICO.
  destruct (Z.ltb_spec (blength buf) 6) as [|Hlen]; [discriminate|].
  unfold run at 1. do 3 (reader_step; reader_norm).
  destruct (Z.eqb_spec (uintValue true 2 buf 0) 0) as [E|];
    cbn [negb orb]; [intros _|refused].
  destruct (two_bytes buf) as (b0 & b1 & l & ->); [lia|].
  rewrite uintValue_2 in E.
  pose proof (byteVal_range b0). pose proof (byteVal_range b1).
  apply mightBeImage_sniffed.
  replace (byteVal b0) with 0 by lia. reflexivity.
Qed.

Lemma parseSVG_sniffed (buf : Buffer) (r : ParseResult) :
  parseSVG buf = Ret (Some r) -> Buffer_get buf 0 = Some 60 ->
  mightBeImage buf = true.
Proof.
  unfold parseSVG.
  destruct (Z.ltb_spec (blength buf) 4) as [|Hlen]; [discriminate|].
  intros _ H0.
  destruct (two_bytes buf) as (b0 & b1 & l & ->); [lia|].
  change (Buffer_get (b0 :: b1 :: l) 0) with (Some (byteVal b0)) in H0.
  injection H0 as H0.
  apply mightBeImage_sniffed. rewrite H0. reflexivity.
Qed.

(** ** parseAVIF: the first box has to fit *)

(** A computation that leaves the reader on the same buffer. *)
Definition keeps_buffer {A} (m : M A) : Prop :=
  forall r a r', m r = Ret (a, r') -> buffer r' = buffer r.

Lemma keeps_ret {A} (a : A) : keeps_buffer (ret a).
Proof. intros r a' r' [= _ <-]. reflexivity. Qed.

Lemma keeps_bind {A B} (m : M A) (k : A -> M B) :
  keeps_buffer m -> (forall a, keeps_buffer (k a)) -> keeps_buffer (bind m k).
Proof.
  intros Hm Hk r b r' H.
  apply bind_Ret_inv in H as (a & r1 & H1 & H2).
  rewrite (Hk a r1 b r' H2). exact (Hm r a r1 H1).
Qed.

Lemma keeps_hang {A} : keeps_buffer (@hang A).
Proof. intros r a r'. discriminate. Qed.

Lemma keeps_canRead (n : Z) : keeps_buffer (canRead n).
Proof. intros r a r' [= _ <-]. reflexivity. Qed.

Lemma keeps_skip (n : Z) : keeps_buffer (skip n).
Proof. intros r a r' [= _ <-]. reflexivity. Qed.

Lemma keeps_seek (p : Z) : keeps_buffer (seek p).
Proof.
  intros r a r'. unfold seek.
  destruct ((p <? 0) || (p >? blength (buffer r))); [discriminate|].
  intros [= _ <-]. reflexivity.
Qed.

Lemma keeps_readString (n : Z) (enc : BufferEncoding) :
  keeps_buffer (readString n enc).
Proof.
  intros r a r'. unfold readString.
  destruct (position r + n >? blength (buffer r)); [discriminate|].
  intros [= _ <-]. reflexivity.
Qed.

Lemma keeps_ftyp_brands (fuel : nat) :
  forall brandsRead size, keeps_buffer (ftyp_brands fuel brandsRead size).
Proof.
  induction fuel as [|fuel IH]; intros brandsRead size; cbn [ftyp_brands].
  - apply keeps_hang.
  - apply keeps_bind; [apply keeps_canRead|intros more].
    destruct ((brandsRead <? size) && more); [|apply keeps_ret].
    apply keeps_bind; [apply keeps_readString|intros brand].
    destruct (jstr_eqb brand (js "avif") || jstr_eqb brand (js "avis"));
      [apply keeps_ret|apply IH].
Qed.

Lemma keeps_parseFtyp (fuel : nat) (size : Z) :
  keeps_buffer (parseFtyp fuel size).
Proof.
  unfold parseFtyp.
  apply keeps_bind; [apply keeps_canRead|intros enough].
  destruct (negb enough || (size <? 8)); [apply keeps_ret|].
  apply keeps_bind; [apply keeps_readString|intros majorBrand].
  destruct (jstr_eqb majorBrand (js "avif")); [apply keeps_ret|].
  apply keeps_bind; [apply keeps_skip|intros _].
  apply keeps_ftyp_brands.
Qed.

Lemma seek_Ret_inv (p : Z) (r : BufferReader) (x : unit * BufferReader) :
  seek p r = Ret x -> 0 <= p <= blength (buffer r).
Proof.
  unfold seek.
  destruct (Z.ltb_spec p 0); cbn [orb]; [discriminate|].
  rewrite Z.gtb_ltb. destruct (Z.ltb_spec (blength (buffer r)) p);
    [discriminate|]. lia.
Qed.

(** The header of the first box: its size field is 0 or 1, or is the
    size of the box. *)
Lemma parseBox_at_start (buf : Buffer) :
  12 <= blength buf ->
  exists ob r',
    parseBox (new_BufferReader buf false) = Ret (ob, r') /\
    buffer r' = buf /\
    match ob with
    | None => True
    | Some b =>
        uintValue false 4 buf 0 <= 1 \/ box_size b = uintValue false 4 buf 0
    end.
Proof.
  intros Hlen. unfold parseBox, new_BufferReader.
  reader_step. reader_step. cbn [negb].
  do 3 reader_step. reader_norm.
  destruct (Z.eqb_spec (uintValue false 4 buf 0) 1) as [E1|N1].
  - destruct (Z.le_gt_cases 16 (blength buf)).
    + reader_step. cbn [negb]. do 3 reader_step. do 2 eexists. unfold ret.
      split; [reflexivity|]. split; [reflexivity|]. left. lia.
    + reader_step. cbn [negb]. do 2 eexists. unfold ret.
      split; [reflexivity|]. split; [reflexivity|]. exact I.
  - destruct (Z.eqb_spec (uintValue false 4 buf 0) 0) as [E0|N0].
    + reader_step. do 2 eexists. unfold ret.
      split; [reflexivity|]. split; [reflexivity|]. left. lia.
    + do 2 eexists. unfold ret.
      split; [reflexivity|]. split; [reflexivity|]. right. reflexivity.
Qed.

(** An accepted buffer has a first box whose size field is 0, 1 or at
    most the length of the buffer: the walk seeks to the end of each box
    before it goes on or returns. *)
Lemma parseAVIF_first_box (buf : Buffer) (r : ParseResult) :
  parseAVIF buf = Ret (Some r) ->
  uintValue false 4 buf 0 <= Z.max 1 (blength buf).
Proof.
  unfold parseAVIF.
  destruct (Z.ltb_spec (blength buf) 12) as [|Hlen]; [discriminate|].
  intros H. apply run_Ret_inv in H as [rf H].
  apply bind_Ret_inv in H as (v & r1 & Hv & H).
  injection H as Hres _.
  unfold budget at 1 in Hv. cbn [avif_boxes] in Hv. revert Hv.
  reader_step.
  rewrite (Zgtb_true _ 0) by (cbn [new_BufferReader buffer position]; lia).
  reader_step.
  destruct (parseBox_at_start buf Hlen) as (ob & r' & Hbox & Hbuf & Hsize).
  rewrite (bind_Ret _ _ _ _ _ Hbox).
  destruct ob as [b|].
  - intros Hv.
    apply bind_Ret_inv in Hv as (v' & r2 & Hcase & Hv).
    apply bind_Ret_inv in Hv as (u & r3 & Hseek & _).
    apply seek_Ret_inv in Hseek.
    assert (Hkeep : buffer r2 = buf).
    { rewrite <- Hbuf. revert Hcase. generalize r' v' r2.
      change (keeps_buffer
                (if jstr_eqb (box_type b) (js "ftyp")
                 then
                   seek (box_dataOffset b) ;;
                   isAVIF <- parseFtyp (budget buf)
                               (box_size b -
                                (box_dataOffset b -
                                 position (new_BufferReader buf false))) ;;
                   ret {| av_isAVIF := isAVIF;
                          av_width := av_width av_init;
                          av_height := av_height av_init;
                          av_colorSpace := av_colorSpace av_init;
                          av_iccProfile := av_iccProfile av_init;
                          av_bitDepth := av_bitDepth av_init;
                          av_channels := av_channels av_init |}
                 else if jstr_eqb (box_type b) (js "meta")
                      then avif_meta (budget buf)
                             (position (new_BufferReader buf false)) b av_init
                      else ret av_init)%reader).
      destruct (jstr_eqb (box_type b) (js "ftyp")).
      - apply keeps_bind; [apply keeps_seek|intros _].
        apply keeps_bind; [apply keeps_parseFtyp|intros isAVIF].
        apply keeps_ret.
      - destruct (jstr_eqb (box_type b) (js "meta")); apply keeps_ret. }
    rewrite Hkeep in Hseek. cbn [new_BufferReader position] in Hseek.
    destruct Hsize as [Hsize|Hsize]; lia.
  - intros [= <- _]. discriminate Hres.
Qed.

Lemma uintValue_4 (b0 b1 b2 b3 : byte) (l : Buffer) :
  uintValue false 4 (b0 :: b1 :: b2 :: b3 :: l) 0 =
  ((byteVal b0 * 256 + byteVal b1) * 256 + byteVal b2) * 256 + byteVal b3.
Proof.
  unfold uintValue.
  change (slice (b0 :: b1 :: b2 :: b3 :: l) 0 (0 + 4)) with [b0; b1; b2; b3].
  reflexivity.
Qed.

Lemma parseAVIF_sniffed (buf : Buffer) (r : ParseResult) :
  parseAVIF buf = Ret (Some r) -> blength buf < 2 ^ 24 ->
  mightBeImage buf = true.
Proof.
  intros H Hsmall. pose proof (parseAVIF_first_box buf r H) as Hbox.
  unfold parseAVIF in H.
  destruct (Z.ltb_spec (blength buf) 12) as [|Hlen]; [discriminate|].
  destruct buf as [|b0 [|b1 [|b2 [|b3 l]]]];
    try (unfold blength in Hlen; cbn [length] in Hlen; lia).
  rewrite uintValue_4 in Hbox.
  pose proof (byteVal_range b0). pose proof (byteVal_range b1).
  pose proof (byteVal_range b2). pose proof (byteVal_range b3).
  apply mightBeImage_sniffed.
  replace (byteVal b0) with 0 by lia. reflexivity.
Qed.

(** C4, counterexample.  The six bytes of [ <svg>], a space and an
    opening tag, are accepted by [parseSVG], which looks for the tag
    anywhere in the text, while the sniff looks at the first byte only
    and answers no. *)
Lemma mightBeImage_misses_svg_after_space :
  let buf := [x20; x3c; x73; x76; x67; x3e] in
  parseSVG buf = Ret (Some svg_default) /\ mightBeImage buf = false.
Proof.
  cbv zeta. split; vm_compute; reflexivity.
Qed.

(** C4, amended.  The sniff answers yes on every buffer that [parseJPEG],
    [parsePNG], [parseGIF], [parseWebP], [parseBMP] or [parseICO] accepts;
    on every buffer shorter than 2^24 bytes that [parseAVIF] accepts (the
    first byte of the first box size is then 0); and on a buffer that
    [parseSVG] accepts when its first byte is the sign [<].  An SVG text
    that starts with anything else is accepted by its decoder and refused
    by the sniff. *)
Theorem mightBeImage_accepts_decoded
  (f : Format) (buf : Buffer) (r : ParseResult) :
  parserOf f buf = Ret (Some r) ->
  (f = AVIF -> blength buf < 2 ^ 24) ->
  (f = SVG -> Buffer_get buf 0 = Some 60) ->
  mightBeImage buf = true.
Proof.
  intros H Havif Hsvg. destruct f; cbn [parserOf] in H.
  - exact (parseJPEG_sniffed buf r H).
  - exact (parsePNG_sniffed buf r H).
  - exact (parseGIF_sniffed buf r H).
  - exact (parseWebP_sniffed buf r H).
  - exact (parseBMP_sniffed buf r H).
  - exact (parseICO_sniffed buf r H).
  - exact (parseAVIF_sniffed buf r H (Havif eq_refl)).
  - exact (parseSVG_sniffed buf r H (Hsvg eq_refl)).
Qed.

Lemma mightBeImage_accepts_decoded_witness :
  parserOf SVG [x3c; x73; x76; x67; x3e] = Ret (Some svg_default) /\
  mightBeImage [x3c; x73; x76; x67; x3e] = true.
Proof.
  assert (H : parserOf SVG [x3c; x73; x76; x67; x3e] = Ret (Some svg_default))
    by (vm_compute; reflexivity).
  split; [exact H|].
  apply (mightBeImage_accepts_decoded SVG [x3c; x73; x76; x67; x3e]
           svg_default H).
  - discriminate.
  - intros _. reflexivity.
Defined.

(* ================================================================== *)
(** * Further properties: what the reader returns *)
(* ================================================================== *)

(** Bytes put together, most significant first. *)
Lemma fold_bytes_range (l : list Z) :
  forall acc : Z,
    0 <= acc -> Forall (fun b => 0 <= b <= 255) l ->
    acc * 256 ^ Z.of_nat (length l)
    <= fold_left (fun acc b => acc * 256 + b) l acc
    < (acc + 1) * 256 ^ Z.of_nat (length l).
Proof.
  induction l as [|b l IH]; intros acc Hacc Hl.
  - cbn [fold_left length]. change (256 ^ Z.of_nat 0) with 1. lia.
  - inversion Hl as [|? ? Hb Hl']; subst.
    cbn [fold_left length]. rewrite Nat2Z.inj_succ, Z.pow_succ_r by lia.
    specialize (IH (acc * 256 + b) ltac:(lia) Hl').
    assert (0 < 256 ^ Z.of_nat (length l)) by (apply Z.pow_pos_nonneg; lia).
    nia.
Qed.

Lemma bytes_in_range (l : Buffer) : Forall (fun b => 0 <= b <= 255) (map byteVal l).
Proof.
  induction l as [|b l IH]; cbn [map]; constructor; [apply byteVal_range|exact IH].
Qed.

Lemma uintValue_range (le : bool) (w : Z) (buf : Buffer) (off : Z) :
  0 <= w -> 0 <= uintValue le w buf off < 256 ^ w.
Proof.
  intros Hw. unfold uintValue.
  set (bs := map byteVal (slice buf off (off + w))).
  assert (Hlen : Z.of_nat (length bs) <= w).
  { subst bs. rewrite length_map. unfold slice. rewrite length_firstn. lia. }
  assert (Hbs : Forall (fun b => 0 <= b <= 255) bs) by apply bytes_in_range.
  assert (Hrange : forall l, length l = length bs ->
                     Forall (fun b => 0 <= b <= 255) l ->
                     0 <= fold_left (fun acc b => acc * 256 + b) l 0 < 256 ^ w).
  { intros l Hl Hf.
    pose proof (fold_bytes_range l 0 ltac:(lia) Hf) as H.
    assert (256 ^ Z.of_nat (length l) <= 256 ^ w)
      by (apply Z.pow_le_mono_r; lia).
    lia. }
  destruct le.
  - apply Hrange; [apply length_rev|apply Forall_rev; exact Hbs].
  - apply Hrange; [reflexivity|exact Hbs].
Qed.

(** The five reads of a number. *)
Inductive NumberRead := ReadU8 | ReadU16 | ReadU32 | ReadI32 | PeekU8.

Definition numberRead (k : NumberRead) : M Z :=
  match k with
  | ReadU8 => readUInt8
  | ReadU16 => readUInt16
  | ReadU32 => readUInt32
  | ReadI32 => readInt32
  | PeekU8 => peekUInt8
  end.

Definition numberLow (k : NumberRead) : Z :=
  match k with
  | ReadI32 => - 2 ^ 31
  | _ => 0
  end.

Definition numberHigh (k : NumberRead) : Z :=
  match k with
  | ReadU8 | PeekU8 => 2 ^ 8
  | ReadU16 => 2 ^ 16
  | ReadU32 => 2 ^ 32
  | ReadI32 => 2 ^ 31
  end.

Lemma readUInt8_inv (r r' : BufferReader) (v : Z) :
  readUInt8 r = Ret (v, r') ->
  v = byteAt (buffer r) (position r) /\
  r' = set_position r (position r + 1) /\
  position r < blength (buffer r).
Proof.
  unfold readUInt8. rewrite Z.geb_leb.
  destruct (Z.leb_spec (blength (buffer r)) (position r)); [discriminate|].
  intros [= <- <-]. repeat split; lia.
Qed.

Lemma readUInt_inv (w : Z) (r r' : BufferReader) (v : Z) :
  (if position r + w >? blength (buffer r)
   then Throw "Attempt to read past buffer"
   else (v <- lift (Buffer_readUInt (littleEndian r) w (buffer r) (position r)) ;;
         fun r' => Ret (v, set_position r' (position r' + w)))%reader r)
  = Ret (v, r') ->
  v = uintValue (littleEndian r) w (buffer r) (position r) /\
  r' = set_position r (position r + w) /\
  0 <= position r /\ position r + w <= blength (buffer r).
Proof.
  rewrite Z.gtb_ltb.
  destruct (Z.ltb_spec (blength (buffer r)) (position r + w)); [discriminate|].
  unfold bind, lift, Buffer_readUInt.
  destruct (Z.ltb_spec (position r) 0); cbn [orb]; [discriminate|].
  destruct (blength (buffer r) <? position r + w); [discriminate|].
  intros [= <- <-]. repeat split; lia.
Qed.

Lemma readUInt16_inv (r r' : BufferReader) (v : Z) :
  readUInt16 r = Ret (v, r') ->
  v = uintValue (littleEndian r) 2 (buffer r) (position r) /\
  r' = set_position r (position r + 2) /\
  0 <= position r /\ position r + 2 <= blength (buffer r).
Proof. apply readUInt_inv. Qed.

Lemma readUInt32_inv (r r' : BufferReader) (v : Z) :
  readUInt32 r = Ret (v, r') ->
  v = uintValue (littleEndian r) 4 (buffer r) (position r) /\
  r' = set_position r (position r + 4) /\
  0 <= position r /\ position r + 4 <= blength (buffer r).
Proof. apply readUInt_inv. Qed.

Lemma readInt32_inv (r r' : BufferReader) (v : Z) :
  readInt32 r = Ret (v, r') ->
  v = toSigned32 (uintValue (littleEndian r) 4 (buffer r) (position r)) /\
  r' = set_position r (position r + 4) /\
  0 <= position r /\ position r + 4 <= blength (buffer r).
Proof.
  unfold readInt32. rewrite Z.gtb_ltb.
  destruct (Z.ltb_spec (blength (buffer r)) (position r + 4)); [discriminate|].
  unfold bind, lift, Buffer_readInt32, Buffer_readUInt.
  destruct (Z.ltb_spec (position r) 0); cbn [orb]; [discriminate|].
  destruct (blength (buffer r) <? position r + 4); [discriminate|].
  intros [= <- <-]. repeat split; lia.
Qed.

Lemma toSigned32_range (v : Z) :
  0 <= v < 2 ^ 32 -> - 2 ^ 31 <= toSigned32 v < 2 ^ 31.
Proof.
  intros H. unfold toSigned32. destruct (Z.ltb_spec v (2 ^ 31)); lia.
Qed.

(** X1.  A read of a number that returns gives a value of its type: a byte, a
    16-bit or 32-bit unsigned integer, or a 32-bit signed integer. *)
Theorem numberRead_in_range (k : NumberRead) (r r' : BufferReader) (v : Z) :
  numberRead k r = Ret (v, r') -> numberLow k <= v < numberHigh k.
Proof.
  destruct k; cbn [numberRead numberLow numberHigh]; intros H.
  - apply readUInt8_inv in H as (-> & _). pose proof (byteAt_range (buffer r) (position r)). lia.
  - apply readUInt16_inv in H as (-> & _). apply (uintValue_range _ 2). lia.
  - apply readUInt32_inv in H as (-> & _). apply (uintValue_range _ 4). lia.
  - apply readInt32_inv in H as (-> & _). apply toSigned32_range.
    apply (uintValue_range _ 4). lia.
  - unfold peekUInt8 in H.
    destruct (position r >=? blength (buffer r)); [discriminate|].
    injection H as <- _. pose proof (byteAt_range (buffer r) (position r)). lia.
Qed.

Lemma numberRead_in_range_witness :
  numberLow ReadI32 <= -1 < numberHigh ReadI32.
Proof.
  apply (numberRead_in_range ReadI32
           (new_BufferReader [xff; xff; xff; xff] false)
           (set_position (new_BufferReader [xff; xff; xff; xff] false) 4) (-1)).
  reflexivity.
Defined.

(** ** Byte order *)

Lemma slice_at (buf : Buffer) (off w : Z) :
  0 <= off ->
  slice buf off (off + w) = firstn (Z.to_nat w) (skipn (Z.to_nat off) buf).
Proof.
  intros H. unfold slice. replace (off + w - off) with w by lia. reflexivity.
Qed.

Lemma byteAt_skipn (buf : Buffer) (off i : Z) :
  0 <= off -> 0 <= i ->
  byteAt (skipn (Z.to_nat off) buf) i = byteAt buf (off + i).
Proof.
  intros Hoff Hi. unfold byteAt, Buffer_get.
  rewrite (proj2 (Z.ltb_ge i 0)), (proj2 (Z.ltb_ge (off + i) 0)) by lia.
  rewrite nth_error_skipn. replace (Z.to_nat off + Z.to_nat i)%nat
    with (Z.to_nat (off + i)) by lia.
  reflexivity.
Qed.

Lemma skipn_four (buf : Buffer) (off : Z) :
  0 <= off -> off + 4 <= blength buf ->
  exists b0 b1 b2 b3 t,
    skipn (Z.to_nat off) buf = b0 :: b1 :: b2 :: b3 :: t /\
    byteVal b0 = byteAt buf off /\ byteVal b1 = byteAt buf (off + 1) /\
    byteVal b2 = byteAt buf (off + 2) /\ byteVal b3 = byteAt buf (off + 3).
Proof.
  intros Hoff Hlen.
  pose proof (byteAt_skipn buf off 0 Hoff ltac:(lia)) as H0.
  pose proof (byteAt_skipn buf off 1 Hoff ltac:(lia)) as H1.
  pose proof (byteAt_skipn buf off 2 Hoff ltac:(lia)) as H2.
  pose proof (byteAt_skipn buf off 3 Hoff ltac:(lia)) as H3.
  rewrite Z.add_0_r in H0.
  assert (Hl : (4 <= length (skipn (Z.to_nat off) buf))%nat)
    by (rewrite length_skipn; unfold blength in Hlen; lia).
  destruct (skipn (Z.to_nat off) buf) as [|b0 [|b1 [|b2 [|b3 t]]]];
    cbn [length] in Hl; try lia.
  exists b0, b1, b2, b3, t. split; [reflexivity|].
  repeat split; [exact H0|exact H1|exact H2|exact H3].
Qed.

(** The value of the [w] bytes at [off], [w] being 2 or 4, written out. *)
Definition bigEndian2 (buf : Buffer) (off : Z) : Z :=
  byteAt buf off * 2 ^ 8 + byteAt buf (off + 1).

Definition littleEndian2 (buf : Buffer) (off : Z) : Z :=
  byteAt buf off + byteAt buf (off + 1) * 2 ^ 8.

Definition bigEndian4 (buf : Buffer) (off : Z) : Z :=
  byteAt buf off * 2 ^ 24 + byteAt buf (off + 1) * 2 ^ 16 +
  byteAt buf (off + 2) * 2 ^ 8 + byteAt buf (off + 3).

Definition littleEndian4 (buf : Buffer) (off : Z) : Z :=
  byteAt buf off + byteAt buf (off + 1) * 2 ^ 8 +
  byteAt buf (off + 2) * 2 ^ 16 + byteAt buf (off + 3) * 2 ^ 24.

Lemma uintValue_2_at (le : bool) (buf : Buffer) (off : Z) :
  0 <= off -> off + 2 <= blength buf ->
  uintValue le 2 buf off =
  if le then littleEndian2 buf off else bigEndian2 buf off.
Proof.
  intros Hoff Hlen. unfold uintValue, littleEndian2, bigEndian2.
  rewrite slice_at by assumption.
  pose proof (byteAt_skipn buf off 0 Hoff ltac:(lia)) as H0.
  pose proof (byteAt_skipn buf off 1 Hoff ltac:(lia)) as H1.
  rewrite Z.add_0_r in H0.
  assert (Hl : (2 <= length (skipn (Z.to_nat off) buf))%nat)
    by (rewrite length_skipn; unfold blength in Hlen; lia).
  destruct (skipn (Z.to_nat off) buf) as [|b0 [|b1 t]];
    cbn [length] in Hl; try lia.
  change (byteAt (b0 :: b1 :: t) 0) with (byteVal b0) in H0.
  change (byteAt (b0 :: b1 :: t) 1) with (byteVal b1) in H1.
  rewrite <- H0, <- H1.
  change (firstn (Z.to_nat 2) (b0 :: b1 :: t)) with [b0; b1].
  destruct le; cbn [map rev app fold_left]; lia.
Qed.

Lemma uintValue_4_at (le : bool) (buf : Buffer) (off : Z) :
  0 <= off -> off + 4 <= blength buf ->
  uintValue le 4 buf off =
  if le then littleEndian4 buf off else bigEndian4 buf off.
Proof.
  intros Hoff Hlen. unfold uintValue, littleEndian4, bigEndian4.
  rewrite slice_at by assumption.
  destruct (skipn_four buf off Hoff Hlen)
    as (b0 & b1 & b2 & b3 & t & -> & <- & <- & <- & <-).
  change (firstn (Z.to_nat 4) (b0 :: b1 :: b2 :: b3 :: t)) with [b0; b1; b2; b3].
  destruct le; cbn [map rev app fold_left]; lia.
Qed.

(** X2.  The multi-byte reads put the bytes at the cursor together in the byte
    order the reader was built with, the first byte being the most
    significant one in a big-endian reader and the least significant one
    in a little-endian reader; [readInt32] reads the same 32 bits as two's
    complement.  The cursor moves past the bytes read. *)
Theorem reads_follow_byte_order (r : BufferReader) :
  0 <= position r -> position r + 4 <= blength (buffer r) ->
  let buf := buffer r in
  let p := position r in
  readUInt16 r =
    Ret (if littleEndian r then littleEndian2 buf p else bigEndian2 buf p,
         set_position r (p + 2)) /\
  readUInt32 r =
    Ret (if littleEndian r then littleEndian4 buf p else bigEndian4 buf p,
         set_position r (p + 4)) /\
  readInt32 r =
    Ret (toSigned32
           (if littleEndian r then littleEndian4 buf p else bigEndian4 buf p),
         set_position r (p + 4)).
Proof.
  intros H0 H. cbv zeta.
  rewrite readUInt16_ok, readUInt32_ok, readInt32_ok by lia.
  rewrite uintValue_2_at, uintValue_4_at by lia.
  repeat split; reflexivity.
Qed.

Lemma reads_follow_byte_order_witness :
  readUInt16 (new_BufferReader [x12; x34; x56; x78] true) =
    Ret (0x3412, set_position (new_BufferReader [x12; x34; x56; x78] true) 2) /\
  readUInt32 (new_BufferReader [x12; x34; x56; x78] true) =
    Ret (0x78563412, set_position (new_BufferReader [x12; x34; x56; x78] true) 4) /\
  readInt32 (new_BufferReader [x12; x34; x56; x78] true) =
    Ret (0x78563412, set_position (new_BufferReader [x12; x34; x56; x78] true) 4).
Proof.
  apply (reads_follow_byte_order (new_BufferReader [x12; x34; x56; x78] true));
    vm_compute; discriminate.
Defined.

(** ** readNullTerminatedString *)

(** Where the scan of [readNullTerminatedString] has to stop at the
    latest: [maxLength] bytes after the cursor, or the end of the buffer
    when there is no [maxLength] or when it is 0. *)
Definition scanLimit (maxLength : option Z) (r : BufferReader) : Z :=
  match maxLength with
  | Some n => if truthyZ n then Z.min (position r + n) (blength (buffer r))
              else blength (buffer r)
  | None => blength (buffer r)
  end.

Lemma scanNull_first_zero (n : nat) (buf : Buffer) (max : Z) :
  forall e : Z,
    max - e <= Z.of_nat n ->
    (forall i, e <= i < scanNull n buf e max -> Buffer_get buf i <> Some 0) /\
    (scanNull n buf e max < max -> Buffer_get buf (scanNull n buf e max) = Some 0).
Proof.
  induction n as [|n IH]; intros e Hn; cbn [scanNull].
  - split; intros; lia.
  - destruct (Z.ltb_spec e max) as [Hlt|Hge]; cbn [andb]; [|split; intros; lia].
    destruct (Buffer_get buf e) as [[|q|q]|] eqn:Eb; cbn [negb];
      try (destruct (IH (e + 1) ltac:(lia)) as [Hbefore Hat];
           split; [|exact Hat];
           intros i Hi; destruct (Z.eq_dec i e) as [->|Hne];
           [rewrite Eb; discriminate|apply Hbefore; lia]).
    split; [intros; lia|intros _; exact Eb].
Qed.

(** X3.  [readNullTerminatedString] never fails.  It returns the text of the
    bytes from the cursor up to the first zero byte, or up to the limit
    when no zero byte comes before it, and leaves the cursor after the
    zero byte it found, or at the limit.  A [maxLength] of 0 counts as
    none. *)
Theorem readNullTerminatedString_first_zero
  (maxLength : option Z) (enc : BufferEncoding) (r : BufferReader) :
  exists e : Z,
    readNullTerminatedString maxLength enc r =
      Ret (Buffer_toString enc (buffer r) (position r) e,
           set_position r (if e <? scanLimit maxLength r then e + 1 else e)) /\
    position r <= e <= Z.max (position r) (scanLimit maxLength r) /\
    (forall i, position r <= i < e -> Buffer_get (buffer r) i <> Some 0) /\
    (e < scanLimit maxLength r -> Buffer_get (buffer r) e = Some 0) /\
    scanLimit (Some 0) r = blength (buffer r).
Proof.
  unfold readNullTerminatedString. fold (scanLimit maxLength r).
  set (limit := scanLimit maxLength r).
  set (e := scanNull (Z.to_nat (limit - position r)) (buffer r) (position r) limit).
  exists e. split; [reflexivity|].
  split; [apply scanNull_bounds|].
  destruct (scanNull_first_zero (Z.to_nat (limit - position r)) (buffer r)
              limit (position r) ltac:(lia)) as [Hbefore Hat].
  split; [exact Hbefore|]. split; [exact Hat|reflexivity].
Qed.

(* ================================================================== *)
(** * Further properties: the dispatcher *)
(* ================================================================== *)

(** A decoder that does not take the buffer: it returns none or throws. *)
Definition refuses (p : Parser) (buf : Buffer) : Prop :=
  p buf = Ret None \/ exists msg, p buf = Throw msg.

Lemma attempt_cases (p : Parser) (buf : Buffer) :
  (attempt p buf = Ret None /\ refuses p buf) \/
  (exists r, attempt p buf = Ret (Some r) /\ p buf = Ret (Some r)) \/
  (attempt p buf = Hang /\ p buf = Hang).
Proof.
  unfold attempt, refuses. destruct (p buf) as [[r|]|msg|]; eauto 6.
Qed.

Lemma all_formats (f : Format) : In f getAllParsers.
Proof. destruct f; cbn; tauto. Qed.

Lemma Format_eqb_eq (a b : Format) : Format_eqb a b = true <-> a = b.
Proof. destruct a, b; cbn; split; congruence. Qed.

Lemma tryParsers_cases (buf : Buffer) (d : option Format) (ps : list Format) :
  (tryParsers ps d buf = Ret None /\
   forall f, In f ps -> Some f <> d -> refuses (parserOf f) buf) \/
  (exists f r, tryParsers ps d buf = Ret (Some r) /\
               In f ps /\ parserOf f buf = Ret (Some r)) \/
  (exists f, tryParsers ps d buf = Hang /\ In f ps /\ parserOf f buf = Hang).
Proof.
  induction ps as [|p ps IH]; cbn [tryParsers].
  - left. split; [reflexivity|]. intros f [].
  - assert (Hrest :
      (tryParsers ps d buf = Ret None /\
       forall f, In f ps -> Some f <> d -> refuses (parserOf f) buf) \/
      (exists f r, tryParsers ps d buf = Ret (Some r) /\
                   In f (p :: ps) /\ parserOf f buf = Ret (Some r)) \/
      (exists f, tryParsers ps d buf = Hang /\ In f (p :: ps) /\
                 parserOf f buf = Hang)).
    { destruct IH as [H|[(f & r & H & Hin & Hf)|(f & H & Hin & Hf)]].
      - left. exact H.
      - right. left. exists f, r. cbn [In]. auto.
      - right. right. exists f. cbn [In]. auto. }
    destruct (match d with Some d0 => Format_eqb p d0 | None => false end) eqn:Ed.
    + destruct d as [d0|]; [|discriminate]. apply Format_eqb_eq in Ed. subst d0.
      destruct Hrest as [[H Hall]|[H|H]]; [left|right; left; exact H|right; right; exact H].
      split; [exact H|]. intros f [<-|Hin] Hne; [congruence|auto].
    + destruct (attempt_cases (parserOf p) buf)
        as [[Ha Hr]|[(r & Ha & Hp)|[Ha Hp]]]; rewrite Ha.
      * destruct Hrest as [[H Hall]|[H|H]];
          [left|right; left; exact H|right; right; exact H].
        split; [exact H|]. intros f [<-|Hin] Hne; [exact Hr|auto].
      * right. left. exists p, r. cbn [In]. auto.
      * right. right. exists p. cbn [In]. auto.
Qed.

(** X4.  [parseImage] does not let an exception of a decoder out: whatever the
    buffer, it returns or, when a decoder does not return, does not return
    either. *)
Theorem parseImage_never_throws (buf : Buffer) (msg : string) :
  parseImage buf <> Throw msg.
Proof.
  unfold parseImage.
  destruct (tryParsers_cases buf (detectFormat buf) getAllParsers)
    as [[Ht _]|[(f & r & Ht & _)|(f & Ht & _)]].
  all: destruct (detectFormat buf) as [d|]; [|rewrite Ht; discriminate].
  all: destruct (attempt_cases (parserOf d) buf)
         as [[Ha _]|[(r' & Ha & _)|[Ha _]]]; rewrite Ha; try rewrite Ht;
         discriminate.
Qed.

(** X5.  A result of [parseImage] is the result of one of the eight decoders
    on the same buffer. *)
Theorem parseImage_result_of_a_decoder (buf : Buffer) (r : ParseResult) :
  parseImage buf = Ret (Some r) -> exists f, parserOf f buf = Ret (Some r).
Proof.
  unfold parseImage.
  destruct (tryParsers_cases buf (detectFormat buf) getAllParsers)
    as [[Ht _]|[(f & r' & Ht & _ & Hf)|(f & Ht & _ & Hf)]].
  all: destruct (detectFormat buf) as [d|];
    [destruct (attempt_cases (parserOf d) buf)
       as [[Ha _]|[(r0 & Ha & Hd)|[Ha Hd]]]; rewrite Ha|];
    try rewrite Ht.
  all: try discriminate.
  all: intros [= <-]; eauto.
Qed.

Lemma parseImage_result_of_a_decoder_witness :
  exists f, parserOf f [x20; x3c; x73; x76; x67; x3e] = Ret (Some svg_default).
Proof.
  apply (parseImage_result_of_a_decoder [x20; x3c; x73; x76; x67; x3e]).
  vm_compute. reflexivity.
Defined.

(** X6.  [parseImage] fails to return only on a buffer on which one of the
    decoders fails to return. *)
Theorem parseImage_hangs_with_a_decoder (buf : Buffer) :
  parseImage buf = Hang -> exists f, parserOf f buf = Hang.
Proof.
  unfold parseImage.
  destruct (tryParsers_cases buf (detectFormat buf) getAllParsers)
    as [[Ht _]|[(f & r' & Ht & _ & Hf)|(f & Ht & _ & Hf)]].
  all: destruct (detectFormat buf) as [d|];
    [destruct (attempt_cases (parserOf d) buf)
       as [[Ha _]|[(r0 & Ha & Hd)|[Ha Hd]]]; rewrite Ha|];
    try rewrite Ht.
  all: try discriminate.
  all: intros _; eauto.
Qed.

Lemma parseImage_hangs_with_a_decoder_witness :
  exists f, parserOf f avif_zero_box = Hang.
Proof.
  apply (parseImage_hangs_with_a_decoder avif_zero_box).
  vm_compute. reflexivity.
Defined.

Lemma refuses_not_accepts (p : Parser) (buf : Buffer) :
  refuses p buf -> attempt p buf = Ret None.
Proof.
  unfold refuses, attempt. intros [->|[msg ->]]; reflexivity.
Qed.

(** X7.  [parseImage] returns none exactly when each of the eight decoders
    returns none or throws on the buffer. *)
Theorem parseImage_none_iff_all_refuse (buf : Buffer) :
  parseImage buf = Ret None <-> forall f, refuses (parserOf f) buf.
Proof.
  unfold parseImage. split.
  - intros H f.
    destruct (tryParsers_cases buf (detectFormat buf) getAllParsers)
      as [[Ht Hall]|[(g & r' & Ht & _ & Hg)|(g & Ht & _ & Hg)]].
    all: destruct (detectFormat buf) as [d|];
      [destruct (attempt_cases (parserOf d) buf)
         as [[Ha Hr]|[(r0 & Ha & Hd)|[Ha Hd]]]; rewrite Ha in H|];
      try rewrite Ht in H; try discriminate.
    + destruct (Format_eqb f d) eqn:E.
      * apply Format_eqb_eq in E. subst. exact Hr.
      * apply Hall; [apply all_formats|].
        intros [= ->]. destruct d; discriminate.
    + apply Hall; [apply all_formats|discriminate].
  - intros Hall.
    assert (Ht : tryParsers getAllParsers (detectFormat buf) buf = Ret None).
    { destruct (tryParsers_cases buf (detectFormat buf) getAllParsers)
        as [[Ht _]|[(g & r' & _ & _ & Hg)|(g & _ & _ & Hg)]]; [exact Ht| |].
      - destruct (Hall g) as [E|[msg E]]; congruence.
      - destruct (Hall g) as [E|[msg E]]; congruence. }
    destruct (detectFormat buf) as [d|]; [|exact Ht].
    rewrite (refuses_not_accepts _ _ (Hall d)). exact Ht.
Qed.

(* ================================================================== *)
(** * Further properties: the detector *)
(* ================================================================== *)

(** The type tag that [getImageType] gives for each decoder. *)
Definition formatTag (f : Format) : JSString :=
  match f with
  | JPEG => js "jpg"
  | PNG => js "png"
  | GIF => js "gif"
  | WebP => js "webp"
  | BMP => js "bmp"
  | ICO => js "ico"
  | AVIF => js "avif"
  | SVG => js "svg"
  end.

Lemma short_buffer_undetected (buf : Buffer) :
  blength buf < 2 -> detectFormat buf = None.
Proof.
  unfold blength. destruct buf as [|b [|b' l]]; cbn [length]; try lia; intros _.
  - vm_compute. reflexivity.
  - destruct b; vm_compute; reflexivity.
Qed.

(** X8.  [getImageType] is [detectFormat] followed by the name of the decoder
    found: the two never disagree on the format of a buffer, and a buffer
    of fewer than two bytes has none. *)
Theorem getImageType_is_detectFormat (buf : Buffer) :
  getImageType buf = option_map formatTag (detectFormat buf).
Proof.
  unfold getImageType.
  destruct (Z.ltb_spec (blength buf) 2) as [Hshort|_].
  - rewrite short_buffer_undetected by assumption. reflexivity.
  - unfold detectFormat, detectors. cbn [firstValid validate parser].
    destruct (jpegValidate buf); [reflexivity|].
    destruct (pngValidate buf); [reflexivity|].
    destruct (gifValidate buf); [reflexivity|].
    destruct (webpValidate buf); [reflexivity|].
    destruct (bmpValidate buf); [reflexivity|].
    destruct (icoValidate buf); [reflexivity|].
    destruct (avifValidate buf); [reflexivity|].
    destruct (svgValidate buf); reflexivity.
Qed.

(** ** Signatures *)

Lemma byteVal_inj (a b : byte) : byteVal a = byteVal b -> a = b.
Proof.
  unfold byteVal. intros H. apply N2Z.inj in H.
  pose proof (Byte.of_to_N a) as Ha. rewrite H, Byte.of_to_N in Ha.
  congruence.
Qed.

Lemma map_byteVal_inj (l l' : Buffer) : map byteVal l = map byteVal l' -> l = l'.
Proof.
  revert l'. induction l as [|b l IH]; intros [|b' l']; cbn [map];
    try discriminate; [reflexivity|].
  intros [= Hb Hl]. f_equal; [apply byteVal_inj, Hb|apply IH, Hl].
Qed.

Lemma utf8_nonempty (b : Z) (bs : list Z) : utf8_decode_from None (b :: bs) <> [].
Proof.
  cbn [utf8_decode_from].
  destruct (utf8_lead_cases b) as [E|[[_ E]|[_ (s & E & Hs)]]]; rewrite E;
    cbn [app]; try discriminate.
  destruct (utf8_sequence_head bs s Hs) as (c & cs & -> & _). discriminate.
Qed.

(** A decoded text made of ASCII units only is the bytes it was decoded
    from. *)
Lemma utf8_ascii_inv (s : JSString) :
  forall bs : list Z,
    Forall (fun c => c <= 127) s -> utf8_decode_from None bs = s -> bs = s.
Proof.
  induction s as [|c s IH]; intros bs Hs H.
  - destruct bs as [|b bs]; [reflexivity|]. destruct (utf8_nonempty b bs H).
  - inversion Hs as [|? ? Hc Hs']; subst.
    destruct bs as [|b bs]; [discriminate|].
    apply utf8_head_ascii in H as [-> H]; [|assumption].
    f_equal. apply IH; assumption.
Qed.

Lemma literal_ascii (l : Buffer) :
  forallb (fun b => byteVal b <=? 127) l = true ->
  Forall (fun c => c <= 127) (map byteVal l).
Proof.
  induction l as [|b l IH]; cbn [forallb map]; intros H; constructor.
  - apply andb_prop in H as [H _]. apply Z.leb_le, H.
  - apply IH. apply andb_prop in H as [_ H]. exact H.
Qed.

(** The bytes under a text that was read and found equal to an ASCII
    literal. *)
Lemma text_bytes (buf : Buffer) (p q : Z) (lit : string) :
  0 <= p -> q <= blength buf ->
  forallb (fun b => byteVal b <=? 127) (list_byte_of_string lit) = true ->
  jstr_eqb (Buffer_toString utf8 buf p q) (js lit) = true ->
  slice buf p q = list_byte_of_string lit.
Proof.
  intros Hp Hq Hlit H. apply jstr_eqb_eq in H.
  unfold Buffer_toString, decode, js in H.
  rewrite Z.max_l, Z.min_l in H by lia.
  apply utf8_ascii_inv in H; [|apply literal_ascii, Hlit].
  apply map_byteVal_inj, H.
Qed.

Lemma Buffer_equals_eq (a b : Buffer) : Buffer_equals a b = true -> a = b.
Proof.
  revert b. induction a as [|x a IH]; intros [|y b]; cbn [Buffer_equals];
    try discriminate; [reflexivity|].
  intros H. apply andb_prop in H as [Hx Hab].
  apply Byte.byte_dec_bl in Hx. subst. f_equal. apply IH, Hab.
Qed.

Lemma parseJPEG_signature (buf : Buffer) (r : ParseResult) :
  parseJPEG buf = Ret (Some r) ->
  4 <= blength buf /\ slice buf 0 2 = [xff; xd8].
Proof.
  unfold parseJPEG.
  destruct (Z.ltb_spec (blength buf) 4) as [|Hlen]; [discriminate|].
  unfold run at 1. reader_step. reader_norm.
  destruct (Z.eqb_spec (uintValue false 2 buf 0) MARKERS.SOI) as [E|];
    cbn [negb]; [intros _|refused].
  split; [exact Hlen|].
  destruct (two_bytes buf) as (b0 & b1 & l & ->); [lia|].
  rewrite uintValue_2 in E. unfold MARKERS.SOI in E.
  pose proof (byteVal_range b0). pose proof (byteVal_range b1).
  change (slice (b0 :: b1 :: l) 0 2) with [b0; b1].
  assert (b0 = xff) by (apply byteVal_inj; change (byteVal xff) with 255; lia).
  assert (b1 = xd8) by (apply byteVal_inj; change (byteVal xd8) with 216; lia).
  subst. reflexivity.
Qed.

Lemma parsePNG_signature (buf : Buffer) (r : ParseResult) :
  parsePNG buf = Ret (Some r) ->
  24 <= blength buf /\ slice buf 0 8 = PNG_SIGNATURE.
Proof.
  unfold parsePNG.
  destruct (Z.ltb_spec (blength buf) 24) as [|Hlen]; [discriminate|].
  destruct (Buffer_equals (subarray buf 0 8) PNG_SIGNATURE) eqn:E;
    cbn [negb]; [intros _|discriminate].
  split; [exact Hlen|].
  unfold subarray, relIndex in E. cbn [Z.ltb Z.compare] in E.
  rewrite !Z.min_l in E by lia.
  apply Buffer_equals_eq, E.
Qed.

Lemma parseGIF_signature (buf : Buffer) (r : ParseResult) :
  parseGIF buf = Ret (Some r) ->
  10 <= blength buf /\
  (slice buf 0 6 = list_byte_of_string "GIF87a" \/
   slice buf 0 6 = list_byte_of_string "GIF89a").
Proof.
  unfold parseGIF.
  destruct (Z.ltb_spec (blength buf) 10) as [|Hlen]; [discriminate|].
  unfold run at 1. reader_step. reader_norm.
  destruct (jstr_eqb (Buffer_toString utf8 buf 0 6) (js "GIF87a")) eqn:E1;
    [|destruct (jstr_eqb (Buffer_toString utf8 buf 0 6) (js "GIF89a")) eqn:E2];
    cbn [negb andb]; [intros _|intros _|refused].
  - split; [exact Hlen|]. left. apply text_bytes; [lia|lia|reflexivity|exact E1].
  - split; [exact Hlen|]. right. apply text_bytes; [lia|lia|reflexivity|exact E2].
Qed.

Lemma parseWebP_signature (buf : Buffer) (r : ParseResult) :
  parseWebP buf = Ret (Some r) ->
  12 <= blength buf /\
  slice buf 0 4 = list_byte_of_string "RIFF" /\
  slice buf 8 12 = list_byte_of_string "WEBP".
Proof.
  unfold parseWebP.
  destruct (Z.ltb_spec (blength buf) 12) as [|Hlen]; [discriminate|].
  unfold run at 1. reader_step. reader_norm.
  destruct (jstr_eqb (Buffer_toString utf8 buf 0 4) (js "RIFF")) eqn:E1;
    cbn [negb]; [|refused].
  do 2 reader_step. reader_norm.
  destruct (jstr_eqb (Buffer_toString utf8 buf 8 12) (js "WEBP")) eqn:E2;
    cbn [negb]; [intros _|refused].
  split; [exact Hlen|].
  split; apply text_bytes; try lia; try reflexivity; assumption.
Qed.

Lemma parseBMP_signature (buf : Buffer) (r : ParseResult) :
  parseBMP buf = Ret (Some r) ->
  26 <= blength buf /\ slice buf 0 2 = list_byte_of_string "BM".
Proof.
  unfold parseBMP.
  destruct (Z.ltb_spec (blength buf) 26) as [|Hlen]; [discriminate|].
  unfold run at 1. reader_step. reader_norm.
  destruct (jstr_eqb (Buffer_toString utf8 buf 0 2) (js "BM")) eqn:E;
    cbn [negb]; [intros _|refused].
  split; [exact Hlen|]. apply text_bytes; try lia; try reflexivity; assumption.
Qed.

Lemma parseICO_signature (buf : Buffer) (r : ParseResult) :
  parseICO buf = Ret (Some r) ->
  6 <= blength buf /\ slice buf 0 4 = [x00; x00; x01; x00].
Proof.
  unfold parseICO.
  destruct (Z.ltb_spec (blength buf) 6) as [|Hlen]; [discriminate|].
  unfold run at 1. do 3 (reader_step; reader_norm).
  destruct (Z.eqb_spec (uintValue true 2 buf 0) 0) as [E0|];
    cbn [negb orb]; [|refused].
  destruct (Z.eqb_spec (uintValue true 2 buf 2) 1) as [E1|];
    cbn [negb orb]; [intros _|refused].
  split; [exact Hlen|].
  destruct buf as [|b0 [|b1 [|b2 [|b3 l]]]];
    try (unfold blength in Hlen; cbn [length] in Hlen; lia).
  rewrite uintValue_2 in E0.
  change (uintValue true 2 (b0 :: b1 :: b2 :: b3 :: l) 2)
    with (byteVal b3 * 256 + byteVal b2) in E1.
  pose proof (byteVal_range b0). pose proof (byteVal_range b1).
  pose proof (byteVal_range b2). pose proof (byteVal_range b3).
  change (slice (b0 :: b1 :: b2 :: b3 :: l) 0 4) with [b0; b1; b2; b3].
  assert (b0 = x00) by (apply byteVal_inj; change (byteVal x00) with 0; lia).
  assert (b1 = x00) by (apply byteVal_inj; change (byteVal x00) with 0; lia).
  assert (b2 = x01) by (apply byteVal_inj; change (byteVal x01) with 1; lia).
  assert (b3 = x00) by (apply byteVal_inj; change (byteVal x00) with 0; lia).
  subst. reflexivity.
Qed.

(** ** What the validators look at *)

Lemma slice_prefix (buf sig : Buffer) :
  slice buf 0 (Z.of_nat (length sig)) = sig ->
  buf = sig ++ skipn (length sig) buf.
Proof.
  unfold slice. rewrite Z.sub_0_r, Nat2Z.id. cbn [Z.to_nat skipn].
  intros H. rewrite <- H at 1. symmetry. apply firstn_skipn.
Qed.

Lemma blength_slice (buf : Buffer) (s e : Z) :
  0 <= s -> s <= e -> e <= blength buf -> blength (slice buf s e) = e - s.
Proof. apply slice_length. Qed.

Lemma jpegValidate_first (b : byte) (l : Buffer) :
  byteVal b <> 0xff -> jpegValidate (b :: l) = false.
Proof.
  intros H. unfold jpegValidate, getIs.
  change (Buffer_get (b :: l) 0) with (Some (byteVal b)). cbv beta iota.
  rewrite (proj2 (Z.eqb_neq _ _) H), andb_false_r. reflexivity.
Qed.

Lemma pngValidate_first (b : byte) (l : Buffer) :
  byteVal b <> 0x89 -> pngValidate (b :: l) = false.
Proof.
  intros H. unfold pngValidate, matchesSignature.
  destruct (_ >? _); [reflexivity|]. cbn [sigMatch].
  change (Buffer_get (b :: l) 0) with (Some (byteVal b)). cbv beta iota.
  rewrite (proj2 (Z.eqb_neq _ _) H). reflexivity.
Qed.

Lemma gifValidate_first (b : byte) (l : Buffer) :
  Z.land (byteVal b) 127 <> 71 -> gifValidate (b :: l) = false.
Proof.
  intros H. unfold gifValidate.
  destruct (Z.ltb_spec (blength (b :: l)) 6) as [|Hlen]; [reflexivity|].
  pose proof (blength_nonneg l).
  rewrite subarray_in by lia.
  rewrite Buffer_toString_in by (rewrite ?blength_slice; lia).
  rewrite (slice_0_cons b l 6) by lia.
  rewrite slice_0_cons by lia.
  cbn [decode map].
  change (js "GIF87a") with [71; 73; 70; 56; 55; 97].
  change (js "GIF89a") with [71; 73; 70; 56; 57; 97].
  cbn [jstr_eqb]. rewrite (proj2 (Z.eqb_neq _ _) H). reflexivity.
Qed.

Lemma webpValidate_first (b : byte) (l : Buffer) :
  byteVal b <> 82 -> webpValidate (b :: l) = false.
Proof.
  intros H. unfold webpValidate, matchesSignature.
  destruct (_ >=? 12); [|reflexivity]. cbn [andb].
  destruct (0 + _ >? _); [reflexivity|].
  change (js "RIFF") with [82; 73; 70; 70]. cbn [sigMatch].
  change (Buffer_get (b :: l) 0) with (Some (byteVal b)). cbv beta iota.
  rewrite (proj2 (Z.eqb_neq _ _) H). reflexivity.
Qed.

Lemma bmpValidate_first (b : byte) (l : Buffer) :
  byteVal b <> 0x42 -> bmpValidate (b :: l) = false.
Proof.
  intros H. unfold bmpValidate, getIs.
  change (Buffer_get (b :: l) 0) with (Some (byteVal b)). cbv beta iota.
  rewrite (proj2 (Z.eqb_neq _ _) H), andb_false_r. reflexivity.
Qed.

Local Ltac byte_differs := vm_compute; discriminate.

Local Ltac skip_validators :=
  rewrite ?jpegValidate_first by byte_differs;
  rewrite ?pngValidate_first by byte_differs;
  rewrite ?gifValidate_first by byte_differs;
  rewrite ?webpValidate_first by byte_differs;
  rewrite ?bmpValidate_first by byte_differs.

Lemma detect_jpeg (buf : Buffer) :
  slice buf 0 2 = [xff; xd8] -> detectFormat buf = Some JPEG.
Proof.
  intros H. rewrite (slice_prefix buf [xff; xd8] H). cbn [app length].
  set (l := skipn 2 buf). pose proof (blength_nonneg l).
  unfold detectFormat, detectors. cbn [firstValid validate parser].
  unfold jpegValidate.
  rewrite (Zgeb_true _ 2) by (rewrite !blength_cons; lia).
  reflexivity.
Qed.

Lemma detect_png (buf : Buffer) :
  slice buf 0 8 = PNG_SIGNATURE -> detectFormat buf = Some PNG.
Proof.
  intros H. rewrite (slice_prefix buf PNG_SIGNATURE H).
  unfold PNG_SIGNATURE. cbn [app length].
  set (l := skipn 8 buf). pose proof (blength_nonneg l).
  unfold detectFormat, detectors. cbn [firstValid validate parser].
  skip_validators.
  unfold pngValidate, matchesSignature.
  rewrite (Zgtb_false _ _) by (rewrite !blength_cons; cbn [length]; lia).
  reflexivity.
Qed.

Lemma detect_gif (buf : Buffer) :
  slice buf 0 6 = list_byte_of_string "GIF87a" \/
  slice buf 0 6 = list_byte_of_string "GIF89a" ->
  detectFormat buf = Some GIF.
Proof.
  intros [H|H];
    [rewrite (slice_prefix buf (list_byte_of_string "GIF87a") H)
    |rewrite (slice_prefix buf (list_byte_of_string "GIF89a") H)];
    change (list_byte_of_string "GIF87a") with [x47; x49; x46; x38; x37; x61];
    change (list_byte_of_string "GIF89a") with [x47; x49; x46; x38; x39; x61];
    cbn [app length];
    set (l := skipn 6 buf); pose proof (blength_nonneg l);
    unfold detectFormat, detectors; cbn [firstValid validate parser];
    skip_validators;
    unfold gifValidate;
    rewrite (Zltb_false _ 6) by (rewrite !blength_cons; lia);
    rewrite subarray_in by (rewrite ?blength_cons; lia);
    rewrite Buffer_toString_in
      by (rewrite ?blength_slice; rewrite ?blength_cons; lia);
    do 6 (rewrite slice_0_cons by lia);
    reflexivity.
Qed.

Lemma detect_webp (buf : Buffer) :
  12 <= blength buf ->
  slice buf 0 4 = list_byte_of_string "RIFF" ->
  slice buf 8 12 = list_byte_of_string "WEBP" ->
  detectFormat buf = Some WebP.
Proof.
  intros Hlen H0 H8.
  destruct buf as [|b0 [|b1 [|b2 [|b3 [|b4 [|b5 [|b6 [|b7
                  [|b8 [|b9 [|b10 [|b11 l]]]]]]]]]]]];
    try (unfold blength in Hlen; cbn [length] in Hlen; lia).
  change (slice (b0 :: b1 :: b2 :: b3 :: b4 :: b5 :: b6 :: b7 ::
                 b8 :: b9 :: b10 :: b11 :: l) 0 4)
    with [b0; b1; b2; b3] in H0.
  change (slice (b0 :: b1 :: b2 :: b3 :: b4 :: b5 :: b6 :: b7 ::
                 b8 :: b9 :: b10 :: b11 :: l) 8 12)
    with [b8; b9; b10; b11] in H8.
  change (list_byte_of_string "RIFF") with [x52; x49; x46; x46] in H0.
  change (list_byte_of_string "WEBP") with [x57; x45; x42; x50] in H8.
  injection H0 as -> -> -> ->. injection H8 as -> -> -> ->.
  pose proof (blength_nonneg l).
  unfold detectFormat, detectors. cbn [firstValid validate parser].
  skip_validators.
  unfold webpValidate, matchesSignature.
  change (js "RIFF") with [82; 73; 70; 70].
  change (js "WEBP") with [87; 69; 66; 80].
  rewrite (Zgeb_true _ 12) by (rewrite !blength_cons; lia).
  rewrite !Zgtb_false by (rewrite !blength_cons; cbn [length]; lia).
  reflexivity.
Qed.

Lemma detect_bmp (buf : Buffer) :
  slice buf 0 2 = list_byte_of_string "BM" -> detectFormat buf = Some BMP.
Proof.
  intros H. rewrite (slice_prefix buf (list_byte_of_string "BM") H).
  change (list_byte_of_string "BM") with [x42; x4d]. cbn [app length].
  set (l := skipn 2 buf). pose proof (blength_nonneg l).
  unfold detectFormat, detectors. cbn [firstValid validate parser].
  skip_validators.
  unfold bmpValidate.
  rewrite (Zgeb_true _ 2) by (rewrite !blength_cons; lia).
  reflexivity.
Qed.

Lemma detect_ico (buf : Buffer) :
  slice buf 0 4 = [x00; x00; x01; x00] -> detectFormat buf = Some ICO.
Proof.
  intros H. rewrite (slice_prefix buf [x00; x00; x01; x00] H). cbn [app length].
  set (l := skipn 4 buf). pose proof (blength_nonneg l).
  unfold detectFormat, detectors. cbn [firstValid validate parser].
  skip_validators.
  unfold icoValidate.
  rewrite (Zgeb_true _ 4) by (rewrite !blength_cons; lia).
  reflexivity.
Qed.

(** The six decoders that check a signature, in registry order. *)
Definition signatureFormats : list Format := [JPEG; PNG; GIF; WebP; BMP; ICO].

(** X9.  A buffer that one of the six signature decoders accepts is detected as
    its format, so [parseImage] returns on it exactly what that decoder
    returns, and none of the other five decoders accepts it. *)
Theorem detectFormat_finds_accepting_decoder
  (f : Format) (buf : Buffer) (r : ParseResult) :
  In f signatureFormats ->
  parserOf f buf = Ret (Some r) ->
  detectFormat buf = Some f /\
  parseImage buf = Ret (Some r) /\
  forall g r', In g signatureFormats -> parserOf g buf = Ret (Some r') -> g = f.
Proof.
  assert (Hdetect : forall g r', In g signatureFormats ->
                      parserOf g buf = Ret (Some r') -> detectFormat buf = Some g).
  { intros g r' Hg Hr. cbn in Hg.
    destruct Hg as [<-|[<-|[<-|[<-|[<-|[<-|[]]]]]]]; cbn [parserOf] in Hr.
    - apply parseJPEG_signature in Hr as [_ H]. apply detect_jpeg, H.
    - apply parsePNG_signature in Hr as [_ H]. apply detect_png, H.
    - apply parseGIF_signature in Hr as [_ H]. apply detect_gif, H.
    - apply parseWebP_signature in Hr as (Hlen & H0 & H8).
      apply detect_webp; assumption.
    - apply parseBMP_signature in Hr as [_ H]. apply detect_bmp, H.
    - apply parseICO_signature in Hr as [_ H]. apply detect_ico, H. }
  intros Hf Hr. pose proof (Hdetect f r Hf Hr) as Hd.
  split; [exact Hd|]. split.
  - unfold parseImage, attempt. rewrite Hd, Hr. reflexivity.
  - intros g r' Hg Hr'. pose proof (Hdetect g r' Hg Hr'). congruence.
Qed.

Lemma detectFormat_finds_accepting_decoder_witness :
  detectFormat (png_scenario (x00, x00, x00, x00) (x00, x00, x00, x00)) = Some PNG /\
  parseImage (png_scenario (x00, x00, x00, x00) (x00, x00, x00, x00))
  = Ret (Some png_320x256) /\
  forall g r', In g signatureFormats ->
    parserOf g (png_scenario (x00, x00, x00, x00) (x00, x00, x00, x00))
    = Ret (Some r') -> g = PNG.
Proof.
  apply (detectFormat_finds_accepting_decoder PNG).
  - cbn. tauto.
  - vm_compute. reflexivity.
Defined.

(** ** The detector and the quick sniff *)

Lemma firstValid_inv (ds : list DetectorEntry) (buf : Buffer) (f : Format) :
  firstValid ds buf = Some f ->
  exists d, In d ds /\ parser d = f /\ validate d buf = true.
Proof.
  induction ds as [|d ds IH]; cbn [firstValid]; [discriminate|].
  destruct (validate d buf) eqn:E.
  - intros [= <-]. exists d. cbn [In]. auto.
  - intros H. destruct (IH H) as (d' & Hin & Hp & Hv). exists d'. cbn [In]. auto.
Qed.

Lemma getIs_inv (buf : Buffer) (i v : Z) :
  getIs buf i v = true -> Buffer_get buf i = Some v.
Proof.
  unfold getIs. destruct (Buffer_get buf i) as [x|]; [|discriminate].
  intros H. apply Z.eqb_eq in H. congruence.
Qed.

Lemma sigMatch_two (buf : Buffer) (a b : Z) (rest : list Z) :
  sigMatch buf (a :: b :: rest) 0 = true ->
  Buffer_get buf 0 = Some a /\ Buffer_get buf 1 = Some b.
Proof.
  cbn [sigMatch]. change (0 + 1) with 1.
  destruct (Buffer_get buf 0) as [x|]; [|discriminate].
  destruct (Z.eqb_spec x a); [subst|discriminate].
  destruct (Buffer_get buf 1) as [y|]; [|discriminate].
  destruct (Z.eqb_spec y b); [subst|discriminate].
  auto.
Qed.

Lemma mightBeImage_of_first_two (buf : Buffer) (a b : Z) :
  Buffer_get buf 0 = Some a -> Buffer_get buf 1 = Some b ->
  sniffed a b = true -> mightBeImage buf = true.
Proof.
  intros Ha Hb Hs.
  destruct buf as [|b0 [|b1 l]]; try discriminate.
  change (Buffer_get (b0 :: b1 :: l) 0) with (Some (byteVal b0)) in Ha.
  change (Buffer_get (b0 :: b1 :: l) 1) with (Some (byteVal b1)) in Hb.
  apply mightBeImage_sniffed. congruence.
Qed.

(** X10.  A buffer that [detectFormat] takes for a JPEG, PNG, WebP, BMP or ICO
    passes the quick sniff.  (The GIF, AVIF and SVG detectors look at the
    buffer in ways the sniff does not follow.) *)
Theorem mightBeImage_follows_detectFormat (buf : Buffer) (f : Format) :
  detectFormat buf = Some f ->
  In f [JPEG; PNG; WebP; BMP; ICO] ->
  mightBeImage buf = true.
Proof.
  intros Hd Hf. unfold detectFormat in Hd.
  apply firstValid_inv in Hd as (d & Hin & Hp & Hv).
  unfold detectors in Hin. cbn [In] in Hin.
  destruct Hin as [<-|[<-|[<-|[<-|[<-|[<-|[<-|[<-|[]]]]]]]]];
    cbn [parser validate] in Hp, Hv; subst f; cbn [In] in Hf;
    try (exfalso; intuition discriminate).
  - unfold jpegValidate in Hv.
    apply andb_prop in Hv as [Hv H1]. apply andb_prop in Hv as [_ H0].
    apply getIs_inv in H0, H1.
    apply (mightBeImage_of_first_two buf _ _ H0 H1). reflexivity.
  - unfold pngValidate, matchesSignature in Hv.
    destruct (_ >? _); [discriminate|].
    apply sigMatch_two in Hv as [H0 H1].
    apply (mightBeImage_of_first_two buf _ _ H0 H1). reflexivity.
  - unfold webpValidate, matchesSignature in Hv.
    apply andb_prop in Hv as [Hv _]. apply andb_prop in Hv as [_ Hv].
    destruct (_ >? _); [discriminate|].
    change (js "RIFF") with [82; 73; 70; 70] in Hv.
    apply sigMatch_two in Hv as [H0 H1].
    apply (mightBeImage_of_first_two buf _ _ H0 H1). reflexivity.
  - unfold bmpValidate in Hv.
    apply andb_prop in Hv as [Hv H1]. apply andb_prop in Hv as [_ H0].
    apply getIs_inv in H0, H1.
    apply (mightBeImage_of_first_two buf _ _ H0 H1). reflexivity.
  - unfold icoValidate in Hv.
    apply andb_prop in Hv as [Hv _]. apply andb_prop in Hv as [Hv _].
    apply andb_prop in Hv as [Hv H1]. apply andb_prop in Hv as [_ H0].
    apply getIs_inv in H0, H1.
    apply (mightBeImage_of_first_two buf _ _ H0 H1). reflexivity.
Qed.

Lemma mightBeImage_follows_detectFormat_witness :
  mightBeImage [x42; x4d; x3c; x73; x76; x67; x3e] = true.
Proof.
  apply (mightBeImage_follows_detectFormat _ BMP).
  - vm_compute. reflexivity.
  - cbn. tauto.
Defined.

(* ================================================================== *)
(** * Further properties: what the decoders accept and return *)
(* ================================================================== *)

(** ** parseGIF *)

Lemma ascii_text_of_bytes (buf : Buffer) (p q : Z) (lit : Buffer) :
  0 <= p -> q <= blength buf ->
  forallb (fun b => byteVal b <=? 127) lit = true ->
  slice buf p q = lit ->
  Buffer_toString utf8 buf p q = map byteVal lit.
Proof.
  intros Hp Hq Hlit H. rewrite Buffer_toString_in by assumption. rewrite H.
  unfold decode.
  rewrite <- (app_nil_r (map byteVal lit)) at 1.
  rewrite utf8_decode_ascii_prefix; [apply app_nil_r|].
  clear H. induction lit as [|b lit IH]; cbn [map]; constructor.
  - cbn [forallb] in Hlit. apply andb_prop in Hlit as [Hb _].
    apply Z.leb_le in Hb. pose proof (byteVal_range b). lia.
  - apply IH. cbn [forallb] in Hlit. apply andb_prop in Hlit as [_ Hl]. exact Hl.
Qed.

(** X11.  [parseGIF] accepts exactly the buffers of ten bytes or more that start
    with GIF87a or GIF89a and whose two little-endian 16-bit sizes at
    offsets 6 and 8 are not zero, and these sizes are the width and the
    height it returns. *)
Theorem parseGIF_accepts_iff (buf : Buffer) (r : ParseResult) :
  parseGIF buf = Ret (Some r) <->
  10 <= blength buf /\
  (slice buf 0 6 = list_byte_of_string "GIF87a" \/
   slice buf 0 6 = list_byte_of_string "GIF89a") /\
  littleEndian2 buf 6 <> 0 /\ littleEndian2 buf 8 <> 0 /\
  r = plain_result (Z2F (littleEndian2 buf 6)) (Z2F (littleEndian2 buf 8))
                   "gif" "image/gif".
Proof.
  split.
  - intros H. destruct (parseGIF_signature buf r H) as [Hlen Hsig].
    split; [exact Hlen|]. split; [exact Hsig|].
    revert H. unfold parseGIF.
    rewrite (Zltb_false _ 10) by lia.
    unfold run. reader_step. reader_norm.
    destruct (_ && _); [unfold ret; discriminate|].
    do 2 reader_step. reader_norm.
    rewrite !uintValue_2_at by lia. cbv iota.
    destruct (Z.eqb_spec (littleEndian2 buf 6) 0);
      [cbn [orb]; unfold ret; discriminate|].
    destruct (Z.eqb_spec (littleEndian2 buf 8) 0);
      [cbn [orb]; unfold ret; discriminate|].
    cbn [orb]. unfold ret. intros [= <-]. auto.
  - intros (Hlen & Hsig & Hw & Hh & ->). unfold parseGIF.
    rewrite (Zltb_false _ 10) by lia.
    unfold run. reader_step. reader_norm.
    assert (Hs : negb (jstr_eqb (Buffer_toString utf8 buf 0 6) (js "GIF87a")) &&
                 negb (jstr_eqb (Buffer_toString utf8 buf 0 6) (js "GIF89a"))
                 = false).
    { destruct Hsig as [H|H].
      - rewrite (ascii_text_of_bytes buf 0 6 (list_byte_of_string "GIF87a")
                   ltac:(lia) ltac:(lia) eq_refl H).
        reflexivity.
      - rewrite (ascii_text_of_bytes buf 0 6 (list_byte_of_string "GIF89a")
                   ltac:(lia) ltac:(lia) eq_refl H).
        reflexivity. }
    rewrite Hs. do 2 reader_step. reader_norm.
    rewrite !uintValue_2_at by lia. cbv iota.
    rewrite (proj2 (Z.eqb_neq _ _) Hw), (proj2 (Z.eqb_neq _ _) Hh).
    reflexivity.
Qed.

(** ** parseICO *)

(** Width and height of the directory entry number [i], counted from 0:
    the bytes at offsets [6 + 16 i] and [7 + 16 i], 0 standing for 256. *)
Definition ico_entry_width (buf : Buffer) (i : Z) : Z :=
  or256 (byteAt buf (6 + 16 * i)).

Definition ico_entry_height (buf : Buffer) (i : Z) : Z :=
  or256 (byteAt buf (6 + 16 * i + 1)).

(** Wider, or as wide and at least as high. *)
Definition ico_no_larger (w1 h1 w2 h2 : Z) : Prop :=
  w1 < w2 \/ (w1 = w2 /\ h1 <= h2).

Lemma parseDirectoryEntry_dims (r : BufferReader) :
  0 <= position r -> position r + 16 <= blength (buffer r) ->
  exists e,
    parseDirectoryEntry r = Ret (Some e, set_position r (position r + 16)) /\
    ico_width e = or256 (byteAt (buffer r) (position r)) /\
    ico_height e = or256 (byteAt (buffer r) (position r + 1)).
Proof.
  intros H0 H. unfold parseDirectoryEntry.
  reader_step. cbn [negb].
  do 8 reader_step.
  cbn [position buffer littleEndian set_position]. unfold ret.
  eexists. split.
  - f_equal. f_equal. unfold set_position. cbn [buffer littleEndian]. f_equal. lia.
  - cbn [ico_width ico_height]. split; reflexivity.
Qed.

Definition ico_best_dims (best : option IcoDirectoryEntry) : Z * Z :=
  match best with
  | Some b => (ico_width b, ico_height b)
  | None => (0, 0)
  end.

Lemma ico_entries_largest (n : nat) :
  forall (r : BufferReader) (maxWidth maxHeight : Z)
         (bestEntry : option IcoDirectoryEntry),
    0 <= position r ->
    position r + 16 * Z.of_nat n <= blength (buffer r) ->
    ico_best_dims bestEntry = (maxWidth, maxHeight) ->
    exists best' r',
      ico_entries n maxWidth maxHeight bestEntry r = Ret (best', r') /\
      ico_no_larger maxWidth maxHeight
                    (fst (ico_best_dims best')) (snd (ico_best_dims best')) /\
      (forall k, 0 <= k < Z.of_nat n ->
         ico_no_larger (or256 (byteAt (buffer r) (position r + 16 * k)))
                       (or256 (byteAt (buffer r) (position r + 16 * k + 1)))
                       (fst (ico_best_dims best')) (snd (ico_best_dims best'))) /\
      (best' = bestEntry \/
       exists k, 0 <= k < Z.of_nat n /\
         ico_best_dims best' =
         (or256 (byteAt (buffer r) (position r + 16 * k)),
          or256 (byteAt (buffer r) (position r + 16 * k + 1)))).
Proof.
  induction n as [|n IH]; intros r mw mh best H0 H Hbest.
  - cbn [ico_entries]. unfold ret. exists best, r.
    split; [reflexivity|]. rewrite Hbest. cbn [fst snd].
    split; [right; lia|]. split; [intros; lia|left; reflexivity].
  - cbn [ico_entries].
    destruct (parseDirectoryEntry_dims r H0 ltac:(lia)) as (e & He & Hw & Hh).
    rewrite (bind_Ret _ _ _ _ _ He).
    pose proof (or256_range _ (byteAt_range (buffer r) (position r))) as Rw.
    pose proof (or256_range _ (byteAt_range (buffer r) (position r + 1))) as Rh.
    rewrite <- Hw in Rw. rewrite <- Hh in Rh.
    set (r1 := set_position r (position r + 16)).
    assert (H1 : 0 <= position r1)
      by (subst r1; cbn [position set_position]; lia).
    assert (H2 : position r1 + 16 * Z.of_nat n <= blength (buffer r1))
      by (subst r1; cbn [position buffer set_position]; lia).
    assert (Hshift : forall k, position r1 + 16 * k = position r + 16 * (k + 1))
      by (intros k; subst r1; cbn [position set_position]; lia).
    assert (Hzero : position r + 16 * 0 = position r) by lia.
    rewrite (proj2 (Z.gtb_gt (ico_width e) 0)) by lia.
    rewrite (proj2 (Z.gtb_gt (ico_height e) 0)) by lia.
    cbn [andb].
    destruct (ico_better e mw mh best) eqn:Ec.
    + destruct (IH r1 (ico_width e) (ico_height e) (Some e) H1 H2 eq_refl)
        as (best' & r' & Hrun & Hle & Hall & Hfrom).
      exists best', r'. split; [exact Hrun|].
      assert (Hstep : ico_no_larger mw mh (ico_width e) (ico_height e)).
      { unfold ico_better in Ec. unfold ico_no_larger.
        destruct (Z.gtb_spec (ico_width e) mw); [lia|].
        destruct (Z.eqb_spec (ico_width e) mw); [|discriminate].
        destruct (Z.gtb_spec (ico_height e) mh); [lia|].
        destruct (Z.eqb_spec (ico_height e) mh); [lia|discriminate]. }
      split; [unfold ico_no_larger in *; lia|].
      split.
      * intros k Hk. destruct (Z.eq_dec k 0) as [->|Hk0].
        -- rewrite Hzero, <- Hw, <- Hh. exact Hle.
        -- specialize (Hall (k - 1) ltac:(lia)). rewrite Hshift in Hall.
           replace (k - 1 + 1) with k in Hall by lia.
           subst r1. cbn [buffer set_position] in Hall. exact Hall.
      * right. destruct Hfrom as [->|(k & Hk & Hd)].
        -- exists 0. split; [lia|]. rewrite Hzero, <- Hw, <- Hh. reflexivity.
        -- exists (k + 1). split; [lia|]. rewrite Hd, Hshift.
           subst r1. cbn [buffer set_position]. reflexivity.
    + destruct (IH r1 mw mh best H1 H2 Hbest)
        as (best' & r' & Hrun & Hle & Hall & Hfrom).
      exists best', r'. split; [exact Hrun|].
      assert (Hstep : ico_no_larger (ico_width e) (ico_height e) mw mh).
      { unfold ico_better in Ec. unfold ico_no_larger.
        destruct (Z.gtb_spec (ico_width e) mw); [discriminate|].
        destruct (Z.eqb_spec (ico_width e) mw); [|lia].
        destruct (Z.gtb_spec (ico_height e) mh); [discriminate|]. lia. }
      split; [exact Hle|]. split.
      * intros k Hk. destruct (Z.eq_dec k 0) as [->|Hk0].
        -- rewrite Hzero, <- Hw, <- Hh. unfold ico_no_larger in *. lia.
        -- specialize (Hall (k - 1) ltac:(lia)). rewrite Hshift in Hall.
           replace (k - 1 + 1) with k in Hall by lia.
           subst r1. cbn [buffer set_position] in Hall. exact Hall.
      * destruct Hfrom as [->|(k & Hk & Hd)]; [left; reflexivity|].
        right. exists (k + 1). split; [lia|]. rewrite Hd, Hshift.
        subst r1. cbn [buffer set_position]. reflexivity.
Qed.

(** X12.  What [parseICO] returns is the size of an entry of the directory, and
    of the largest one: no entry is wider, and none as wide is higher. *)
Theorem parseICO_returns_largest_entry (buf : Buffer) (r : ParseResult) :
  parseICO buf = Ret (Some r) ->
  exists i,
    0 <= i < littleEndian2 buf 4 /\
    r = plain_result (Z2F (ico_entry_width buf i)) (Z2F (ico_entry_height buf i))
                     "ico" "image/x-icon" /\
    1 <= ico_entry_width buf i <= 256 /\
    1 <= ico_entry_height buf i <= 256 /\
    forall j, 0 <= j < littleEndian2 buf 4 ->
      ico_no_larger (ico_entry_width buf j) (ico_entry_height buf j)
                    (ico_entry_width buf i) (ico_entry_height buf i).
Proof.
  unfold parseICO.
  destruct (Z.ltb_spec (blength buf) 6) as [|Hlen]; [discriminate|].
  unfold run. do 3 reader_step. reader_norm.
  destruct (_ || _); [unfold ret; discriminate|].
  rewrite (uintValue_2_at true buf 4) by lia. cbv iota.
  pose proof (uintValue_range true 2 buf 4 ltac:(lia)) as Hcount.
  rewrite (uintValue_2_at true buf 4) in Hcount by lia. cbv iota in Hcount.
  set (count := littleEndian2 buf 4) in *.
  destruct (Z.le_gt_cases (6 + count * 16) (blength buf)) as [Hfit|Hcut].
  2: { reader_step. cbn [negb]. unfold ret. discriminate. }
  reader_step. cbn [negb].
  set (r0 := {| buffer := buf; position := 6; littleEndian := true |}).
  destruct (ico_entries_largest (Z.to_nat count) r0 0 0 None)
    as (best & r' & Hbest & _ & Hall & Hfrom);
    [subst r0; cbn [position]; lia|subst r0; cbn [position buffer]; lia
    |reflexivity|].
  rewrite (bind_Ret _ _ _ _ _ Hbest).
  change (position r0) with 6 in Hall, Hfrom.
  change (buffer r0) with buf in Hall, Hfrom.
  destruct best as [b|]; [|unfold ret; discriminate].
  unfold ret. intros [= <-].
  destruct Hfrom as [Hnone|(k & Hk & Hd)]; [discriminate|].
  unfold ico_best_dims in Hd, Hall.
  assert (Hbw : ico_width b = or256 (byteAt buf (6 + 16 * k))) by congruence.
  assert (Hbh : ico_height b = or256 (byteAt buf (6 + 16 * k + 1)))
    by congruence.
  change (fst (ico_width b, ico_height b)) with (ico_width b) in Hall.
  change (snd (ico_width b, ico_height b)) with (ico_height b) in Hall.
  exists k. unfold ico_entry_width, ico_entry_height.
  split; [lia|]. rewrite Hbw, Hbh. split; [reflexivity|].
  split; [apply or256_range, byteAt_range|].
  split; [apply or256_range, byteAt_range|].
  intros j Hj. rewrite <- Hbw, <- Hbh. apply Hall. lia.
Qed.

(** A directory of two entries, 32 x 16 and 32 x 48. *)
Definition ico_two_entries : Buffer :=
  [x00; x00; x01; x00; x02; x00;
   x20; x10; x00; x00; x01; x00; x20; x00;
   x00; x04; x00; x00; x26; x00; x00; x00;
   x20; x30; x00; x00; x01; x00; x20; x00;
   x00; x0c; x00; x00; x26; x04; x00; x00].

Lemma parseICO_returns_largest_entry_witness :
  exists i,
    0 <= i < 2 /\
    plain_result 32 48 "ico" "image/x-icon" =
    plain_result (Z2F (ico_entry_width ico_two_entries i))
                 (Z2F (ico_entry_height ico_two_entries i))
                 "ico" "image/x-icon" /\
    1 <= ico_entry_width ico_two_entries i <= 256 /\
    1 <= ico_entry_height ico_two_entries i <= 256 /\
    forall j, 0 <= j < 2 ->
      ico_no_larger (ico_entry_width ico_two_entries j)
                    (ico_entry_height ico_two_entries j)
                    (ico_entry_width ico_two_entries i)
                    (ico_entry_height ico_two_entries i).
Proof.
  apply (parseICO_returns_largest_entry ico_two_entries
           (plain_result 32 48 "ico" "image/x-icon")).
  vm_compute. reflexivity.
Defined.

(** ** parsePNG *)

(** [q] is where the data of an IHDR chunk of [buf] starts: the length
    field before it says 13, the type field says IHDR, and the data and
    the four CRC bytes are in the buffer. *)
Definition png_ihdr_data (buf : Buffer) (q : Z) : Prop :=
  16 <= q /\ q + 17 <= blength buf /\
  bigEndian4 buf (q - 8) = 13 /\
  slice buf (q - 4) q = list_byte_of_string "IHDR".

(** The variables of [parsePNG] hold nothing of a header yet, or the
    fields of one IHDR chunk; the two resolutions are set together. *)
Definition png_vars_from (buf : Buffer) (v : PngVars) : Prop :=
  ((png_width v = None /\ png_height v = None) \/
   exists q, png_ihdr_data buf q /\
     png_width v = Some (bigEndian4 buf q) /\
     png_height v = Some (bigEndian4 buf (q + 4)) /\
     png_bitDepth v = Some (byteAt buf (q + 8)) /\
     png_channels v = Some (getPNGChannels (byteAt buf (q + 9)))) /\
  (png_wResolution v = None <-> png_hResolution v = None).

Lemma png_vars_from_same (buf : Buffer) (v v' : PngVars) :
  png_vars_from buf v ->
  png_width v' = png_width v -> png_height v' = png_height v ->
  png_bitDepth v' = png_bitDepth v -> png_channels v' = png_channels v ->
  (png_wResolution v' = None <-> png_hResolution v' = None) ->
  png_vars_from buf v'.
Proof.
  intros [H Hres] Hw Hh Hb Hc Hres'. split; [|exact Hres'].
  rewrite Hw, Hh, Hb, Hc. exact H.
Qed.

Local Ltac same_header :=
  eapply png_vars_from_same; [eassumption|reflexivity ..|];
  cbn [png_wResolution png_hResolution]; try assumption;
  try (split; discriminate).

(** The name scan of an iCCP chunk leaves the reader on its buffer and
    in its byte order. *)
Lemma png_iccp_scan_same (n : nat) :
  forall (nameEnd : Z) (r : BufferReader),
    position r + Z.of_nat n <= blength (buffer r) ->
    exists e r',
      png_iccp_scan n nameEnd r = Ret (e, r') /\
      buffer r' = buffer r /\ littleEndian r' = littleEndian r /\
      nameEnd <= e <= nameEnd + Z.of_nat n.
Proof.
  induction n as [|n IH]; intros nameEnd r H; cbn [png_iccp_scan].
  - exists nameEnd, r. unfold ret. repeat split; lia.
  - rewrite (bind_Ret _ _ _ _ _ (peekUInt8_ok r ltac:(lia))).
    destruct (byteAt (buffer r) (position r) =? 0).
    + exists nameEnd, r. unfold ret. repeat split; lia.
    + reader_step.
      destruct (IH (nameEnd + 1) (set_position r (position r + 1)))
        as (e & r' & He & Hb & Hl & Hr);
        [cbn [position buffer set_position]; lia|].
      exists e, r'. split; [exact He|]. split; [exact Hb|].
      split; [exact Hl|]. lia.
Qed.

Lemma png_chunk_from (chunkType : JSString) (chunkLength : Z)
      (v : PngVars) (r : BufferReader) :
  littleEndian r = false ->
  16 <= position r ->
  chunkLength = uintValue false 4 (buffer r) (position r - 8) ->
  chunkType = Buffer_toString utf8 (buffer r) (position r - 4) (position r) ->
  position r + chunkLength + 4 <= blength (buffer r) ->
  png_vars_from (buffer r) v ->
  exists v' r',
    png_chunk chunkType chunkLength (position r) v r = Ret (v', r') /\
    buffer r' = buffer r /\ littleEndian r' = littleEndian r /\
    png_vars_from (buffer r) v'.
Proof.
  intros Hle H0 Hlen Hty H Hv.
  assert (Hnn : 0 <= chunkLength)
    by (rewrite Hlen; apply uintValue_nonneg).
  pose proof Hv as [_ Hres].
  unfold png_chunk.
  destruct (jstr_eqb chunkType (js "IHDR")) eqn:Et.
  { destruct (Z.eqb_spec chunkLength 13) as [E13|];
      [|unfold ret; eauto 6].
    do 5 reader_step. unfold ret. do 2 eexists.
    split; [reflexivity|]. split; [reflexivity|]. split; [reflexivity|].
    split; [|exact Hres]. right. exists (position r).
    cbn [png_width png_height png_bitDepth png_channels
         position buffer littleEndian set_position].
    rewrite Hle, !uintValue_4_at by lia. cbv iota.
    replace (position r + 4 + 4) with (position r + 8) by lia.
    replace (position r + 8 + 1) with (position r + 9) by lia.
    split; [|repeat split; reflexivity].
    unfold png_ihdr_data. split; [lia|]. split; [lia|]. split.
    - rewrite Hlen, uintValue_4_at in E13 by lia. exact E13.
    - apply text_bytes; [lia|lia|reflexivity|]. rewrite <- Hty. exact Et. }
  destruct (jstr_eqb chunkType (js "pHYs")).
  { destruct (Z.eqb_spec chunkLength 9); [|unfold ret; eauto 6].
    do 3 reader_step.
    repeat match goal with
           | |- context [if ?c then _ else _] => destruct c
           end; unfold ret; do 2 eexists;
      (split; [reflexivity|]); (split; [reflexivity|]);
      (split; [reflexivity|]);
      try exact Hv; same_header. }
  destruct (jstr_eqb chunkType (js "eXIf")); [unfold ret; eauto 6|].
  destruct (jstr_eqb chunkType (js "sRGB")).
  { destruct (chunkLength >=? 1); unfold ret; do 2 eexists;
      (split; [reflexivity|]); (split; [reflexivity|]);
      (split; [reflexivity|]);
      try exact Hv; same_header. }
  destruct (jstr_eqb chunkType (js "iCCP")).
  { destruct (Z.gtb_spec chunkLength 0); [|unfold ret; eauto 6].
    destruct (png_iccp_scan_same
                (Z.to_nat (Z.min chunkLength 79)) (position r) r)
      as (e & r1 & He & Hb & Hl & Hr); [lia|].
    rewrite (bind_Ret _ _ _ _ _ He).
    destruct (e >? position r);
      [|unfold ret; do 2 eexists; split; [reflexivity|]; auto].
    assert (Hb' : blength (buffer r1) = blength (buffer r))
      by (rewrite Hb; reflexivity).
    do 2 reader_step. unfold ret. do 2 eexists. split; [reflexivity|].
    cbn [buffer littleEndian set_position].
    split; [exact Hb|]. split; [exact Hl|]. same_header. }
  destruct (jstr_eqb chunkType (js "gAMA")).
  { destruct (Z.eqb_spec chunkLength 4); [|unfold ret; eauto 6].
    reader_step. unfold ret. do 2 eexists.
    split; [reflexivity|]. split; [reflexivity|]. split; [reflexivity|].
    same_header. }
  unfold ret. eauto 6.
Qed.

Lemma png_chunks_from (fuel : nat) :
  forall (v : PngVars) (r : BufferReader),
    littleEndian r = false ->
    8 <= position r <= blength (buffer r) ->
    blength (buffer r) - position r < 12 * Z.of_nat fuel ->
    png_vars_from (buffer r) v ->
    exists v' r',
      png_chunks fuel v r = Ret (v', r') /\ png_vars_from (buffer r) v'.
Proof.
  induction fuel as [|fuel IH]; intros v r Hle Hr Hfuel Hv; [lia|].
  cbn [png_chunks]. reader_step.
  destruct (Z.geb_spec (blength (buffer r) - position r) 12) as [Hrem|];
    [|unfold ret; eauto].
  do 2 reader_step.
  pose proof (uintValue_nonneg (littleEndian r) 4 (buffer r) (position r))
    as Hlen.
  set (chunkLength := uintValue (littleEndian r) 4 (buffer r) (position r)) in *.
  destruct (Z.le_gt_cases (position r + 8 + (chunkLength + 4))
                          (blength (buffer r))) as [Hfit|Hcut].
  - reader_step. cbn [negb]. reader_step.
    set (r1 := set_position (set_position r (position r + 4))
                            (position r + 4 + 4)).
    assert (Hp1 : position r1 = position r + 4 + 4) by reflexivity.
    assert (Hb1 : buffer r1 = buffer r) by reflexivity.
    assert (Hl1 : littleEndian r1 = littleEndian r) by reflexivity.
    destruct (png_chunk_from
                (Buffer_toString utf8 (buffer r) (position r + 4)
                                 (position r + 4 + 4))
                chunkLength v r1)
      as (v' & r2 & Hc & Hb & Hl & Hv');
      [rewrite Hl1; exact Hle
      |rewrite Hp1; lia
      |subst chunkLength; rewrite Hle, Hp1, Hb1; f_equal; lia
      |rewrite Hp1, Hb1; f_equal; lia
      |rewrite Hp1, Hb1; lia
      |rewrite Hb1; exact Hv|].
    rewrite Hp1 in Hc.
    rewrite (bind_Ret _ _ _ _ _ Hc).
    assert (Hb' : blength (buffer r2) = blength (buffer r))
      by (rewrite Hb, Hb1; reflexivity).
    rewrite Hb1 in Hv'.
    reader_step.
    destruct (jstr_eqb _ (js "IEND")); [unfold ret; eauto|].
    match goal with
    | |- context [png_chunks fuel v' ?r3] =>
        destruct (IH v' r3) as (v'' & r4 & Hrun & Hv'')
    end.
    + cbn [littleEndian set_position]. rewrite Hl, Hl1. exact Hle.
    + cbn [position buffer set_position]. lia.
    + cbn [position buffer set_position]. lia.
    + cbn [buffer set_position]. rewrite Hb, Hb1. exact Hv'.
    + exists v'', r4. split; [exact Hrun|].
      cbn [buffer set_position] in Hv''. rewrite Hb, Hb1 in Hv''. exact Hv''.
  - reader_step. cbn [negb]. unfold ret. eauto.
Qed.

(** X13.  An accepted PNG buffer starts with the signature and holds an IHDR
    chunk of length 13, anywhere among its chunks, whose fields the
    result reports: width and height (both at least 1) as big-endian
    32-bit numbers, the bit depth, and the channel count of the color
    type.  The two resolutions are present or absent together. *)
Theorem parsePNG_reports_an_ihdr_chunk (buf : Buffer) (r : ParseResult) :
  parsePNG buf = Ret (Some r) ->
  slice buf 0 8 = PNG_SIGNATURE /\
  exists q,
    png_ihdr_data buf q /\
    1 <= bigEndian4 buf q /\ 1 <= bigEndian4 buf (q + 4) /\
    width r = Z2F (bigEndian4 buf q) /\
    height r = Z2F (bigEndian4 buf (q + 4)) /\
    bitDepth r = Some (Z2F (byteAt buf (q + 8))) /\
    channels r = Some (Z2F (getPNGChannels (byteAt buf (q + 9)))) /\
    type r = js "png" /\ mime r = js "image/png" /\
    (wResolution r = None <-> hResolution r = None).
Proof.
  intros H. split; [apply (parsePNG_signature buf r H)|].
  unfold parsePNG in H.
  destruct (Z.ltb_spec (blength buf) 24) as [|Hlen]; [discriminate|].
  destruct (negb (Buffer_equals (subarray buf 0 8) PNG_SIGNATURE));
    [discriminate|].
  unfold run in H. revert H. reader_step. intros H.
  destruct (png_chunks_from (budget buf) png_init
              (set_position (new_BufferReader buf false) 8))
    as (v & r' & Hv & Hfrom).
  - reflexivity.
  - cbn [position buffer set_position new_BufferReader]. lia.
  - unfold budget, blength.
    cbn [position buffer set_position new_BufferReader]. lia.
  - split; [left; split; reflexivity|split; reflexivity].
  - rewrite (bind_Ret _ _ _ _ _ Hv) in H. unfold ret in H.
    cbn [buffer set_position new_BufferReader] in Hfrom.
    destruct Hfrom as [[[Hw _]|(q & Hq & Hw & Hh & Hb & Hc)] Hres].
    + unfold png_result in H. rewrite Hw in H. discriminate.
    + unfold png_result in H. rewrite Hw, Hh in H.
      destruct (Z.gtb_spec (bigEndian4 buf q) 0); [|discriminate].
      destruct (Z.gtb_spec (bigEndian4 buf (q + 4)) 0); [|discriminate].
      cbn [andb] in H. injection H as <-.
      exists q. cbn [width height bitDepth channels type mime
                     wResolution hResolution].
      rewrite Hb, Hc.
      split; [exact Hq|]. split; [lia|]. split; [lia|].
      repeat split; try reflexivity; apply Hres.
Qed.

Lemma parsePNG_reports_an_ihdr_chunk_witness :
  let buf := png_scenario (x00, x00, x00, x00) (x00, x00, x00, x00) in
  exists r,
    parsePNG buf = Ret (Some r) /\
    exists q, png_ihdr_data buf q /\ width r = Z2F (bigEndian4 buf q).
Proof.
  intros buf.
  assert (H : parsePNG buf = Ret (Some png_320x256))
    by (vm_compute; reflexivity).
  exists png_320x256. split; [exact H|].
  destruct (parsePNG_reports_an_ihdr_chunk buf png_320x256 H)
    as (_ & q & Hq & _ & _ & Hw & _).
  exists q. split; [exact Hq|exact Hw].
Defined.

(* ================================================================== *)
(** * What a call that returns hands back *)
(* ================================================================== *)

(** Every value [m] returns satisfies [Q], from whatever reader it runs. *)
Definition yields {A} (m : M A) (Q : A -> Prop) : Prop :=
  forall r a r', m r = Ret (a, r') -> Q a.

Lemma yields_ret {A} (a : A) (Q : A -> Prop) : Q a -> yields (ret a) Q.
Proof. intros H r a' r' [= <- _]. exact H. Qed.

Lemma yields_hang {A} (Q : A -> Prop) : yields (@hang A) Q.
Proof. intros r a r' [=]. Qed.

Lemma yields_any {A} (m : M A) : yields m (fun _ => True).
Proof. intros r a r' _. exact I. Qed.

Lemma yields_bind {A B} (m : M A) (k : A -> M B) (P : A -> Prop)
      (Q : B -> Prop) :
  yields m P -> (forall a, P a -> yields (k a) Q) -> yields (bind m k) Q.
Proof.
  intros Hm Hk r b r' H.
  apply bind_Ret_inv in H as (a & r1 & Ha & Hb).
  exact (Hk a (Hm _ _ _ Ha) _ _ _ Hb).
Qed.

Lemma yields_then {A B} (m : M A) (k : A -> M B) (Q : B -> Prop) :
  (forall a, yields (k a) Q) -> yields (bind m k) Q.
Proof.
  intros Hk. apply (yields_bind m k (fun _ => True)); [apply yields_any|].
  intros a _. apply Hk.
Qed.

Lemma yields_run {A} (m : M A) (Q : A -> Prop) (r : BufferReader) (a : A) :
  yields m Q -> run m r = Ret a -> Q a.
Proof. intros Hm H. apply run_Ret_inv in H as (r' & H). exact (Hm _ _ _ H). Qed.

Lemma yields_readUInt8 : yields readUInt8 (fun v => 0 <= v <= 255).
Proof.
  intros r v r' H. apply readUInt8_inv in H as (-> & _).
  apply byteAt_range.
Qed.

Lemma yields_readUInt16 : yields readUInt16 (fun v => 0 <= v <= 65535).
Proof.
  intros r v r' H. apply readUInt16_inv in H as (-> & _).
  pose proof (uintValue_range (littleEndian r) 2 (buffer r) (position r)).
  lia.
Qed.

Lemma yields_readUInt32 : yields readUInt32 (fun v => 0 <= v < 2 ^ 32).
Proof.
  intros r v r' H. apply readUInt32_inv in H as (-> & _).
  apply (uintValue_range _ 4). lia.
Qed.

(** Structural steps of a [yields] goal: a [bind] whose first call needs
    no fact, a conditional, a returned value. *)
Ltac yields_step :=
  lazymatch goal with
  | |- yields (ret _) _ => apply yields_ret
  | |- yields hang _ => apply yields_hang
  | |- yields (bind _ _) _ => apply yields_then; intros ?
  | |- yields (if ?c then _ else _) _ => destruct c eqn:?
  | |- yields (match ?x with _ => _ end) _ => destruct x eqn:?
  | |- yields (let '(_, _) := ?x in _) _ => destruct x eqn:?
  end.

(* ================================================================== *)
(** * parseJPEG: the two resolutions go together *)
(* ================================================================== *)

(** The two resolutions of the running state are set together. *)
Definition jpg_paired (v : JpegVars) : Prop :=
  jpg_wResolution v = None <-> jpg_hResolution v = None.

Lemma jpg_paired_color (v : JpegVars) (cs icc : option JSString) :
  jpg_paired v -> jpg_paired (jpg_set_color v cs icc).
Proof. intros H. exact H. Qed.

Lemma jpg_paired_resolution (v : JpegVars) (res : Resolution) :
  jpg_paired (jpg_set_resolution v res).
Proof. unfold jpg_paired. destruct res as [[x y]|]; cbn; split; congruence. Qed.

Create HintDb jpg.
#[local] Hint Resolve jpg_paired_color jpg_paired_resolution : jpg.

Lemma jpeg_app0_paired (v : JpegVars) :
  jpg_paired v -> yields (jpeg_app0 v) jpg_paired.
Proof. intros H. unfold jpeg_app0. repeat yields_step; auto with jpg. Qed.

Lemma jpeg_app1_paired (segmentLength : Z) (v : JpegVars) :
  jpg_paired v -> yields (jpeg_app1 segmentLength v) jpg_paired.
Proof. intros H. unfold jpeg_app1. repeat yields_step; auto with jpg. Qed.

Lemma jpeg_app2_paired (segmentLength segmentStart : Z) (v : JpegVars) :
  jpg_paired v -> yields (jpeg_app2 segmentLength segmentStart v) jpg_paired.
Proof. intros H. unfold jpeg_app2. repeat yields_step; auto with jpg. Qed.

Lemma jpeg_app14_paired (segmentStart : Z) (v : JpegVars) :
  jpg_paired v -> yields (jpeg_app14 segmentStart v) jpg_paired.
Proof. intros H. unfold jpeg_app14. repeat yields_step; auto with jpg. Qed.

(* ================================================================== *)
(** * The bit fields of the WebP headers *)
(* ================================================================== *)

Lemma ToInt32_small (z : Z) : - 2 ^ 31 <= z < 2 ^ 31 -> ToInt32 z = z.
Proof. intros H. unfold ToInt32. rewrite Z.mod_small by lia. lia. Qed.

Lemma ToInt32_split (z : Z) : exists q, ToInt32 z = z + q * 2 ^ 32.
Proof.
  exists (- ((z + 2 ^ 31) / 2 ^ 32)). unfold ToInt32.
  pose proof (Z.div_mod (z + 2 ^ 31) (2 ^ 32) ltac:(lia)). lia.
Qed.

(** [x & 0x3fff] keeps the low 14 bits, whatever the sign of [x]. *)
Lemma js_and_14_bits (a : Z) : js_and a 0x3fff = a mod 2 ^ 14.
Proof.
  unfold js_and. rewrite (ToInt32_small 0x3fff) by lia.
  change 0x3fff with (Z.ones 14). rewrite Z.land_ones by lia.
  destruct (ToInt32_split a) as (q & ->).
  replace (a + q * 2 ^ 32) with (a + (q * 2 ^ 18) * 2 ^ 14) by lia.
  apply Z.mod_add. lia.
Qed.

(** [(x >> n) & 0x3fff] is the 14-bit field at bit [n] of an unsigned
    32-bit [x], also when the signed shift sees [x] as negative. *)
Lemma js_shr_14_bits (a n : Z) :
  0 <= n <= 18 ->
  js_and (js_shr a n) 0x3fff = (a / 2 ^ n) mod 2 ^ 14.
Proof.
  intros Hn. rewrite js_and_14_bits. unfold js_shr.
  rewrite (Z.mod_small n 32) by lia. rewrite Z.shiftr_div_pow2 by lia.
  destruct (ToInt32_split a) as (q & ->).
  replace (a + q * 2 ^ 32) with (a + (q * 2 ^ (32 - n)) * 2 ^ n)
    by (rewrite <- Z.mul_assoc, <- Z.pow_add_r by lia;
        replace (32 - n + n) with 32 by lia; reflexivity).
  rewrite Z.div_add by lia.
  replace (q * 2 ^ (32 - n)) with ((q * 2 ^ (18 - n)) * 2 ^ 14)
    by (rewrite <- Z.mul_assoc, <- Z.pow_add_r by lia;
        replace (18 - n + 14) with (32 - n) by lia; reflexivity).
  apply Z.mod_add. lia.
Qed.

Lemma lor_shifted (a b n : Z) :
  0 <= n -> 0 <= a < 2 ^ n -> Z.lor a (b * 2 ^ n) = a + b * 2 ^ n.
Proof.
  intros Hn Ha. rewrite <- Z.add_lor_land.
  enough (E : Z.land a (b * 2 ^ n) = 0) by (rewrite E; lia).
  apply Z.bits_inj'. intros i Hi.
  rewrite Z.land_spec, Z.bits_0, <- Z.shiftl_mul_pow2 by lia.
  destruct (Z.lt_ge_cases i n).
  - rewrite (Z.shiftl_spec_low b n i) by lia. apply andb_false_r.
  - rewrite <- (Z.mod_small a (2 ^ n)) by lia.
    rewrite Z.mod_pow2_bits_high by lia. reflexivity.
Qed.

(** The 24-bit little-endian number of [parseVP8X]:
    [b[0] | (b[1] << 8) | (b[2] << 16)]. *)
Lemma js_or_24_bits (b0 b1 b2 : Z) :
  0 <= b0 <= 255 -> 0 <= b1 <= 255 -> 0 <= b2 <= 255 ->
  js_or (js_or b0 (js_shl b1 8)) (js_shl b2 16) =
  b0 + b1 * 2 ^ 8 + b2 * 2 ^ 16.
Proof.
  intros H0 H1 H2. unfold js_or, js_shl.
  rewrite (ToInt32_small b0), (ToInt32_small b1), (ToInt32_small b2) by lia.
  change (8 mod 32) with 8. change (16 mod 32) with 16.
  rewrite !Z.shiftl_mul_pow2 by lia.
  rewrite !(ToInt32_small (b1 * 2 ^ 8)), !(ToInt32_small (b2 * 2 ^ 16)) by lia.
  rewrite (lor_shifted b0 b1 8) by lia.
  rewrite ToInt32_small by lia.
  apply lor_shifted; lia.
Qed.

Lemma byteAt_byte (buf : Buffer) (i : Z) : exists b, byteAt buf i = byteVal b.
Proof.
  unfold byteAt, Buffer_get.
  destruct (i <? 0); [exists x00; reflexivity|].
  destruct (nth_error buf (Z.to_nat i)) as [b|];
    [exists b|exists x00]; reflexivity.
Qed.

(** [(flags & (1 << n)) !== 0] on a byte tests its bit [n]. *)
Lemma js_and_flag (buf : Buffer) (i n : Z) :
  (n = 4 \/ n = 5) ->
  negb (js_and (byteAt buf i) (2 ^ n) =? 0) = Z.testbit (byteAt buf i) n.
Proof.
  destruct (byteAt_byte buf i) as (b & ->).
  intros [-> | ->]; destruct b; vm_compute; reflexivity.
Qed.

Lemma byteAt_slice (buf : Buffer) (s e i : Z) :
  0 <= s -> 0 <= i < e - s ->
  byteAt (slice buf s e) i = byteAt buf (s + i).
Proof.
  intros Hs Hi. unfold slice.
  rewrite <- byteAt_skipn by lia.
  unfold byteAt, Buffer_get. destruct (i <? 0); [reflexivity|].
  rewrite nth_error_firstn.
  destruct (Nat.ltb_spec (Z.to_nat i) (Z.to_nat (e - s))); [reflexivity|lia].
Qed.

Definition littleEndian3 (buf : Buffer) (off : Z) : Z :=
  byteAt buf off + byteAt buf (off + 1) * 2 ^ 8 + byteAt buf (off + 2) * 2 ^ 16.

Lemma returned_pair {A B} (a a' : A) (b b' : B) (r r' : BufferReader) :
  Ret (Some (a, b), r) = Ret (Some (a', b'), r') -> a = a' /\ b = b'.
Proof. intros [= -> -> _]. split; reflexivity. Qed.

(** X15.  The dimensions the three WebP headers carry, for a little-endian
    reader standing on the chunk data: 14-bit fields of the 32-bit word
    after the start code (VP8), 14-bit fields plus one of the word after
    the signature byte (VP8L), 24-bit numbers plus one (VP8X), whose flag
    byte gives ICC and alpha in bits 5 and 4. *)
Theorem webp_header_fields (r : BufferReader) :
  0 <= position r -> littleEndian r = true ->
  let buf := buffer r in
  let p := position r in
  (forall w h r', parseVP8 r = Ret (Some (w, h), r') ->
     slice buf (p + 3) (p + 6) = [x9d; x01; x2a] /\
     w = littleEndian4 buf (p + 6) mod 2 ^ 14 /\
     h = (littleEndian4 buf (p + 6) / 2 ^ 16) mod 2 ^ 14) /\
  (forall w h r', parseVP8L r = Ret (Some (w, h), r') ->
     byteAt buf p = 0x2f /\
     w = littleEndian4 buf (p + 1) mod 2 ^ 14 + 1 /\
     h = (littleEndian4 buf (p + 1) / 2 ^ 14) mod 2 ^ 14 + 1) /\
  (forall w h hasICC hasAlpha r',
     parseVP8X r = Ret (Some (w, h, hasICC, hasAlpha), r') ->
     w = littleEndian3 buf (p + 4) + 1 /\
     h = littleEndian3 buf (p + 7) + 1 /\
     hasICC = Z.testbit (byteAt buf p) 5 /\
     hasAlpha = Z.testbit (byteAt buf p) 4).
Proof.
  intros Hp Hle buf p. subst buf p. split; [|split].
  - intros w h r'. unfold parseVP8.
    destruct (Z.le_gt_cases (position r + 10) (blength (buffer r)));
      [|reader_step; cbn [negb]; unfold ret; discriminate].
    reader_step. cbn [negb]. do 2 reader_step.
    rewrite subarray_in by reader_side. reader_norm.
    replace (position r + 3 + 3) with (position r + 6) by lia.
    destruct (Buffer_equals _ _) eqn:E; cbn [negb];
      [|unfold ret; discriminate].
    apply Buffer_equals_eq in E.
    reader_step. reader_norm. unfold ret.
    intros Hr. apply returned_pair in Hr as [<- <-].
    rewrite Hle, uintValue_4_at by lia.
    rewrite js_and_14_bits, js_shr_14_bits by lia.
    split; [exact E|split; reflexivity].
  - intros w h r'. unfold parseVP8L.
    destruct (Z.le_gt_cases (position r + 5) (blength (buffer r)));
      [|reader_step; cbn [negb]; unfold ret; discriminate].
    reader_step. cbn [negb]. reader_step.
    destruct (Z.eqb_spec (byteAt (buffer r) (position r)) 0x2f) as [E|];
      cbn [negb]; [|unfold ret; discriminate].
    reader_step. reader_norm. unfold ret.
    intros Hr. apply returned_pair in Hr as [<- <-].
    rewrite Hle, uintValue_4_at by lia.
    rewrite js_and_14_bits, js_shr_14_bits by lia.
    split; [exact E|split; reflexivity].
  - intros w h hasICC hasAlpha r'. unfold parseVP8X.
    destruct (Z.le_gt_cases (position r + 10) (blength (buffer r)));
      [|reader_step; cbn [negb]; unfold ret; discriminate].
    reader_step. cbn [negb]. do 4 reader_step.
    rewrite !subarray_in by reader_side. reader_norm.
    unfold ret. intros Hr. apply returned_pair in Hr as [Hr <-].
    apply pair_equal_spec in Hr as [Hr <-].
    apply pair_equal_spec in Hr as [<- <-].
    rewrite !js_or_24_bits by apply byteAt_range.
    rewrite !byteAt_slice by lia.
    rewrite (js_and_flag _ _ 5), (js_and_flag _ _ 4) by auto.
    unfold littleEndian3.
    replace (position r + 1 + 3 + 0) with (position r + 4) by lia.
    replace (position r + 1 + 3 + 1) with (position r + 4 + 1) by lia.
    replace (position r + 1 + 3 + 2) with (position r + 4 + 2) by lia.
    replace (position r + 1 + 3 + 3 + 0) with (position r + 7) by lia.
    replace (position r + 1 + 3 + 3 + 1) with (position r + 7 + 1) by lia.
    replace (position r + 1 + 3 + 3 + 2) with (position r + 7 + 2) by lia.
    repeat split; reflexivity.
Qed.

Lemma webp_header_fields_witness :
  let r :=
    new_BufferReader [x10; x00; x00; x00; x3f; x01; x00; xef; x00; x00] true in
  parseVP8X r = Ret (Some (320, 240, false, true), set_position r 10) /\
  320 = littleEndian3 (buffer r) 4 + 1 /\
  240 = littleEndian3 (buffer r) 7 + 1.
Proof.
  intros r.
  assert (H : parseVP8X r = Ret (Some (320, 240, false, true), set_position r 10))
    by (vm_compute; reflexivity).
  split; [exact H|].
  destruct (webp_header_fields r ltac:(cbn; lia) eq_refl) as (_ & _ & HX).
  destruct (HX _ _ _ _ _ H) as (Hw & Hh & _).
  split; [exact Hw|exact Hh].
Defined.

(* ================================================================== *)
(** * parseWebP: the bounds of a result *)
(* ================================================================== *)

(** Dimensions a header parser hands back, between [lo] and [hi]. *)
Definition dims_within (lo hi : Z) (d : option (Z * Z)) : Prop :=
  match d with
  | Some (w, h) => lo <= w <= hi /\ lo <= h <= hi
  | None => True
  end.

Local Ltac bound_fields :=
  repeat match goal with
         | |- context [?x mod 2 ^ 14] =>
             let H := fresh in
             pose proof (Z.mod_pos_bound x (2 ^ 14) ltac:(lia)) as H;
             generalize dependent (x mod 2 ^ 14); intros
         | |- context [byteAt ?b ?i] =>
             let H := fresh in
             pose proof (byteAt_range b i) as H;
             generalize dependent (byteAt b i); intros
         end.

Lemma parseVP8_within : yields parseVP8 (dims_within 0 (2 ^ 24)).
Proof.
  unfold parseVP8. repeat yields_step; try exact I.
  cbn [dims_within]. rewrite js_and_14_bits, js_shr_14_bits by lia.
  bound_fields. lia.
Qed.

Lemma parseVP8L_within : yields parseVP8L (dims_within 0 (2 ^ 24)).
Proof.
  unfold parseVP8L. repeat yields_step; try exact I.
  cbn [dims_within]. rewrite js_and_14_bits, js_shr_14_bits by lia.
  bound_fields. lia.
Qed.

Lemma parseVP8X_within :
  yields parseVP8X
         (fun d => dims_within 0 (2 ^ 24) (option_map (fun x => fst (fst x)) d)).
Proof.
  unfold parseVP8X. repeat yields_step; try exact I.
  cbn [option_map fst dims_within].
  rewrite !js_or_24_bits by apply byteAt_range.
  bound_fields. lia.
Qed.

(** The width and height of the running state, once set, are within the
    24 bits a WebP header can carry. *)
Definition wp_within (v : WebpVars) : Prop :=
  (forall w, wp_width v = Some w -> 0 <= w <= 2 ^ 24) /\
  (forall h, wp_height v = Some h -> 0 <= h <= 2 ^ 24).

Lemma wp_within_icc (v : WebpVars) (cs name : option JSString) :
  wp_within v -> wp_within (wp_set_icc v cs name).
Proof. intros H. exact H. Qed.

Lemma wp_within_dims (v : WebpVars) (w h : Z) (alpha : bool) :
  dims_within 0 (2 ^ 24) (Some (w, h)) -> wp_within (wp_set_dims v w h alpha).
Proof.
  intros [Hw Hh]. split; cbn [wp_set_dims wp_width wp_height];
    intros x [= <-]; assumption.
Qed.

Lemma webp_iccp_names_within (v v' : WebpVars) (profileData : Buffer)
      (searchLimit : Z) :
  wp_within v -> webp_iccp_names v profileData searchLimit = Ret v' ->
  wp_within v'.
Proof.
  intros Hv. unfold webp_iccp_names.
  destruct (webp_desc_name _ _) as [found| |]; try discriminate.
  intros [= <-].
  repeat match goal with
         | |- context [match ?x with _ => _ end] => destruct x
         end; repeat apply wp_within_icc; exact Hv.
Qed.

Lemma yields_lift {A} (o : Outcome A) (Q : A -> Prop) :
  (forall a, o = Ret a -> Q a) -> yields (lift o) Q.
Proof.
  intros H r a r'. unfold lift. destruct o; try discriminate.
  intros [= <- _]. apply H. reflexivity.
Qed.

Lemma webp_iccp_within (chunkSize : Z) (v : WebpVars) :
  wp_within v -> yields (webp_iccp chunkSize v) wp_within.
Proof.
  intros Hv. unfold webp_iccp.
  yields_step. yields_step; [|apply yields_ret, Hv].
  yields_step.
  apply (yields_bind _ _ wp_within).
  - yields_step; [|apply yields_ret, Hv].
    yields_step. apply yields_lift. intros v'.
    apply webp_iccp_names_within, Hv.
  - intros v1 H1. yields_step; apply yields_ret, wp_within_icc, H1.
Qed.

Lemma webp_chunk_within (chunkId : JSString) (chunkSize : Z) (v : WebpVars) :
  wp_within v -> yields (webp_chunk chunkId chunkSize v) wp_within.
Proof.
  intros Hv. unfold webp_chunk.
  yields_step.
  { yields_step; [|apply yields_ret, Hv].
    apply (yields_bind _ _ _ _ parseVP8_within). intros [[w h]|] Hd;
      apply yields_ret; [apply wp_within_dims, Hd|exact Hv]. }
  yields_step.
  { yields_step; [|apply yields_ret, Hv].
    apply (yields_bind _ _ _ _ parseVP8L_within). intros [[w h]|] Hd;
      apply yields_ret; [apply wp_within_dims, Hd|exact Hv]. }
  yields_step; [apply yields_ret, Hv|].
  yields_step; [apply webp_iccp_within, Hv|apply yields_ret, Hv].
Qed.

Lemma webp_pass1_within (fuel : nat) :
  forall v, wp_within v -> yields (webp_pass1 fuel v) wp_within.
Proof.
  induction fuel as [|fuel IH]; intros v Hv; cbn [webp_pass1];
    [apply yields_hang|].
  yields_step. yields_step; [apply yields_ret, Hv|].
  do 3 yields_step. yields_step; [apply yields_ret, Hv|].
  yields_step. yields_step.
  - apply (yields_bind _ _ _ _ parseVP8X_within).
    intros [[[[w h] icc] alpha]|] Hd; apply yields_ret;
      [apply wp_within_dims, Hd|exact Hv].
  - yields_step. apply IH, Hv.
Qed.

Lemma webp_pass2_within (fuel : nat) :
  forall v, wp_within v -> yields (webp_pass2 fuel v) wp_within.
Proof.
  induction fuel as [|fuel IH]; intros v Hv; cbn [webp_pass2];
    [apply yields_hang|].
  yields_step. yields_step; [apply yields_ret, Hv|].
  do 3 yields_step. yields_step; [apply yields_ret, Hv|].
  yields_step.
  apply (yields_bind _ _ _ _ (webp_chunk_within _ _ v Hv)).
  intros v' Hv'. yields_step. apply IH, Hv'.
Qed.

(** What [parseWebP] promises of a result. *)
Definition webp_bounded_result (r : ParseResult) : Prop :=
  exists w h,
    1 <= w <= 2 ^ 24 /\ 1 <= h <= 2 ^ 24 /\
    width r = Z2F w /\ height r = Z2F h /\
    (channels r = Some 3%float \/ channels r = Some 4%float) /\
    bitDepth r = None /\ wResolution r = None /\ hResolution r = None /\
    gamma r = None /\
    type r = js "webp" /\ mime r = js "image/webp" /\
    wUnits r = js "px" /\ hUnits r = js "px".

Definition webp_bounded_option (o : option ParseResult) : Prop :=
  match o with
  | Some r => webp_bounded_result r
  | None => True
  end.

Lemma webp_result_bounded (v : WebpVars) :
  wp_within v -> webp_bounded_option (webp_result v).
Proof.
  intros [Hw Hh]. unfold webp_result.
  destruct (wp_width v) as [w|]; [|exact I].
  destruct (wp_height v) as [h|]; [|exact I].
  destruct (truthyZ w && truthyZ h); [|exact I]. cbn [andb].
  destruct (Z.gtb_spec w 0); [|exact I].
  destruct (Z.gtb_spec h 0); [|exact I].
  exists w, h.
  cbn [webp_bounded_option width height channels bitDepth wResolution
       hResolution gamma type mime wUnits hUnits].
  pose proof (Hw w eq_refl). pose proof (Hh h eq_refl).
  repeat split; try lia.
  destruct (wp_hasAlpha v); [right|left]; reflexivity.
Qed.

(** X16.  A WebP result has width and height between 1 and 2^24, three or four
    channels, no bit depth and no resolution, and the buffer carries the
    RIFF and WEBP tags. *)
Theorem parseWebP_result_bounds (buf : Buffer) (r : ParseResult) :
  parseWebP buf = Ret (Some r) ->
  slice buf 0 4 = list_byte_of_string "RIFF" /\
  slice buf 8 12 = list_byte_of_string "WEBP" /\
  webp_bounded_result r.
Proof.
  intros H.
  destruct (parseWebP_signature buf r H) as (_ & H1 & H2).
  split; [exact H1|]. split; [exact H2|].
  unfold parseWebP in H.
  destruct (blength buf <? 12); [discriminate|].
  refine (yields_run _ webp_bounded_option _ (Some r) _ H).
  yields_step. yields_step; [apply yields_ret; exact I|].
  do 2 yields_step. yields_step; [apply yields_ret; exact I|].
  yields_step.
  apply (yields_bind _ _ wp_within);
    [apply webp_pass1_within; split; discriminate|].
  intros v1 H1'. yields_step.
  apply (yields_bind _ _ _ _ (webp_pass2_within _ v1 H1')).
  intros v2 Hv2. apply yields_ret, webp_result_bounded, Hv2.
Qed.

Definition webp_extended_sample : Buffer :=
  list_byte_of_string "RIFF" ++ [x16; x00; x00; x00] ++
  list_byte_of_string "WEBP" ++ list_byte_of_string "VP8X" ++
  [x0a; x00; x00; x00; x10; x00; x00; x00; x3f; x01; x00; xef; x00; x00].

Lemma parseWebP_result_bounds_witness :
  exists r,
    parseWebP webp_extended_sample = Ret (Some r) /\
    width r = 320%float /\ webp_bounded_result r.
Proof.
  eexists. split; [vm_compute; reflexivity|]. split; [reflexivity|].
  refine (proj2 (proj2 (parseWebP_result_bounds webp_extended_sample _ _))).
  vm_compute; reflexivity.
Defined.

Definition jpeg_frame_sample : Buffer :=
  [xff; xd8; xff; xc0; x00; x0b; x08; x00; xf0; x01; x40; x03;
   x00; x00; x00].

(* ================================================================== *)
(** * parseAVIF: the bounds of a result *)
(* ================================================================== *)

Definition av_within (v : AvifVars) : Prop :=
  (forall w, av_width v = Some w -> 0 <= w < 2 ^ 32) /\
  (forall h, av_height v = Some h -> 0 <= h < 2 ^ 32) /\
  (forall b, av_bitDepth v = Some b -> 0 <= b <= 255) /\
  (forall c, av_channels v = Some c -> 0 <= c <= 255).

Definition ispe_within (d : option (Z * Z)) : Prop :=
  match d with
  | Some (w, h) => 0 <= w < 2 ^ 32 /\ 0 <= h < 2 ^ 32
  | None => True
  end.

Lemma parseIspe_within : yields parseIspe ispe_within.
Proof.
  unfold parseIspe. yields_step. yields_step; [apply yields_ret; exact I|].
  yields_step.
  apply (yields_bind _ _ _ _ yields_readUInt32); intros w Hw.
  apply (yields_bind _ _ _ _ yields_readUInt32); intros h Hh.
  apply yields_ret. split; assumption.
Qed.

Definition byte_or_kept (old : option Z) (o : option Z) : Prop :=
  o = old \/ exists b, o = Some b /\ 0 <= b <= 255.

Lemma avif_ipco_within (fuel : nat) (ipcoPosition ipcoSize : Z) (v : AvifVars) :
  av_within v -> yields (avif_ipco fuel ipcoPosition ipcoSize v) av_within.
Proof.
  intros (Hw & Hh & Hb & Hc). unfold avif_ipco.
  do 2 yields_step.
  apply (yields_bind _ _ ispe_within);
    [yields_step; [yields_step; yields_step; apply parseIspe_within
                  |apply yields_ret; exact I]|].
  intros dims Hd.
  assert (Hwh : forall w h,
             match dims with
             | Some (w, h) => (Some w, Some h)
             | None => (av_width v, av_height v)
             end = (w, h) ->
             (forall x, w = Some x -> 0 <= x < 2 ^ 32) /\
             (forall x, h = Some x -> 0 <= x < 2 ^ 32)).
  { intros w h. destruct dims as [[w0 h0]|]; intros [= <- <-].
    - destruct Hd. split; intros x [= <-]; assumption.
    - split; assumption. }
  destruct (match dims with Some _ => _ | None => _ end) as [w h].
  destruct (Hwh w h eq_refl) as [Hw' Hh']. clear Hwh.
  do 3 yields_step.
  destruct (match _ with Some ci => ci | None => _ end) as [cs icc].
  do 2 yields_step.
  apply (yields_bind _ _
           (fun bc => byte_or_kept (av_bitDepth v) (fst bc) /\
                      byte_or_kept (av_channels v) (snd bc))).
  - yields_step; [|apply yields_ret; split; left; reflexivity].
    yields_step. do 2 yields_step.
    yields_step; [|apply yields_ret; split; left; reflexivity].
    yields_step.
    apply (yields_bind _ _ _ _ yields_readUInt8); intros channelCount Hcc.
    yields_step. yields_step.
    + apply (yields_bind _ _ _ _ yields_readUInt8); intros bd Hbd.
      apply yields_ret. cbn [fst snd]. split; right; eauto.
    + apply yields_ret. cbn [fst snd].
      split; [left; reflexivity|right; eauto].
  - intros [bd ch] [Hbd Hch]. apply yields_ret.
    cbn [fst snd] in *.
    split; [exact Hw'|]. split; [exact Hh'|].
    cbn [av_bitDepth av_channels]. split.
    + intros b E. destruct Hbd as [->|(b' & -> & ?)];
        [apply Hb, E|injection E as <-; assumption].
    + intros c E. destruct Hch as [->|(c' & -> & ?)];
        [apply Hc, E|injection E as <-; assumption].
Qed.

Lemma avif_meta_within (fuel : nat) (boxStart : Z) (b : Box) (v : AvifVars) :
  av_within v -> yields (avif_meta fuel boxStart b v) av_within.
Proof.
  intros Hv. unfold avif_meta.
  yields_step; [|apply yields_ret, Hv].
  do 3 yields_step. yields_step; [|apply yields_ret, Hv].
  yields_step. do 2 yields_step.
  yields_step; [|apply yields_ret, Hv].
  yields_step. apply avif_ipco_within, Hv.
Qed.

Lemma avif_boxes_within (fuel inner : nat) :
  forall v, av_within v -> yields (avif_boxes fuel inner v) av_within.
Proof.
  induction fuel as [|fuel IH]; intros v Hv; cbn [avif_boxes];
    [apply yields_hang|].
  yields_step. yields_step; [|apply yields_ret, Hv].
  do 2 yields_step. yields_step; [|apply yields_ret, Hv].
  apply (yields_bind _ _ av_within).
  - yields_step; [do 2 yields_step; apply yields_ret, Hv|].
    yields_step; [apply avif_meta_within, Hv|apply yields_ret, Hv].
  - intros v' Hv'. yields_step.
    destruct (av_width v'); [destruct (av_height v')|];
      first [apply yields_ret, Hv'|apply IH, Hv'].
Qed.

(** What [parseAVIF] promises of a result. *)
Definition avif_bounded_result (r : ParseResult) : Prop :=
  exists w h,
    1 <= w < 2 ^ 32 /\ 1 <= h < 2 ^ 32 /\
    width r = Z2F w /\ height r = Z2F h /\
    (bitDepth r = None \/
     exists b, 1 <= b <= 255 /\ bitDepth r = Some (Z2F b)) /\
    (channels r = None \/
     exists c, 1 <= c <= 255 /\ channels r = Some (Z2F c)) /\
    wResolution r = None /\ hResolution r = None /\ gamma r = None /\
    type r = js "avif" /\ mime r = js "image/avif" /\
    wUnits r = js "px" /\ hUnits r = js "px".

Definition avif_bounded_option (o : option ParseResult) : Prop :=
  match o with
  | Some r => avif_bounded_result r
  | None => True
  end.

Lemma byte_field (o : option Z) :
  (forall b, o = Some b -> 0 <= b <= 255) ->
  let f := match o with
           | Some b => if truthyZ b then Some (Z2F b) else None
           | None => None
           end in
  f = None \/ exists b, 1 <= b <= 255 /\ f = Some (Z2F b).
Proof.
  intros H. destruct o as [b|]; [|left; reflexivity].
  specialize (H b eq_refl). unfold truthyZ.
  destruct (Z.eqb_spec b 0); cbn [negb]; [left; reflexivity|].
  right. exists b. split; [lia|reflexivity].
Qed.

Lemma avif_result_bounded (v : AvifVars) :
  av_within v -> avif_bounded_option (avif_result v).
Proof.
  intros (Hw & Hh & Hb & Hc). unfold avif_result.
  destruct (av_width v) as [w|]; [|exact I].
  destruct (av_height v) as [h|]; [|exact I].
  destruct (av_isAVIF v); [|exact I]. cbn [andb].
  destruct (Z.gtb_spec w 0); [|exact I].
  destruct (Z.gtb_spec h 0); [|exact I].
  exists w, h.
  cbn [avif_bounded_option width height channels bitDepth wResolution
       hResolution gamma type mime wUnits hUnits].
  pose proof (Hw w eq_refl). pose proof (Hh h eq_refl).
  split; [lia|]. split; [lia|]. split; [reflexivity|]. split; [reflexivity|].
  split; [apply byte_field, Hb|]. split; [apply byte_field, Hc|].
  repeat split.
Qed.

(** X17.  An AVIF result has width and height between 1 and 2^32 - 1, a bit
    depth and a channel count that are absent or a byte of at least 1,
    and no resolution. *)
Theorem parseAVIF_result_bounds (buf : Buffer) (r : ParseResult) :
  parseAVIF buf = Ret (Some r) -> avif_bounded_result r.
Proof.
  intros H. unfold parseAVIF in H.
  destruct (blength buf <? 12); [discriminate|].
  refine (yields_run _ avif_bounded_option _ (Some r) _ H).
  apply (yields_bind _ _ av_within).
  - apply avif_boxes_within. repeat split; discriminate.
  - intros v Hv. apply yields_ret, avif_result_bounded, Hv.
Qed.

(** An 'ftyp' box of brand avif and a 'meta' box whose 'iprp' and 'ipco'
    boxes hold one 'ispe' box of 320 by 240. *)
Definition avif_sample : Buffer :=
  [x00; x00; x00; x10] ++ list_byte_of_string "ftypavif" ++
  [x00; x00; x00; x00] ++
  [x00; x00; x00; x30] ++ list_byte_of_string "meta" ++
  [x00; x00; x00; x00] ++
  [x00; x00; x00; x24] ++ list_byte_of_string "iprp" ++
  [x00; x00; x00; x1c] ++ list_byte_of_string "ipco" ++
  [x00; x00; x00; x14] ++ list_byte_of_string "ispe" ++
  [x00; x00; x00; x00; x00; x00; x01; x40; x00; x00; x00; xf0].

Lemma parseAVIF_result_bounds_witness :
  exists r,
    parseAVIF avif_sample = Ret (Some r) /\
    width r = 320%float /\ height r = 240%float /\ avif_bounded_result r.
Proof.
  eexists. split; [vm_compute; reflexivity|].
  split; [reflexivity|]. split; [reflexivity|].
  refine (parseAVIF_result_bounds avif_sample _ _).
  vm_compute; reflexivity.
Defined.

(* ================================================================== *)
(** * parseBMP: where the fields of a result are read *)
(* ================================================================== *)

(** One call of a run that returned, taken apart. *)
Ltac returned_step H :=
  let a := fresh "a" in
  let r := fresh "r" in
  let E := fresh "E" in
  apply bind_Ret_inv in H; destruct H as (a & r & E & H);
  first
    [ apply readInt32_inv in E; destruct E as (-> & -> & ? & ?)
    | apply readUInt32_inv in E; destruct E as (-> & -> & ? & ?)
    | apply readUInt16_inv in E; destruct E as (-> & -> & ? & ?)
    | apply readUInt8_inv in E; destruct E as (-> & -> & ?)
    | unfold skip in E; injection E as <- <-
    | unfold canRead in E; injection E as <- <- ];
  cbn [position buffer littleEndian set_position new_BufferReader] in *.

(** The signed 32-bit little-endian number at [off]. *)
Definition littleEndianInt32 (buf : Buffer) (off : Z) : Z :=
  toSigned32 (littleEndian4 buf off).

(** The resolution of a BMP result: pixels per metre turned into pixels
    per inch. *)
Definition bmp_resolution (pixelsPerMeter : Z) : float :=
  Math_round (Z2F pixelsPerMeter * 0.0254)%float.

(** X18.  A BMP result is read at fixed offsets of a buffer that starts with
    BM: the header size at 14 (at least 12); for a 12-byte core header
    unsigned 16-bit width, height and bit depth at 18, 20 and 24;
    otherwise a signed 32-bit width at 18, the absolute value of the
    signed 32-bit height at 22 and the bit depth at 28, and, for headers
    of at least 40 bytes with both values positive, the resolutions at 38
    and 42. *)
Theorem parseBMP_reports_the_dib_header (buf : Buffer) (r : ParseResult) :
  parseBMP buf = Ret (Some r) ->
  let size := littleEndian4 buf 14 in
  slice buf 0 2 = list_byte_of_string "BM" /\
  12 <= size /\ 14 + size <= blength buf /\
  exists w h depth res,
    (if size =? 12 then
       w = littleEndian2 buf 18 /\ h = littleEndian2 buf 20 /\
       depth = littleEndian2 buf 24 /\ res = None
     else
       w = littleEndianInt32 buf 18 /\
       h = Z.abs (littleEndianInt32 buf 22) /\
       depth = littleEndian2 buf 28 /\
       res = if (40 <=? size) && (0 <? littleEndianInt32 buf 38) &&
                (0 <? littleEndianInt32 buf 42)
             then Some (bmp_resolution (littleEndianInt32 buf 38),
                        bmp_resolution (littleEndianInt32 buf 42))
             else None) /\
    1 <= w /\ 1 <= h /\
    width r = Z2F w /\ height r = Z2F h /\
    bitDepth r = Some (Z2F depth) /\
    channels r = option_map Z2F (bmp_channels depth) /\
    wResolution r = option_map fst res /\
    hResolution r = option_map snd res /\
    type r = js "bmp" /\ mime r = js "image/bmp".
Proof.
  intros H. cbv zeta.
  remember (littleEndian4 buf 14) as size eqn:Esize.
  destruct (parseBMP_signature buf r H) as (Hlen & Hsig).
  split; [exact Hsig|].
  unfold parseBMP in H.
  rewrite Zltb_false in H by lia.
  apply run_Ret_inv in H as (rEnd & H). revert H.
  reader_step. destruct (negb _); [unfold ret; discriminate|].
  do 3 reader_step.
  cbn [position buffer littleEndian set_position new_BufferReader].
  change (0 + 2 + 8 + 4) with 14. change (14 + 4) with 18.
  rewrite uintValue_4_at by lia. cbv iota. rewrite <- Esize.
  destruct (Z.le_gt_cases (18 + (size - 4)) (blength buf)) as [Hfit|Hcut];
    [|reader_step; cbn [negb]; unfold ret; discriminate].
  reader_step. cbn [negb].
  destruct (Z.geb_spec size BITMAPCOREHEADER) as [Hsize|];
    [|unfold ret; discriminate].
  unfold BITMAPCOREHEADER, BITMAPINFOHEADER in *.
  split; [exact Hsize|]. split; [lia|].
  assert (Hresult : forall w h res depth,
             bmp_result w h res depth = Some r ->
             1 <= w /\ 1 <= h /\
             width r = Z2F w /\ height r = Z2F h /\
             bitDepth r = Some (Z2F depth) /\
             channels r = option_map Z2F (bmp_channels depth) /\
             wResolution r = option_map fst res /\
             hResolution r = option_map snd res /\
             type r = js "bmp" /\ mime r = js "image/bmp").
  { intros w h res depth. unfold bmp_result.
    destruct (Z.gtb_spec w 0); [|discriminate].
    destruct (Z.gtb_spec h 0); [|discriminate].
    cbn [andb]. intros [= <-]. cbn. repeat split; lia. }
  destruct (Z.eqb_spec size 12) as [E12|Hne].
  - revert H. do 4 reader_step.
    cbn [position buffer littleEndian set_position new_BufferReader].
    change (18 + 2) with 20. change (20 + 2 + 2) with 24.
    unfold ret. intros [= H].
    rewrite !uintValue_2_at in H by lia. cbv iota in H.
    do 4 eexists. split; [repeat split; reflexivity|].
    apply Hresult. exact H.
  - do 5 returned_step H.
    assert (H30 : 30 <= blength buf) by lia.
    rewrite (Z.min_l 28) in * by lia.
    assert (E18 : toSigned32 (uintValue true 4 buf 18) = littleEndianInt32 buf 18)
      by (rewrite uintValue_4_at by lia; reflexivity).
    assert (E22 : toSigned32 (uintValue true 4 buf (18 + 4)) = littleEndianInt32 buf 22)
      by (rewrite uintValue_4_at by lia; reflexivity).
    assert (E28 : uintValue true 2 buf 28 = littleEndian2 buf 28)
      by (rewrite uintValue_2_at by lia; reflexivity).
    rewrite E18, E22, E28 in H. clear E18 E22 E28.
    destruct (Z.geb_spec size 40) as [H40|Hlt].
    + do 2 returned_step H.
      assert (H46 : 46 <= blength buf) by lia.
      rewrite (Z.min_l 38) in * by lia.
      assert (E38 : toSigned32 (uintValue true 4 buf 38) = littleEndianInt32 buf 38)
        by (rewrite uintValue_4_at by lia; reflexivity).
      assert (E42 : toSigned32 (uintValue true 4 buf (38 + 4)) = littleEndianInt32 buf 42)
        by (rewrite uintValue_4_at by lia; reflexivity).
      rewrite E38, E42 in H. clear E38 E42.
      rewrite !Z.gtb_ltb in H.
      do 4 eexists. split; [repeat split; reflexivity|].
      rewrite Zleb_true by lia. cbn [andb].
      destruct (_ && _); unfold ret in H; injection H as H _;
        apply Hresult; exact H.
    + do 4 eexists. split; [repeat split; reflexivity|].
      rewrite Zleb_false by lia. cbn [andb].
      unfold ret in H; injection H as H _. apply Hresult; exact H.
Qed.

(** A top-down bitmap: header of 40 bytes, width 320, height -240, 24
    bits per pixel, 3780 pixels per metre both ways. *)
Definition bmp_top_down_sample : Buffer :=
  list_byte_of_string "BM" ++
  [x36; x00; x00; x00; x00; x00; x00; x00; x36; x00; x00; x00] ++
  [x28; x00; x00; x00; x40; x01; x00; x00; x10; xff; xff; xff;
   x01; x00; x18; x00; x00; x00; x00; x00; x00; x00; x00; x00;
   xc4; x0e; x00; x00; xc4; x0e; x00; x00;
   x00; x00; x00; x00; x00; x00; x00; x00].

Lemma parseBMP_reports_the_dib_header_witness :
  exists r,
    parseBMP bmp_top_down_sample = Ret (Some r) /\
    width r = 320%float /\ height r = 240%float /\
    wResolution r = Some 96%float /\
    slice bmp_top_down_sample 0 2 = list_byte_of_string "BM".
Proof.
  eexists. split; [vm_compute; reflexivity|].
  split; [reflexivity|]. split; [reflexivity|]. split; [reflexivity|].
  refine (proj1 (parseBMP_reports_the_dib_header bmp_top_down_sample _ _)).
  vm_compute; reflexivity.
Defined.

(* ================================================================== *)
(** * White space around texts: trim, the ICC tags and the viewBox *)
(* ================================================================== *)

Definition allWhiteSpace (s : JSString) : Prop :=
  Forall (fun c => isWhiteSpace c = true) s.

Lemma trimStart_space (a s : JSString) :
  allWhiteSpace a -> trimStart (a ++ s) = trimStart s.
Proof.
  induction 1 as [|c a Hc _ IH]; [reflexivity|].
  cbn [app trimStart]. rewrite Hc. exact IH.
Qed.

Lemma trimStart_all (a : JSString) : allWhiteSpace a -> trimStart a = [].
Proof.
  intros H. rewrite <- (app_nil_r a). apply (trimStart_space a [] H).
Qed.

Lemma trimStart_cases (s : JSString) :
  (allWhiteSpace s /\ trimStart s = []) \/
  exists a c t, s = a ++ c :: t /\ allWhiteSpace a /\
                isWhiteSpace c = false /\ trimStart s = c :: t.
Proof.
  induction s as [|c s IH]; [left; split; [constructor|reflexivity]|].
  cbn [trimStart]. destruct (isWhiteSpace c) eqn:Hc.
  - destruct IH as [[Hs E]|(a & d & t & -> & Ha & Hd & E)].
    + left. split; [constructor; assumption|exact E].
    + right. exists (c :: a), d, t.
      repeat split; try assumption. constructor; assumption.
  - right. exists [], c, s. repeat split; [constructor|exact Hc].
Qed.

Lemma allWhiteSpace_rev (a : JSString) : allWhiteSpace a -> allWhiteSpace (rev a).
Proof. apply Forall_rev. Qed.

Lemma allWhiteSpace_app (a b : JSString) :
  allWhiteSpace a -> allWhiteSpace b -> allWhiteSpace (a ++ b).
Proof. intros Ha Hb. apply Forall_app. split; assumption. Qed.

(** [trim] takes white space off both ends and nothing else. *)
Lemma trim_padded (a t b : JSString) :
  allWhiteSpace a -> allWhiteSpace b -> trim (a ++ t ++ b) = trim t.
Proof.
  intros Ha Hb. unfold trim. rewrite (trimStart_space a _ Ha).
  destruct (trimStart_cases t) as [[Ht E]|(a' & c & t' & -> & Ha' & Hc & E)].
  - rewrite E, (trimStart_all (t ++ b)) by (apply allWhiteSpace_app; assumption).
    reflexivity.
  - rewrite E. rewrite <- app_assoc, (trimStart_space a' _ Ha').
    cbn [app trimStart]. rewrite Hc.
    change (c :: t' ++ b) with ((c :: t') ++ b).
    rewrite rev_app_distr, (trimStart_space (rev b)) by (apply allWhiteSpace_rev, Hb).
    reflexivity.
Qed.

(** X19.  White space around an ICC color-space signature does not matter, and
    the names handed back are four. *)
Theorem getColorSpaceFromTag_ignores_padding (a t b : JSString) :
  allWhiteSpace a -> allWhiteSpace b ->
  getColorSpaceFromTag (a ++ t ++ b) = getColorSpaceFromTag t /\
  In (getColorSpaceFromTag t)
     [None; Some (js "RGB"); Some (js "Grayscale"); Some (js "CMYK");
      Some (js "Lab")].
Proof.
  intros Ha Hb. split.
  - unfold getColorSpaceFromTag. rewrite (trim_padded a t b Ha Hb). reflexivity.
  - unfold getColorSpaceFromTag.
    repeat match goal with
           | |- context [if ?c then _ else _] => destruct c
           end; cbn [In]; auto 6.
Qed.

Lemma getColorSpaceFromTag_ignores_padding_witness :
  allWhiteSpace [32] /\
  getColorSpaceFromTag ([32] ++ js "Lab" ++ [32]) =
  getColorSpaceFromTag (js "Lab").
Proof.
  assert (Hs : allWhiteSpace [32]) by (repeat constructor).
  split; [exact Hs|].
  exact (proj1 (getColorSpaceFromTag_ignores_padding [32] (js "Lab") [32] Hs Hs)).
Defined.

(** ** parseViewBox *)

(** Somewhere among the pieces of a split there is an empty one. *)
Lemma splitWsComma_comma_space (a rest : JSString) :
  (rest = [] \/ exists c t, rest = c :: t /\ isWhiteSpace c = true) ->
  forall cur inWs, In [] (splitWsComma (a ++ 44 :: rest) cur inWs).
Proof.
  intros Hrest. induction a as [|x a IH]; intros cur inWs.
  - cbn [app splitWsComma].
    change (isWhiteSpace 44) with false. cbv iota.
    change (44 =? 44) with true. cbv iota.
    right. destruct Hrest as [->|(c & t & -> & Hc)].
    + left. reflexivity.
    + cbn [splitWsComma]. rewrite Hc. left. reflexivity.
  - cbn [app splitWsComma].
    destruct (isWhiteSpace x); [destruct inWs|destruct (x =? 44)];
      try (right; apply IH); apply IH.
Qed.

Lemma trimStart_stops (a l : JSString) (x : Z) :
  isWhiteSpace x = false ->
  trimStart (a ++ x :: l) = trimStart a ++ x :: l.
Proof.
  intros Hx. induction a as [|c a IH]; cbn [app trimStart].
  - rewrite Hx. reflexivity.
  - destruct (isWhiteSpace c); [exact IH|reflexivity].
Qed.

(** A text with a comma in it, trimmed: the comma stays, and what
    follows it is cut at the end only. *)
Lemma trim_around_comma (a b : JSString) :
  exists a' b',
    trim (a ++ 44 :: b) = a' ++ 44 :: b' /\
    (b' = [] \/ exists t, b' = hd 0 b :: t /\ b <> []).
Proof.
  unfold trim. rewrite (trimStart_stops a b 44) by reflexivity.
  change (trimStart a ++ 44 :: b) with (trimStart a ++ [44] ++ b).
  rewrite app_assoc, rev_app_distr.
  destruct (trimStart_cases (rev b)) as [[Hb E]|(s & c & t & E0 & Hs & Hc & E)].
  - rewrite (trimStart_space (rev b) _ Hb).
    rewrite rev_app_distr. cbn [rev app].
    change (trimStart (44 :: rev (trimStart a))) with (44 :: rev (trimStart a)).
    cbn [rev]. rewrite rev_involutive.
    exists (trimStart a), []. split; [reflexivity|].
    left. reflexivity.
  - rewrite E0, <- !app_assoc, (trimStart_space s _ Hs).
    cbn [app trimStart]. rewrite Hc.
    change (c :: t ++ rev (trimStart a ++ [44]))
      with ((c :: t) ++ rev (trimStart a ++ [44])).
    rewrite rev_app_distr, rev_involutive.
    exists (trimStart a), (rev (c :: t)).
    split; [rewrite <- app_assoc; reflexivity|].
    right.
    assert (Eb : b = rev (c :: t) ++ rev s)
      by (rewrite <- rev_app_distr, <- E0, rev_involutive; reflexivity).
    destruct (rev (c :: t)) as [|y u] eqn:Er.
    + apply (f_equal (@length Z)) in Er. rewrite length_rev in Er.
      discriminate.
    + exists u. rewrite Eb. cbn [app hd]. split; [reflexivity|discriminate].
Qed.

(** X20.  A viewBox with a comma directly followed by white space is not
    understood: between the comma and the white space [split] leaves an
    empty piece, which is no number. *)
Theorem parseViewBox_rejects_comma_then_space (a b : JSString) (c : Z) :
  isWhiteSpace c = true -> parseViewBox (a ++ 44 :: c :: b) = None.
Proof.
  intros Hc. unfold parseViewBox.
  destruct (trim_around_comma a (c :: b)) as (a' & b' & -> & Hb').
  assert (Hin : In nan (map parseFloat (splitWsComma (a' ++ 44 :: b') [] false))).
  { change nan with (parseFloat []). apply in_map.
    apply splitWsComma_comma_space.
    destruct Hb' as [->|(t & -> & _)]; [left; reflexivity|].
    right. exists c, t. split; [reflexivity|exact Hc]. }
  destruct (map parseFloat _) as [|v0 [|v1 [|v2 [|v3 [|v4 l]]]]];
    try reflexivity.
  enough (E : forallb (fun v => negb (is_nan v)) [v0; v1; v2; v3] = false)
    by (rewrite E; reflexivity).
  apply not_true_is_false. intros E.
  rewrite forallb_forall in E. specialize (E nan Hin). discriminate.
Qed.

Lemma parseViewBox_rejects_comma_then_space_witness :
  isWhiteSpace 32 = true /\
  parseViewBox (js "0" ++ 44 :: 32 :: js "0, 100, 50") = None.
Proof.
  split; [reflexivity|].
  apply (parseViewBox_rejects_comma_then_space (js "0") (js "0, 100, 50") 32).
  reflexivity.
Defined.

(* ================================================================== *)
(** * Loops that end *)
(* ================================================================== *)

(** A computation that never exhausts an iteration budget and leaves the
    reader on its buffer. *)
Definition steady {A} (m : M A) : Prop :=
  forall r, m r <> Hang /\ forall a r', m r = Ret (a, r') -> buffer r' = buffer r.

Lemma steady_ret {A} (a : A) : steady (ret a).
Proof. intros r. split; [discriminate|]. intros a' r' [= _ <-]. reflexivity. Qed.

Lemma steady_bind {A B} (m : M A) (k : A -> M B) :
  steady m -> (forall a, steady (k a)) -> steady (bind m k).
Proof.
  intros Hm Hk r. destruct (Hm r) as [Hh Hb]. unfold bind.
  destruct (m r) as [[a r1]| |]; [|split; discriminate|contradiction].
  destruct (Hk a r1) as [Hh' Hb']. split; [exact Hh'|].
  intros b r' E. rewrite (Hb' b r' E). apply (Hb a r1). reflexivity.
Qed.

Lemma steady_lift {A} (o : Outcome A) : o <> Hang -> steady (lift o).
Proof.
  intros H r. unfold lift. destruct o; [|split; discriminate|contradiction].
  split; [discriminate|]. intros a' r' [= _ <-]. reflexivity.
Qed.

Lemma steady_run {A} (m : M A) (r : BufferReader) : steady m -> run m r <> Hang.
Proof.
  intros H. destruct (H r) as [Hh _]. unfold run.
  destruct (m r) as [[a r1]| |]; [discriminate|discriminate|contradiction].
Qed.

(** The methods of the reader. *)
Local Ltac steady_method m :=
  intros r; unfold m;
  repeat match goal with
         | |- context [if ?c then _ else _] => destruct c
         end;
  (split; [discriminate|]);
  intros a r'; try discriminate; intros [= _ <-]; reflexivity.

Lemma steady_readUInt8 : steady readUInt8.
Proof. steady_method readUInt8. Qed.

Lemma steady_peekUInt8 : steady peekUInt8.
Proof. steady_method peekUInt8. Qed.

Lemma steady_readString (n : Z) (enc : BufferEncoding) : steady (readString n enc).
Proof. steady_method readString. Qed.

Lemma steady_readBytes (n : Z) : steady (readBytes n).
Proof. steady_method readBytes. Qed.

Lemma steady_skip (n : Z) : steady (skip n).
Proof. steady_method skip. Qed.

Lemma steady_seek (p : Z) : steady (seek p).
Proof. steady_method seek. Qed.

Lemma steady_getPosition : steady getPosition.
Proof. steady_method getPosition. Qed.

Lemma steady_remaining : steady remaining.
Proof. steady_method remaining. Qed.

Lemma steady_canRead (n : Z) : steady (canRead n).
Proof. steady_method canRead. Qed.

Lemma steady_getBuffer : steady getBuffer.
Proof. steady_method getBuffer. Qed.

Local Ltac steady_number m :=
  intros r; unfold m, bind, lift, Buffer_readInt32, Buffer_readUInt;
  repeat match goal with
         | |- context [if ?c then _ else _] => destruct c
         end;
  (split; [discriminate|]);
  intros a r'; try discriminate; intros [= _ <-]; reflexivity.

Lemma steady_readUInt16 : steady readUInt16.
Proof. steady_number readUInt16. Qed.

Lemma steady_readUInt32 : steady readUInt32.
Proof. steady_number readUInt32. Qed.

Lemma steady_readInt32 : steady readInt32.
Proof. steady_number readInt32. Qed.

Create HintDb steady.
#[local] Hint Resolve steady_ret steady_readUInt8 steady_peekUInt8
  steady_readString steady_readBytes steady_skip steady_seek
  steady_getPosition steady_remaining steady_canRead steady_getBuffer
  steady_readUInt16 steady_readUInt32 steady_readInt32 : steady.

(** Structural steps of a [steady] goal. *)
Ltac steady_step :=
  lazymatch goal with
  | |- steady (bind _ _) => apply steady_bind; [|intros ?]
  | |- steady (if ?c then _ else _) => destruct c
  | |- steady (match ?x with _ => _ end) => destruct x
  | |- steady (let '(_, _) := ?x in _) => destruct x
  | |- steady _ => solve [auto with steady]
  end.

Lemma steady_parseJFIF : steady parseJFIF.
Proof. unfold parseJFIF. repeat steady_step. Qed.

Lemma steady_exif_rational (tiffStart valueOffset : Z) (old : option float) :
  steady (exif_rational tiffStart valueOffset old).
Proof. unfold exif_rational. repeat steady_step. Qed.

Lemma steady_exif_entries (n : nat) (isLittleEndian : bool) (tiffStart : Z) :
  forall st, steady (exif_entries n isLittleEndian tiffStart st).
Proof.
  induction n as [|n IH]; intros st; cbn [exif_entries];
    [apply steady_ret|].
  steady_step; [auto with steady|]. steady_step; [auto with steady|].
  destruct st as [[x y] u].
  do 4 (steady_step; [auto with steady|]).
  steady_step;
    [steady_step; [apply steady_exif_rational|apply steady_ret]|].
  steady_step;
    [steady_step; [apply steady_exif_rational|apply steady_ret]|].
  apply IH.
Qed.

Lemma steady_exif_tiff (isLittleEndian : bool) (tiffStart : Z) :
  steady (exif_tiff isLittleEndian tiffStart).
Proof.
  unfold exif_tiff.
  do 5 (steady_step; [auto with steady|]).
  steady_step; [auto with steady|].
  do 2 (steady_step; [auto with steady|]).
  steady_step; [apply steady_exif_entries|].
  repeat steady_step.
Qed.

Lemma steady_parseEXIF (segmentLength : Z) : steady (parseEXIF segmentLength).
Proof.
  unfold parseEXIF.
  steady_step; [auto with steady|]. steady_step; [auto with steady|].
  steady_step; [auto with steady|]. steady_step; [auto with steady|].
  steady_step; [auto with steady|].
  steady_step; [auto with steady|]. steady_step; [auto with steady|].
  steady_step; [auto with steady|].
  steady_step; [auto with steady|].
  apply steady_lift, steady_run, steady_exif_tiff.
Qed.

Lemma steady_jpeg_app0 (v : JpegVars) : steady (jpeg_app0 v).
Proof.
  unfold jpeg_app0. steady_step; [apply steady_parseJFIF|].
  repeat steady_step.
Qed.

Lemma steady_jpeg_app1 (segmentLength : Z) (v : JpegVars) :
  steady (jpeg_app1 segmentLength v).
Proof.
  unfold jpeg_app1. steady_step; [apply steady_parseEXIF|].
  repeat steady_step.
Qed.

Lemma steady_jpeg_app2 (segmentLength segmentStart : Z) (v : JpegVars) :
  steady (jpeg_app2 segmentLength segmentStart v).
Proof. unfold jpeg_app2. repeat steady_step. Qed.

Lemma steady_jpeg_app14 (segmentStart : Z) (v : JpegVars) :
  steady (jpeg_app14 segmentStart v).
Proof. unfold jpeg_app14. repeat steady_step. Qed.

Lemma steady_jpeg_sof (v : JpegVars) : steady (jpeg_sof v).
Proof. unfold jpeg_sof. repeat steady_step. Qed.

Lemma bind_halts_at {A B} (m : M A) (k : A -> M B) (r : BufferReader) :
  steady m ->
  (forall a r', m r = Ret (a, r') -> buffer r' = buffer r -> k a r' <> Hang) ->
  bind m k r <> Hang.
Proof.
  intros Hm Hk. destruct (Hm r) as [Hh Hb]. unfold bind.
  destruct (m r) as [[a r1]| |]; [|discriminate|contradiction].
  apply Hk; [reflexivity|]. apply (Hb a r1). reflexivity.
Qed.

(** One call of a run, with what it returned and where it left the
    reader. *)
Ltac halting_step :=
  let a := fresh "got" in
  let r := fresh "rd" in
  let E := fresh "Ecall" in
  let Eb := fresh "Hkept" in
  apply bind_halts_at; [solve [auto with steady]|intros a r E Eb];
  try first
    [ apply readUInt32_inv in E; destruct E as (-> & -> & ? & ?)
    | apply readUInt16_inv in E; destruct E as (-> & -> & ? & ?)
    | apply readUInt8_inv in E; destruct E as (-> & -> & ?)
    | unfold skip in E; injection E as <- <-
    | unfold canRead in E; injection E as <- <-
    | unfold getPosition in E; injection E as <- <-
    | unfold remaining in E; injection E as <- <- ];
  cbn [position buffer littleEndian set_position] in *.

Lemma run_halts_at {A} (m : M A) (r : BufferReader) :
  m r <> Hang -> run m r <> Hang.
Proof.
  intros H. unfold run.
  destruct (m r) as [[a r1]| |]; [discriminate|discriminate|contradiction].
Qed.

Lemma bind_halts_here {A B} (m : M A) (k : A -> M B) (r : BufferReader) :
  m r <> Hang ->
  (forall a r', m r = Ret (a, r') -> k a r' <> Hang) ->
  bind m k r <> Hang.
Proof.
  intros Hm Hk. unfold bind.
  destruct (m r) as [[a r1]| |]; [|discriminate|contradiction].
  apply Hk. reflexivity.
Qed.

Lemma seek_returned (p : Z) (r r' : BufferReader) (u : unit) :
  seek p r = Ret (u, r') -> r' = set_position r p /\ 0 <= p <= blength (buffer r).
Proof.
  intros H. pose proof (seek_Ret_inv p r _ H) as Hp. split; [|exact Hp].
  unfold seek in H.
  destruct ((p <? 0) || (p >? blength (buffer r))); [discriminate|].
  injection H as _ <-. reflexivity.
Qed.

(** The body of the segment loop of [parseJPEG] ends if the rest of the
    loop does from every reader further on in the buffer. *)
Lemma jpeg_segment_halts (next : JpegVars -> M (option ParseResult))
      (v : JpegVars) (r : BufferReader) :
  (forall v' r', buffer r' = buffer r ->
                 position r < position r' <= blength (buffer r) ->
                 next v' r' <> Hang) ->
  jpeg_segment next v r <> Hang.
Proof.
  intros Hnext. unfold jpeg_segment.
  halting_step.
  destruct (Z.gtb_spec (blength (buffer r) - position r) 1) as [Hrem|];
    [|discriminate].
  halting_step.
  destruct (negb _); [apply Hnext; cbn [position buffer set_position];
                      [reflexivity|lia]|].
  halting_step.
  destruct (_ || _); [apply Hnext; cbn [position buffer set_position];
                      [reflexivity|lia]|].
  halting_step. destruct (negb _); [discriminate|].
  halting_step. halting_step.
  destruct (Z.ltb_spec
              (uintValue (littleEndian r) 2 (buffer r) (position r + 1 + 1)) 2)
    as [|Hlen]; [discriminate|].
  cbn [orb]. destruct (negb _); [discriminate|].
  halting_step.
  set (segmentLength :=
         uintValue (littleEndian r) 2 (buffer r) (position r + 1 + 1)) in *.
  apply bind_halts_at;
    [destruct (_ =? _); [apply steady_jpeg_app0|apply steady_ret]|].
  intros v1 r1 _ Hb1. cbn [buffer set_position] in Hb1.
  apply bind_halts_at;
    [destruct (_ =? _); [apply steady_jpeg_app1|apply steady_ret]|].
  intros v2 r2 _ Hb2.
  apply bind_halts_at;
    [destruct (_ && _); [apply steady_jpeg_app2|apply steady_ret]|].
  intros v3 r3 _ Hb3.
  apply bind_halts_at;
    [destruct (_ && _); [apply steady_jpeg_app14|apply steady_ret]|].
  intros v4 r4 _ Hb4.
  apply bind_halts_at;
    [destruct (isSOFMarker _); [apply steady_jpeg_sof|apply steady_ret]|].
  intros sof r5 _ Hb5.
  destruct sof; try discriminate.
  apply bind_halts_at; [apply steady_seek|].
  intros u r6 E6 _. apply seek_returned in E6 as [-> Hp].
  assert (Hsame : buffer r5 = buffer r) by congruence.
  apply Hnext; cbn [position buffer set_position]; [exact Hsame|].
  rewrite Hsame in Hp. lia.
Qed.

Lemma jpeg_segments_halt (fuel : nat) :
  forall v r,
    position r <= blength (buffer r) ->
    blength (buffer r) - position r < Z.of_nat fuel ->
    jpeg_segments fuel v r <> Hang.
Proof.
  induction fuel as [|fuel IH]; intros v r Hp Hfuel; [lia|].
  cbn [jpeg_segments]. apply jpeg_segment_halts.
  intros v' r' Eb Hr. apply IH; rewrite Eb; lia.
Qed.

(** X21.  [parseJPEG] ends on every buffer: each turn of its segment loop
    leaves the reader further on, so the loop takes no more turns than
    the buffer has bytes, and the call returns or throws. *)
Theorem parseJPEG_ends (buf : Buffer) :
  (exists o, parseJPEG buf = Ret o) \/ (exists msg, parseJPEG buf = Throw msg).
Proof.
  enough (H : parseJPEG buf <> Hang)
    by (destruct (parseJPEG buf) as [o|msg|]; [eauto|eauto|contradiction]).
  unfold parseJPEG.
  destruct (Z.ltb_spec (blength buf) 4) as [|Hlen]; [discriminate|].
  apply run_halts_at. halting_step.
  destruct (negb _); [discriminate|].
  apply jpeg_segments_halt; cbn [position buffer set_position new_BufferReader];
    unfold budget, blength in *; lia.
Qed.

(** ** parseWebP *)

(** [(chunkSize + 1) & ~1] rounds a chunk size below 2^31 - 1 up to the
    next even number. *)
Lemma padEven_rounds_up (x : Z) :
  0 <= x < 2 ^ 31 - 1 -> padEven x = 2 * ((x + 1) / 2).
Proof.
  intros H. unfold padEven, js_and.
  replace (js_not 1) with (-2) by (vm_compute; reflexivity).
  rewrite (ToInt32_small (x + 1)), (ToInt32_small (-2)) by lia.
  change (-2) with (Z.lnot (Z.ones 1)).
  rewrite <- Z.ldiff_land, Z.ldiff_ones_r by lia.
  rewrite Z.shiftr_div_pow2, Z.shiftl_mul_pow2 by lia.
  change (2 ^ 1) with 2. lia.
Qed.

Lemma steady_parseVP8 : steady parseVP8.
Proof. unfold parseVP8. repeat steady_step. Qed.

Lemma steady_parseVP8L : steady parseVP8L.
Proof. unfold parseVP8L. repeat steady_step. Qed.

Lemma steady_parseVP8X : steady parseVP8X.
Proof. unfold parseVP8X. repeat steady_step. Qed.

Lemma Buffer_readUInt_halts (le : bool) (w : Z) (buf : Buffer) (off : Z) :
  Buffer_readUInt le w buf off <> Hang.
Proof. unfold Buffer_readUInt. destruct (_ || _); discriminate. Qed.

Lemma webp_desc_name_halts (profileData : Buffer) (descIndex : Z) :
  webp_desc_name profileData descIndex <> Hang.
Proof.
  unfold webp_desc_name, Buffer_readUInt32BE.
  repeat match goal with
         | |- context [if ?c then _ else _] => destruct c
         | |- context [match Buffer_readUInt ?le ?w ?b ?o with _ => _ end] =>
             pose proof (Buffer_readUInt_halts le w b o);
             destruct (Buffer_readUInt le w b o)
         end; try discriminate; contradiction.
Qed.

Lemma webp_iccp_names_halts (v : WebpVars) (profileData : Buffer)
      (searchLimit : Z) :
  webp_iccp_names v profileData searchLimit <> Hang.
Proof.
  unfold webp_iccp_names.
  pose proof (webp_desc_name_halts profileData
                (Buffer_indexOf profileData [x64; x65; x73; x63])) as H.
  destruct (webp_desc_name _ _); [discriminate|discriminate|contradiction].
Qed.

Lemma steady_webp_iccp (chunkSize : Z) (v : WebpVars) :
  steady (webp_iccp chunkSize v).
Proof.
  unfold webp_iccp.
  steady_step; [auto with steady|]. steady_step; [|apply steady_ret].
  steady_step; [auto with steady|].
  steady_step.
  - steady_step; [|apply steady_ret].
    steady_step; [auto with steady|].
    apply steady_lift, webp_iccp_names_halts.
  - repeat steady_step.
Qed.

Lemma steady_webp_chunk (chunkId : JSString) (chunkSize : Z) (v : WebpVars) :
  steady (webp_chunk chunkId chunkSize v).
Proof.
  unfold webp_chunk.
  steady_step.
  { steady_step; [|apply steady_ret].
    steady_step; [apply steady_parseVP8|]. repeat steady_step. }
  steady_step.
  { steady_step; [|apply steady_ret].
    steady_step; [apply steady_parseVP8L|]. repeat steady_step. }
  steady_step; [apply steady_ret|].
  steady_step; [apply steady_webp_iccp|apply steady_ret].
Qed.

Lemma steady_keeps {A} (m : M A) : steady m -> keeps_buffer m.
Proof. intros H r a r' E. exact (proj2 (H r) a r' E). Qed.

Lemma webp_pass1_keeps (fuel : nat) :
  forall v, keeps_buffer (webp_pass1 fuel v).
Proof.
  induction fuel as [|fuel IH]; intros v; cbn [webp_pass1];
    [apply keeps_hang|].
  apply keeps_bind; [apply keeps_canRead|intros more].
  destruct (negb more); [apply keeps_ret|].
  apply keeps_bind; [apply keeps_readString|intros chunkId].
  apply keeps_bind; [apply steady_keeps, steady_readUInt32|intros chunkSize].
  apply keeps_bind; [apply keeps_canRead|intros enough].
  destruct (negb enough); [apply keeps_ret|].
  apply keeps_bind; [apply steady_keeps, steady_getPosition|intros chunkStart].
  destruct (jstr_eqb chunkId (js "VP8X")).
  - apply keeps_bind; [apply steady_keeps, steady_parseVP8X|intros d].
    destruct d as [[[[w h] icc] alpha]|]; apply keeps_ret.
  - apply keeps_bind; [apply keeps_seek|intros _]. apply IH.
Qed.

(** The seek at the end of a chunk leaves the reader at least eight bytes
    further on, in a buffer of less than 2^31 bytes. *)
Lemma webp_chunk_end (r r' : BufferReader) (chunkSize : Z) (u : unit) :
  blength (buffer r) < 2 ^ 31 -> 0 <= chunkSize ->
  position r + chunkSize <= blength (buffer r) -> 8 <= position r ->
  seek (position r + padEven chunkSize) r = Ret (u, r') ->
  buffer r' = buffer r /\ position r <= position r' <= blength (buffer r).
Proof.
  intros Hlen H0 Hfit Hp E. apply seek_returned in E as [-> Hs].
  cbn [position buffer set_position]. split; [reflexivity|].
  rewrite padEven_rounds_up in Hs |- * by lia.
  pose proof (Z.div_mod (chunkSize + 1) 2 ltac:(lia)).
  pose proof (Z.mod_pos_bound (chunkSize + 1) 2 ltac:(lia)). lia.
Qed.

Lemma webp_pass1_halts (fuel : nat) :
  forall v r,
    blength (buffer r) < 2 ^ 31 ->
    0 <= position r <= blength (buffer r) ->
    blength (buffer r) - position r < Z.of_nat fuel ->
    webp_pass1 fuel v r <> Hang.
Proof.
  induction fuel as [|fuel IH]; intros v r Hlen Hp Hfuel; [lia|].
  cbn [webp_pass1].
  halting_step. destruct (negb _); [discriminate|].
  apply bind_halts_at; [apply steady_readString|].
  intros chunkId r1 E1 Hb1. unfold readString in E1.
  destruct (Z.gtb_spec (position r + 4) (blength (buffer r)));
    [discriminate|]. injection E1 as _ <-.
  cbn [position buffer littleEndian set_position] in *.
  halting_step. halting_step.
  destruct (Z.leb_spec (position r + 4 + 4 +
                        uintValue (littleEndian r) 4 (buffer r) (position r + 4))
                       (blength (buffer r))) as [Hfit|]; [|discriminate].
  cbn [negb]. halting_step.
  destruct (jstr_eqb _ _).
  - apply bind_halts_at; [apply steady_parseVP8X|].
    intros [[[[w h] icc] alpha]|] r2 _ _; discriminate.
  - apply bind_halts_at; [apply steady_seek|]. intros u r2 E2 _.
    pose proof (uintValue_nonneg (littleEndian r) 4 (buffer r) (position r + 4)).
    apply (webp_chunk_end (set_position r (position r + 4 + 4))) in E2
      as [Eb Hr]; cbn [position buffer set_position] in *; try lia.
    apply IH; rewrite Eb; lia.
Qed.

Lemma webp_pass2_halts (fuel : nat) :
  forall v r,
    blength (buffer r) < 2 ^ 31 ->
    0 <= position r <= blength (buffer r) ->
    blength (buffer r) - position r < Z.of_nat fuel ->
    webp_pass2 fuel v r <> Hang.
Proof.
  induction fuel as [|fuel IH]; intros v r Hlen Hp Hfuel; [lia|].
  cbn [webp_pass2].
  halting_step. destruct (negb _); [discriminate|].
  apply bind_halts_at; [apply steady_readString|].
  intros chunkId r1 E1 Hb1. unfold readString in E1.
  destruct (Z.gtb_spec (position r + 4) (blength (buffer r)));
    [discriminate|]. injection E1 as _ <-.
  cbn [position buffer littleEndian set_position] in *.
  halting_step. halting_step.
  destruct (Z.leb_spec (position r + 4 + 4 +
                        uintValue (littleEndian r) 4 (buffer r) (position r + 4))
                       (blength (buffer r))) as [Hfit|]; [|discriminate].
  cbn [negb]. halting_step.
  apply bind_halts_at; [apply steady_webp_chunk|].
  intros v' r2 _ Hb2. cbn [buffer set_position] in Hb2.
  apply bind_halts_at; [apply steady_seek|]. intros u r3 E3 _.
  apply seek_returned in E3 as [-> Hs].
  pose proof (uintValue_nonneg (littleEndian r) 4 (buffer r) (position r + 4)).
  rewrite Hb2 in Hs. rewrite padEven_rounds_up in Hs |- * by lia.
  apply IH; cbn [position buffer set_position]; rewrite ?Hb2;
    try lia.
  pose proof (Z.div_mod
                (uintValue (littleEndian r) 4 (buffer r) (position r + 4) + 1)
                2 ltac:(lia)).
  pose proof (Z.mod_pos_bound
                (uintValue (littleEndian r) 4 (buffer r) (position r + 4) + 1)
                2 ltac:(lia)).
  lia.
Qed.

(** X22.  [parseWebP] ends on every buffer of less than 2^31 bytes: both of
    its chunk loops leave the reader at least eight bytes further on at
    every turn, so the call returns or throws. *)
Theorem parseWebP_ends (buf : Buffer) :
  blength buf < 2 ^ 31 ->
  (exists o, parseWebP buf = Ret o) \/ (exists msg, parseWebP buf = Throw msg).
Proof.
  intros Hlen.
  enough (H : parseWebP buf <> Hang)
    by (destruct (parseWebP buf) as [o|msg|]; [eauto|eauto|contradiction]).
  unfold parseWebP.
  destruct (Z.ltb_spec (blength buf) 12) as [|H12]; [discriminate|].
  apply run_halts_at.
  apply bind_halts_at; [apply steady_readString|].
  intros riff r1 E1 _. rewrite readString_ok in E1 by reader_side.
  injection E1 as _ <-.
  destruct (negb _); [discriminate|].
  halting_step.
  apply bind_halts_at; [apply steady_readString|].
  intros webp r2 E2 _. unfold readString in E2.
  destruct (_ >? _); [discriminate|]. injection E2 as _ <-.
  destruct (negb _); [discriminate|].
  halting_step.
  cbn [position buffer set_position new_BufferReader] in *.
  rewrite Z.min_l by lia.
  match goal with
  | |- bind (webp_pass1 ?f ?v) ?k ?r <> Hang =>
      apply bind_halts_here;
      [apply webp_pass1_halts;
       cbn [position buffer set_position new_BufferReader];
       unfold budget, blength in *; lia
      |intros v1 r3 E1p;
       pose proof (webp_pass1_keeps f v r v1 r3 E1p) as Hk]
  end.
  cbn [buffer set_position new_BufferReader] in Hk.
  apply bind_halts_at; [apply steady_seek|].
  intros u r4 E4 _. apply seek_returned in E4 as [-> Hs].
  apply bind_halts_here; [|discriminate].
  apply webp_pass2_halts; cbn [position buffer set_position]; rewrite Hk;
    unfold budget, blength in *; lia.
Qed.

Lemma parseWebP_ends_witness :
  blength webp_extended_sample < 2 ^ 31 /\
  ((exists o, parseWebP webp_extended_sample = Ret o) \/
   (exists msg, parseWebP webp_extended_sample = Throw msg)).
Proof.
  assert (H : blength webp_extended_sample < 2 ^ 31) by (vm_compute; reflexivity).
  split; [exact H|]. exact (parseWebP_ends webp_extended_sample H).
Defined.

(* ================================================================== *)
(** * Buffers too short for any decoder *)
(* ================================================================== *)

Lemma short_buffer_refused (f : Format) (buf : Buffer) :
  blength buf < 4 -> parserOf f buf = Ret None.
Proof.
  intros H.
  destruct f; cbn [parserOf];
    [unfold parseJPEG|unfold parsePNG|unfold parseGIF|unfold parseWebP
    |unfold parseBMP|unfold parseICO|unfold parseAVIF|unfold parseSVG];
    rewrite Zltb_true by lia; reflexivity.
Qed.

Lemma tryParsers_all_none (buf : Buffer) (d : option Format) (ps : list Format) :
  (forall f, parserOf f buf = Ret None) -> tryParsers ps d buf = Ret None.
Proof.
  intros H. induction ps as [|p ps IH]; [reflexivity|].
  cbn [tryParsers]. unfold attempt. rewrite (H p).
  destruct (match d with Some d' => Format_eqb p d' | None => false end);
    exact IH.
Qed.

(** X23.  On a buffer of fewer than four bytes, the empty one among them,
    every decoder returns none and so does [parseImage], whatever the
    detector makes of the first bytes. *)
Theorem parseImage_short_buffer (buf : Buffer) :
  blength buf < 4 ->
  (forall f, parserOf f buf = Ret None) /\ parseImage buf = Ret None.
Proof.
  intros H.
  assert (Hall : forall f, parserOf f buf = Ret None)
    by (intros f; apply short_buffer_refused, H).
  split; [exact Hall|].
  unfold parseImage.
  destruct (detectFormat buf) as [d|];
    [unfold attempt; rewrite (Hall d)|];
    apply tryParsers_all_none, Hall.
Qed.

Lemma parseImage_short_buffer_witness :
  blength [xff; xd8] < 4 /\ detectFormat [xff; xd8] = Some JPEG /\
  parseImage [xff; xd8] = Ret None /\ parseImage [] = Ret None.
Proof.
  assert (H2 : blength [xff; xd8] < 4) by (vm_compute; reflexivity).
  assert (H0 : blength [] < 4) by (vm_compute; reflexivity).
  split; [exact H2|]. split; [vm_compute; reflexivity|].
  split; [exact (proj2 (parseImage_short_buffer [xff; xd8] H2))
         |exact (proj2 (parseImage_short_buffer [] H0))].
Defined.

(* ================================================================== *)
(** * Reads behind a canRead test *)
(* ================================================================== *)

(** X24.  What [canRead] answers decides the reads of that many bytes: after
    true, [readBytes] hands back exactly the [n] bytes at the cursor and
    [readBytes], [readString] and [skip] leave the cursor [n] further on;
    after false, [readBytes] and [readString] throw and [skip] stops at
    the end of the buffer. *)
Theorem canRead_guards_reads (n : Z) (r : BufferReader) (enc : BufferEncoding) :
  0 <= position r -> 0 <= n ->
  let r' := set_position r (position r + n) in
  let bytes := slice (buffer r) (position r) (position r + n) in
  (canRead n r = Ret (true, r) ->
     readBytes n r = Ret (bytes, r') /\ blength bytes = n /\
     readString n enc r = Ret (decode enc bytes, r') /\
     skip n r = Ret (tt, r')) /\
  (canRead n r = Ret (false, r) ->
     readBytes n r = Throw "Attempt to read past buffer" /\
     readString n enc r = Throw "Attempt to read past buffer" /\
     skip n r = Ret (tt, set_position r (blength (buffer r)))).
Proof.
  intros Hp Hn r' bytes. subst r' bytes. unfold canRead. split.
  - destruct (Z.leb_spec (position r + n) (blength (buffer r))) as [H|];
      [intros _|discriminate].
    split; [apply readBytes_at; assumption|].
    split; [rewrite blength_slice; lia|].
    split; [apply readString_at; assumption|apply skip_ok, H].
  - destruct (Z.leb_spec (position r + n) (blength (buffer r))) as [|H];
      [discriminate|intros _].
    unfold readBytes, readString, skip.
    rewrite Zgtb_true, Z.min_r by lia. repeat split.
Qed.

Lemma canRead_guards_reads_witness :
  let r := new_BufferReader [x47; x49; x46] false in
  0 <= position r /\
  canRead 3 r = Ret (true, r) /\
  readString 3 latin1 r = Ret (js "GIF", set_position r 3).
Proof.
  intros r.
  assert (H0 : 0 <= position r) by (vm_compute; discriminate).
  split; [exact H0|]. split; [reflexivity|].
  destruct (canRead_guards_reads 3 r latin1 H0 ltac:(lia)) as [H _].
  exact (proj1 (proj2 (proj2 (H eq_refl)))).
Defined.

(* ================================================================== *)
(** * Calls that only move the cursor *)
(* ================================================================== *)

(** A computation that leaves the reader on its buffer and in its byte
    order: all it may change is the position. *)
Definition stays {A} (m : M A) : Prop :=
  forall r a r', m r = Ret (a, r') ->
                 buffer r' = buffer r /\ littleEndian r' = littleEndian r.

Lemma stays_ret {A} (a : A) : stays (ret a).
Proof. intros r a' r' [= _ <-]. split; reflexivity. Qed.

Lemma stays_hang {A} : stays (@hang A).
Proof. intros r a r' [=]. Qed.

Lemma stays_bind {A B} (m : M A) (k : A -> M B) :
  stays m -> (forall a, stays (k a)) -> stays (bind m k).
Proof.
  intros Hm Hk r b r' H.
  apply bind_Ret_inv in H as (a & r1 & H1 & H2).
  destruct (Hm r a r1 H1) as [E1 E2], (Hk a r1 b r' H2) as [E3 E4].
  split; congruence.
Qed.

Lemma stays_lift {A} (o : Outcome A) : stays (lift o).
Proof.
  intros r a r'. unfold lift. destruct o; try discriminate.
  intros [= _ <-]. split; reflexivity.
Qed.

Local Ltac stays_method m :=
  intros r a r'; unfold m, bind, lift, Buffer_readInt32, Buffer_readUInt;
  repeat match goal with
         | |- context [if ?c then _ else _] => destruct c
         end;
  try discriminate; intros [= _ <-]; split; reflexivity.

Lemma stays_readUInt8 : stays readUInt8.
Proof. stays_method readUInt8. Qed.

Lemma stays_peekUInt8 : stays peekUInt8.
Proof. stays_method peekUInt8. Qed.

Lemma stays_readUInt16 : stays readUInt16.
Proof. stays_method readUInt16. Qed.

Lemma stays_readUInt32 : stays readUInt32.
Proof. stays_method readUInt32. Qed.

Lemma stays_readInt32 : stays readInt32.
Proof. stays_method readInt32. Qed.

Lemma stays_readString (n : Z) (enc : BufferEncoding) : stays (readString n enc).
Proof. stays_method readString. Qed.

Lemma stays_readBytes (n : Z) : stays (readBytes n).
Proof. stays_method readBytes. Qed.

Lemma stays_skip (n : Z) : stays (skip n).
Proof. stays_method skip. Qed.

Lemma stays_seek (p : Z) : stays (seek p).
Proof. stays_method seek. Qed.

Lemma stays_getPosition : stays getPosition.
Proof. stays_method getPosition. Qed.

Lemma stays_remaining : stays remaining.
Proof. stays_method remaining. Qed.

Lemma stays_canRead (n : Z) : stays (canRead n).
Proof. stays_method canRead. Qed.

Lemma stays_getBuffer : stays getBuffer.
Proof. stays_method getBuffer. Qed.

Create HintDb stays.
#[local] Hint Resolve stays_ret stays_hang stays_lift stays_readUInt8
  stays_peekUInt8 stays_readUInt16 stays_readUInt32 stays_readInt32
  stays_readString stays_readBytes stays_skip stays_seek stays_getPosition
  stays_remaining stays_canRead stays_getBuffer : stays.

Ltac stays_step :=
  lazymatch goal with
  | |- stays (bind _ _) => apply stays_bind; [|intros ?]
  | |- stays (if ?c then _ else _) => destruct c
  | |- stays (match ?x with _ => _ end) => destruct x
  | |- stays (let '(_, _) := ?x in _) => destruct x
  | |- stays _ => solve [auto with stays]
  end.

Lemma stays_parseJFIF : stays parseJFIF.
Proof. unfold parseJFIF. repeat stays_step. Qed.

Lemma stays_parseEXIF (segmentLength : Z) : stays (parseEXIF segmentLength).
Proof. unfold parseEXIF. repeat stays_step. Qed.

Lemma stays_jpeg_app0 (v : JpegVars) : stays (jpeg_app0 v).
Proof.
  unfold jpeg_app0. stays_step; [apply stays_parseJFIF|]. repeat stays_step.
Qed.

Lemma stays_jpeg_app1 (segmentLength : Z) (v : JpegVars) :
  stays (jpeg_app1 segmentLength v).
Proof.
  unfold jpeg_app1. stays_step; [apply stays_parseEXIF|]. repeat stays_step.
Qed.

Lemma stays_jpeg_app2 (segmentLength segmentStart : Z) (v : JpegVars) :
  stays (jpeg_app2 segmentLength segmentStart v).
Proof. unfold jpeg_app2. repeat stays_step. Qed.

Lemma stays_jpeg_app14 (segmentStart : Z) (v : JpegVars) :
  stays (jpeg_app14 segmentStart v).
Proof. unfold jpeg_app14. repeat stays_step. Qed.

Lemma stays_jpeg_sof (v : JpegVars) : stays (jpeg_sof v).
Proof. unfold jpeg_sof. repeat stays_step. Qed.

(* ================================================================== *)
(** * parseJPEG: where the frame header of a result stands *)
(* ================================================================== *)

Lemma js_or_marker (b : Z) : 0 <= b <= 255 -> js_or 0xff00 b = 0xff00 + b.
Proof.
  intros H. unfold js_or.
  rewrite (ToInt32_small 0xff00), (ToInt32_small b) by lia.
  rewrite Z.lor_comm. change 0xff00 with (255 * 2 ^ 8).
  rewrite lor_shifted by lia. lia.
Qed.

(** A Start-of-Frame marker is none of the markers that have a block of
    their own in the segment loop. *)
Lemma isSOFMarker_no_block (x : Z) :
  isSOFMarker x = true ->
  (x =? MARKERS.APP0) = false /\ (x =? MARKERS.APP1) = false /\
  (x =? MARKERS.APP2) = false /\ (x =? MARKERS.APP14) = false.
Proof.
  unfold isSOFMarker. rewrite !orb_true_iff, !Z.eqb_eq.
  intros H. repeat destruct H as [H|H]; subst x; repeat split; reflexivity.
Qed.

(** One call of a run that returned, taken apart. *)
Ltac returned_call H :=
  let a := fresh "got" in
  let r := fresh "rd" in
  let E := fresh "Ecall" in
  apply bind_Ret_inv in H; destruct H as (a & r & E & H);
  first
    [ apply readUInt16_inv in E; destruct E as (-> & -> & ? & ?)
    | apply readUInt8_inv in E; destruct E as (-> & -> & ?)
    | unfold canRead in E; injection E as <- <-
    | unfold getPosition in E; injection E as <- <-
    | unfold remaining in E; injection E as <- <- ];
  cbn [position buffer littleEndian set_position] in *.

(** The result [r] was built from the Start-of-Frame segment whose
    payload starts at offset [q] of [buf]: after the marker at [q - 4]
    and the length, the precision byte at [q], the big-endian height and
    width at [q + 1] and [q + 3] and the component count at [q + 5]. *)
Definition jpeg_frame_at (buf : Buffer) (q : Z) (r : ParseResult) : Prop :=
  6 <= q /\ q + 6 <= blength buf /\
  byteAt buf (q - 4) = 0xff /\
  isSOFMarker (0xff00 + byteAt buf (q - 3)) = true /\
  1 <= bigEndian2 buf (q + 1) /\ 1 <= bigEndian2 buf (q + 3) /\
  height r = Z2F (bigEndian2 buf (q + 1)) /\
  width r = Z2F (bigEndian2 buf (q + 3)) /\
  bitDepth r = (if byteAt buf q =? 0 then None
                else Some (Z2F (byteAt buf q))) /\
  channels r = (if byteAt buf (q + 5) =? 0 then None
                else Some (Z2F (byteAt buf (q + 5)))) /\
  (wResolution r = None <-> hResolution r = None) /\
  type r = js "jpg" /\ mime r = js "image/jpeg" /\
  wUnits r = js "px" /\ hUnits r = js "px" /\ gamma r = None.

Lemma jpeg_sof_frame_at (v : JpegVars) (r rEnd : BufferReader) (res : ParseResult) :
  jpg_paired v -> littleEndian r = false -> 6 <= position r ->
  byteAt (buffer r) (position r - 4) = 0xff ->
  isSOFMarker (0xff00 + byteAt (buffer r) (position r - 3)) = true ->
  jpeg_sof v r = Ret (SofReturn res, rEnd) ->
  jpeg_frame_at (buffer r) (position r) res.
Proof.
  intros Hv Hle Hp Hff Hm H. unfold jpeg_sof in H.
  returned_call H.
  destruct (Z.leb_spec (position r + 6) (blength (buffer r))) as [Hfit|];
    cbn [negb] in H; [|discriminate].
  do 4 returned_call H.
  rewrite Hle, !uintValue_2_at in H by lia. cbv iota in H.
  replace (position r + 1 + 2) with (position r + 3) in H by lia.
  replace (position r + 3 + 2) with (position r + 5) in H by lia.
  destruct (Z.gtb_spec (bigEndian2 (buffer r) (position r + 3)) 0);
    [|discriminate].
  destruct (Z.gtb_spec (bigEndian2 (buffer r) (position r + 1)) 0);
    [|discriminate].
  cbn [andb] in H. unfold ret in H. injection H as <- _.
  unfold jpeg_frame_at, jpeg_result, truthyZ.
  cbn [width height bitDepth channels wResolution hResolution type mime
       wUnits hUnits gamma].
  destruct (byteAt (buffer r) (position r) =? 0),
    (byteAt (buffer r) (position r + 5) =? 0); cbn [negb];
    repeat split; try lia; try assumption; try reflexivity; apply Hv.
Qed.

Lemma jpeg_segments_frame_at (fuel : nat) :
  forall v r res rEnd,
    jpg_paired v -> littleEndian r = false -> 2 <= position r ->
    jpeg_segments fuel v r = Ret (Some res, rEnd) ->
    exists q, jpeg_frame_at (buffer r) q res.
Proof.
  induction fuel as [|fuel IH]; intros v r res rEnd Hv Hle Hp H;
    [discriminate|].
  cbn [jpeg_segments] in H. unfold jpeg_segment in H.
  returned_call H.
  destruct (_ >? 1); [|discriminate].
  returned_call H.
  destruct (Z.eqb_spec (byteAt (buffer r) (position r)) 0xff) as [Hff|];
    cbn [negb] in H;
    [|apply (IH _ _ _ _ Hv) in H; [exact H|exact Hle|cbn [position set_position]; lia]].
  returned_call H.
  destruct (_ || _);
    [apply (IH _ _ _ _ Hv) in H; [exact H|exact Hle|cbn [position set_position]; lia]|].
  returned_call H. destruct (negb _); [discriminate|].
  returned_call H. returned_call H.
  destruct (Z.ltb_spec
              (uintValue (littleEndian r) 2 (buffer r) (position r + 1 + 1)) 2)
    as [|HL]; [discriminate|].
  cbn [orb] in H. destruct (negb _); [discriminate|].
  returned_call H.
  set (marker := js_or 65280 (byteAt (buffer r) (position r + 1))) in *.
  set (r0 := set_position (set_position (set_position r _) _) _) in *.
  assert (Hp0 : position r0 = position r + 4) by (subst r0; cbn [position set_position]; lia).
  assert (Hb0 : buffer r0 = buffer r) by reflexivity.
  assert (Hl0 : littleEndian r0 = false) by exact Hle.
  apply bind_Ret_inv in H as (v1 & r1 & E1 & H).
  assert (S1 : (buffer r1 = buffer r /\ littleEndian r1 = false) /\ jpg_paired v1).
  { destruct (marker =? MARKERS.APP0).
    - split; [destruct (stays_jpeg_app0 _ _ _ _ E1); split; congruence|].
      exact (jpeg_app0_paired v Hv _ _ _ E1).
    - injection E1 as <- <-. auto. }
  destruct S1 as [[Hb1 Hl1] Hv1].
  apply bind_Ret_inv in H as (v2 & r2 & E2 & H).
  assert (S2 : (buffer r2 = buffer r /\ littleEndian r2 = false) /\ jpg_paired v2).
  { destruct (marker =? MARKERS.APP1).
    - split; [destruct (stays_jpeg_app1 _ _ _ _ _ E2); split; congruence|].
      exact (jpeg_app1_paired _ v1 Hv1 _ _ _ E2).
    - injection E2 as <- <-. auto. }
  destruct S2 as [[Hb2 Hl2] Hv2].
  apply bind_Ret_inv in H as (v3 & r3 & E3 & H).
  assert (S3 : (buffer r3 = buffer r /\ littleEndian r3 = false) /\ jpg_paired v3).
  { destruct ((marker =? MARKERS.APP2) && _).
    - split; [destruct (stays_jpeg_app2 _ _ _ _ _ _ E3); split; congruence|].
      exact (jpeg_app2_paired _ _ v2 Hv2 _ _ _ E3).
    - injection E3 as <- <-. auto. }
  destruct S3 as [[Hb3 Hl3] Hv3].
  apply bind_Ret_inv in H as (v4 & r4 & E4 & H).
  assert (S4 : (buffer r4 = buffer r /\ littleEndian r4 = false) /\ jpg_paired v4).
  { destruct ((marker =? MARKERS.APP14) && _).
    - split; [destruct (stays_jpeg_app14 _ _ _ _ _ E4); split; congruence|].
      exact (jpeg_app14_paired _ v3 Hv3 _ _ _ E4).
    - injection E4 as <- <-. auto. }
  destruct S4 as [[Hb4 Hl4] Hv4].
  apply bind_Ret_inv in H as (sof & r5 & E5 & H).
  destruct sof as [|res'|].
  - discriminate.
  - injection H as -> _.
    destruct (isSOFMarker marker) eqn:Hsof; [|discriminate].
    destruct (isSOFMarker_no_block marker Hsof) as (N0 & N1 & N2 & N14).
    rewrite N0 in E1. injection E1 as <- <-.
    rewrite N1 in E2. injection E2 as <- <-.
    rewrite N2 in E3. cbn [andb] in E3. injection E3 as <- <-.
    rewrite N14 in E4. cbn [andb] in E4. injection E4 as <- <-.
    exists (position r0). rewrite <- Hb0.
    apply (jpeg_sof_frame_at v r0 r5 res Hv Hl0).
    + lia.
    + rewrite Hp0, Hb0.
      replace (position r + 4 - 4) with (position r) by lia. exact Hff.
    + rewrite Hp0, Hb0.
      replace (position r + 4 - 3) with (position r + 1) by lia.
      rewrite <- js_or_marker by apply byteAt_range. exact Hsof.
    + exact E5.
  - assert (S5 : buffer r5 = buffer r /\ littleEndian r5 = false).
    { destruct (isSOFMarker marker).
      - destruct (stays_jpeg_sof _ _ _ _ E5); split; congruence.
      - injection E5 as <-. auto. }
    destruct S5 as [Hb5 Hl5].
    apply bind_Ret_inv in H as (u & r6 & E6 & H).
    apply seek_returned in E6 as [-> Hs].
    apply (IH _ _ _ _ Hv4) in H.
    + cbn [buffer set_position] in H. rewrite Hb5 in H. exact H.
    + exact Hl5.
    + cbn [position set_position]. lia.
Qed.

(** X14.  A JPEG result is built from a Start-of-Frame segment of the
    buffer, which starts with the SOI marker: at some offset [q - 4]
    stands 0xFF followed by one of the thirteen Start-of-Frame codes, and
    the result's bit depth is the byte at [q] (absent when 0), its height
    and width are the big-endian 16-bit numbers at [q + 1] and [q + 3],
    both at least 1, and its channel count is the byte at [q + 5] (absent
    when 0).  The two resolutions are present or absent together. *)
Theorem parseJPEG_reports_a_frame_header (buf : Buffer) (r : ParseResult) :
  parseJPEG buf = Ret (Some r) ->
  slice buf 0 2 = [xff; xd8] /\ exists q, jpeg_frame_at buf q r.
Proof.
  intros H. split; [apply (parseJPEG_signature buf r H)|].
  unfold parseJPEG in H.
  destruct (Z.ltb_spec (blength buf) 4); [discriminate|].
  apply run_Ret_inv in H as (rEnd & H).
  returned_call H. cbn [new_BufferReader] in *.
  destruct (negb _); [discriminate|].
  apply jpeg_segments_frame_at in H;
    [exact H|split; reflexivity|reflexivity|cbn [position set_position]; lia].
Qed.

Lemma parseJPEG_reports_a_frame_header_witness :
  exists r,
    parseJPEG jpeg_frame_sample = Ret (Some r) /\
    width r = 320%float /\ height r = 240%float /\
    exists q, jpeg_frame_at jpeg_frame_sample q r.
Proof.
  eexists. split; [vm_compute; reflexivity|].
  split; [reflexivity|]. split; [reflexivity|].
  refine (proj2 (parseJPEG_reports_a_frame_header jpeg_frame_sample _ _)).
  vm_compute; reflexivity.
Defined.

(* ================================================================== *)
(** * C2, amended: the dispatcher after the detected decoder *)
(* ================================================================== *)

(** [f] is the first decoder of the list [ps], [d] left aside, that does
    not return none or throw on [buf]: every decoder before it in the
    list, other than [d], does. *)
Definition firstOther (ps : list Format) (d : Format) (buf : Buffer)
  (f : Format) : Prop :=
  exists before after,
    ps = before ++ f :: after /\ f <> d /\
    forall g, In g before -> g <> d -> refuses (parserOf g) buf.

Lemma Format_eqb_refl (f : Format) : Format_eqb f f = true.
Proof. destruct f; reflexivity. Qed.

Lemma Format_eqb_neq (f d : Format) : f <> d -> Format_eqb f d = false.
Proof.
  intros H. destruct (Format_eqb f d) eqn:E; [|reflexivity].
  apply Format_eqb_eq in E. contradiction.
Qed.

Lemma attempt_refused (p : Parser) (buf : Buffer) :
  refuses p buf -> attempt p buf = Ret None.
Proof. unfold attempt. intros [->|[msg ->]]; reflexivity. Qed.

(** The fallback loop stops at the first decoder that answers. *)
Lemma tryParsers_first (buf : Buffer) (d f : Format) (o : Outcome (option ParseResult)) :
  forall ps,
    firstOther ps d buf f -> ~ refuses (parserOf f) buf ->
    attempt (parserOf f) buf = o ->
    tryParsers ps (Some d) buf = o.
Proof.
  intros ps (before & after & -> & Hne & Hall) Hf Ho.
  induction before as [|g before IH]; cbn [app tryParsers].
  - rewrite (Format_eqb_neq f d Hne), Ho.
    destruct (attempt_cases (parserOf f) buf) as [[_ Hr]|[(r & Ha & _)|[Ha _]]];
      [contradiction| |]; rewrite Ho in Ha; rewrite Ha; reflexivity.
  - assert (IH' : tryParsers (before ++ f :: after) (Some d) buf = o)
      by (apply IH; intros h Hh; apply Hall; right; exact Hh).
    destruct (Format_eqb g d) eqn:E; [exact IH'|].
    rewrite attempt_refused; [exact IH'|].
    apply Hall; [left; reflexivity|].
    intros ->. rewrite Format_eqb_refl in E. discriminate.
Qed.

Lemma tryParsers_none (buf : Buffer) (d : Format) :
  forall ps,
    (forall g, In g ps -> g <> d -> refuses (parserOf g) buf) ->
    tryParsers ps (Some d) buf = Ret None.
Proof.
  induction ps as [|g ps IH]; intros Hall; [reflexivity|].
  cbn [tryParsers].
  assert (IH' : tryParsers ps (Some d) buf = Ret None)
    by (apply IH; intros h Hh; apply Hall; right; exact Hh).
  destruct (Format_eqb g d) eqn:E; [exact IH'|].
  rewrite attempt_refused; [exact IH'|].
  apply Hall; [left; reflexivity|].
  intros ->. rewrite Format_eqb_refl in E. discriminate.
Qed.

(** Either every decoder of the list other than [d] refuses, or there is
    a first one that does not. *)
Lemma firstOther_or_none (buf : Buffer) (d : Format) :
  forall ps,
    (forall g, In g ps -> g <> d -> refuses (parserOf g) buf) \/
    exists f, firstOther ps d buf f /\ ~ refuses (parserOf f) buf.
Proof.
  induction ps as [|g ps IH]; [left; intros g []|].
  destruct (Format_eqb g d) eqn:E.
  - apply Format_eqb_eq in E. subst g.
    destruct IH as [Hall|(f & (before & after & -> & Hne & Hb) & Hf)].
    + left. intros h [<-|Hh] Hn; [contradiction|auto].
    + right. exists f. split; [|exact Hf].
      exists (d :: before), after. split; [reflexivity|]. split; [exact Hne|].
      intros h [<-|Hh] Hn; [contradiction|auto].
  - assert (Hg : g <> d)
      by (intros ->; rewrite Format_eqb_refl in E; discriminate).
    destruct (attempt_cases (parserOf g) buf) as [[_ Hr]|Hans].
    + destruct IH as [Hall|(f & (before & after & -> & Hne & Hb) & Hf)].
      * left. intros h [<-|Hh] Hn; [exact Hr|auto].
      * right. exists f. split; [|exact Hf].
        exists (g :: before), after. split; [reflexivity|]. split; [exact Hne|].
        intros h [<-|Hh] Hn; [exact Hr|auto].
    + right. exists g. split.
      * exists [], ps. split; [reflexivity|]. split; [exact Hg|]. intros h [].
      * intros [Hn|[msg Hm]];
          destruct Hans as [(r & _ & Hp)|[_ Hp]]; congruence.
Qed.

Lemma firstOther_unique (buf : Buffer) (d f f' : Format) (ps : list Format) :
  firstOther ps d buf f -> ~ refuses (parserOf f) buf ->
  firstOther ps d buf f' -> ~ refuses (parserOf f') buf ->
  attempt (parserOf f) buf = attempt (parserOf f') buf.
Proof.
  intros H Hf H' Hf'.
  rewrite <- (tryParsers_first buf d f _ ps H Hf eq_refl).
  rewrite <- (tryParsers_first buf d f' _ ps H' Hf' eq_refl).
  reflexivity.
Qed.

(** C2, amended.  Let the detector return the decoder [d] for a buffer.
    When [d] returns a result, [parseImage] returns the same result; when
    [d] does not return, neither does [parseImage].  When [d] returns
    none or throws, [parseImage] goes through the registry (JPEG, PNG,
    GIF, WebP, BMP, ICO, AVIF, SVG) in this order, [d] left aside, up to
    the first decoder that neither returns none nor throws: it returns
    that decoder's result, or does not return if that decoder does not,
    and it returns none exactly when all the other decoders return none
    or throw. *)
Theorem parseImage_agrees_with_detected_decoder
  (buf : Buffer) (d : Format) :
  detectFormat buf = Some d ->
  getAllParsers = [JPEG; PNG; GIF; WebP; BMP; ICO; AVIF; SVG] /\
  (forall r, parserOf d buf = Ret (Some r) -> parseImage buf = Ret (Some r)) /\
  (parserOf d buf = Hang -> parseImage buf = Hang) /\
  (refuses (parserOf d) buf ->
   (forall r,
      parseImage buf = Ret (Some r) <->
      exists f, firstOther getAllParsers d buf f /\
                parserOf f buf = Ret (Some r)) /\
   (parseImage buf = Hang <->
    exists f, firstOther getAllParsers d buf f /\ parserOf f buf = Hang) /\
   (parseImage buf = Ret None <->
    forall g, g <> d -> refuses (parserOf g) buf)).
Proof.
  intros Hd. split; [reflexivity|].
  unfold parseImage. rewrite Hd.
  split; [intros r Hr; unfold attempt; rewrite Hr; reflexivity|].
  split; [intros Hh; unfold attempt; rewrite Hh; reflexivity|].
  intros Href. rewrite (attempt_refused _ _ Href).
  assert (Hans : forall f o,
             firstOther getAllParsers d buf f ->
             parserOf f buf = o -> ~ refuses (parserOf f) buf ->
             tryParsers getAllParsers (Some d) buf = attempt (parserOf f) buf)
    by (intros f o Hf _ Hn; apply (tryParsers_first buf d f); auto).
  destruct (firstOther_or_none buf d getAllParsers)
    as [Hall|(f & Hf & Hn)].
  - rewrite (tryParsers_none buf d getAllParsers Hall).
    split; [|split].
    + intros r. split; [discriminate|].
      intros (f & (before & after & E & Hne & _) & Hr).
      destruct (Hall f) as [H|[msg H]]; try congruence.
      rewrite E. apply in_elt.
    + split; [discriminate|].
      intros (f & (before & after & E & Hne & _) & Hr).
      destruct (Hall f) as [H|[msg H]]; try congruence.
      rewrite E. apply in_elt.
    + split; [|reflexivity]. intros _ g Hg. apply Hall; [apply all_formats|exact Hg].
  - rewrite (tryParsers_first buf d f _ getAllParsers Hf Hn eq_refl).
    assert (Hsame : forall f', firstOther getAllParsers d buf f' ->
                               ~ refuses (parserOf f') buf ->
                               attempt (parserOf f') buf = attempt (parserOf f) buf)
      by (intros f' Hf' Hn'; apply (firstOther_unique buf d f' f getAllParsers); assumption).
    destruct (attempt_cases (parserOf f) buf) as [[_ Hr]|[(r0 & Ha & Hp)|[Ha Hp]]];
      [contradiction| |]; rewrite Ha.
    + split; [|split].
      * intros r. split.
        -- intros [= <-]. exists f. split; assumption.
        -- intros (f' & Hf' & Hr').
           assert (Hn' : ~ refuses (parserOf f') buf)
             by (intros [H|[msg H]]; congruence).
           specialize (Hsame f' Hf' Hn'). unfold attempt at 1 in Hsame.
           rewrite Hr', Ha in Hsame. exact (eq_sym Hsame).
      * split; [discriminate|].
        intros (f' & Hf' & Hr').
        assert (Hn' : ~ refuses (parserOf f') buf)
          by (intros [H|[msg H]]; congruence).
        specialize (Hsame f' Hf' Hn'). unfold attempt at 1 in Hsame.
        rewrite Hr', Ha in Hsame. discriminate.
      * split; [discriminate|]. intros Hall. exfalso. apply Hn.
        destruct Hf as (before & after & E & Hne & _). apply Hall, Hne.
    + split; [|split].
      * intros r. split; [discriminate|].
        intros (f' & Hf' & Hr').
        assert (Hn' : ~ refuses (parserOf f') buf)
          by (intros [H|[msg H]]; congruence).
        specialize (Hsame f' Hf' Hn'). unfold attempt at 1 in Hsame.
        rewrite Hr', Ha in Hsame. discriminate.
      * split; [intros _; exists f; split; assumption|reflexivity].
      * split; [discriminate|]. intros Hall. exfalso. apply Hn.
        destruct Hf as (before & after & E & Hne & _). apply Hall, Hne.
Qed.

Lemma parseImage_agrees_with_detected_decoder_witness :
  let buf := [x42; x4d; x3c; x73; x76; x67; x3e] in
  detectFormat buf = Some BMP /\
  refuses (parserOf BMP) buf /\
  firstOther getAllParsers BMP buf SVG /\
  parserOf SVG buf = Ret (Some svg_default) /\
  parseImage buf = Ret (Some svg_default).
Proof.
  intros buf.
  assert (Hd : detectFormat buf = Some BMP) by (vm_compute; reflexivity).
  assert (Hr : refuses (parserOf BMP) buf) by (left; vm_compute; reflexivity).
  assert (Hs : parserOf SVG buf = Ret (Some svg_default))
    by (vm_compute; reflexivity).
  assert (Hf : firstOther getAllParsers BMP buf SVG).
  { exists [JPEG; PNG; GIF; WebP; BMP; ICO; AVIF], [].
    split; [reflexivity|]. split; [discriminate|].
    intros g Hg _. cbn [In] in Hg.
    repeat (destruct Hg as [<-|Hg]; [left; vm_compute; reflexivity|]).
    destruct Hg. }
  split; [exact Hd|]. split; [exact Hr|]. split; [exact Hf|].
  split; [exact Hs|].
  destruct (parseImage_agrees_with_detected_decoder buf BMP Hd)
    as (_ & _ & _ & Hfall).
  apply (proj1 (Hfall Hr)). exists SVG. split; [exact Hf|exact Hs].
Defined.

(* ================================================================== *)
(** * Readers inside a buffer laid out piece by piece *)
(* ================================================================== *)

(** The reader of [pre ++ seg ++ rest] that stands [k] bytes into
    [seg]. *)
Definition inside (pre seg rest : Buffer) (k : Z) (le : bool) : BufferReader :=
  {| buffer := pre ++ seg ++ rest; position := blength pre + k;
     littleEndian := le |}.

(** The big-endian reader of [pre ++ rest] that stands at the end of
    [pre]. *)
Definition standing (pre rest : Buffer) : BufferReader :=
  {| buffer := pre ++ rest; position := blength pre; littleEndian := false |}.

Lemma standing_inside (pre seg rest : Buffer) :
  standing pre (seg ++ rest) = inside pre seg rest 0 false.
Proof. unfold standing, inside. rewrite Z.add_0_r. reflexivity. Qed.

Lemma inside_standing (pre seg rest : Buffer) (k : Z) :
  k = blength seg ->
  inside pre seg rest k false = standing (pre ++ seg) rest.
Proof.
  intros ->. unfold standing, inside.
  rewrite blength_app, <- app_assoc. reflexivity.
Qed.

Lemma slice_inside (pre seg rest : Buffer) (a b : Z) :
  0 <= a -> a <= b -> b <= blength seg ->
  slice (pre ++ seg ++ rest) (blength pre + a) (blength pre + b) = slice seg a b.
Proof.
  unfold slice, blength. intros Ha Hab Hb.
  replace (Z.of_nat (length pre) + b - (Z.of_nat (length pre) + a))
    with (b - a) by lia.
  replace (Z.to_nat (Z.of_nat (length pre) + a))
    with (length pre + Z.to_nat a)%nat by lia.
  rewrite skipn_app, skipn_all2 by lia.
  replace (length pre + Z.to_nat a - length pre)%nat with (Z.to_nat a) by lia.
  cbn [app]. rewrite skipn_app, firstn_app.
  replace (Z.to_nat a - length seg)%nat with 0%nat by lia.
  rewrite length_skipn.
  replace (Z.to_nat (b - a) - (length seg - Z.to_nat a))%nat with 0%nat by lia.
  cbn [skipn firstn]. apply app_nil_r.
Qed.

Lemma byteAt_inside (pre seg rest : Buffer) (k : Z) :
  0 <= k -> byteAt (pre ++ seg ++ rest) (blength pre + k) = byteAt (seg ++ rest) k.
Proof.
  intros Hk. unfold byteAt, Buffer_get, blength.
  rewrite (Zltb_false _ 0), (Zltb_false k 0) by lia.
  replace (Z.to_nat (Z.of_nat (length pre) + k))
    with (length pre + Z.to_nat k)%nat by lia.
  rewrite nth_error_app2 by lia.
  replace (length pre + Z.to_nat k - length pre)%nat with (Z.to_nat k) by lia.
  reflexivity.
Qed.

Lemma byteAt_app_l (seg rest : Buffer) (k : Z) :
  0 <= k < blength seg -> byteAt (seg ++ rest) k = byteAt seg k.
Proof.
  intros Hk. unfold byteAt, Buffer_get, blength in *.
  rewrite nth_error_app1 by lia. reflexivity.
Qed.

Lemma uintValue_inside (le : bool) (w : Z) (pre seg rest : Buffer) (k : Z) :
  0 <= k -> 0 <= w -> k + w <= blength seg ->
  uintValue le w (pre ++ seg ++ rest) (blength pre + k) = uintValue le w seg k.
Proof.
  intros Hk Hw H. unfold uintValue.
  replace (blength pre + k + w) with (blength pre + (k + w)) by lia.
  rewrite slice_inside by lia. reflexivity.
Qed.

Lemma inside_moved (pre seg rest : Buffer) (k n p : Z) (le : bool) :
  p = blength pre + k + n ->
  set_position (inside pre seg rest k le) p = inside pre seg rest (k + n) le.
Proof. intros ->. unfold set_position, inside. cbn. f_equal. lia. Qed.

Lemma inside_blength (pre seg rest : Buffer) :
  blength (pre ++ seg ++ rest) = blength pre + (blength seg + blength rest).
Proof. rewrite !blength_app. reflexivity. Qed.

Lemma inside_readUInt8 (pre seg rest : Buffer) (k : Z) (le : bool) :
  0 <= k < blength seg ->
  readUInt8 (inside pre seg rest k le)
  = Ret (byteAt seg k, inside pre seg rest (k + 1) le).
Proof.
  intros H. pose proof (blength_nonneg rest).
  rewrite readUInt8_ok by (cbn; rewrite inside_blength; lia).
  rewrite (inside_moved _ _ _ _ 1) by reflexivity.
  cbn [buffer position inside].
  rewrite byteAt_inside, byteAt_app_l by lia. reflexivity.
Qed.

Lemma inside_readUInt16 (pre seg rest : Buffer) (k : Z) (le : bool) :
  0 <= k -> k + 2 <= blength seg ->
  readUInt16 (inside pre seg rest k le)
  = Ret (uintValue le 2 seg k, inside pre seg rest (k + 2) le).
Proof.
  intros H0 H. pose proof (blength_nonneg rest). pose proof (blength_nonneg pre).
  rewrite readUInt16_ok by (cbn; rewrite ?inside_blength; lia).
  rewrite (inside_moved _ _ _ _ 2) by reflexivity.
  cbn [buffer position littleEndian inside].
  rewrite uintValue_inside by lia. reflexivity.
Qed.

Lemma inside_readUInt32 (pre seg rest : Buffer) (k : Z) (le : bool) :
  0 <= k -> k + 4 <= blength seg ->
  readUInt32 (inside pre seg rest k le)
  = Ret (uintValue le 4 seg k, inside pre seg rest (k + 4) le).
Proof.
  intros H0 H. pose proof (blength_nonneg rest). pose proof (blength_nonneg pre).
  rewrite readUInt32_ok by (cbn; rewrite ?inside_blength; lia).
  rewrite (inside_moved _ _ _ _ 4) by reflexivity.
  cbn [buffer position littleEndian inside].
  rewrite uintValue_inside by lia. reflexivity.
Qed.

Lemma inside_readString (n : Z) (enc : BufferEncoding)
      (pre seg rest : Buffer) (k : Z) (le : bool) :
  0 <= k -> 0 <= n -> k + n <= blength seg ->
  readString n enc (inside pre seg rest k le)
  = Ret (decode enc (slice seg k (k + n)), inside pre seg rest (k + n) le).
Proof.
  intros H0 Hn H. pose proof (blength_nonneg rest). pose proof (blength_nonneg pre).
  rewrite readString_at by (cbn; rewrite ?inside_blength; lia).
  rewrite (inside_moved _ _ _ _ n) by reflexivity.
  cbn [buffer position inside].
  replace (blength pre + k + n) with (blength pre + (k + n)) by lia.
  rewrite slice_inside by lia. reflexivity.
Qed.

Lemma inside_readBytes (n : Z) (pre seg rest : Buffer) (k : Z) (le : bool) :
  0 <= k -> 0 <= n -> k + n <= blength seg ->
  readBytes n (inside pre seg rest k le)
  = Ret (slice seg k (k + n), inside pre seg rest (k + n) le).
Proof.
  intros H0 Hn H. pose proof (blength_nonneg rest). pose proof (blength_nonneg pre).
  rewrite readBytes_at by (cbn; rewrite ?inside_blength; lia).
  rewrite (inside_moved _ _ _ _ n) by reflexivity.
  cbn [buffer position inside].
  replace (blength pre + k + n) with (blength pre + (k + n)) by lia.
  rewrite slice_inside by lia. reflexivity.
Qed.

Lemma inside_skip (n : Z) (pre seg rest : Buffer) (k : Z) (le : bool) :
  k + n <= blength seg + blength rest ->
  skip n (inside pre seg rest k le) = Ret (tt, inside pre seg rest (k + n) le).
Proof.
  intros H.
  rewrite skip_ok by (cbn; rewrite ?inside_blength; lia).
  rewrite (inside_moved _ _ _ _ n) by reflexivity. reflexivity.
Qed.

(** [seek] from any reader of the same buffer. *)
Lemma inside_seek (pre seg rest : Buffer) (p0 : Z) (le : bool) (p q : Z) :
  p = blength pre + q -> 0 <= q <= blength seg + blength rest ->
  seek p {| buffer := pre ++ seg ++ rest; position := p0; littleEndian := le |}
  = Ret (tt, inside pre seg rest q le).
Proof.
  intros -> H. pose proof (blength_nonneg pre).
  rewrite seek_ok by (cbn; rewrite ?inside_blength; lia).
  reflexivity.
Qed.

Lemma inside_canRead_true (n : Z) (pre seg rest : Buffer) (k : Z) (le : bool) :
  k + n <= blength seg + blength rest ->
  canRead n (inside pre seg rest k le) = Ret (true, inside pre seg rest k le).
Proof.
  intros H. apply canRead_true. cbn. rewrite inside_blength. lia.
Qed.

Lemma inside_canRead_false (n : Z) (pre seg rest : Buffer) (k : Z) (le : bool) :
  blength seg + blength rest < k + n ->
  canRead n (inside pre seg rest k le) = Ret (false, inside pre seg rest k le).
Proof.
  intros H. apply canRead_false. cbn. rewrite inside_blength. lia.
Qed.

Lemma inside_remaining (pre seg rest : Buffer) (k : Z) (le : bool) :
  remaining (inside pre seg rest k le)
  = Ret (blength seg + blength rest - k, inside pre seg rest k le).
Proof.
  unfold remaining. cbn [buffer position inside]. rewrite inside_blength.
  do 2 f_equal. lia.
Qed.

(** A run inside a laid-out buffer is traced call by call: each call of
    the reader at the head of a [bind] chain is replaced by its value,
    read in the piece the reader stands in. *)
Ltac inside_side :=
  cbn [position buffer littleEndian inside set_position];
  unfold blength in *; rewrite ?length_app; cbn [length app];
  rewrite ?length_app; cbn [length]; lia.

Ltac inside_parts r tac :=
  let b := eval cbn [buffer inside] in (buffer r) in
  let p := eval cbn [position inside] in (position r) in
  let le := eval cbn [littleEndian inside] in (littleEndian r) in
  lazymatch b with
  | ?pre ++ ?seg ++ ?rest =>
      lazymatch p with
      | blength pre + ?q => tac pre seg rest q le
      end
  end.

(** An offset is computed when it is a number. *)
Ltac inside_offset t :=
  let t' := eval cbv beta in t in
  match t' with
  | context [?x] => let _ := match goal with _ => is_var x end in t'
  | _ => eval vm_compute in t'
  end.

Ltac inside_number le bs :=
  eval cbn in
    (fold_left (fun acc b => acc * 256 + b)
               (if le then rev (map byteVal bs) else map byteVal bs) 0).

Ltac inside_prim :=
  lazymatch goal with
  | |- context [bind (ret ?x) ?k ?r] =>
      rewrite (bind_Ret (ret x) k r r x eq_refl)
  | |- context [bind (canRead ?n) ?k ?r] =>
      inside_parts r ltac:(fun pre seg rest q le =>
        first
          [ rewrite (bind_Ret (canRead n) k r r true
                       (inside_canRead_true n pre seg rest q le
                          ltac:(inside_side)))
          | rewrite (bind_Ret (canRead n) k r r false
                       (inside_canRead_false n pre seg rest q le
                          ltac:(inside_side))) ])
  | |- context [bind readUInt8 ?k ?r] =>
      inside_parts r ltac:(fun pre seg rest q le =>
        let bs := eval vm_compute in (slice seg q (q + 1)) in
        let v := eval cbn in (match bs with
                              | b :: _ => byteVal b
                              | [] => 0
                              end) in
        let q' := inside_offset (q + 1) in
        rewrite (bind_Ret readUInt8 k r (inside pre seg rest q' le) v
                   (inside_readUInt8 pre seg rest q le ltac:(inside_side))))
  | |- context [bind readUInt16 ?k ?r] =>
      inside_parts r ltac:(fun pre seg rest q le =>
        let bs := eval vm_compute in (slice seg q (q + 2)) in
        let v := inside_number le bs in
        let q' := inside_offset (q + 2) in
        rewrite (bind_Ret readUInt16 k r (inside pre seg rest q' le) v
                   (inside_readUInt16 pre seg rest q le
                      ltac:(inside_side) ltac:(inside_side))))
  | |- context [bind readUInt32 ?k ?r] =>
      inside_parts r ltac:(fun pre seg rest q le =>
        let bs := eval vm_compute in (slice seg q (q + 4)) in
        let v := inside_number le bs in
        let q' := inside_offset (q + 4) in
        rewrite (bind_Ret readUInt32 k r (inside pre seg rest q' le) v
                   (inside_readUInt32 pre seg rest q le
                      ltac:(inside_side) ltac:(inside_side))))
  | |- context [bind (readString ?n ?e) ?k ?r] =>
      inside_parts r ltac:(fun pre seg rest q le =>
        let bs := eval vm_compute in (slice seg q (q + n)) in
        let v := eval vm_compute in (decode e bs) in
        let q' := inside_offset (q + n) in
        rewrite (bind_Ret (readString n e) k r (inside pre seg rest q' le) v
                   (inside_readString n e pre seg rest q le
                      ltac:(inside_side) ltac:(inside_side)
                      ltac:(inside_side))))
  | |- context [bind (readBytes ?n) ?k ?r] =>
      inside_parts r ltac:(fun pre seg rest q le =>
        let bs := eval vm_compute in (slice seg q (q + n)) in
        let q' := inside_offset (q + n) in
        rewrite (bind_Ret (readBytes n) k r (inside pre seg rest q' le) bs
                   (inside_readBytes n pre seg rest q le
                      ltac:(inside_side) ltac:(inside_side)
                      ltac:(inside_side))))
  | |- context [bind (skip ?n) ?k ?r] =>
      inside_parts r ltac:(fun pre seg rest q le =>
        let q' := inside_offset (q + n) in
        rewrite (bind_Ret (skip n) k r (inside pre seg rest q' le) tt
                   (inside_skip n pre seg rest q le ltac:(inside_side))))
  | |- context [bind (seek ?p) ?k ?r] =>
      let b := eval cbn [buffer inside] in (buffer r) in
      let p0 := eval cbn [position inside] in (position r) in
      let le := eval cbn [littleEndian inside] in (littleEndian r) in
      lazymatch b with
      | ?pre ++ ?seg ++ ?rest =>
          let f := eval pattern (blength pre) in p in
          lazymatch f with
          | ?g _ =>
              let q := inside_offset (g 0) in
              rewrite (bind_Ret (seek p) k r (inside pre seg rest q le) tt
                         (inside_seek pre seg rest p0 le p q
                            ltac:(inside_side) ltac:(inside_side)))
          end
      end
  | |- context [bind getPosition ?k ?r] =>
      let v := eval cbn [position inside] in (position r) in
      rewrite (bind_Ret getPosition k r r v eq_refl)
  | |- context [bind getBuffer ?k ?r] =>
      let v := eval cbn [buffer inside] in (buffer r) in
      rewrite (bind_Ret getBuffer k r r v eq_refl)
  | |- context [bind remaining ?k ?r] =>
      inside_parts r ltac:(fun pre seg rest q le =>
        rewrite (bind_Ret remaining k r r _
                   (inside_remaining pre seg rest q le)))
  end.

(** A test is settled by computation when it is closed, and comparison
    by comparison otherwise. *)
Ltac inside_atom c :=
  tryif sym_has_var c then
    lazymatch c with
    | negb ?x => inside_atom x
    | ?x || ?y => first [inside_atom x | inside_atom y]
    | ?x && ?y => first [inside_atom x | inside_atom y]
    | ?a >? ?b => first [ rewrite (Zgtb_true a b) by inside_side
                        | rewrite (Zgtb_false a b) by inside_side ]
    | ?a >=? ?b => first [ rewrite (Zgeb_true a b) by inside_side
                         | rewrite (Zgeb_false a b) by inside_side ]
    | ?a <? ?b => first [ rewrite (Zltb_true a b) by inside_side
                        | rewrite (Zltb_false a b) by inside_side ]
    | ?a <=? ?b => first [ rewrite (Zleb_true a b) by inside_side
                         | rewrite (Zleb_false a b) by inside_side ]
    end
  else
    lazymatch c with
    | true => fail
    | false => fail
    | _ =>
        let c' := eval vm_compute in c in
        lazymatch c' with
        | true => change c with true
        | false => change c with false
        end
    end.

Ltac inside_decide c := inside_atom c.

Ltac inside_if :=
  lazymatch goal with
  | |- context [bind (if ?c then _ else _) ?k ?r] =>
      inside_decide c; cbn [negb andb orb]; cbv beta iota
  | |- context [(if ?c then _ else _) ?r] =>
      lazymatch type of r with
      | BufferReader => inside_decide c; cbn [negb andb orb]; cbv beta iota
      end
  end.

Ltac inside_run facts :=
  repeat first
    [ progress facts
    | inside_prim; cbv beta iota
    | inside_if
    | sym_ret
    | progress jpeg_simp
    | sym_bool
    | sym_lift
    | jpeg_entries
    | sym_call
    | sym_inner ].

(* ================================================================== *)
(** * What the segment loop of parseJPEG passes over *)
(* ================================================================== *)

(** The second byte of a marker for which the loop has no block: not
    SOI or EOI, not APP0, APP1, APP2 or APP14, not a Start-of-Frame. *)
Definition passed_marker (m : byte) : bool :=
  let marker := js_or 0xff00 (byteVal m) in
  negb ((marker =? MARKERS.SOI) || (marker =? MARKERS.EOI) ||
        (marker =? MARKERS.APP0) || (marker =? MARKERS.APP1) ||
        (marker =? MARKERS.APP2) || (marker =? MARKERS.APP14) ||
        isSOFMarker marker).

Lemma passed_marker_facts (m : byte) :
  passed_marker m = true ->
  let marker := js_or 0xff00 (byteVal m) in
  (marker =? MARKERS.SOI) = false /\ (marker =? MARKERS.EOI) = false /\
  (marker =? MARKERS.APP0) = false /\ (marker =? MARKERS.APP1) = false /\
  (marker =? MARKERS.APP2) = false /\ (marker =? MARKERS.APP14) = false /\
  isSOFMarker marker = false.
Proof.
  unfold passed_marker. cbv zeta. rewrite negb_true_iff, !orb_false_iff.
  tauto.
Qed.

Lemma jpeg_segment_passes (next : JpegVars -> M (option ParseResult))
      (v : JpegVars) (pre : Buffer) (m hi lo : byte) (payload rest : Buffer) :
  passed_marker m = true ->
  byteVal hi * 256 + byteVal lo = blength payload + 2 ->
  jpeg_segment next v (standing pre (([xff; m; hi; lo] ++ payload) ++ rest))
  = next v (standing (pre ++ [xff; m; hi; lo] ++ payload) rest).
Proof.
  intros Hm Hlen.
  destruct (passed_marker_facts m Hm) as (N1 & N2 & N3 & N4 & N5 & N6 & N7).
  rewrite standing_inside. unfold jpeg_segment.
  inside_run ltac:(rewrite ?N1, ?N2, ?N3, ?N4, ?N5, ?N6, ?N7).
  f_equal. apply inside_standing. inside_side.
Qed.

Lemma jpeg_segment_stray (next : JpegVars -> M (option ParseResult))
      (v : JpegVars) (pre : Buffer) (b : byte) (rest : Buffer) :
  (byteVal b =? 0xff) = false -> 1 <= blength rest ->
  jpeg_segment next v (standing pre ([b] ++ rest))
  = next v (standing (pre ++ [b]) rest).
Proof.
  intros Hb Hrest. rewrite standing_inside. unfold jpeg_segment.
  inside_run ltac:(rewrite ?Hb).
  f_equal. apply inside_standing. reflexivity.
Qed.

Lemma jpeg_segment_bare (next : JpegVars -> M (option ParseResult))
      (v : JpegVars) (pre : Buffer) (m : byte) (rest : Buffer) :
  let marker := js_or 0xff00 (byteVal m) in
  (marker =? MARKERS.SOI) || (marker =? MARKERS.EOI) = true ->
  jpeg_segment next v (standing pre ([xff; m] ++ rest))
  = next v (standing (pre ++ [xff; m]) rest).
Proof.
  cbv zeta. intros Hm. rewrite standing_inside. unfold jpeg_segment.
  inside_run ltac:(rewrite ?Hm).
  f_equal. apply inside_standing. reflexivity.
Qed.

(** The byte of a number below 256. *)
Definition byteOf (z : Z) : byte :=
  match Byte.of_N (Z.to_N z) with
  | Some b => b
  | None => x00
  end.

Lemma byteVal_byteOf (z : Z) : 0 <= z <= 255 -> byteVal (byteOf z) = z.
Proof.
  intros H. unfold byteOf, byteVal.
  destruct (Byte.of_N (Z.to_N z)) as [b|] eqn:E.
  - apply Byte.to_of_N in E. lia.
  - apply Byte.of_N_None_iff in E. lia.
Qed.

(** A marker segment: 0xFF, the marker's second byte, the length of the
    payload plus 2 as a big-endian 16-bit number, and the payload. *)
Definition marker_segment (m : byte) (payload : Buffer) : Buffer :=
  let n := blength payload + 2 in
  [xff; m; byteOf (n / 256); byteOf (n mod 256)] ++ payload.

Lemma marker_segment_length (payload : Buffer) :
  blength payload + 2 <= 0xffff ->
  let n := blength payload + 2 in
  byteVal (byteOf (n / 256)) * 256 + byteVal (byteOf (n mod 256))
  = blength payload + 2.
Proof.
  intros H n. pose proof (blength_nonneg payload).
  rewrite !byteVal_byteOf.
  - pose proof (Z.div_mod n 256). lia.
  - pose proof (Z.mod_pos_bound n 256). lia.
  - split; [apply Z.div_pos; lia|].
    assert (n / 256 < 256) by (apply Z.div_lt_upper_bound; lia). lia.
Qed.

(** What stands between the segments that the loop has a block for:
    a byte other than 0xFF, a bare SOI or EOI marker, or a segment whose
    marker has no block. *)
Inductive piece :=
| Stray (b : byte)
| Bare (m : byte)
| Segment (m : byte) (payload : Buffer).

Definition piece_bytes (x : piece) : Buffer :=
  match x with
  | Stray b => [b]
  | Bare m => [xff; m]
  | Segment m payload => marker_segment m payload
  end.

Definition passed_piece (x : piece) : bool :=
  match x with
  | Stray b => negb (byteVal b =? 0xff)
  | Bare m =>
      let marker := js_or 0xff00 (byteVal m) in
      (marker =? MARKERS.SOI) || (marker =? MARKERS.EOI)
  | Segment m payload => passed_marker m && (blength payload + 2 <=? 0xffff)
  end.

Definition passed_over (l : list piece) : bool := forallb passed_piece l.

Definition pieces (l : list piece) : Buffer := flat_map piece_bytes l.

Lemma pieces_length (l : list piece) : (length l <= length (pieces l))%nat.
Proof.
  induction l as [|x l IH]; cbn [pieces flat_map length]; [lia|].
  fold (pieces l). rewrite length_app.
  assert (1 <= length (piece_bytes x))%nat; [|lia].
  destruct x; cbn; lia.
Qed.

Lemma jpeg_segments_pass (l : list piece) :
  passed_over l = true ->
  forall pre rest v fuel,
    2 <= blength rest ->
    jpeg_segments (length l + fuel) v (standing pre (pieces l ++ rest))
    = jpeg_segments fuel v (standing (pre ++ pieces l) rest).
Proof.
  induction l as [|x l IH]; intros Hl pre rest v fuel Hrest.
  - cbn [pieces flat_map length Nat.add app]. rewrite app_nil_r. reflexivity.
  - cbn [passed_over forallb] in Hl. apply andb_true_iff in Hl as [Hx Hl].
    cbn [pieces flat_map length Nat.add]. fold (pieces l).
    cbn [jpeg_segments]. rewrite <- app_assoc.
    assert (Hmore : 2 <= blength (pieces l ++ rest)).
    { rewrite blength_app. pose proof (blength_nonneg (pieces l)). lia. }
    destruct x as [b|m|m payload]; cbn [piece_bytes passed_piece] in *.
    + rewrite jpeg_segment_stray;
        [|apply negb_true_iff; exact Hx|lia].
      rewrite IH by assumption. rewrite <- app_assoc. reflexivity.
    + rewrite jpeg_segment_bare by exact Hx.
      rewrite IH by assumption. rewrite <- app_assoc. reflexivity.
    + apply andb_true_iff in Hx as [Hm Hn]. apply Z.leb_le in Hn.
      unfold marker_segment. cbv zeta.
      rewrite jpeg_segment_passes;
        [|exact Hm|apply marker_segment_length; exact Hn].
      rewrite IH by assumption. rewrite <- app_assoc. reflexivity.
Qed.

(* ================================================================== *)
(** * parseJPEG on a buffer laid out segment by segment *)
(* ================================================================== *)

Lemma parseJPEG_standing (body : Buffer) :
  2 <= blength body ->
  parseJPEG ([xff; xd8] ++ body)
  = run (jpeg_segments (budget ([xff; xd8] ++ body)) jpg_init)
        (standing [xff; xd8] body).
Proof.
  intros H. unfold parseJPEG.
  rewrite (Zltb_false _ 4)
    by (rewrite blength_app; change (blength [xff; xd8]) with 2; lia).
  change (new_BufferReader ([xff; xd8] ++ body) false)
    with (inside [] [xff; xd8] body 0 false).
  unfold run.
  inside_run idtac.
  rewrite (inside_standing [] [xff; xd8] body 2 eq_refl). reflexivity.
Qed.

(** The Start-of-Frame segment ends the loop with a result. *)
Lemma jpeg_segment_sof (next : JpegVars -> M (option ParseResult))
      (v : JpegVars) (pre : Buffer) (m p h1 h2 w1 w2 c : byte)
      (rest : Buffer) :
  In m sof_marker_bytes ->
  0 < byteVal h1 * 256 + byteVal h2 ->
  0 < byteVal w1 * 256 + byteVal w2 ->
  9 <= blength rest ->
  run (jpeg_segment next v)
      (standing pre (sof_header m p h1 h2 w1 w2 c ++ rest))
  = Ret (Some (jpeg_result v (byteVal p) (byteVal h1 * 256 + byteVal h2)
                           (byteVal w1 * 256 + byteVal w2) (byteVal c))).
Proof.
  intros Hm Hh Hw Hrest. rewrite standing_inside.
  unfold run, jpeg_segment, sof_header.
  inside_run ltac:(
    rewrite ?(sof_marker_is_no_other m _ Hm (or_introl eq_refl)),
      ?(sof_marker_is_no_other m _ Hm (or_intror (or_introl eq_refl))),
      ?(sof_marker_is_no_other m _ Hm
          (or_intror (or_intror (or_introl eq_refl)))),
      ?(sof_marker_is_no_other m _ Hm
          (or_intror (or_intror (or_intror (or_introl eq_refl))))),
      ?(sof_marker_is_no_other m _ Hm
          (or_intror (or_intror (or_intror (or_intror (or_introl eq_refl)))))),
      ?(sof_marker_is_no_other m _ Hm
          (or_intror (or_intror (or_intror (or_intror (or_intror
            (or_introl eq_refl))))))),
      ?(isSOFMarker_bytes m Hm)).
  reflexivity.
Qed.

(* ================================================================== *)
(** * C5, amended: EXIF resolution and JFIF resolution *)
(* ================================================================== *)










Lemma run_segments_pass (l : list piece) (pre rest : Buffer) (v : JpegVars)
      (fuel : nat) :
  passed_over l = true -> 2 <= blength rest ->
  run (jpeg_segments (length l + fuel) v) (standing pre (pieces l ++ rest))
  = run (jpeg_segments fuel v) (standing (pre ++ pieces l) rest).
Proof.
  intros Hl Hrest. unfold run. rewrite jpeg_segments_pass by assumption.
  reflexivity.
Qed.

Lemma run_Ret {A} (m : M A) (r r' : BufferReader) (a : A) :
  m r = Ret (a, r') -> run m r = Ret a.
Proof. intros H. unfold run. rewrite H. reflexivity. Qed.

Ltac long_enough :=
  unfold blength in *; rewrite ?length_app; cbn [length sof_header]; lia.

(** The rest of a run, seen again as a run. *)
Ltac run_folded :=
  match goal with
  | |- match jpeg_segments ?f ?v ?r with _ => _ end = Ret ?x =>
      change (run (jpeg_segments f v) r = Ret x)
  end.

Section ExifOverJfif.

Variables (s1 s2 s3 : list piece) (v1 v2 x1 x2 y1 y2 t1 t2 : byte).
Variables (exif : Buffer) (m p h1 h2 w1 w2 c : byte) (rest : Buffer).
Hypothesis Hs1 : passed_over s1 = true.
Hypothesis Hs2 : passed_over s2 = true.
Hypothesis Hs3 : passed_over s3 = true.
Hypothesis Hexif : blength exif + 2 <= 0xffff.
Hypothesis Hm : In m sof_marker_bytes.
Hypothesis Hh : 0 < byteVal h1 * 256 + byteVal h2.
Hypothesis Hw : 0 < byteVal w1 * 256 + byteVal w2.
Hypothesis Hrest : 9 <= blength rest.



Let frame (v : JpegVars) : ParseResult :=
  jpeg_result v (byteVal p) (byteVal h1 * 256 + byteVal h2)
              (byteVal w1 * 256 + byteVal w2) (byteVal c).




End ExifOverJfif.




(* ================================================================== *)
(** * C7, amended: the Adobe segment and the color space of a profile *)
(* ================================================================== *)

(** The color spaces that an ICC profile can establish other than
    "RGB": the five names of the name search and three of the four
    header signatures. *)
Definition icc_color_spaces : list JSString :=
  [js "sRGB"; js "Adobe RGB"; js "Display P3"; js "ProPhoto RGB";
   js "Rec. 2020"; js "Grayscale"; js "CMYK"; js "Lab"].

Lemma icc_color_space_set (cs : JSString) :
  In cs icc_color_spaces ->
  truthyS (Some cs) = true /\ jstr_eqb cs (js "RGB") = false.
Proof.
  unfold icc_color_spaces. cbn [In]. intros H.
  repeat (destruct H as [<-|H]; [split; vm_compute; reflexivity|]).
  destruct H.
Qed.

Lemma getColorSpaceFromString_cases (s : JSString) :
  getColorSpaceFromString s = None \/
  exists cs, getColorSpaceFromString s = Some cs /\ In cs icc_color_spaces.
Proof.
  unfold getColorSpaceFromString, icc_color_spaces. cbv zeta.
  repeat match goal with
         | |- context [if ?c then _ else _] => destruct c
         end;
    try (left; reflexivity);
    right; eexists; (split; [reflexivity|]); cbn [In]; tauto.
Qed.

Lemma getColorSpaceFromTag_cases (tag : JSString) :
  getColorSpaceFromTag tag = None \/
  getColorSpaceFromTag tag = Some (js "RGB") \/
  exists cs, getColorSpaceFromTag tag = Some cs /\ In cs icc_color_spaces.
Proof.
  unfold getColorSpaceFromTag, icc_color_spaces. cbv zeta.
  repeat match goal with
         | |- context [if ?c then _ else _] => destruct c
         end;
    try (left; reflexivity); try (right; left; reflexivity);
    right; right; eexists; (split; [reflexivity|]); cbn [In]; tauto.
Qed.

(** The state holds one of these color spaces. *)
Definition jpg_icc_color (v : JpegVars) : Prop :=
  exists cs, jpg_colorSpace v = Some cs /\ In cs icc_color_spaces.

(** The Adobe block leaves a state alone whose color space is set and
    is not "RGB". *)
Lemma jpeg_app14_keeps (segmentStart : Z) (v : JpegVars) (cs : JSString) :
  jpg_colorSpace v = Some cs -> truthyS (Some cs) = true ->
  jstr_eqb cs (js "RGB") = false ->
  yields (jpeg_app14 segmentStart v) (fun v' => v' = v).
Proof.
  intros Hcs Ht Hrgb. unfold jpeg_app14. rewrite Hcs, Ht, Hrgb.
  cbn [negb orb]. repeat yields_step; reflexivity.
Qed.

Lemma jpeg_app0_icc_color (v : JpegVars) :
  jpg_icc_color v -> yields (jpeg_app0 v) jpg_icc_color.
Proof. intros H. unfold jpeg_app0. repeat yields_step; exact H. Qed.

Lemma jpeg_app1_icc_color (segmentLength : Z) (v : JpegVars) :
  jpg_icc_color v -> yields (jpeg_app1 segmentLength v) jpg_icc_color.
Proof. intros H. unfold jpeg_app1. repeat yields_step; exact H. Qed.

Lemma jpeg_app2_icc_color (segmentLength segmentStart : Z) (v : JpegVars) :
  jpg_icc_color v ->
  yields (jpeg_app2 segmentLength segmentStart v) jpg_icc_color.
Proof.
  intros (cs & Hcs & Hin).
  destruct (icc_color_space_set cs Hin) as [Ht _].
  assert (Hv : jpg_icc_color v) by (exists cs; auto).
  unfold jpeg_app2.
  yields_step. yields_step; [|yields_step; apply yields_ret; exact Hv].
  yields_step. yields_step.
  yields_step; [|apply yields_ret; exists cs; auto].
  yields_step.
  match goal with
  | |- context [getColorSpaceFromString ?s] =>
      destruct (getColorSpaceFromString_cases s) as [E|(cs' & E & Hin')];
      rewrite E
  end.
  - cbn [truthyS]. cbv beta iota zeta. rewrite Hcs, Ht. cbn [negb andb].
    apply yields_ret. exists cs. auto.
  - destruct (icc_color_space_set cs' Hin') as [Ht' _]. rewrite Ht'.
    cbv beta iota zeta. rewrite Ht'. cbn [negb andb].
    apply yields_ret. exists cs'. auto.
Qed.

Lemma jpeg_app14_icc_color (segmentStart : Z) (v : JpegVars) :
  jpg_icc_color v -> yields (jpeg_app14 segmentStart v) jpg_icc_color.
Proof.
  intros (cs & Hcs & Hin) r v' r' H.
  destruct (icc_color_space_set cs Hin) as [Ht Hrgb].
  rewrite (jpeg_app14_keeps segmentStart v cs Hcs Ht Hrgb r v' r' H).
  exists cs. auto.
Qed.

(** The color space of a result is one of the ICC ones. *)
Definition icc_colored (o : option ParseResult) : Prop :=
  match o with
  | Some r => exists cs, colorSpace r = Some cs /\ In cs icc_color_spaces
  | None => True
  end.

Definition sof_icc_colored (s : SofExit) : Prop :=
  match s with
  | SofReturn r => icc_colored (Some r)
  | _ => True
  end.

Lemma jpeg_sof_icc_color (v : JpegVars) :
  jpg_icc_color v -> yields (jpeg_sof v) sof_icc_colored.
Proof.
  intros (cs & Hcs & Hin). destruct (icc_color_space_set cs Hin) as [Ht _].
  unfold jpeg_sof. repeat yields_step; try exact I.
  cbn [sof_icc_colored icc_colored]. exists cs. split; [|exact Hin].
  rewrite jpeg_result_colorSpace; [exact Hcs|]. rewrite Hcs. exact Ht.
Qed.

(** Once the state holds an ICC color space, the loop returns no other
    kind, whatever segments follow. *)
Lemma jpeg_segments_icc_color (fuel : nat) :
  forall v, jpg_icc_color v -> yields (jpeg_segments fuel v) icc_colored.
Proof.
  induction fuel as [|fuel IH]; intros v Hv; cbn [jpeg_segments];
    [apply yields_hang|].
  unfold jpeg_segment.
  yields_step. yields_step; [|apply yields_ret; exact I].
  yields_step. yields_step; [apply IH, Hv|].
  yields_step. yields_step; [apply IH, Hv|].
  yields_step. yields_step; [apply yields_ret; exact I|].
  yields_step. yields_step. yields_step; [apply yields_ret; exact I|].
  yields_step.
  apply (yields_bind _ _ jpg_icc_color);
    [yields_step; [apply jpeg_app0_icc_color, Hv|apply yields_ret, Hv]|].
  intros v1 H1.
  apply (yields_bind _ _ jpg_icc_color);
    [yields_step; [apply jpeg_app1_icc_color, H1|apply yields_ret, H1]|].
  intros v2 H2.
  apply (yields_bind _ _ jpg_icc_color);
    [yields_step; [apply jpeg_app2_icc_color, H2|apply yields_ret, H2]|].
  intros v3 H3.
  apply (yields_bind _ _ jpg_icc_color);
    [yields_step; [apply jpeg_app14_icc_color, H3|apply yields_ret, H3]|].
  intros v4 H4.
  apply (yields_bind _ _ sof_icc_colored);
    [yields_step; [apply jpeg_sof_icc_color, H4|apply yields_ret; exact I]|].
  intros [|r|] Hs.
  - apply yields_ret; exact I.
  - apply yields_ret; exact Hs.
  - yields_step. apply IH, H4.
Qed.

(** The payload of an APP2 ICC segment: "ICC_PROFILE", NUL, the chunk
    number and count, then the profile bytes that the block reads and the
    last two bytes of the segment, which it leaves aside (it reads
    [segmentLength - 18] bytes where [segmentLength - 16] remain). *)
Definition icc_payload (c1 c2 : byte) (profile : Buffer) (e1 e2 : byte)
  : Buffer :=
  [x49; x43; x43; x5f; x50; x52; x4f; x46; x49; x4c; x45; x00; c1; c2] ++
  profile ++ [e1; e2].

(** What the APP2 block finds in the profile bytes when no color space
    is set yet: a name, or else the signature at bytes 16 to 19. *)
Definition profile_gives (profile : Buffer) (cs : JSString) : Prop :=
  let byName :=
    getColorSpaceFromString
      (Buffer_toString latin1 profile 0 (blength profile)) in
  byName = Some cs \/
  (byName = None /\ 20 <= blength profile /\
   getColorSpaceFromTag (Buffer_toString ascii (subarray profile 16 20) 0 4)
   = Some cs).

Lemma getColorSpaceFromString_set (s cs : JSString) :
  getColorSpaceFromString s = Some cs -> truthyS (Some cs) = true.
Proof.
  intros H. destruct (getColorSpaceFromString_cases s) as [E|(cs' & E & Hin)];
    rewrite E in H; [discriminate|].
  injection H as <-. apply (icc_color_space_set cs' Hin).
Qed.

Lemma getColorSpaceFromTag_set (s cs : JSString) :
  getColorSpaceFromTag s = Some cs -> truthyS (Some cs) = true.
Proof.
  intros H.
  destruct (getColorSpaceFromTag_cases s) as [E|[E|(cs' & E & Hin)]];
    rewrite E in H; [discriminate| |].
  - injection H as <-. reflexivity.
  - injection H as <-. apply (icc_color_space_set cs' Hin).
Qed.

Lemma icc_readBytes (n : Z) (pre : Buffer) (hi lo c1 c2 : byte)
      (profile : Buffer) (e1 e2 : byte) (rest : Buffer) :
  n = blength profile ->
  readBytes n (inside pre ([xff; xe2; hi; lo] ++
                           icc_payload c1 c2 profile e1 e2) rest 18 false)
  = Ret (profile,
         inside pre ([xff; xe2; hi; lo] ++ icc_payload c1 c2 profile e1 e2)
                rest (18 + blength profile) false).
Proof.
  intros ->. pose proof (blength_nonneg profile).
  rewrite inside_readBytes;
    [|lia|lia|unfold icc_payload; rewrite !blength_app;
              change (blength [xff; xe2; hi; lo]) with 4;
              change (blength [e1; e2]) with 2;
              match goal with
              | |- context [blength ?l + (blength profile + 2)] =>
                  change (blength l) with 14
              end; lia].
  do 2 f_equal. unfold slice, icc_payload.
  replace (18 + blength profile - 18) with (blength profile) by lia.
  change (Z.to_nat 18) with 18%nat. cbn [app skipn].
  unfold blength. rewrite Nat2Z.id, firstn_app, firstn_all, Nat.sub_diag.
  cbn [firstn]. apply app_nil_r.
Qed.

Lemma jpeg_segment_icc (v : JpegVars) (pre : Buffer) (hi lo c1 c2 : byte)
      (profile : Buffer) (e1 e2 : byte) (rest : Buffer) (cs : JSString) :
  byteVal hi * 256 + byteVal lo
  = blength (icc_payload c1 c2 profile e1 e2) + 2 ->
  0 < blength profile ->
  jpg_colorSpace v = None -> jpg_iccProfile v = None ->
  profile_gives profile cs ->
  exists icc,
    forall next,
      jpeg_segment next v
        (standing pre (([xff; xe2; hi; lo] ++
                        icc_payload c1 c2 profile e1 e2) ++ rest))
      = next (jpg_set_color v (Some cs) (Some icc))
             (standing (pre ++ [xff; xe2; hi; lo] ++
                        icc_payload c1 c2 profile e1 e2) rest).
Proof.
  intros Hlen HP Hv Hicc Hgives.
  assert (Hlen' : byteVal hi * 256 + byteVal lo = blength profile + 18).
  { rewrite Hlen. unfold icc_payload. rewrite !blength_app.
    change (blength [e1; e2]) with 2.
    match goal with
    | |- context [blength ?l + (blength profile + 2)] =>
        change (blength l) with 14
    end. lia. }
  assert (Hseg : blength ([xff; xe2; hi; lo] ++ icc_payload c1 c2 profile e1 e2)
                 = blength profile + 20).
  { rewrite blength_app. change (blength [xff; xe2; hi; lo]) with 4. lia. }
  clear Hlen Hseg.
  pose proof (icc_readBytes (byteVal hi * 256 + byteVal lo - 18)
                pre hi lo c1 c2 profile e1 e2 rest ltac:(lia)) as Hread.
  unfold icc_payload in *.
  destruct Hgives as [Hname|(Hname & H20 & Htag)]; cbv zeta in Hname.
  - pose proof (getColorSpaceFromString_set _ _ Hname) as Hset.
    exists cs. intros next.
    rewrite standing_inside. unfold jpeg_segment.
    inside_run ltac:(
      rewrite ?(bind_Ret (readBytes _) _ _ _ _ Hread),
        ?Hname, ?Hset, ?Hv, ?Hicc).
    f_equal. apply inside_standing. inside_side.
  - pose proof (getColorSpaceFromTag_set _ _ Htag) as Hset.
    exists (js "Embedded"). intros next.
    rewrite standing_inside. unfold jpeg_segment.
    inside_run ltac:(
      rewrite ?(bind_Ret (readBytes _) _ _ _ _ Hread),
        ?Hname, ?Htag, ?Hset, ?Hv, ?Hicc;
      cbn [truthyS]).
    f_equal. apply inside_standing. inside_side.
Qed.

(** The Adobe segment after a color space that is set and is not
    "RGB": the state goes on unchanged, whatever the transform code. *)
Lemma jpeg_segment_adobe_kept (next : JpegVars -> M (option ParseResult))
      (v : JpegVars) (pre : Buffer) (a1 a2 f1 f2 f3 f4 t : byte)
      (rest : Buffer) (cs : JSString) :
  jpg_colorSpace v = Some cs -> truthyS (Some cs) = true ->
  jstr_eqb cs (js "RGB") = false ->
  jpeg_segment next v
    (standing pre (adobe_segment a1 a2 f1 f2 f3 f4 t ++ rest))
  = next v (standing (pre ++ adobe_segment a1 a2 f1 f2 f3 f4 t) rest).
Proof.
  intros Hcs Ht Hrgb. rewrite standing_inside.
  unfold jpeg_segment, adobe_segment.
  inside_run ltac:(rewrite ?Hcs, ?Ht, ?Hrgb).
  f_equal. apply inside_standing. reflexivity.
Qed.

(** The Adobe segment with transform code 2 while the color space is
    unset or is "RGB". *)
Lemma jpeg_segment_adobe_2 (next : JpegVars -> M (option ParseResult))
      (v : JpegVars) (pre : Buffer) (a1 a2 f1 f2 f3 f4 : byte)
      (rest : Buffer) :
  jpg_colorSpace v = None \/ jpg_colorSpace v = Some (js "RGB") ->
  jpeg_segment next v
    (standing pre (adobe_segment a1 a2 f1 f2 f3 f4 x02 ++ rest))
  = next (jpg_set_color v (Some (js "YCCK")) (jpg_iccProfile v))
         (standing (pre ++ adobe_segment a1 a2 f1 f2 f3 f4 x02) rest).
Proof.
  intros Hcs. rewrite standing_inside.
  unfold jpeg_segment, adobe_segment.
  destruct Hcs as [Hcs|Hcs];
    inside_run ltac:(rewrite ?Hcs; cbn [truthyS]);
    (f_equal; apply inside_standing; reflexivity).
Qed.

Lemma jstr_eqb_differs (a b : JSString) : a <> b -> jstr_eqb a b = false.
Proof.
  intros H. destruct (jstr_eqb a b) eqn:E; [|reflexivity].
  destruct (H (jstr_eqb_eq a b E)).
Qed.

Lemma profile_gives_set (profile : Buffer) (cs : JSString) :
  profile_gives profile cs -> truthyS (Some cs) = true.
Proof.
  intros [H|(_ & _ & H)].
  - apply (getColorSpaceFromString_set _ _ H).
  - apply (getColorSpaceFromTag_set _ _ H).
Qed.

Lemma profile_gives_icc (profile : Buffer) (cs : JSString) :
  profile_gives profile cs -> cs <> js "RGB" -> In cs icc_color_spaces.
Proof.
  intros [H|(_ & _ & H)] Hrgb.
  - destruct (getColorSpaceFromString_cases
                (Buffer_toString latin1 profile 0 (blength profile)))
      as [E|(cs' & E & Hin)]; rewrite E in H; [discriminate|].
    injection H as <-. exact Hin.
  - destruct (getColorSpaceFromTag_cases
                (Buffer_toString ascii (subarray profile 16 20) 0 4))
      as [E|[E|(cs' & E & Hin)]]; rewrite E in H; [discriminate| |].
    + injection H as <-. destruct (Hrgb eq_refl).
    + injection H as <-. exact Hin.
Qed.

Section AdobeAfterIcc.

Variables (s1 s2 s3 : list piece) (c1 c2 : byte) (profile : Buffer).
Variables (e1 e2 a1 a2 f1 f2 f3 f4 t m p h1 h2 w1 w2 c : byte).
Variables (rest : Buffer) (cs : JSString).
Hypothesis Hs1 : passed_over s1 = true.
Hypothesis Hs2 : passed_over s2 = true.
Hypothesis Hs3 : passed_over s3 = true.
Hypothesis Hprofile : 0 < blength profile.
Hypothesis Hicc : blength (icc_payload c1 c2 profile e1 e2) + 2 <= 0xffff.
Hypothesis Hm : In m sof_marker_bytes.
Hypothesis Hh : 0 < byteVal h1 * 256 + byteVal h2.
Hypothesis Hw : 0 < byteVal w1 * 256 + byteVal w2.
Hypothesis Hrest : 9 <= blength rest.
Hypothesis Hgives : profile_gives profile cs.

Let icc : Buffer := marker_segment xe2 (icc_payload c1 c2 profile e1 e2).

Let frame (v : JpegVars) : ParseResult :=
  jpeg_result v (byteVal p) (byteVal h1 * 256 + byteVal h2)
              (byteVal w1 * 256 + byteVal w2) (byteVal c).

(** The loop up to the end of the ICC segment. *)
Lemma parseJPEG_up_to_icc (tail : Buffer) :
  exists label n,
    parseJPEG ([xff; xd8] ++ pieces s1 ++ icc ++ tail)
    = run (jpeg_segments n
             (jpg_set_color jpg_init (Some cs) (Some label)))
          (standing (([xff; xd8] ++ pieces s1) ++ icc) tail) /\
    (length ([xff; xd8] ++ pieces s1 ++ icc ++ tail)
     <= n + length s1 + 1)%nat.
Proof.
  clear Hs2 Hs3 Hm Hh Hw Hrest.
  assert (Hlong : 20 <= blength icc).
  { unfold icc, marker_segment, icc_payload. cbv zeta.
    unfold blength. rewrite !length_app. cbn [length]. lia. }
  destruct (jpeg_segment_icc jpg_init ([xff; xd8] ++ pieces s1)
              (byteOf ((blength (icc_payload c1 c2 profile e1 e2) + 2) / 256))
              (byteOf ((blength (icc_payload c1 c2 profile e1 e2) + 2) mod 256))
              c1 c2 profile e1 e2 tail cs)
    as (label & Hstep);
    [apply marker_segment_length; exact Hicc|exact Hprofile
    |reflexivity|reflexivity|exact Hgives|].
  exists label.
  exists (budget ([xff; xd8] ++ pieces s1 ++ icc ++ tail) - length s1 - 1)%nat.
  pose proof (pieces_length s1) as Hl1.
  assert (Hn : budget ([xff; xd8] ++ pieces s1 ++ icc ++ tail)
               = (length s1
                  + S (budget ([xff; xd8] ++ pieces s1 ++ icc ++ tail)
                       - length s1 - 1))%nat).
  { unfold budget. rewrite !length_app. cbn [length]. lia. }
  split.
  - rewrite parseJPEG_standing
      by (unfold blength in *; rewrite ?length_app; lia).
    rewrite Hn at 1.
    rewrite run_segments_pass
      by (assumption || (unfold blength in *; rewrite ?length_app; lia)).
    unfold run at 1. cbn [jpeg_segments].
    unfold icc at 2. unfold marker_segment. cbv zeta.
    rewrite Hstep. reflexivity.
  - unfold budget. lia.
Qed.

(** The profile gave a color space other than "RGB": it is returned,
    whatever the transform code of the Adobe segment. *)
Lemma parseJPEG_icc_then_adobe :
  cs <> js "RGB" ->
  exists r,
    parseJPEG ([xff; xd8] ++ pieces s1 ++ icc ++ pieces s2 ++
               adobe_segment a1 a2 f1 f2 f3 f4 t ++ pieces s3 ++
               sof_header m p h1 h2 w1 w2 c ++ rest)
    = Ret (Some r) /\
    colorSpace r = Some cs.
Proof.
  intros Hrgb.
  destruct (parseJPEG_up_to_icc
              (pieces s2 ++ adobe_segment a1 a2 f1 f2 f3 f4 t ++ pieces s3 ++
               sof_header m p h1 h2 w1 w2 c ++ rest))
    as (label & n & E & Hn).
  rewrite E. clear E.
  assert (Hfuel : exists k, n = (length s2 + S (length s3 + S k))%nat).
  { exists (n - (length s2 + S (length s3 + S 0)))%nat.
    pose proof (pieces_length s1). pose proof (pieces_length s2).
    pose proof (pieces_length s3).
    revert Hn. rewrite !length_app. cbn [length adobe_segment sof_header].
    lia. }
  destruct Hfuel as [k ->].
  eexists. split.
  - rewrite run_segments_pass by (assumption || long_enough).
    unfold run at 1. cbn [jpeg_segments].
    rewrite (jpeg_segment_adobe_kept _ _ _ _ _ _ _ _ _ _ _ cs);
      [|reflexivity|apply (profile_gives_set profile), Hgives
       |apply jstr_eqb_differs, Hrgb].
    run_folded.
    rewrite run_segments_pass by (assumption || long_enough).
    cbn [jpeg_segments].
    apply jpeg_segment_sof; assumption.
  - apply jpeg_result_colorSpace. cbn [jpg_colorSpace jpg_set_color].
    apply (profile_gives_set profile), Hgives.
Qed.

(** The profile only gave "RGB": transform code 2 makes it "YCCK". *)
Lemma parseJPEG_icc_rgb_then_adobe_2 :
  cs = js "RGB" -> t = x02 ->
  exists r,
    parseJPEG ([xff; xd8] ++ pieces s1 ++ icc ++ pieces s2 ++
               adobe_segment a1 a2 f1 f2 f3 f4 t ++ pieces s3 ++
               sof_header m p h1 h2 w1 w2 c ++ rest)
    = Ret (Some r) /\
    colorSpace r = Some (js "YCCK").
Proof.
  intros Hrgb Ht. subst t.
  destruct (parseJPEG_up_to_icc
              (pieces s2 ++ adobe_segment a1 a2 f1 f2 f3 f4 x02 ++
               pieces s3 ++ sof_header m p h1 h2 w1 w2 c ++ rest))
    as (label & n & E & Hn).
  rewrite E. clear E.
  assert (Hfuel : exists k, n = (length s2 + S (length s3 + S k))%nat).
  { exists (n - (length s2 + S (length s3 + S 0)))%nat.
    pose proof (pieces_length s1). pose proof (pieces_length s2).
    pose proof (pieces_length s3).
    revert Hn. rewrite !length_app. cbn [length adobe_segment sof_header].
    lia. }
  destruct Hfuel as [k ->].
  eexists. split.
  - rewrite run_segments_pass by (assumption || long_enough).
    unfold run at 1. cbn [jpeg_segments].
    rewrite jpeg_segment_adobe_2
      by (right; cbn [jpg_colorSpace jpg_set_color]; rewrite Hrgb; reflexivity).
    run_folded.
    rewrite run_segments_pass by (assumption || long_enough).
    cbn [jpeg_segments].
    apply jpeg_segment_sof; assumption.
  - apply jpeg_result_colorSpace. reflexivity.
Qed.

(** No profile at all: transform code 2 makes the color space "YCCK". *)
Lemma parseJPEG_adobe_2_only :
  t = x02 ->
  exists r,
    parseJPEG ([xff; xd8] ++ pieces s1 ++ pieces s2 ++
               adobe_segment a1 a2 f1 f2 f3 f4 t ++ pieces s3 ++
               sof_header m p h1 h2 w1 w2 c ++ rest)
    = Ret (Some r) /\
    colorSpace r = Some (js "YCCK").
Proof.
  intros ->.
  match goal with
  | |- context [parseJPEG ?b] =>
      assert (Hfuel : exists k,
                 budget b
                 = (length s1 + (length s2 + S (length s3 + S k)))%nat)
        by (exists (budget b
                    - (length s1 + (length s2 + S (length s3 + S 0))))%nat;
            pose proof (pieces_length s1); pose proof (pieces_length s2);
            pose proof (pieces_length s3);
            unfold budget; rewrite !length_app;
            cbn [length adobe_segment sof_header]; lia)
  end.
  destruct Hfuel as [k Hk].
  eexists. split.
  - rewrite parseJPEG_standing by long_enough.
    rewrite Hk.
    rewrite run_segments_pass by (assumption || long_enough).
    rewrite run_segments_pass by (assumption || long_enough).
    unfold run at 1. cbn [jpeg_segments].
    rewrite jpeg_segment_adobe_2 by (left; reflexivity).
    run_folded.
    rewrite run_segments_pass by (assumption || long_enough).
    cbn [jpeg_segments].
    apply jpeg_segment_sof; assumption.
  - apply jpeg_result_colorSpace. reflexivity.
Qed.

(** After the profile, whatever bytes follow. *)
Lemma parseJPEG_icc_then_anything (tail : Buffer) (r : ParseResult) :
  cs <> js "RGB" ->
  parseJPEG ([xff; xd8] ++ pieces s1 ++ icc ++ tail) = Ret (Some r) ->
  exists cs', colorSpace r = Some cs' /\ In cs' icc_color_spaces.
Proof.
  clear Hs2 Hs3 Hm Hh Hw Hrest. intros Hrgb H.
  destruct (parseJPEG_up_to_icc tail) as (label & n & E & _).
  rewrite E in H.
  refine (yields_run _ icc_colored _ (Some r) _ H).
  apply jpeg_segments_icc_color. exists cs. split; [reflexivity|].
  apply (profile_gives_icc profile); assumption.
Qed.

End AdobeAfterIcc.

(** C7, amended.  Take a buffer made of SOI, an APP2 ICC segment, an
    Adobe APP14 segment and a Start-of-Frame segment (any of the thirteen
    markers) with positive height and width, with any bytes after the
    frame header and, before, between and after these segments, any run
    of what the segment loop passes over.  Let [cs] be what the APP2
    block finds in the profile bytes: a name, or else the header
    signature.
    - The Adobe block changes nothing in a state whose color space is
      set and is not "RGB", from whatever reader it runs.
    - When [cs] is not "RGB", [parseJPEG] returns [cs] whatever the
      transform code of the Adobe segment is, 2 included; and whatever
      bytes follow the ICC segment, a result has one of the ICC color
      spaces, never "YCCK".
    - When [cs] is "RGB" and the transform code is 2, [parseJPEG]
      returns "YCCK".
    - Without the ICC segment and with transform code 2, [parseJPEG]
      returns "YCCK". *)
Theorem parseJPEG_adobe_transform_yields_to_icc
  (s1 s2 s3 : list piece) (c1 c2 : byte) (profile : Buffer)
  (e1 e2 a1 a2 f1 f2 f3 f4 t m p h1 h2 w1 w2 c : byte) (rest : Buffer)
  (cs : JSString) :
  passed_over s1 = true -> passed_over s2 = true -> passed_over s3 = true ->
  0 < blength profile ->
  blength (icc_payload c1 c2 profile e1 e2) + 2 <= 0xffff ->
  In m sof_marker_bytes ->
  0 < byteVal h1 * 256 + byteVal h2 ->
  0 < byteVal w1 * 256 + byteVal w2 ->
  9 <= blength rest ->
  profile_gives profile cs ->
  let icc := marker_segment xe2 (icc_payload c1 c2 profile e1 e2) in
  let adobe := adobe_segment a1 a2 f1 f2 f3 f4 t in
  let frame := pieces s3 ++ sof_header m p h1 h2 w1 w2 c ++ rest in
  (forall segmentStart v r v' r' cs0,
     jpg_colorSpace v = Some cs0 -> cs0 <> [] -> cs0 <> js "RGB" ->
     jpeg_app14 segmentStart v r = Ret (v', r') -> v' = v) /\
  (cs <> js "RGB" ->
   (exists r,
      parseJPEG ([xff; xd8] ++ pieces s1 ++ icc ++ pieces s2 ++ adobe ++ frame)
      = Ret (Some r) /\
      colorSpace r = Some cs) /\
   (forall tail r,
      parseJPEG ([xff; xd8] ++ pieces s1 ++ icc ++ tail) = Ret (Some r) ->
      exists cs', colorSpace r = Some cs' /\ In cs' icc_color_spaces)) /\
  (cs = js "RGB" -> t = x02 ->
   exists r,
     parseJPEG ([xff; xd8] ++ pieces s1 ++ icc ++ pieces s2 ++ adobe ++ frame)
     = Ret (Some r) /\
     colorSpace r = Some (js "YCCK")) /\
  (t = x02 ->
   exists r,
     parseJPEG ([xff; xd8] ++ pieces s1 ++ pieces s2 ++ adobe ++ frame)
     = Ret (Some r) /\
     colorSpace r = Some (js "YCCK")).
Proof.
  intros Hs1 Hs2 Hs3 Hprofile Hicc Hm Hh Hw Hrest Hgives icc adobe frame.
  split; [|split; [|split]].
  - intros segmentStart v r v' r' cs0 Hcs Hset Hrgb H.
    refine (jpeg_app14_keeps segmentStart v cs0 Hcs _ _ r v' r' H).
    + destruct cs0; [destruct (Hset eq_refl)|reflexivity].
    + apply jstr_eqb_differs, Hrgb.
  - intros Hrgb. split.
    + apply parseJPEG_icc_then_adobe; assumption.
    + intros tail r H.
      apply (parseJPEG_icc_then_anything s1 c1 c2 profile e1 e2 cs
               Hs1 Hprofile Hicc Hgives tail r Hrgb H).
  - intros Hrgb Ht.
    apply (parseJPEG_icc_rgb_then_adobe_2 s1 s2 s3 c1 c2 profile e1 e2
             a1 a2 f1 f2 f3 f4 t m p h1 h2 w1 w2 c rest cs); assumption.
  - intros Ht. apply parseJPEG_adobe_2_only; assumption.
Qed.

Lemma parseJPEG_adobe_transform_yields_to_icc_witness :
  let s1 := [Segment xdb [x00; x10; x0b; x0c]] in
  let s2 := [Stray x00; Bare xd9] in
  let s3 := [Segment xfe [x68; x69]] in
  let named :=
    [x73; x52; x47; x42; x20; x49; x45; x43; x36; x31; x39; x36; x36; x2d;
     x32] in
  let signed :=
    [x00; x00; x02; x10; x00; x00; x00; x00; x02; x10; x00; x00;
     x6d; x6e; x74; x72; x52; x47; x42; x20; x58; x59] in
  let adobe := adobe_segment x00 x64 x00 x00 x00 x00 x02 in
  let frame :=
    pieces s3 ++ sof_header xc0 x08 x00 x64 x00 x64 x04 ++
    [x01; x11; x00; x02; x11; x00; x03; x11; x00; x04; x11; x00] in
  (exists r,
     parseJPEG ([xff; xd8] ++ pieces s1 ++
                marker_segment xe2 (icc_payload x01 x01 named x2e x31) ++
                pieces s2 ++ adobe ++ frame)
     = Ret (Some r) /\
     colorSpace r = Some (js "sRGB")) /\
  (exists r,
     parseJPEG ([xff; xd8] ++ pieces s1 ++
                marker_segment xe2 (icc_payload x01 x01 signed x5a x20) ++
                pieces s2 ++ adobe ++ frame)
     = Ret (Some r) /\
     colorSpace r = Some (js "YCCK")) /\
  (exists r,
     parseJPEG ([xff; xd8] ++ pieces s1 ++ pieces s2 ++ adobe ++ frame)
     = Ret (Some r) /\
     colorSpace r = Some (js "YCCK")).
Proof.
  intros s1 s2 s3 named signed adobe frame.
  split; [|split].
  - refine (proj1 (proj1 (proj2
      (parseJPEG_adobe_transform_yields_to_icc s1 s2 s3 x01 x01 named
         x2e x31 x00 x64 x00 x00 x00 x00 x02 xc0 x08 x00 x64 x00 x64 x04
         [x01; x11; x00; x02; x11; x00; x03; x11; x00; x04; x11; x00]
         (js "sRGB") _ _ _ _ _ _ _ _ _ _)) _)).
    + reflexivity.
    + reflexivity.
    + reflexivity.
    + reflexivity.
    + vm_compute. discriminate.
    + simpl. auto.
    + reflexivity.
    + reflexivity.
    + vm_compute. discriminate.
    + left. vm_compute. reflexivity.
    + vm_compute. discriminate.
  - refine (proj1 (proj2 (proj2
      (parseJPEG_adobe_transform_yields_to_icc s1 s2 s3 x01 x01 signed
         x5a x20 x00 x64 x00 x00 x00 x00 x02 xc0 x08 x00 x64 x00 x64 x04
         [x01; x11; x00; x02; x11; x00; x03; x11; x00; x04; x11; x00]
         (js "RGB") _ _ _ _ _ _ _ _ _ _))) eq_refl eq_refl).
    + reflexivity.
    + reflexivity.
    + reflexivity.
    + reflexivity.
    + vm_compute. discriminate.
    + simpl. auto.
    + reflexivity.
    + reflexivity.
    + vm_compute. discriminate.
    + right. split; [vm_compute; reflexivity|].
      split; [vm_compute; discriminate|vm_compute; reflexivity].
  - refine (proj2 (proj2 (proj2
      (parseJPEG_adobe_transform_yields_to_icc s1 s2 s3 x01 x01 named
         x2e x31 x00 x64 x00 x00 x00 x00 x02 xc0 x08 x00 x64 x00 x64 x04
         [x01; x11; x00; x02; x11; x00; x03; x11; x00; x04; x11; x00]
         (js "sRGB") _ _ _ _ _ _ _ _ _ _))) eq_refl).
    + reflexivity.
    + reflexivity.
    + reflexivity.
    + reflexivity.
    + vm_compute. discriminate.
    + simpl. auto.
    + reflexivity.
    + reflexivity.
    + vm_compute. discriminate.
    + left. vm_compute. reflexivity.
Defined.
